(** * BusTub storage engine core: a shallow embedding and its checked properties

    The development follows the C++ sources of the repository:
    the extendible hash table, the LRU-K replacer, the buffer pool manager,
    the lock manager with its deadlock detector, the aggregation, sort and
    top-N executors and the B+ tree index.

    Part I holds the embedding, one module per translation unit.
    Part II holds the properties. *)

From Stdlib Require Import ZArith Lia List Bool.
From stdpp Require Import base option list gmap strings sorting.

Open Scope Z_scope.

(* ===================================================================== *)
(** * Part I: the embedding                                               *)
(* ===================================================================== *)

(** ** container/hash/extendible_hash_table.cpp

    Instantiated at [K = int]; [std::hash<int>] is the identity into
    [size_t].  Buckets are held through [std::shared_ptr], and several
    directory slots may point at one bucket: the directory therefore
    stores bucket addresses (indices into [heap_]), and a bucket is
    mutated in the heap so that every slot that aliases it sees the
    change.  The class declaration (extendible_hash_table.h) is not part of
    the sources at hand; the initial members ([global_depth_ = 0],
    [num_buckets_ = 1]) and [Bucket::IsFull] ([list_.size() == size_]) are
    the ones its constructor and its uses imply. *)
Module EHT.
Section Table.
Context {V : Type}.

Definition hash (key : Z) : Z := key mod 2 ^ 64.

Record Bucket := mkBucket {
  size_ : nat;
  depth_ : Z;
  list_ : list (Z * V)
}.

Record ExtendibleHashTable := mkTable {
  global_depth_ : Z;
  bucket_size_ : nat;
  num_buckets_ : Z;
  dir_ : list nat;
  heap_ : list Bucket
}.

(** [ExtendibleHashTable(bucket_size)]: one bucket of depth 0. *)
Definition create (bucket_size : nat) : ExtendibleHashTable :=
  mkTable 0 bucket_size 1 [0%nat] [mkBucket bucket_size 0 []].

Definition IndexOf (t : ExtendibleHashTable) (key : Z) : nat :=
  Z.to_nat (Z.land (hash key) (Z.shiftl 1 (global_depth_ t) - 1)).

Definition GetGlobalDepth (t : ExtendibleHashTable) : Z := global_depth_ t.

Definition GetNumBuckets (t : ExtendibleHashTable) : Z := num_buckets_ t.

(** [dir_[i]] followed through the pointer; [None] stands for an index
    outside the vector. *)
Definition bucket_at (t : ExtendibleHashTable) (i : nat) : option Bucket :=
  a ← dir_ t !! i; heap_ t !! a.

Definition GetLocalDepth (t : ExtendibleHashTable) (dir_index : nat) : option Z :=
  depth_ <$> bucket_at t dir_index.

Definition IsFull (b : Bucket) : bool := Nat.eqb (length (list_ b)) (size_ b).

Fixpoint Bucket_lookup (key : Z) (l : list (Z * V)) : option V :=
  match l with
  | [] => None
  | (k, v) :: r => if key =? k then Some v else Bucket_lookup key r
  end.

Definition Bucket_Find (key : Z) (b : Bucket) : option V :=
  Bucket_lookup key (list_ b).

Fixpoint Bucket_erase (key : Z) (l : list (Z * V)) : option (list (Z * V)) :=
  match l with
  | [] => None
  | (k, v) :: r =>
      if k =? key then Some r else cons (k, v) <$> Bucket_erase key r
  end.

Definition Bucket_Remove (key : Z) (b : Bucket) : bool * Bucket :=
  match Bucket_erase key (list_ b) with
  | Some l => (true, mkBucket (size_ b) (depth_ b) l)
  | None => (false, b)
  end.

(** The first loop of [Bucket::Insert]: overwrite the value of a key that
    is already there. *)
Fixpoint Bucket_assign (key : Z) (value : V) (l : list (Z * V))
  : option (list (Z * V)) :=
  match l with
  | [] => None
  | (k, v) :: r =>
      if key =? k then Some ((k, value) :: r)
      else cons (k, v) <$> Bucket_assign key value r
  end.

Definition Bucket_Insert (key : Z) (value : V) (b : Bucket) : bool * Bucket :=
  match Bucket_assign key value (list_ b) with
  | Some l => (true, mkBucket (size_ b) (depth_ b) l)
  | None =>
      if negb (IsFull b)
      then (true, mkBucket (size_ b) (depth_ b) ((key, value) :: list_ b))
      else (false, b)
  end.

Definition Find (t : ExtendibleHashTable) (key : Z) : option V :=
  b ← bucket_at t (IndexOf t key); Bucket_Find key b.

Definition set_heap (t : ExtendibleHashTable) (h : list Bucket) : ExtendibleHashTable :=
  mkTable (global_depth_ t) (bucket_size_ t) (num_buckets_ t) (dir_ t) h.

Definition Remove (t : ExtendibleHashTable) (key : Z) : option (bool * ExtendibleHashTable) :=
  a ← dir_ t !! IndexOf t key;
  b ← heap_ t !! a;
  let '(r, b') := Bucket_Remove key b in
  Some (r, set_heap t (<[a := b']> (heap_ t))).

(** The last loop of the split: [for (i = hash(key) & (local_mask - 1);
    i < n; i += local_mask) if (((i >> local_depth) & 1) == 0) dir_[i] =
    new_bucket].  The fuel bounds the number of iterations. *)
Fixpoint redirect (fuel : nat) (i n local_mask local_depth : Z) (nb : nat)
    (dir : list nat) : list nat :=
  match fuel with
  | O => dir
  | S f =>
      if i <? n then
        redirect f (i + local_mask) n local_mask local_depth nb
          (if Z.land (Z.shiftr i local_depth) 1 =? 0
           then <[Z.to_nat i := nb]> dir else dir)
      else dir
  end.

(** One iteration of the [while (dir_[index]->IsFull())] loop. *)
Definition split (t : ExtendibleHashTable) (key : Z) (index : nat)
  : option ExtendibleHashTable :=
  a ← dir_ t !! index;
  b ← heap_ t !! a;
  let local_depth := depth_ b in
  let local_mask := Z.shiftl 1 local_depth in
  let '(gd, dir) :=
    if local_depth =? global_depth_ t
    then (global_depth_ t + 1, dir_ t ++ dir_ t)
    else (global_depth_ t, dir_ t) in
  (* IncrementDepth, then the splice of the entries whose bit is 0 *)
  let moved := filter (fun kv => Z.land (Z.shiftr (hash kv.1) local_depth) 1 = 0) (list_ b) in
  let kept := filter (fun kv => Z.land (Z.shiftr (hash kv.1) local_depth) 1 ≠ 0) (list_ b) in
  let old_bucket := mkBucket (size_ b) (local_depth + 1) kept in
  let new_bucket := mkBucket (bucket_size_ t) (local_depth + 1) moved in
  let nb := length (heap_ t) in
  let heap := <[a := old_bucket]> (heap_ t) ++ [new_bucket] in
  let n := Z.of_nat (length dir) in
  let dir' :=
    redirect (S (length dir)) (Z.land (hash key) (local_mask - 1)) n
      local_mask local_depth nb dir in
  Some (mkTable gd (bucket_size_ t) (num_buckets_ t + 1) dir' heap).

Fixpoint Insert_loop (fuel : nat) (t : ExtendibleHashTable) (key : Z) (index : nat)
  : option (ExtendibleHashTable * nat) :=
  b ← bucket_at t index;
  if IsFull b then
    match fuel with
    | O => None
    | S f => t' ← split t key index; Insert_loop f t' key (IndexOf t' key)
    end
  else Some (t, index).

(** [Insert]; [None] is returned only when the fuel of the split loop runs
    out or the directory is indexed outside its bounds. *)
Definition Insert (fuel : nat) (t : ExtendibleHashTable) (key : Z) (value : V)
  : option ExtendibleHashTable :=
  let index := IndexOf t key in
  a ← dir_ t !! index;
  b ← heap_ t !! a;
  let '(ok, b') := Bucket_Insert key value b in
  if ok then Some (set_heap t (<[a := b']> (heap_ t)))
  else
    '(t1, index1) ← Insert_loop fuel t key index;
    a1 ← dir_ t1 !! index1;
    b1 ← heap_ t1 !! a1;
    Some (set_heap t1 (<[a1 := (Bucket_Insert key value b1).2]> (heap_ t1))).

End Table.
Arguments Bucket : clear implicits.
Arguments ExtendibleHashTable : clear implicits.
End EHT.

(** ** buffer/lru_k_replacer.cpp

    [size_t] members are 64-bit unsigned: arithmetic on them wraps.
    [replacer_] is the vector of (access history, evictable) pairs, one per
    frame; a history is a [std::list<size_t>] of timestamps, oldest first.
    An operation returns [None] where a [BUSTUB_ASSERT] aborts the
    process. *)
Module LRUK.

Definition INT64_MAX : Z := 2 ^ 63 - 1.

Definition wrap64 (x : Z) : Z := x mod 2 ^ 64.

Record LRUKReplacer := mkReplacer {
  current_timestamp_ : Z;
  total_size_ : Z;
  replacer_size_ : Z;
  k_ : Z;
  replacer_ : list (list Z * bool)
}.

(** [LRUKReplacer(num_frames, k)], for [num_frames] below 2^31.  The
    constructor stores [num_frames] in [total_size_], a [frame_id_t] (a
    32-bit int), and sizes [replacer_] from [total_size_]: a [num_frames]
    from 2^31 on does not fit the int, and the replacer is then not made
    with [num_frames] frames.  The properties of the replacer take
    [num_frames] below 2^31. *)
Definition create (num_frames : nat) (k : Z) : LRUKReplacer :=
  mkReplacer 0 (Z.of_nat num_frames) 0 k (replicate num_frames ([], false)).

(** The locals of [Evict]: [frame_id] is the out-parameter ([None] while
    nothing was written to it), [j] the iterator of the frame to clear. *)
Record EvictLocals := mkLocals {
  max_interval : Z;
  eariest_time : Z;
  flag : bool;
  frame_id : option nat;
  j : nat
}.

Definition Evict_init : EvictLocals := mkLocals 0 INT64_MAX false None 0.

(** The body of the [for] loop of [Evict] at iterator position [i]. *)
Definition Evict_body (k cur : Z) (i : nat) (it : list Z * bool) (st : EvictLocals)
  : EvictLocals :=
  match it with
  | (_, false) => st
  | ([], true) => st
  | (front :: tl, true) =>
      if Z.of_nat (length (front :: tl)) <? k then
        if front <? eariest_time st
        then mkLocals INT64_MAX front true (Some i) i
        else mkLocals INT64_MAX (eariest_time st) true (frame_id st) (j st)
      else
        if wrap64 (cur - front) >? max_interval st
        then mkLocals (wrap64 (cur - front)) (eariest_time st) true (Some i) i
        else mkLocals (max_interval st) (eariest_time st) true (frame_id st) (j st)
  end.

Fixpoint Evict_loop (k cur : Z) (i : nat) (l : list (list Z * bool)) (st : EvictLocals)
  : EvictLocals :=
  match l with
  | [] => st
  | it :: r => Evict_loop k cur (S i) r (Evict_body k cur i it st)
  end.

(** [Evict]: the returned pair is the boolean result and what was stored
    through [frame_id]. *)
Definition Evict (s : LRUKReplacer) : LRUKReplacer * (bool * option nat) :=
  let st := Evict_loop (k_ s) (current_timestamp_ s) 0 (replacer_ s) Evict_init in
  if flag st then
    (mkReplacer (current_timestamp_ s) (total_size_ s)
       (wrap64 (replacer_size_ s - 1)) (k_ s)
       (<[j st := ([], false)]> (replacer_ s)),
     (true, frame_id st))
  else (s, (false, frame_id st)).

Definition in_range (s : LRUKReplacer) (frame : Z) : bool :=
  (0 <=? frame) && (frame <? total_size_ s).

Definition RecordAccess (s : LRUKReplacer) (frame : Z) : option LRUKReplacer :=
  if in_range s frame then
    '(hist, ev) ← replacer_ s !! Z.to_nat frame;
    let hist1 := if Z.of_nat (length hist) =? k_ s then tl hist else hist in
    Some (mkReplacer (wrap64 (current_timestamp_ s + 1)) (total_size_ s)
            (replacer_size_ s) (k_ s)
            (<[Z.to_nat frame := (hist1 ++ [current_timestamp_ s], ev)]> (replacer_ s)))
  else None.

Definition SetEvictable (s : LRUKReplacer) (frame : Z) (set_evictable : bool)
  : option LRUKReplacer :=
  if in_range s frame then
    '(hist, ev) ← replacer_ s !! Z.to_nat frame;
    match hist with
    | [] => Some s
    | _ =>
        let sz1 := if set_evictable && negb ev
                   then wrap64 (replacer_size_ s + 1) else replacer_size_ s in
        let sz2 := if negb set_evictable && ev then wrap64 (sz1 - 1) else sz1 in
        Some (mkReplacer (current_timestamp_ s) (total_size_ s) sz2 (k_ s)
                (<[Z.to_nat frame := (hist, set_evictable)]> (replacer_ s)))
    end
  else None.

Definition Remove (s : LRUKReplacer) (frame : Z) : option LRUKReplacer :=
  if negb (in_range s frame) then Some s
  else
    '(hist, ev) ← replacer_ s !! Z.to_nat frame;
    match hist with
    | [] => Some s
    | _ =>
        if (ev : bool) then
          Some (mkReplacer (current_timestamp_ s) (total_size_ s)
                  (wrap64 (replacer_size_ s - 1)) (k_ s)
                  (<[Z.to_nat frame := ([], false)]> (replacer_ s)))
        else None
    end.

Definition Size (s : LRUKReplacer) : Z := replacer_size_ s.

End LRUK.

(** ** buffer/buffer_pool_manager_instance.cpp

    A page keeps its id, pin count and dirty flag next to its bytes; the
    bytes are read as one number, [ResetMemory] makes them 0.  The page
    table is the extendible hash table above (bucket size 4), the replacer
    the LRU-K replacer above.  A call returns [None] where the process
    aborts (an assertion of the replacer) or the hash table runs out of
    fuel. *)
Module BPM.

Definition Data : Type := Z.

Record Page := mkPage {
  page_id_ : Z;
  pin_count_ : Z;
  is_dirty_ : bool;
  data_ : Data
}.

(** Modelled from the spec: the [DiskManager] (read_page, write_page) is
    an external collaborator; it is a map from page ids to page contents,
    and a page never written reads as zeroes. *)
Definition DiskManager : Type := gmap Z Data.

Definition WritePage (d : DiskManager) (page_id : Z) (bytes : Data) : DiskManager :=
  <[page_id := bytes]> d.

Definition ReadPage (d : DiskManager) (page_id : Z) : Data :=
  default 0 (d !! page_id).

Record BufferPoolManagerInstance := mkBPM {
  pool_size_ : nat;
  next_page_id_ : Z;
  pages_ : list Page;
  page_table_ : EHT.ExtendibleHashTable Z;
  replacer_ : LRUK.LRUKReplacer;
  free_list_ : list Z;
  disk_manager_ : DiskManager
}.

Definition bucket_size_ : nat := 4.

Definition table_fuel : nat := 64.

Definition create (pool_size : nat) (disk : DiskManager) (replacer_k : Z)
  : BufferPoolManagerInstance :=
  mkBPM pool_size 0 (replicate pool_size (mkPage 0 0 false 0))
    (EHT.create bucket_size_) (LRUK.create pool_size replacer_k)
    (Z.of_nat <$> seq 0 pool_size) disk.

Definition set_page (b : BufferPoolManagerInstance) (f : Z) (p : Page)
  : BufferPoolManagerInstance :=
  mkBPM (pool_size_ b) (next_page_id_ b) (<[Z.to_nat f := p]> (pages_ b))
    (page_table_ b) (replacer_ b) (free_list_ b) (disk_manager_ b).

Definition set_table (b : BufferPoolManagerInstance) (t : EHT.ExtendibleHashTable Z)
  : BufferPoolManagerInstance :=
  mkBPM (pool_size_ b) (next_page_id_ b) (pages_ b) t (replacer_ b)
    (free_list_ b) (disk_manager_ b).

Definition set_replacer (b : BufferPoolManagerInstance) (r : LRUK.LRUKReplacer)
  : BufferPoolManagerInstance :=
  mkBPM (pool_size_ b) (next_page_id_ b) (pages_ b) (page_table_ b) r
    (free_list_ b) (disk_manager_ b).

Definition set_free_list (b : BufferPoolManagerInstance) (l : list Z)
  : BufferPoolManagerInstance :=
  mkBPM (pool_size_ b) (next_page_id_ b) (pages_ b) (page_table_ b)
    (replacer_ b) l (disk_manager_ b).

Definition set_disk (b : BufferPoolManagerInstance) (d : DiskManager)
  : BufferPoolManagerInstance :=
  mkBPM (pool_size_ b) (next_page_id_ b) (pages_ b) (page_table_ b)
    (replacer_ b) (free_list_ b) d.

Definition page_at (b : BufferPoolManagerInstance) (f : Z) : option Page :=
  pages_ b !! Z.to_nat f.

(** [AllocatePage]: [next_page_id_++] *)
Definition AllocatePage (b : BufferPoolManagerInstance) : Z * BufferPoolManagerInstance :=
  (next_page_id_ b,
   mkBPM (pool_size_ b) (next_page_id_ b + 1) (pages_ b) (page_table_ b)
     (replacer_ b) (free_list_ b) (disk_manager_ b)).

(** [replacer_->RecordAccess(frame_id); replacer_->SetEvictable(frame_id, false)] *)
Definition touch (b : BufferPoolManagerInstance) (f : Z) : option BufferPoolManagerInstance :=
  r1 ← LRUK.RecordAccess (replacer_ b) f;
  r2 ← LRUK.SetEvictable r1 f false;
  Some (set_replacer b r2).

Definition table_insert (b : BufferPoolManagerInstance) (page_id f : Z)
  : option BufferPoolManagerInstance :=
  t ← EHT.Insert table_fuel (page_table_ b) page_id f; Some (set_table b t).

Definition table_remove (b : BufferPoolManagerInstance) (page_id : Z)
  : option BufferPoolManagerInstance :=
  '(_, t) ← EHT.Remove (page_table_ b) page_id; Some (set_table b t).

(** The result of [NewPgImp] is the new state with, when a page was made,
    its id and the frame the returned pointer refers to. *)
Definition NewPgImp (b : BufferPoolManagerInstance)
  : option (BufferPoolManagerInstance * option (Z * Z)) :=
  match free_list_ b with
  | f :: rest =>
      let b := set_free_list b rest in
      pg ← page_at b f;
      let b := set_page b f (mkPage (page_id_ pg) 1 (is_dirty_ pg) (data_ pg)) in
      let '(page_id, b) := AllocatePage b in
      b ← table_insert b page_id f;
      b ← touch b f;
      pg ← page_at b f;
      let b := set_page b f (mkPage page_id (pin_count_ pg) (is_dirty_ pg) (data_ pg)) in
      Some (b, Some (page_id, f))
  | [] =>
      let '(r, (ok, victim)) := LRUK.Evict (replacer_ b) in
      if negb ok then Some (set_replacer b r, None)
      else
        fn ← victim;
        let f := Z.of_nat fn in
        let b := set_replacer b r in
        let '(page_id, b) := AllocatePage b in
        pg ← page_at b f;
        b ← table_remove b (page_id_ pg);
        b ← table_insert b page_id f;
        let b := if is_dirty_ pg
                 then set_disk b (WritePage (disk_manager_ b) (page_id_ pg) (data_ pg))
                 else b in
        let b := set_page b f (mkPage (page_id_ pg) (pin_count_ pg) (is_dirty_ pg) 0) in
        b ← touch b f;
        pg ← page_at b f;
        let b := set_page b f (mkPage page_id 1 (is_dirty_ pg) (data_ pg)) in
        Some (b, Some (page_id, f))
  end.

(** The result of [FetchPgImp] is the new state and the frame of the
    returned page ([None] for [nullptr]). *)
Definition FetchPgImp (b : BufferPoolManagerInstance) (page_id : Z)
  : option (BufferPoolManagerInstance * option Z) :=
  match EHT.Find (page_table_ b) page_id with
  | Some f =>
      b ← touch b f;
      pg ← page_at b f;
      let b := set_page b f (mkPage (page_id_ pg) (pin_count_ pg) true (data_ pg)) in
      pg ← page_at b f;
      let b := set_page b f (mkPage (page_id_ pg) (pin_count_ pg + 1) (is_dirty_ pg) (data_ pg)) in
      Some (b, Some f)
  | None =>
      match free_list_ b with
      | f :: rest =>
          let b := set_free_list b rest in
          pg ← page_at b f;
          let b := set_page b f
                     (mkPage page_id 1 (is_dirty_ pg) (ReadPage (disk_manager_ b) page_id)) in
          b ← table_insert b page_id f;
          b ← touch b f;
          Some (b, Some f)
      | [] =>
          let '(r, (ok, victim)) := LRUK.Evict (replacer_ b) in
          if negb ok then Some (set_replacer b r, None)
          else
            fn ← victim;
            let f := Z.of_nat fn in
            let b := set_replacer b r in
            pg ← page_at b f;
            b ← table_remove b (page_id_ pg);
            b ← table_insert b page_id f;
            b ← touch b f;
            let b := if is_dirty_ pg
                     then set_disk b (WritePage (disk_manager_ b) (page_id_ pg) (data_ pg))
                     else b in
            let b := set_page b f
                       (mkPage page_id (pin_count_ pg + 1) (is_dirty_ pg)
                          (ReadPage (disk_manager_ b) page_id)) in
            Some (b, Some f)
      end
  end.

Definition UnpinPgImp (b : BufferPoolManagerInstance) (page_id : Z) (is_dirty : bool)
  : option (BufferPoolManagerInstance * bool) :=
  match EHT.Find (page_table_ b) page_id with
  | None => Some (b, false)
  | Some f =>
      pg ← page_at b f;
      if pin_count_ pg <=? 0 then Some (b, false)
      else
        let dirty := if negb (is_dirty_ pg) then is_dirty else is_dirty_ pg in
        let b := set_page b f (mkPage (page_id_ pg) (pin_count_ pg - 1) dirty (data_ pg)) in
        if pin_count_ pg - 1 =? 0 then
          r ← LRUK.SetEvictable (replacer_ b) f true;
          Some (set_replacer b r, true)
        else Some (b, true)
  end.

Definition FlushPgImp (b : BufferPoolManagerInstance) (page_id : Z)
  : option (BufferPoolManagerInstance * bool) :=
  match EHT.Find (page_table_ b) page_id with
  | Some f =>
      pg ← page_at b f;
      let b := set_disk b (WritePage (disk_manager_ b) page_id (data_ pg)) in
      Some (set_page b f (mkPage (page_id_ pg) (pin_count_ pg) false (data_ pg)), true)
  | None => Some (b, false)
  end.

Definition DeletePgImp (b : BufferPoolManagerInstance) (page_id : Z)
  : option (BufferPoolManagerInstance * bool) :=
  match EHT.Find (page_table_ b) page_id with
  | None => Some (b, true)
  | Some f =>
      pg ← page_at b f;
      if pin_count_ pg >? 0 then Some (b, false)
      else
        let b := if is_dirty_ pg
                 then set_disk b (WritePage (disk_manager_ b) (page_id_ pg) (data_ pg))
                 else b in
        let b := set_page b f (mkPage 0 (pin_count_ pg) false 0) in
        b ← table_remove b page_id;
        r1 ← LRUK.SetEvictable (replacer_ b) f true;
        r2 ← LRUK.Remove r1 f;
        let b := set_replacer b r2 in
        let b := set_free_list b (free_list_ b ++ [f]) in
        Some (b, true)
  end.

End BPM.

(** ** concurrency/lock_manager.cpp

    A lock call blocks on the condition variable of its queue; everything it
    does between two waits happens under the queue latch.  Each such atomic
    piece is one function here: [LockTable] runs a call up to its first
    [GrantLock] test, [LockTable_wakeup] runs one turn of the wait loop
    after a wake-up.  An [Outcome] tells how the piece ended: the call
    returned, threw, or went (back) to sleep. *)
Module LM.

Inductive LockMode :=
  SHARED | EXCLUSIVE | INTENTION_SHARED | INTENTION_EXCLUSIVE
| SHARED_INTENTION_EXCLUSIVE.

Inductive TransactionState := GROWING | SHRINKING | COMMITTED | ABORTED.

Inductive IsolationLevel := READ_UNCOMMITTED | REPEATABLE_READ | READ_COMMITTED.

Inductive AbortReason :=
  LOCK_ON_SHRINKING | UPGRADE_CONFLICT | LOCK_SHARED_ON_READ_UNCOMMITTED
| TABLE_LOCK_NOT_PRESENT | ATTEMPTED_INTENTION_LOCK_ON_ROW
| TABLE_UNLOCKED_BEFORE_UNLOCKING_ROWS | INCOMPATIBLE_UPGRADE
| ATTEMPTED_UNLOCK_BUT_NO_LOCK_HELD.

Inductive Outcome := Ret (b : bool) | Throw (r : AbortReason) | Wait (upgrade : bool).

#[global] Instance LockMode_eq_dec : EqDecision LockMode.
Proof. solve_decision. Defined.

#[global] Instance TransactionState_eq_dec : EqDecision TransactionState.
Proof. solve_decision. Defined.

#[global] Instance IsolationLevel_eq_dec : EqDecision IsolationLevel.
Proof. solve_decision. Defined.

Definition RID : Type := Z * Z.

Definition INVALID_TXN_ID : Z := -1.

(** Modelled from the spec: the [Transaction] object (transaction.h is not
    among the sources): its id, isolation level, state and the per-mode
    lock sets at table and row granularity, the row sets keyed by table
    oid. *)
Record Transaction := mkTxn {
  txn_id : Z;
  isolation_level : IsolationLevel;
  state : TransactionState;
  s_table_lock_set : gset Z;
  x_table_lock_set : gset Z;
  is_table_lock_set : gset Z;
  ix_table_lock_set : gset Z;
  six_table_lock_set : gset Z;
  s_row_lock_set : gmap Z (gset RID);
  x_row_lock_set : gmap Z (gset RID)
}.

Definition SetTxnState (t : Transaction) (st : TransactionState) : Transaction :=
  mkTxn (txn_id t) (isolation_level t) st (s_table_lock_set t) (x_table_lock_set t)
    (is_table_lock_set t) (ix_table_lock_set t) (six_table_lock_set t)
    (s_row_lock_set t) (x_row_lock_set t).

Definition set_table_sets (t : Transaction) (s x is_ ix six : gset Z) : Transaction :=
  mkTxn (txn_id t) (isolation_level t) (state t) s x is_ ix six
    (s_row_lock_set t) (x_row_lock_set t).

Definition set_row_sets (t : Transaction) (s x : gmap Z (gset RID)) : Transaction :=
  mkTxn (txn_id t) (isolation_level t) (state t) (s_table_lock_set t)
    (x_table_lock_set t) (is_table_lock_set t) (ix_table_lock_set t)
    (six_table_lock_set t) s x.

Definition IsTableSharedLocked (t : Transaction) (oid : Z) : bool :=
  bool_decide (oid ∈ s_table_lock_set t).
Definition IsTableExclusiveLocked (t : Transaction) (oid : Z) : bool :=
  bool_decide (oid ∈ x_table_lock_set t).
Definition IsTableIntentionSharedLocked (t : Transaction) (oid : Z) : bool :=
  bool_decide (oid ∈ is_table_lock_set t).
Definition IsTableIntentionExclusiveLocked (t : Transaction) (oid : Z) : bool :=
  bool_decide (oid ∈ ix_table_lock_set t).
Definition IsTableSharedIntentionExclusiveLocked (t : Transaction) (oid : Z) : bool :=
  bool_decide (oid ∈ six_table_lock_set t).
Definition IsRowSharedLocked (t : Transaction) (oid : Z) (rid : RID) : bool :=
  match s_row_lock_set t !! oid with
  | Some s => bool_decide (rid ∈ s)
  | None => false
  end.

Record LockRequest := mkRequest {
  txn_id_ : Z;
  lock_mode_ : LockMode;
  oid_ : Z;
  rid_ : option RID;
  granted_ : bool
}.

Record LockRequestQueue := mkQueue {
  request_queue_ : list LockRequest;
  upgrading_ : Z
}.

Record LockManager := mkLM {
  table_lock_map_ : gmap Z LockRequestQueue;
  row_lock_map_ : gmap RID LockRequestQueue;
  waits_for_ : list (Z * list Z)
}.

Definition create : LockManager := mkLM ∅ ∅ [].

Definition set_table_queue (lm : LockManager) (oid : Z) (q : LockRequestQueue) : LockManager :=
  mkLM (<[oid := q]> (table_lock_map_ lm)) (row_lock_map_ lm) (waits_for_ lm).

Definition set_row_queue (lm : LockManager) (rid : RID) (q : LockRequestQueue) : LockManager :=
  mkLM (table_lock_map_ lm) (<[rid := q]> (row_lock_map_ lm)) (waits_for_ lm).

Definition set_waits_for (lm : LockManager) (g : list (Z * list Z)) : LockManager :=
  mkLM (table_lock_map_ lm) (row_lock_map_ lm) g.

(** [set[oid].erase(rid)] on the map behind the set pointer: [operator[]]
    creates the entry when absent. *)
Definition row_set_erase (m : gmap Z (gset RID)) (oid : Z) (rid : RID) : gmap Z (gset RID) :=
  <[oid := default ∅ (m !! oid) ∖ {[rid]}]> m.

Definition row_set_emplace (m : gmap Z (gset RID)) (oid : Z) (rid : RID) : gmap Z (gset RID) :=
  <[oid := default ∅ (m !! oid) ∪ {[rid]}]> m.

(** [set[oid]], the entry created when absent. *)
Definition row_set_touch (m : gmap Z (gset RID)) (oid : Z) : gmap Z (gset RID) :=
  <[oid := default ∅ (m !! oid)]> m.

Definition RowLockRemove (t : Transaction) (lock_mode : LockMode) (oid : Z) (rid : RID)
  : Transaction :=
  match lock_mode with
  | EXCLUSIVE => set_row_sets t (s_row_lock_set t) (row_set_erase (x_row_lock_set t) oid rid)
  | SHARED => set_row_sets t (row_set_erase (s_row_lock_set t) oid rid) (x_row_lock_set t)
  | _ => t
  end.

Definition TableLockRemove (t : Transaction) (lock_mode : LockMode) (oid : Z) : Transaction :=
  let s := s_table_lock_set t in
  let x := x_table_lock_set t in
  let is_ := is_table_lock_set t in
  let ix := ix_table_lock_set t in
  let six := six_table_lock_set t in
  match lock_mode with
  | EXCLUSIVE => set_table_sets t s (x ∖ {[oid]}) is_ ix six
  | INTENTION_EXCLUSIVE => set_table_sets t s x is_ (ix ∖ {[oid]}) six
  | SHARED_INTENTION_EXCLUSIVE => set_table_sets t s x is_ ix (six ∖ {[oid]})
  | INTENTION_SHARED => set_table_sets t s x (is_ ∖ {[oid]}) ix six
  | SHARED => set_table_sets t (s ∖ {[oid]}) x is_ ix six
  end.

Definition RowLockAllocate (t : Transaction) (lock_mode : LockMode) (oid : Z) (rid : RID)
  : Transaction :=
  match lock_mode with
  | EXCLUSIVE => set_row_sets t (s_row_lock_set t) (row_set_emplace (x_row_lock_set t) oid rid)
  | SHARED => set_row_sets t (row_set_emplace (s_row_lock_set t) oid rid) (x_row_lock_set t)
  | _ => t
  end.

Definition TableLockAllocate (t : Transaction) (lock_mode : LockMode) (oid : Z) : Transaction :=
  let s := s_table_lock_set t in
  let x := x_table_lock_set t in
  let is_ := is_table_lock_set t in
  let ix := ix_table_lock_set t in
  let six := six_table_lock_set t in
  match lock_mode with
  | EXCLUSIVE => set_table_sets t s (x ∪ {[oid]}) is_ ix six
  | SHARED => set_table_sets t (s ∪ {[oid]}) x is_ ix six
  | INTENTION_SHARED => set_table_sets t s x (is_ ∪ {[oid]}) ix six
  | SHARED_INTENTION_EXCLUSIVE => set_table_sets t s x is_ ix (six ∪ {[oid]})
  | INTENTION_EXCLUSIVE => set_table_sets t s x is_ (ix ∪ {[oid]}) six
  end.

Definition SetState (t : Transaction) (ioslevel : IsolationLevel) (lock_mode : LockMode)
  : Transaction :=
  if bool_decide (state t = ABORTED) || bool_decide (state t = COMMITTED) then t
  else if bool_decide (ioslevel = REPEATABLE_READ)
          && (bool_decide (lock_mode = EXCLUSIVE) || bool_decide (lock_mode = SHARED))
  then SetTxnState t SHRINKING
  else if bool_decide (lock_mode = EXCLUSIVE) then SetTxnState t SHRINKING
  else t.

(** [CheckLock(lock_mode_, lock_mode)]: may [lock_mode] be granted next to
    a held [lock_mode_]? *)
Definition CheckLock (lock_mode_ lock_mode : LockMode) : bool :=
  if bool_decide (lock_mode_ = EXCLUSIVE) then false
  else if bool_decide (lock_mode_ = SHARED_INTENTION_EXCLUSIVE)
          && negb (bool_decide (lock_mode = INTENTION_SHARED)) then false
  else if bool_decide (lock_mode_ = SHARED)
          && negb (bool_decide (lock_mode = SHARED))
          && negb (bool_decide (lock_mode = INTENTION_SHARED)) then false
  else if bool_decide (lock_mode_ = INTENTION_EXCLUSIVE)
          && negb (bool_decide (lock_mode = INTENTION_EXCLUSIVE))
          && negb (bool_decide (lock_mode = INTENTION_SHARED)) then false
  else if bool_decide (lock_mode_ = INTENTION_SHARED)
          && bool_decide (lock_mode = EXCLUSIVE) then false
  else true.

(** The second loop of [GrantLock]; [before] holds the requests in front
    of the current one, which the inner loop walks until [i == j]. *)
Fixpoint GrantLock_scan (before rest : list LockRequest) (tid : Z) : bool :=
  match rest with
  | [] => false
  | i :: r =>
      if negb (granted_ i)
         && existsb (fun j => negb (CheckLock (lock_mode_ i) (lock_mode_ j))) before
      then false
      else if txn_id_ i =? tid then true
      else GrantLock_scan (before ++ [i]) r tid
  end.

Definition GrantLock (que : LockRequestQueue) (lock_mode : LockMode) (tid : Z) : bool :=
  if existsb (fun i => granted_ i && negb (CheckLock (lock_mode_ i) lock_mode))
       (request_queue_ que)
  then false
  else GrantLock_scan [] (request_queue_ que) tid.

(** [std::find_if] for the first request of a transaction, and the list
    without that request. *)
Fixpoint find_erase (p : LockRequest -> bool) (l : list LockRequest)
  : option (LockRequest * list LockRequest) :=
  match l with
  | [] => None
  | r :: rest =>
      if p r then Some (r, rest)
      else '(x, rest') ← find_erase p rest; Some (x, r :: rest')
  end.

(** [lr->granted_ = true] for the request [lr] of transaction [tid]. *)
Fixpoint set_granted (tid : Z) (l : list LockRequest) : list LockRequest :=
  match l with
  | [] => []
  | r :: rest =>
      if txn_id_ r =? tid
      then mkRequest (txn_id_ r) (lock_mode_ r) (oid_ r) (rid_ r) true :: rest
      else r :: set_granted tid rest
  end.

Definition is_shared_family (m : LockMode) : bool :=
  bool_decide (m = SHARED) || bool_decide (m = INTENTION_SHARED)
  || bool_decide (m = SHARED_INTENTION_EXCLUSIVE).

(** The loop of a woken, aborted waiter: every request of [id] leaves the
    queue and the matching table lock set. *)
Fixpoint purge_table (t : Transaction) (id : Z) (l : list LockRequest)
  : Transaction * list LockRequest :=
  match l with
  | [] => (t, [])
  | r :: rest =>
      if txn_id_ r =? id
      then purge_table (TableLockRemove t (lock_mode_ r) (oid_ r)) id rest
      else let '(t', rest') := purge_table t id rest in (t', r :: rest')
  end.

Fixpoint purge_row (t : Transaction) (id : Z) (rid : RID) (l : list LockRequest)
  : Transaction * list LockRequest :=
  match l with
  | [] => (t, [])
  | r :: rest =>
      if txn_id_ r =? id
      then purge_row (RowLockRemove t (lock_mode_ r) (oid_ r) rid) id rid rest
      else let '(t', rest') := purge_row t id rid rest in (t', r :: rest')
  end.

(** The wait loop, entered with the request of [txn] in the queue: one
    [GrantLock] test and what follows it. *)
Definition table_try_grant (lm : LockManager) (txn : Transaction) (oid : Z)
    (que : LockRequestQueue) (lock_mode : LockMode) (upgrade : bool)
  : LockManager * Transaction * Outcome :=
  let id := txn_id txn in
  if GrantLock que lock_mode id then
    let q := set_granted id (request_queue_ que) in
    let txn := TableLockAllocate txn lock_mode oid in
    let up := if upgrade then INVALID_TXN_ID else upgrading_ que in
    (set_table_queue lm oid (mkQueue q up), txn, Ret true)
  else (set_table_queue lm oid que, txn, Wait upgrade).

Definition LockTable (lm : LockManager) (txn : Transaction) (lock_mode : LockMode) (oid : Z)
  : LockManager * Transaction * Outcome :=
  let st := state txn in
  let ioslevel := isolation_level txn in
  let id := txn_id txn in
  if bool_decide (st = ABORTED) then (lm, txn, Ret false)
  else if bool_decide (ioslevel = READ_UNCOMMITTED) && is_shared_family lock_mode
  then (lm, SetTxnState txn ABORTED, Throw LOCK_SHARED_ON_READ_UNCOMMITTED)
  else if bool_decide (st = SHRINKING)
          && (bool_decide (ioslevel = REPEATABLE_READ)
              || bool_decide (ioslevel = READ_UNCOMMITTED))
  then (lm, SetTxnState txn ABORTED, Throw LOCK_ON_SHRINKING)
  else if bool_decide (st = SHRINKING) && bool_decide (ioslevel = READ_COMMITTED)
          && negb (bool_decide (lock_mode = SHARED))
          && negb (bool_decide (lock_mode = INTENTION_SHARED))
  then (lm, SetTxnState txn ABORTED, Throw LOCK_ON_SHRINKING)
  else
    let que := default (mkQueue [] INVALID_TXN_ID) (table_lock_map_ lm !! oid) in
    let lm := set_table_queue lm oid que in
    let lr := mkRequest id lock_mode oid None false in
    match find_erase (fun r => txn_id_ r =? id) (request_queue_ que) with
    | Some (iter, rest) =>
        if bool_decide (lock_mode_ iter = lock_mode) then (lm, txn, Ret true)
        else if negb (upgrading_ que =? INVALID_TXN_ID) && negb (upgrading_ que =? id)
        then (lm, SetTxnState txn ABORTED, Throw UPGRADE_CONFLICT)
        else
          let is_ := IsTableIntentionSharedLocked txn oid in
          let s := IsTableSharedLocked txn oid in
          let ix := IsTableIntentionExclusiveLocked txn oid in
          let six := IsTableSharedIntentionExclusiveLocked txn oid in
          let xs := negb (bool_decide (lock_mode = EXCLUSIVE))
                    && negb (bool_decide (lock_mode = SHARED_INTENTION_EXCLUSIVE)) in
          if (negb is_ || bool_decide (lock_mode = INTENTION_SHARED))
             && (negb s || xs) && (negb ix || xs)
             && (negb six || negb (bool_decide (lock_mode = EXCLUSIVE)))
          then (lm, SetTxnState txn ABORTED, Throw INCOMPATIBLE_UPGRADE)
          else
            let txn := TableLockRemove txn (lock_mode_ iter) oid in
            table_try_grant lm txn oid (mkQueue (rest ++ [lr]) id) lock_mode true
    | None =>
        table_try_grant lm txn oid
          (mkQueue (request_queue_ que ++ [lr]) (upgrading_ que)) lock_mode false
    end.

(** One turn of the wait loop of [LockTable] after [cv_.wait] returns.
    [None]: the transaction has no waiting request on the table, so no
    thread of it sleeps there. *)
Definition LockTable_wakeup (lm : LockManager) (txn : Transaction) (oid : Z) (upgrade : bool)
  : option (LockManager * Transaction * Outcome) :=
  let id := txn_id txn in
  que ← table_lock_map_ lm !! oid;
  lr ← list_find (fun r => txn_id_ r = id) (request_queue_ que);
  if granted_ lr.2 then None
  else if bool_decide (state txn = ABORTED) then
    let '(txn', q) := purge_table txn id (request_queue_ que) in
    let up := if upgrading_ que =? id then INVALID_TXN_ID else upgrading_ que in
    Some (set_table_queue lm oid (mkQueue q up), txn', Ret false)
  else Some (table_try_grant lm txn oid que (lock_mode_ lr.2) upgrade).

Definition abort_with (lm : LockManager) (txn : Transaction) (r : AbortReason)
  : LockManager * Transaction * Outcome :=
  (lm, SetTxnState txn ABORTED, Throw r).

Definition UnlockTable (lm : LockManager) (txn : Transaction) (oid : Z)
  : LockManager * Transaction * Outcome :=
  match table_lock_map_ lm !! oid with
  | None => abort_with lm txn ATTEMPTED_UNLOCK_BUT_NO_LOCK_HELD
  | Some que =>
      let id := txn_id txn in
      let txn := set_row_sets txn (s_row_lock_set txn) (row_set_touch (x_row_lock_set txn) oid) in
      if negb (bool_decide (default ∅ (x_row_lock_set txn !! oid) = ∅))
      then abort_with lm txn TABLE_UNLOCKED_BEFORE_UNLOCKING_ROWS
      else
        let txn := set_row_sets txn (row_set_touch (s_row_lock_set txn) oid) (x_row_lock_set txn) in
        if negb (bool_decide (default ∅ (s_row_lock_set txn !! oid) = ∅))
        then abort_with lm txn TABLE_UNLOCKED_BEFORE_UNLOCKING_ROWS
        else
          match find_erase (fun r => granted_ r && (txn_id_ r =? id)) (request_queue_ que) with
          | None => abort_with lm txn ATTEMPTED_UNLOCK_BUT_NO_LOCK_HELD
          | Some (iter, rest) =>
              let lock_mode := lock_mode_ iter in
              let txn := SetState txn (isolation_level txn) lock_mode in
              let up := if negb (upgrading_ que =? INVALID_TXN_ID) && (upgrading_ que =? id)
                        then INVALID_TXN_ID else upgrading_ que in
              let txn := TableLockRemove txn lock_mode oid in
              (set_table_queue lm oid (mkQueue rest up), txn, Ret true)
          end
  end.

Definition row_try_grant (lm : LockManager) (txn : Transaction) (oid : Z) (rid : RID)
    (que : LockRequestQueue) (lock_mode : LockMode) (upgrade : bool)
  : LockManager * Transaction * Outcome :=
  let id := txn_id txn in
  if GrantLock que lock_mode id then
    let q := set_granted id (request_queue_ que) in
    let up := if upgrade then id else upgrading_ que in
    let txn := RowLockAllocate txn lock_mode oid rid in
    (set_row_queue lm rid (mkQueue q up), txn, Ret true)
  else (set_row_queue lm rid que, txn, Wait upgrade).

Definition LockRow (lm : LockManager) (txn : Transaction) (lock_mode : LockMode)
    (oid : Z) (rid : RID) : LockManager * Transaction * Outcome :=
  let st := state txn in
  let ioslevel := isolation_level txn in
  let id := txn_id txn in
  let is_ := IsTableIntentionSharedLocked txn oid in
  let s := IsTableSharedLocked txn oid in
  let ix := IsTableIntentionExclusiveLocked txn oid in
  let six := IsTableSharedIntentionExclusiveLocked txn oid in
  let x := IsTableExclusiveLocked txn oid in
  if bool_decide (st = ABORTED) then (lm, txn, Ret false)
  else if bool_decide (lock_mode = SHARED) && negb (is_ || s || ix || six || x)
  then abort_with lm txn TABLE_LOCK_NOT_PRESENT
  else if bool_decide (lock_mode = EXCLUSIVE) && negb (x || ix || six)
  then abort_with lm txn TABLE_LOCK_NOT_PRESENT
  else if negb (bool_decide (lock_mode = SHARED)) && negb (bool_decide (lock_mode = EXCLUSIVE))
  then abort_with lm txn ATTEMPTED_INTENTION_LOCK_ON_ROW
  else if bool_decide (ioslevel = READ_UNCOMMITTED) && bool_decide (lock_mode = SHARED)
  then abort_with lm txn LOCK_SHARED_ON_READ_UNCOMMITTED
  else if bool_decide (st = SHRINKING)
          && (bool_decide (ioslevel = REPEATABLE_READ)
              || bool_decide (ioslevel = READ_UNCOMMITTED))
  then abort_with lm txn LOCK_ON_SHRINKING
  else if bool_decide (st = SHRINKING) && bool_decide (ioslevel = READ_COMMITTED)
          && negb (bool_decide (lock_mode = SHARED))
  then abort_with lm txn LOCK_ON_SHRINKING
  else
    let que := default (mkQueue [] INVALID_TXN_ID) (row_lock_map_ lm !! rid) in
    let lm := set_row_queue lm rid que in
    let lr := mkRequest id lock_mode oid (Some rid) false in
    match find_erase (fun r => txn_id_ r =? id) (request_queue_ que) with
    | Some (iter, rest) =>
        if bool_decide (lock_mode_ iter = lock_mode) then (lm, txn, Ret true)
        else if negb (upgrading_ que =? INVALID_TXN_ID) && negb (upgrading_ que =? id)
        then abort_with lm txn UPGRADE_CONFLICT
        else if negb (bool_decide (lock_mode = EXCLUSIVE)) || negb (IsRowSharedLocked txn oid rid)
        then abort_with lm txn INCOMPATIBLE_UPGRADE
        else
          let txn := RowLockRemove txn (lock_mode_ iter) oid rid in
          row_try_grant lm txn oid rid (mkQueue (rest ++ [lr]) id) lock_mode true
    | None =>
        row_try_grant lm txn oid rid
          (mkQueue (request_queue_ que ++ [lr]) (upgrading_ que)) lock_mode false
    end.

Definition LockRow_wakeup (lm : LockManager) (txn : Transaction) (oid : Z) (rid : RID)
    (upgrade : bool) : option (LockManager * Transaction * Outcome) :=
  let id := txn_id txn in
  que ← row_lock_map_ lm !! rid;
  lr ← list_find (fun r => txn_id_ r = id) (request_queue_ que);
  if granted_ lr.2 then None
  else if bool_decide (state txn = ABORTED) then
    let '(txn', q) := purge_row txn id rid (request_queue_ que) in
    let up := if upgrading_ que =? id then INVALID_TXN_ID else upgrading_ que in
    Some (set_row_queue lm rid (mkQueue q up), txn', Ret false)
  else Some (row_try_grant lm txn oid rid que (lock_mode_ lr.2) upgrade).

(** [UnlockRow]; [None] where the code dereferences [end()]: no granted
    request of a transaction that is already aborted or committed. *)
Definition UnlockRow (lm : LockManager) (txn : Transaction) (oid : Z) (rid : RID)
  : option (LockManager * Transaction * Outcome) :=
  match row_lock_map_ lm !! rid with
  | None => Some (abort_with lm txn ATTEMPTED_UNLOCK_BUT_NO_LOCK_HELD)
  | Some que =>
      let id := txn_id txn in
      match find_erase (fun r => granted_ r && (txn_id_ r =? id)) (request_queue_ que) with
      | None =>
          if negb (bool_decide (state txn = ABORTED))
             && negb (bool_decide (state txn = COMMITTED))
          then Some (abort_with lm txn ATTEMPTED_UNLOCK_BUT_NO_LOCK_HELD)
          else None
      | Some (iter, rest) =>
          let lock_mode := lock_mode_ iter in
          let txn := SetState txn (isolation_level txn) lock_mode in
          let up := if negb (upgrading_ que =? INVALID_TXN_ID) && (upgrading_ que =? id)
                    then INVALID_TXN_ID else upgrading_ que in
          let txn := RowLockRemove txn lock_mode oid rid in
          Some (set_row_queue lm rid (mkQueue rest up), txn, Ret true)
      end
  end.

(** *** Deadlock detection

    [waits_for_] is a [std::map<txn_id_t, std::set<txn_id_t>>]: an
    association list kept in ascending key order, each set an ascending
    list. *)

Fixpoint set_emplace (x : Z) (s : list Z) : list Z :=
  match s with
  | [] => [x]
  | y :: r => if x <? y then x :: s else if x =? y then s else y :: set_emplace x r
  end.

Definition set_count (x : Z) (s : list Z) : bool := existsb (Z.eqb x) s.

Fixpoint map_find (k : Z) (m : list (Z * list Z)) : option (list Z) :=
  match m with
  | [] => None
  | (k', v) :: r => if k =? k' then Some v else map_find k r
  end.

(** [m[k]] with [f] applied to the referenced set; the entry is created
    empty when absent. *)
Fixpoint map_at (k : Z) (f : list Z -> list Z) (m : list (Z * list Z)) : list (Z * list Z) :=
  match m with
  | [] => [(k, f [])]
  | (k', v) :: r =>
      if k <? k' then (k, f []) :: m
      else if k =? k' then (k', f v) :: r
      else (k', v) :: map_at k f r
  end.

Definition map_erase (k : Z) (m : list (Z * list Z)) : list (Z * list Z) :=
  filter (fun kv => kv.1 ≠ k) m.

Definition AddEdge (g : list (Z * list Z)) (t1 t2 : Z) : list (Z * list Z) :=
  map_at t1 (set_emplace t2) g.

(** [RemoveEdge]; [None] where [find] returns [end()] and is dereferenced. *)
Definition RemoveEdge (g : list (Z * list Z)) (t1 t2 : Z) : option (list (Z * list Z)) :=
  s ← map_find t1 g;
  let s' := filter (fun x => x ≠ t2) s in
  match s' with
  | [] => Some (map_erase t1 g)
  | _ => Some (map_at t1 (fun _ => s') g)
  end.

Definition queue_edges (q : LockRequestQueue) : list (Z * Z) :=
  i ← request_queue_ q;
  j ← request_queue_ q;
  if negb (granted_ i) && granted_ j then [(txn_id_ i, txn_id_ j)] else [].

Definition all_queues (lm : LockManager) : list LockRequestQueue :=
  (snd <$> map_to_list (row_lock_map_ lm)) ++ (snd <$> map_to_list (table_lock_map_ lm)).

Definition CreateGraph (lm : LockManager) : LockManager :=
  set_waits_for lm
    (foldl (fun g e => AddEdge g e.1 e.2) (waits_for_ lm)
       (all_queues lm ≫= queue_edges)).

Definition queue_edges_of (tid : Z) (q : LockRequestQueue) : list (Z * Z) :=
  i ← request_queue_ q;
  j ← request_queue_ q;
  if granted_ j && negb (granted_ i) && ((txn_id_ j =? tid) || (txn_id_ i =? tid))
  then [(txn_id_ i, txn_id_ j)] else [].

Definition RemovePoint (lm : LockManager) (tid : Z) : option LockManager :=
  g ← foldl (fun og e => g ← og; RemoveEdge g e.1 e.2) (Some (waits_for_ lm))
       (all_queues lm ≫= queue_edges_of tid);
  Some (set_waits_for lm g).

(** The locals of [HasCycle] that the [dfs] lambda captures by reference. *)
Record DfsState := mkDfs {
  graph : list (Z * list Z);
  txn_set : list Z;
  tmp : list Z
}.

(** The [dfs] lambda; the inner [fix] is its [std::any_of] over the set
    [waits_for_[now]].  [None]: out of fuel. *)
Fixpoint dfs (fuel : nat) (st : DfsState) (now : Z) : option (bool * DfsState) :=
  match fuel with
  | O => None
  | S f =>
      let st := mkDfs (map_at now (fun s => s) (graph st))
                  (set_emplace now (txn_set st)) (set_emplace now (tmp st)) in
      (fix any_of (it : list Z) (st : DfsState) : option (bool * DfsState) :=
         match it with
         | [] => Some (false, st)
         | n :: r =>
             if set_count n (txn_set st) then Some (true, st)
             else
               '(found, st') ← dfs f st n;
               if (found : bool) then Some (true, st') else any_of r st'
         end) (default [] (map_find now (graph st))) st
  end.

(** The first key of the map after [cursor]. *)
Fixpoint next_key (cursor : option Z) (m : list (Z * list Z)) : option Z :=
  match m with
  | [] => None
  | (k, _) :: r =>
      match cursor with
      | None => Some k
      | Some c => if c <? k then Some k else next_key cursor r
      end
  end.

(** The [for] loop of [HasCycle] over the keys of [waits_for_]. *)
Fixpoint HasCycle_loop (fuel : nat) (st : DfsState) (cursor : option Z)
  : option (bool * DfsState) :=
  match fuel with
  | O => None
  | S f =>
      match next_key cursor (graph st) with
      | None => Some (false, st)
      | Some k =>
          if set_count k (tmp st) then HasCycle_loop f st (Some k)
          else
            '(found, st') ← dfs f st k;
            if (found : bool) then Some (true, st')
            else HasCycle_loop f (mkDfs (graph st') [] (tmp st')) (Some k)
      end
  end.

(** [HasCycle]: the graph as the call leaves it and, when the result is
    true, the id stored through [txn_id]. *)
Definition HasCycle (fuel : nat) (g : list (Z * list Z))
  : option (list (Z * list Z) * option Z) :=
  '(found, st) ← HasCycle_loop fuel (mkDfs g [] []) None;
  if (found : bool)
  then Some (graph st, Some (foldl (fun id i => if id >? i then id else i) (-1) (txn_set st)))
  else Some (graph st, None).

(** One pass of the body of [RunCycleDetection]: the transactions it sets
    to [ABORTED], in order. *)
Fixpoint detect_loop (fuel : nat) (lm : LockManager) (victims : list Z)
  : option (LockManager * list Z) :=
  match fuel with
  | O => None
  | S f =>
      '(g, r) ← HasCycle fuel (waits_for_ lm);
      match r with
      | None => Some (set_waits_for lm [], victims)
      | Some tid =>
          lm' ← RemovePoint (set_waits_for lm g) tid;
          detect_loop f lm' (victims ++ [tid])
      end
  end.

Definition RunCycleDetection (fuel : nat) (lm : LockManager) : option (LockManager * list Z) :=
  detect_loop fuel (CreateGraph lm) [].

End LM.

(** ** execution/aggregation_executor.cpp, sort_executor.cpp, topn_executor.cpp

    A child executor is the list of tuples its [Next] yields.  An
    expression is embedded as its evaluation function on tuples.  The type
    system, the plan nodes and the aggregation hash table are declared in
    headers that are not among the sources. *)
Module Exec.

Definition TypeId : Type := Z.

(** Modelled from the spec: values are integers or typed NULLs, compared
    with three-valued logic (a comparison with NULL is neither true nor
    false). *)
Inductive Value := VInteger (z : Z) | VNull (ty : TypeId).

#[global] Instance Value_eq_dec : EqDecision Value.
Proof. unfold TypeId. solve_decision. Defined.

Inductive CmpBool := CmpFalse | CmpTrue | CmpNull.

#[global] Instance CmpBool_eq_dec : EqDecision CmpBool.
Proof. solve_decision. Defined.

Definition CompareLessThan (l r : Value) : CmpBool :=
  match l, r with
  | VInteger a, VInteger b => if a <? b then CmpTrue else CmpFalse
  | _, _ => CmpNull
  end.

Definition Tuple : Type := list Value.

#[global] Instance Tuple_eq_dec : EqDecision Tuple.
Proof. unfold Tuple. apply _. Defined.

Definition AbstractExpression : Type := Tuple -> Value.

Inductive OrderByType := INVALID | DEFAULT | ASC | DESC.

Inductive AggregationType :=
  CountStarAggregate | CountAggregate | SumAggregate | MinAggregate | MaxAggregate.

Record AggregationPlanNode := mkAggPlan {
  group_bys : list AbstractExpression;
  aggregates : list AbstractExpression;
  agg_types : list AggregationType;
  output_schema_ : list TypeId
}.

(** The aggregation hash table, as the sequence of (key, value) entries its
    iterator walks. *)
Definition AggregationHashTable : Type := list (list Value * list Value).

Record AggregationExecutor := mkAgg {
  aht_ : AggregationHashTable;
  aht_iterator_ : nat;
  finished_ : bool
}.

Section Aggregation.
(** [SimpleAggregationHashTable::InsertCombine] is not among the sources. *)
Variable InsertCombine :
  AggregationHashTable -> list Value -> list Value -> AggregationHashTable.
Variable plan_ : AggregationPlanNode.

Definition MakeAggregateKey (t : Tuple) : list Value :=
  (fun e => e t) <$> group_bys plan_.

Definition MakeAggregateValue (t : Tuple) : list Value :=
  (fun e => e t) <$> aggregates plan_.

(** The executor as constructed: an empty table, the iterator at its
    begin, nothing emitted yet. *)
Definition Agg_create : AggregationExecutor := mkAgg [] 0 false.

Definition Agg_Init (child : list Tuple) (s : AggregationExecutor) : AggregationExecutor :=
  mkAgg
    (foldl (fun aht t => InsertCombine aht (MakeAggregateKey t) (MakeAggregateValue t))
       (aht_ s) child)
    0 (finished_ s).

(** The row for an empty input; [None] where [GetColumn(i)] leaves the
    schema. *)
Fixpoint empty_row (i : nat) (types : list AggregationType) : option (list Value) :=
  match types with
  | [] => Some []
  | ty :: r =>
      v ← match ty with
          | CountStarAggregate => Some (VInteger 0)
          | _ => VNull <$> output_schema_ plan_ !! i
          end;
      vs ← empty_row (S i) r;
      Some (v :: vs)
  end.

(** [Next]: the executor afterwards and the tuple stored through [tuple]
    when the result is true. *)
Definition Agg_Next (s : AggregationExecutor) : option (AggregationExecutor * option Tuple) :=
  let at_end := Nat.eqb (aht_iterator_ s) (length (aht_ s)) in
  if negb (finished_ s) && at_end then
    match group_bys plan_ with
    | _ :: _ => Some (s, None)
    | [] =>
        values ← empty_row 0 (agg_types plan_);
        Some (mkAgg (aht_ s) (aht_iterator_ s) true, Some values)
    end
  else if at_end then Some (s, None)
  else
    '(key, val) ← aht_ s !! aht_iterator_ s;
    Some (mkAgg (aht_ s) (S (aht_iterator_ s)) true, Some (key ++ val)).

(** The caller's loop: [Init], then [Next] until it returns false. *)
Fixpoint Agg_pull (fuel : nat) (s : AggregationExecutor) : option (list Tuple) :=
  match fuel with
  | O => None
  | S f =>
      '(s', r) ← Agg_Next s;
      match r with
      | None => Some []
      | Some t => cons t <$> Agg_pull f s'
      end
  end.

Definition Agg_execute (fuel : nat) (child : list Tuple) : option (list Tuple) :=
  Agg_pull fuel (Agg_Init child Agg_create).

End Aggregation.

(** *** Sort and TopN

    Both executors compare tuples with the same lambda, except for what
    happens when the loop over the order-bys ends without a decision: the
    sort executor asserts ("tuple eq"), the top-N executor returns true.
    [None] is a failed [BUSTUB_ASSERT]. *)
Section OrderBy.
Variable order_bys_ : list (OrderByType * AbstractExpression).

(** The loop over [order_bys_]; [inl tt] when it ends without returning. *)
Fixpoint comp_loop (obs : list (OrderByType * AbstractExpression)) (lhs rhs : Tuple)
  : option (unit + bool) :=
  match obs with
  | [] => Some (inl tt)
  | (order_type, expr) :: rest =>
      let l := expr lhs in
      let r := expr rhs in
      let comp1 := CompareLessThan l r in
      let comp2 := CompareLessThan r l in
      if bool_decide (comp1 = CmpFalse) && bool_decide (comp2 = CmpFalse)
      then comp_loop rest lhs rhs
      else
        match order_type with
        | DEFAULT | ASC => Some (inr (bool_decide (comp1 = CmpTrue)))
        | DESC => Some (inr (bool_decide (comp2 = CmpTrue)))
        | INVALID => None
        end
  end.

Definition sort_comp (lhs rhs : Tuple) : option bool :=
  r ← comp_loop order_bys_ lhs rhs;
  match r with
  | inl _ => None
  | inr b => Some b
  end.

Definition topn_comp (lhs rhs : Tuple) : option bool :=
  r ← comp_loop order_bys_ lhs rhs;
  match r with
  | inl _ => Some true
  | inr b => Some b
  end.

(** [std::sort] is library code; it is modelled as an insertion sort that
    fails as soon as a call of the comparator fails.  On an input that the
    comparator orders strictly and totally every comparison sort returns
    the same sequence, and a sort has to compare two tuples that end up
    next to each other. *)
Fixpoint sort_insert (comp : Tuple -> Tuple -> option bool) (x : Tuple) (l : list Tuple)
  : option (list Tuple) :=
  match l with
  | [] => Some [x]
  | y :: r =>
      b ← comp x y;
      if (b : bool) then Some (x :: y :: r) else cons y <$> sort_insert comp x r
  end.

Definition std_sort (comp : Tuple -> Tuple -> option bool) (l : list Tuple)
  : option (list Tuple) :=
  foldl (fun acc x => s ← acc; sort_insert comp x s) (Some []) l.

(** [SortExecutor::Init]: the tuples the executor will emit. *)
Definition Sort_Init (child : list Tuple) : option (list Tuple) :=
  std_sort sort_comp child.

(** [std::priority_queue] is library code; it is modelled by its contract:
    the queue is the bag of its elements, [top] is an element that the
    comparator puts below no other, [pop] removes it. *)
Fixpoint pq_max (comp : Tuple -> Tuple -> option bool) (best : Tuple) (l : list Tuple)
  : option Tuple :=
  match l with
  | [] => Some best
  | y :: r => b ← comp best y; pq_max comp (if (b : bool) then y else best) r
  end.

Definition pq_top (comp : Tuple -> Tuple -> option bool) (q : list Tuple) : option Tuple :=
  match q with
  | [] => None
  | x :: r => pq_max comp x r
  end.

Fixpoint pq_remove (t : Tuple) (q : list Tuple) : list Tuple :=
  match q with
  | [] => []
  | x :: r => if decide (x = t) then r else x :: pq_remove t r
  end.

Definition pq_pop (comp : Tuple -> Tuple -> option bool) (q : list Tuple)
  : option (list Tuple) :=
  t ← pq_top comp q; Some (pq_remove t q).

Definition pq_emplace (t : Tuple) (q : list Tuple) : list Tuple := q ++ [t].

(** The first loop of [TopNExecutor::Init]. *)
Definition topn_fill (n : nat) (child : list Tuple) : option (list Tuple) :=
  foldl (fun acc t =>
           heap ← acc;
           let heap := pq_emplace t heap in
           if Nat.ltb n (length heap) then pq_pop topn_comp heap else Some heap)
    (Some []) child.

(** The second loop: [top] and [pop] until the heap is empty. *)
Fixpoint topn_drain (fuel : nat) (heap : list Tuple) : option (list Tuple) :=
  match heap with
  | [] => Some []
  | _ :: _ =>
      match fuel with
      | O => None
      | S f =>
          t ← pq_top topn_comp heap;
          heap' ← pq_pop topn_comp heap;
          cons t <$> topn_drain f heap'
      end
  end.

(** [TopNExecutor::Init]: the tuples the executor will emit. *)
Definition TopN_Init (n : nat) (child : list Tuple) : option (list Tuple) :=
  heap ← topn_fill n child;
  tuples ← topn_drain (length heap) heap;
  Some (reverse tuples).

End OrderBy.

End Exec.

(** ** The B+ tree index (src/storage/index/b_plus_tree.cpp,
    src/storage/index/index_iterator.cpp)

    Keys are compared by the comparator, which returns -1, 0 or 1; they are
    taken as integers with their order.  Leaf values (row ids) and internal
    values (child page ids) are integers as well.

    The tree reaches its pages through the buffer pool only.  The pool is
    taken large enough that no fetch fails: a page is then the content last
    written under its page id, a page never written reads as zeroed memory,
    and unpinning is invisible.  DeletePage writes a dirty page back before
    it frees the frame, so a deleted page still reads as it was left.

    A page is handled through a pointer into its frame.  The model names a
    page by the page id it was fetched with and performs every read and
    write on the store, so that two pointers to the same page alias as they
    do in the source.

    The entries of a page are the array behind the header, which the
    internal page declares as MappingType array_[INTERNAL_PAGE_SIZE]: a slot
    beyond the current size keeps whatever was last written there, and a
    slot never written is the zeroed memory of the new page.  The code
    never tests a slot number against the number of slots of the array, so
    a write at or beyond that number leaves the page.  array_ holds the
    slots up to the highest one written so far and never shrinks: a page
    whose array_ is longer than its number of slots has been written past
    its end, and within_pages says that a store has no such page.  Sizes
    and slot numbers are natural numbers; IncreaseSize takes a signed
    amount. *)
Module BPT.

Abbreviation page_id_t := Z.
Definition INVALID_PAGE_ID : page_id_t := -1.
Abbreviation KeyType := Z.
Abbreviation MappingType := (KeyType * Z)%type.

Inductive IndexPageType := INVALID_INDEX_PAGE | LEAF_PAGE | INTERNAL_PAGE.

#[global] Instance IndexPageType_eq_dec : EqDecision IndexPageType.
Proof. solve_decision. Defined.

(** Modelled from the spec: the page header (storage/page/b_plus_tree_page.h
    and b_plus_tree_leaf_page.h are not part of the sources at hand) holds
    the page type, the current size, the max size, the parent page id and
    the page id; a leaf page also holds the next page id. *)
Record BPlusTreePage := mkPage {
  page_type_ : IndexPageType;
  size_ : nat;
  max_size_ : nat;
  parent_page_id_ : page_id_t;
  page_id_ : page_id_t;
  next_page_id_ : page_id_t;
  array_ : list MappingType
}.

Definition zero_page : BPlusTreePage :=
  mkPage INVALID_INDEX_PAGE 0 0 0 0 0 [].

Definition set_size (n : nat) (pg : BPlusTreePage) : BPlusTreePage :=
  mkPage (page_type_ pg) n (max_size_ pg) (parent_page_id_ pg) (page_id_ pg)
         (next_page_id_ pg) (array_ pg).
Definition set_parent (p : page_id_t) (pg : BPlusTreePage) : BPlusTreePage :=
  mkPage (page_type_ pg) (size_ pg) (max_size_ pg) p (page_id_ pg)
         (next_page_id_ pg) (array_ pg).
Definition set_next (p : page_id_t) (pg : BPlusTreePage) : BPlusTreePage :=
  mkPage (page_type_ pg) (size_ pg) (max_size_ pg) (parent_page_id_ pg)
         (page_id_ pg) p (array_ pg).
Definition set_array (a : list MappingType) (pg : BPlusTreePage)
  : BPlusTreePage :=
  mkPage (page_type_ pg) (size_ pg) (max_size_ pg) (parent_page_id_ pg)
         (page_id_ pg) (next_page_id_ pg) a.

(** Init of a page: type, size 0, page id, parent id and max size. *)
Definition Init (ty : IndexPageType) (page_id parent_id : page_id_t)
    (max_size : nat) (pg : BPlusTreePage) : BPlusTreePage :=
  mkPage ty 0 max_size parent_id page_id (next_page_id_ pg) (array_ pg).

(** array[i] and array[i] = x on the raw slots. *)
Definition arr_get (a : list MappingType) (i : nat) : MappingType :=
  nth i a (0, 0).
Definition arr_set (a : list MappingType) (i : nat) (x : MappingType)
  : list MappingType :=
  <[i := x]> (a ++ replicate (S i - length a) (0, 0)).

Abbreviation Pages := (gmap page_id_t BPlusTreePage).



Definition FetchPage (ps : Pages) (p : page_id_t) : BPlusTreePage :=
  default zero_page (ps !! p).
Definition with_page (p : page_id_t) (f : BPlusTreePage -> BPlusTreePage)
    (ps : Pages) : Pages :=
  <[p := f (FetchPage ps p)]> ps.

Definition GetSize (ps : Pages) (p : page_id_t) : nat := size_ (FetchPage ps p).
Definition GetPageId (ps : Pages) (p : page_id_t) : page_id_t :=
  page_id_ (FetchPage ps p).
Definition GetParentPageId (ps : Pages) (p : page_id_t) : page_id_t :=
  parent_page_id_ (FetchPage ps p).
Definition GetNextPageId (ps : Pages) (p : page_id_t) : page_id_t :=
  next_page_id_ (FetchPage ps p).
Definition IsLeafPage (ps : Pages) (p : page_id_t) : bool :=
  bool_decide (page_type_ (FetchPage ps p) = LEAF_PAGE).
Definition IsRootPage (ps : Pages) (p : page_id_t) : bool :=
  bool_decide (GetParentPageId ps p = INVALID_PAGE_ID).
Definition GetArray (ps : Pages) (p : page_id_t) : list MappingType :=
  array_ (FetchPage ps p).
Definition at_ (ps : Pages) (p : page_id_t) (i : nat) : MappingType :=
  arr_get (GetArray ps p) i.
Definition KeyAt (ps : Pages) (p : page_id_t) (i : nat) : KeyType :=
  fst (at_ ps p i).
Definition ValueAt (ps : Pages) (p : page_id_t) (i : nat) : Z :=
  snd (at_ ps p i).

Definition SetSize (p : page_id_t) (n : nat) : Pages -> Pages :=
  with_page p (set_size n).
Definition IncreaseSize (p : page_id_t) (amount : Z) (ps : Pages) : Pages :=
  with_page p (fun pg => set_size (Z.to_nat (Z.of_nat (size_ pg) + amount)) pg)
            ps.
Definition SetParentPageId (p parent : page_id_t) : Pages -> Pages :=
  with_page p (set_parent parent).
Definition SetNextPageId (p next : page_id_t) : Pages -> Pages :=
  with_page p (set_next next).
Definition put (p : page_id_t) (i : nat) (x : MappingType) : Pages -> Pages :=
  with_page p (fun pg => set_array (arr_set (array_ pg) i x) pg).
Definition put_first (p : page_id_t) (i : nat) (k : KeyType) (ps : Pages)
  : Pages := put p i (k, ValueAt ps p i) ps.
Definition put_second (p : page_id_t) (i : nat) (v : Z) (ps : Pages)
  : Pages := put p i (KeyAt ps p i, v) ps.

(** LowerBound and UpperBound: the binary searches over the slots
    [first, last) of an array.  The loop halves len; len steps suffice. *)
Fixpoint LowerBound_loop (fuel : nat) (a : list MappingType)
    (first len : nat) (key : KeyType) : nat :=
  match fuel with
  | O => first
  | S fuel' =>
    if (0 <? len)%nat then
      let half := Nat.shiftr len 1 in
      let middle := (first + half)%nat in
      if fst (arr_get a middle) <? key
      then LowerBound_loop fuel' a (S middle) (len - half - 1) key
      else LowerBound_loop fuel' a first half key
    else first
  end.

Definition LowerBound (a : list MappingType) (first last : nat)
    (key : KeyType) : nat :=
  LowerBound_loop (last - first) a first (last - first) key.

Fixpoint UpperBound_loop (fuel : nat) (a : list MappingType)
    (first len : nat) (key : KeyType) : nat :=
  match fuel with
  | O => first
  | S fuel' =>
    if (0 <? len)%nat then
      let half := Nat.shiftr len 1 in
      let middle := (first + half)%nat in
      if key <? fst (arr_get a middle)
      then UpperBound_loop fuel' a first half key
      else UpperBound_loop fuel' a (S middle) (len - half - 1) key
    else first
  end.

Definition UpperBound (a : list MappingType) (first last : nat)
    (key : KeyType) : nat :=
  UpperBound_loop (last - first) a first (last - first) key.

(** The tree object, with the page store of its buffer pool. *)
Record BPlusTree := mkTree {
  pages_ : Pages;
  next_page_id_of : page_id_t;
  root_page_id_ : page_id_t;
  begin_id_ : page_id_t;
  leaf_max_size_ : nat;
  leaf_min_size_ : nat;
  internal_max_size_ : nat;
  internal_min_size_ : nat
}.

Definition set_pages (ps : Pages) (t : BPlusTree) : BPlusTree :=
  mkTree ps (next_page_id_of t) (root_page_id_ t) (begin_id_ t)
         (leaf_max_size_ t) (leaf_min_size_ t)
         (internal_max_size_ t) (internal_min_size_ t).
Definition set_root (r : page_id_t) (t : BPlusTree) : BPlusTree :=
  mkTree (pages_ t) (next_page_id_of t) r (begin_id_ t)
         (leaf_max_size_ t) (leaf_min_size_ t)
         (internal_max_size_ t) (internal_min_size_ t).
Definition set_begin (b : page_id_t) (t : BPlusTree) : BPlusTree :=
  mkTree (pages_ t) (next_page_id_of t) (root_page_id_ t) b
         (leaf_max_size_ t) (leaf_min_size_ t)
         (internal_max_size_ t) (internal_min_size_ t).
Definition on_pages (f : Pages -> Pages) (t : BPlusTree) : BPlusTree :=
  set_pages (f (pages_ t)) t.

(** The constructor.  The pool hands out page ids from first_page_id on (the
    header page, page 0, is allocated before the tree is built). *)
Definition create (first_page_id : page_id_t)
    (leaf_max_size internal_max_size : nat) : BPlusTree :=
  mkTree ∅ first_page_id INVALID_PAGE_ID INVALID_PAGE_ID
         leaf_max_size (Nat.shiftr leaf_max_size 1)
         internal_max_size (Nat.shiftr (1 + internal_max_size) 1).

Definition IsEmpty (t : BPlusTree) : bool :=
  bool_decide (root_page_id_ t = INVALID_PAGE_ID).

(** NewPage of the pool: the next page id, on zeroed memory. *)
Definition NewPage (ty : IndexPageType) (parent_id : page_id_t)
    (max_size : nat) (t : BPlusTree) : BPlusTree * page_id_t :=
  let new_page_id := next_page_id_of t in
  (mkTree (<[new_page_id := Init ty new_page_id parent_id max_size zero_page]>
             (pages_ t))
          (new_page_id + 1) (root_page_id_ t) (begin_id_ t)
          (leaf_max_size_ t) (leaf_min_size_ t)
          (internal_max_size_ t) (internal_min_size_ t),
   new_page_id).

Definition NewInternalPage (parent_id : page_id_t) (t : BPlusTree)
  : BPlusTree * page_id_t :=
  NewPage INTERNAL_PAGE parent_id (internal_max_size_ t) t.
Definition NewLeafPage (parent_id : page_id_t) (t : BPlusTree)
  : BPlusTree * page_id_t :=
  NewPage LEAF_PAGE parent_id (leaf_max_size_ t) t.

(** for (j = n; j > i; --j) array[j] = array[j - 1] *)
Definition shift_right (p : page_id_t) (i n : nat) (ps : Pages) : Pages :=
  foldl (fun ps j => put p j (at_ ps p (j - 1)) ps) ps
        (reverse (seq (S i) (n - i))).

(** for (j = i; j + 1 < n; ++j) array[j] = array[j + 1], that is, for the
    slots j of [i, hi) *)
Definition shift_left (p : page_id_t) (i hi : nat) (ps : Pages) : Pages :=
  foldl (fun ps j => put p j (at_ ps p (S j)) ps) ps (seq i (hi - i)).

(** for (i = from, j = to; i < from + n; ++i, ++j) dst[j] = src[i] *)
Definition copy_range (dst src : page_id_t) (to from n : nat) (ps : Pages)
  : Pages :=
  foldl (fun ps k => put dst (to + k) (at_ ps src (from + k)) ps) ps (seq 0 n).

(** The same loop of the internal pages, which also turns the parent pointer
    of each child moved to dst. *)
Definition move_range (dst src : page_id_t) (to from n : nat) (ps : Pages)
  : Pages :=
  foldl (fun ps k =>
           let ps := put dst (to + k) (at_ ps src (from + k)) ps in
           SetParentPageId (ValueAt ps dst (to + k)) (GetPageId ps dst) ps)
        ps (seq 0 n).

Definition SplitLeaf (old_leaf_page : page_id_t) (t : BPlusTree)
  : BPlusTree * bool :=
  if (GetSize (pages_ t) old_leaf_page <? leaf_max_size_ t)%nat then (t, true)
  else
    let '(t, new_leaf_page) :=
      NewLeafPage (GetParentPageId (pages_ t) old_leaf_page) t in
    let t := on_pages (fun ps =>
      let ps := SetNextPageId new_leaf_page (GetNextPageId ps old_leaf_page) ps in
      let ps := SetNextPageId old_leaf_page (GetPageId ps new_leaf_page) ps in
      let ps := SetSize old_leaf_page (leaf_min_size_ t) ps in
      let ps := SetSize new_leaf_page (leaf_max_size_ t - leaf_min_size_ t) ps in
      copy_range new_leaf_page old_leaf_page 0 (leaf_min_size_ t)
                 (leaf_max_size_ t - leaf_min_size_ t) ps) t in
    if IsRootPage (pages_ t) old_leaf_page then
      let '(t, new_root_page) := NewInternalPage INVALID_PAGE_ID t in
      let t := set_root (GetPageId (pages_ t) new_root_page) t in
      let t := on_pages (fun ps =>
        let ps := SetParentPageId old_leaf_page (root_page_id_ t) ps in
        let ps := SetParentPageId new_leaf_page (root_page_id_ t) ps in
        let ps := SetSize new_root_page 2 ps in
        let ps := put_first new_root_page 1 (KeyAt ps new_leaf_page 0) ps in
        let ps := put_second new_root_page 0 (GetPageId ps old_leaf_page) ps in
        put_second new_root_page 1 (GetPageId ps new_leaf_page) ps) t in
      (t, true)
    else
      let ps := pages_ t in
      let parent := GetParentPageId ps old_leaf_page in
      let i := LowerBound (GetArray ps parent) 1 (GetSize ps parent)
                          (KeyAt ps new_leaf_page 0) in
      let ps := shift_right parent i (GetSize ps parent) ps in
      let ps := put_first parent i (KeyAt ps new_leaf_page 0) ps in
      let ps := put_second parent i (GetPageId ps new_leaf_page) ps in
      let ps := IncreaseSize parent 1 ps in
      (set_pages ps t, (GetSize ps parent <=? internal_max_size_ t)%nat).

Definition SplitInternal (old_internal_page : page_id_t) (t : BPlusTree)
  : BPlusTree * bool :=
  if (GetSize (pages_ t) old_internal_page <=? internal_max_size_ t)%nat
  then (t, true)
  else
    let '(t, new_internal_page) :=
      NewInternalPage (GetParentPageId (pages_ t) old_internal_page) t in
    let t := on_pages (fun ps =>
      let ps := SetSize new_internal_page
                  (internal_max_size_ t - internal_min_size_ t + 1) ps in
      let ps := SetSize old_internal_page (internal_min_size_ t) ps in
      let ps := move_range new_internal_page old_internal_page 1
                  (internal_min_size_ t + 1)
                  (internal_max_size_ t - internal_min_size_ t) ps in
      let ps := put_second new_internal_page 0
                  (ValueAt ps old_internal_page (internal_min_size_ t)) ps in
      SetParentPageId (ValueAt ps new_internal_page 0)
                      (GetPageId ps new_internal_page) ps) t in
    if IsRootPage (pages_ t) old_internal_page then
      let '(t, new_root_page) := NewInternalPage INVALID_PAGE_ID t in
      let t := set_root (GetPageId (pages_ t) new_root_page) t in
      let t := on_pages (fun ps =>
        let ps := SetSize new_root_page 2 ps in
        let ps := SetParentPageId old_internal_page (root_page_id_ t) ps in
        let ps := SetParentPageId new_internal_page (root_page_id_ t) ps in
        let ps := put_first new_root_page 1
                    (KeyAt ps old_internal_page (internal_min_size_ t)) ps in
        let ps := put_second new_root_page 0
                    (GetPageId ps old_internal_page) ps in
        put_second new_root_page 1 (GetPageId ps new_internal_page) ps) t in
      (t, true)
    else
      let ps := pages_ t in
      let parent := GetParentPageId ps old_internal_page in
      let i := LowerBound (GetArray ps parent) 1 (GetSize ps parent)
                 (KeyAt ps old_internal_page (internal_min_size_ t + 1)) in
      let ps := shift_right parent i (GetSize ps parent) ps in
      let ps := put_first parent i
                  (KeyAt ps old_internal_page (internal_min_size_ t)) ps in
      let ps := put_second parent i (GetPageId ps new_internal_page) ps in
      let ps := IncreaseSize parent 1 ps in
      (set_pages ps t, (GetSize ps parent <=? internal_max_size_ t)%nat).

(** The descent shared by GetValue, Insert, Remove and Begin(key):
    while the current page is not a leaf, take the child before the upper
    bound of the key among the slots [1, size).  None: the fuel ran out. *)
Fixpoint find_leaf (fuel : nat) (ps : Pages) (cur : page_id_t)
    (key : KeyType) : option page_id_t :=
  match fuel with
  | O => None
  | S fuel' =>
    if IsLeafPage ps cur then Some cur
    else
      let i := (UpperBound (GetArray ps cur) 1 (GetSize ps cur) key - 1)%nat in
      find_leaf fuel' ps (ValueAt ps cur i) key
  end.

Definition GetValue (fuel : nat) (t : BPlusTree) (key : KeyType)
  : option (option Z) :=
  if IsEmpty t then Some None
  else
    let ps := pages_ t in
    leaf_page ← find_leaf fuel ps (root_page_id_ t) key;
    let i := LowerBound (GetArray ps leaf_page) 0 (GetSize ps leaf_page) key in
    if (i <? GetSize ps leaf_page)%nat && (KeyAt ps leaf_page i =? key)
    then Some (Some (ValueAt ps leaf_page i))
    else Some None.

(** while (!SplitInternal(cur)) cur = the parent of cur *)
Fixpoint split_loop (fuel : nat) (t : BPlusTree) (cur : page_id_t)
  : option BPlusTree :=
  match fuel with
  | O => None
  | S fuel' =>
    let '(t, done) := SplitInternal cur t in
    if done then Some t
    else split_loop fuel' t (GetParentPageId (pages_ t) cur)
  end.

Definition Insert (fuel : nat) (t : BPlusTree) (key : KeyType) (value : Z)
  : option (BPlusTree * bool) :=
  if IsEmpty t then
    let '(t, new_leaf_page) := NewLeafPage INVALID_PAGE_ID t in
    let t := on_pages (fun ps =>
      let ps := SetNextPageId new_leaf_page INVALID_PAGE_ID ps in
      SetSize new_leaf_page 1 ps) t in
    let t := set_root (GetPageId (pages_ t) new_leaf_page) t in
    let t := set_begin (root_page_id_ t) t in
    Some (on_pages (put new_leaf_page 0 (key, value)) t, true)
  else
    leaf_page ← find_leaf fuel (pages_ t) (root_page_id_ t) key;
    let ps := pages_ t in
    let i := LowerBound (GetArray ps leaf_page) 0 (GetSize ps leaf_page) key in
    if (i <? GetSize ps leaf_page)%nat && (key =? KeyAt ps leaf_page i)
    then Some (t, false)
    else
      let ps := shift_right leaf_page i (GetSize ps leaf_page) ps in
      let ps := put_first leaf_page i key ps in
      let ps := put_second leaf_page i value ps in
      let ps := IncreaseSize leaf_page 1 ps in
      let '(t, done) := SplitLeaf leaf_page (set_pages ps t) in
      if done then Some (t, true)
      else
        t ← split_loop fuel t (GetParentPageId (pages_ t) leaf_page);
        Some (t, true).

(** MergeLeaf and MergeInternal take the page pointer by reference and may
    move it to the left sibling: they return the pointer with the flag. *)
Definition MergeLeaf (old_leaf_page : page_id_t) (t : BPlusTree)
  : BPlusTree * page_id_t * bool :=
  let ps := pages_ t in
  if (leaf_min_size_ t <=? GetSize ps old_leaf_page)%nat
  then (t, old_leaf_page, true)
  else if IsRootPage ps old_leaf_page then
    if (GetSize ps old_leaf_page <=? 0)%nat
    then (set_begin INVALID_PAGE_ID (set_root INVALID_PAGE_ID t),
          old_leaf_page, true)
    else (t, old_leaf_page, true)
  else
    let parent := GetParentPageId ps old_leaf_page in
    let i := (UpperBound (GetArray ps parent) 1 (GetSize ps parent)
                         (KeyAt ps old_leaf_page 0) - 1)%nat in
    let borrow_left :=
      (1 <=? i)%nat &&
      (leaf_min_size_ t <? GetSize ps (ValueAt ps parent (i - 1)))%nat in
    let has_right := (i + 1 <? GetSize ps parent)%nat in
    let borrow_right :=
      has_right &&
      (leaf_min_size_ t <? GetSize ps (ValueAt ps parent (i + 1)))%nat in
    if borrow_left then
      let leaf_node := ValueAt ps parent (i - 1) in
      let ps := shift_right old_leaf_page 0 (GetSize ps old_leaf_page) ps in
      let ps := put old_leaf_page 0
                    (at_ ps leaf_node (GetSize ps leaf_node - 1)) ps in
      let ps := IncreaseSize leaf_node (-1) ps in
      let ps := IncreaseSize old_leaf_page 1 ps in
      let ps := put_first parent i (KeyAt ps old_leaf_page 0) ps in
      (set_pages ps t, old_leaf_page, true)
    else if borrow_right then
      let right_node := ValueAt ps parent (i + 1) in
      let ps := put old_leaf_page (GetSize ps old_leaf_page)
                    (at_ ps right_node 0) ps in
      let ps := IncreaseSize old_leaf_page 1 ps in
      let ps := IncreaseSize right_node (-1) ps in
      let ps := shift_left right_node 0 (S (GetSize ps right_node)) ps in
      let ps := put_first parent (i + 1) (KeyAt ps right_node 0) ps in
      (set_pages ps t, old_leaf_page, true)
    else if (1 <=? i)%nat then
      let left_node := ValueAt ps parent (i - 1) in
      let ps := copy_range left_node old_leaf_page (GetSize ps left_node) 0
                           (GetSize ps old_leaf_page) ps in
      let ps := IncreaseSize left_node
                  (Z.of_nat (GetSize ps old_leaf_page)) ps in
      let ps := shift_left parent i (GetSize ps parent - 1) ps in
      let ps := IncreaseSize parent (-1) ps in
      let ps := SetNextPageId left_node (GetNextPageId ps old_leaf_page) ps in
      if IsRootPage ps parent && (GetSize ps parent <=? 1)%nat then
        let ps := SetParentPageId left_node INVALID_PAGE_ID ps in
        (set_root (GetPageId ps left_node) (set_pages ps t),
         old_leaf_page, true)
      else
        (set_pages ps t, left_node,
         (internal_min_size_ t <=? GetSize ps parent)%nat)
    else if has_right then
      let right_node := ValueAt ps parent (i + 1) in
      let ps := copy_range old_leaf_page right_node (GetSize ps old_leaf_page) 0
                           (GetSize ps right_node) ps in
      let ps := IncreaseSize old_leaf_page
                  (Z.of_nat (GetSize ps right_node)) ps in
      let ps := shift_left parent (i + 1) (GetSize ps parent - 1) ps in
      let ps := IncreaseSize parent (-1) ps in
      let ps := SetNextPageId old_leaf_page (GetNextPageId ps right_node) ps in
      if IsRootPage ps parent && (GetSize ps parent <=? 1)%nat then
        let ps := SetParentPageId old_leaf_page INVALID_PAGE_ID ps in
        (set_root (GetPageId ps old_leaf_page) (set_pages ps t),
         old_leaf_page, true)
      else
        (set_pages ps t, old_leaf_page,
         (internal_min_size_ t <=? GetSize ps parent)%nat)
    else (t, old_leaf_page, false).

(** for (j = to, k = 1; k < n; ++j, ++k): dst[j] = src[k], and the child
    moved is turned to dst. *)
Definition merge_range (dst src : page_id_t) (to n : nat) (ps : Pages)
  : Pages :=
  foldl (fun ps k =>
           let ps := put dst (to + k) (at_ ps src (1 + k)) ps in
           SetParentPageId (ValueAt ps dst (to + k)) (GetPageId ps dst) ps)
        ps (seq 0 (n - 1)).

Definition MergeInternal (old_internal_page : page_id_t) (t : BPlusTree)
  : BPlusTree * page_id_t * bool :=
  let ps := pages_ t in
  if (internal_min_size_ t <=? GetSize ps old_internal_page)%nat
     || IsRootPage ps old_internal_page
  then (t, old_internal_page, true)
  else
    let parent := GetParentPageId ps old_internal_page in
    let i := (UpperBound (GetArray ps parent) 1 (GetSize ps parent)
                         (KeyAt ps old_internal_page 1) - 1)%nat in
    let borrow_left :=
      (1 <=? i)%nat &&
      (internal_min_size_ t <? GetSize ps (ValueAt ps parent (i - 1)))%nat in
    let has_right := (i + 1 <=? GetSize ps parent)%nat in
    let borrow_right :=
      has_right &&
      (internal_min_size_ t <? GetSize ps (ValueAt ps parent (i + 1)))%nat in
    if borrow_left then
      let left_node := ValueAt ps parent (i - 1) in
      let ps := shift_right old_internal_page 0
                            (GetSize ps old_internal_page) ps in
      let ps := put_first old_internal_page 1 (KeyAt ps parent i) ps in
      let ps := put_first parent i
                  (KeyAt ps left_node (GetSize ps left_node - 1)) ps in
      let ps := put_second old_internal_page 0
                  (ValueAt ps left_node (GetSize ps left_node - 1)) ps in
      let ps := IncreaseSize old_internal_page 1 ps in
      let ps := IncreaseSize left_node (-1) ps in
      let ps := SetParentPageId (ValueAt ps old_internal_page 0)
                                (GetPageId ps old_internal_page) ps in
      (set_pages ps t, old_internal_page, true)
    else if borrow_right then
      let right_node := ValueAt ps parent (i + 1) in
      let ps := put_first old_internal_page (GetSize ps old_internal_page)
                          (KeyAt ps parent (i + 1)) ps in
      let ps := put_second old_internal_page (GetSize ps old_internal_page)
                           (ValueAt ps right_node 0) ps in
      let ps := put_first parent (i + 1) (KeyAt ps right_node 1) ps in
      let ps := shift_left right_node 0 (GetSize ps right_node - 1) ps in
      let ps := IncreaseSize right_node (-1) ps in
      let ps := IncreaseSize old_internal_page 1 ps in
      let ps := SetParentPageId
                  (ValueAt ps old_internal_page
                           (GetSize ps old_internal_page - 1))
                  (GetPageId ps old_internal_page) ps in
      (set_pages ps t, old_internal_page, true)
    else if (1 <=? i)%nat then
      let left_node := ValueAt ps parent (i - 1) in
      let ps := put_first left_node (GetSize ps left_node)
                          (KeyAt ps parent i) ps in
      let ps := put_second left_node (GetSize ps left_node)
                           (ValueAt ps old_internal_page 0) ps in
      let ps := SetParentPageId (ValueAt ps old_internal_page 0)
                                (GetPageId ps left_node) ps in
      let ps := merge_range left_node old_internal_page
                  (GetSize ps left_node + 1)
                  (GetSize ps old_internal_page) ps in
      let ps := IncreaseSize left_node
                  (Z.of_nat (GetSize ps old_internal_page)) ps in
      let ps := shift_left parent i (GetSize ps parent - 1) ps in
      let ps := IncreaseSize parent (-1) ps in
      if IsRootPage ps parent && (GetSize ps parent <=? 1)%nat then
        let t := set_root (GetPageId ps left_node) (set_pages ps t) in
        (on_pages (SetParentPageId left_node INVALID_PAGE_ID) t,
         left_node, true)
      else
        (set_pages ps t, left_node,
         (internal_min_size_ t <=? GetSize ps parent)%nat)
    else if has_right then
      let right_node := ValueAt ps parent (i + 1) in
      let ps := put_first old_internal_page (GetSize ps old_internal_page)
                          (KeyAt ps parent (i + 1)) ps in
      let ps := put_second old_internal_page (GetSize ps old_internal_page)
                           (ValueAt ps right_node 0) ps in
      let ps := SetParentPageId (ValueAt ps right_node 0)
                                (GetPageId ps old_internal_page) ps in
      let ps := merge_range old_internal_page right_node
                  (GetSize ps old_internal_page + 1)
                  (GetSize ps right_node) ps in
      let ps := shift_left parent (i + 1) (GetSize ps parent) ps in
      let ps := IncreaseSize parent (-1) ps in
      let ps := IncreaseSize old_internal_page
                  (Z.of_nat (GetSize ps right_node)) ps in
      if IsRootPage ps parent && (GetSize ps parent <=? 1)%nat then
        let t := set_root (GetPageId ps old_internal_page) (set_pages ps t) in
        (on_pages (SetParentPageId old_internal_page INVALID_PAGE_ID) t,
         old_internal_page, true)
      else
        (set_pages ps t, old_internal_page,
         (internal_min_size_ t <=? GetSize ps parent)%nat)
    else (t, old_internal_page, false).

(** while (!MergeInternal(cur)) cur = the parent of cur *)
Fixpoint merge_loop (fuel : nat) (t : BPlusTree) (cur : page_id_t)
  : option BPlusTree :=
  match fuel with
  | O => None
  | S fuel' =>
    let '(t, cur, done) := MergeInternal cur t in
    if done then Some t
    else merge_loop fuel' t (GetParentPageId (pages_ t) cur)
  end.

Definition Remove (fuel : nat) (t : BPlusTree) (key : KeyType)
  : option BPlusTree :=
  if IsEmpty t then Some t
  else
    leaf_page ← find_leaf fuel (pages_ t) (root_page_id_ t) key;
    let ps := pages_ t in
    let i := LowerBound (GetArray ps leaf_page) 0 (GetSize ps leaf_page) key in
    if ((i <? GetSize ps leaf_page)%nat
        && negb (key =? KeyAt ps leaf_page i))
       || (GetSize ps leaf_page <=? i)%nat
    then Some t
    else
      let ps := shift_left leaf_page i (GetSize ps leaf_page - 1) ps in
      let ps := IncreaseSize leaf_page (-1) ps in
      let '(t, leaf_page, done) := MergeLeaf leaf_page (set_pages ps t) in
      if done then Some t
      else merge_loop fuel t (GetParentPageId (pages_ t) leaf_page).

(** The iterator: the leaf it stands on, if any, and the slot. *)
Record IndexIterator := mkIter {
  index_ : nat;
  leaf_page_ : option page_id_t
}.

Definition iterator_at (page_id : page_id_t) (pos : nat) : IndexIterator :=
  mkIter pos (if bool_decide (page_id = INVALID_PAGE_ID) then None
              else Some page_id).

Definition Begin (t : BPlusTree) : IndexIterator := iterator_at (begin_id_ t) 0.

Definition IsEnd (it : IndexIterator) : bool :=
  bool_decide (leaf_page_ it = None).

(** operator* *)
Definition deref (ps : Pages) (it : IndexIterator) : option MappingType :=
  leaf ← leaf_page_ it; Some (at_ ps leaf (index_ it)).

(** operator++ *)
Definition incr (ps : Pages) (it : IndexIterator) : IndexIterator :=
  match leaf_page_ it with
  | None => it
  | Some leaf =>
    if (index_ it + 1 <? GetSize ps leaf)%nat
    then mkIter (index_ it + 1) (Some leaf)
    else iterator_at (GetNextPageId ps leaf) 0
  end.

(** The in-order traversal: from Begin, the entries under the iterator
    until it is at the end.  None: the fuel ran out. *)
Fixpoint traverse (fuel : nat) (ps : Pages) (it : IndexIterator)
  : option (list MappingType) :=
  match fuel with
  | O => None
  | S fuel' =>
    match deref ps it with
    | None => Some []
    | Some x => rest ← traverse fuel' ps (incr ps it); Some (x :: rest)
    end
  end.

Definition scan (fuel : nat) (t : BPlusTree) : option (list MappingType) :=
  traverse fuel (pages_ t) (Begin t).


(** A run of operations from a tree. *)
Inductive Op := OpInsert (key : KeyType) (value : Z) | OpRemove (key : KeyType).

Definition apply_op (fuel : nat) (t : BPlusTree) (op : Op)
  : option BPlusTree :=
  match op with
  | OpInsert key value => fst <$> Insert fuel t key value
  | OpRemove key => Remove fuel t key
  end.

Fixpoint run (fuel : nat) (t : BPlusTree) (ops : list Op)
  : option BPlusTree :=
  match ops with
  | [] => Some t
  | op :: ops => t' ← apply_op fuel t op; run fuel t' ops
  end.

End BPT.

(** ** execution/nested_loop_join_executor.cpp

    The child executors are the lists of tuples their [Next] yields; a
    tuple is the list of its column values, and [Tuple::GetValue(schema, k)]
    is its k-th value ([None] outside the tuple).  The join predicate is
    embedded as its [EvaluateJoin] function, whose result is a BOOLEAN
    value: true, false or NULL.  [None] is a read outside a tuple or the
    fuel of a loop running out. *)
Module NLJ.
Import Exec.

(** Modelled from the spec: the join types of the binder
    (binder/table_ref/bound_join_ref.h is not among the sources). *)
Inductive JoinType := INVALID | LEFT | RIGHT | INNER | OUTER.

#[global] Instance JoinType_eq_dec : EqDecision JoinType.
Proof. solve_decision. Defined.

Record NestedLoopJoinExecutor := mkNLJ {
  left_executor_ : list Tuple;
  left_tuple_ : Tuple;
  right_tuples_ : list Tuple;
  j_ : nat
}.

Section Join.
Variable join_type : JoinType.
Variable predicate : Tuple -> Tuple -> CmpBool.
(** The column counts of the output schemas of the two children, and the
    column types of the right one. *)
Variable left_columns : nat.
Variable right_schema : list TypeId.

(** The constructor throws NotImplementedException for a join type other
    than LEFT and INNER. *)
Definition create : option unit :=
  if negb (bool_decide (join_type = LEFT) || bool_decide (join_type = INNER))
  then None else Some tt.

(** [Init]: the right child is drained into [right_tuples_]. *)
Definition Init (left right : list Tuple) : NestedLoopJoinExecutor :=
  mkNLJ left [] right (length right).

(** for (k = 0; k < n; ++k) values.push_back(t.GetValue(schema, k)) *)
Definition columns (t : Tuple) (n : nat) : option (list Value) :=
  mapM (fun k => t !! k) (seq 0 n).

Definition joined (l r : Tuple) : option Tuple :=
  vl ← columns l left_columns;
  vr ← columns r (length right_schema);
  Some (vl ++ vr).

Definition null_padded (l : Tuple) : option Tuple :=
  vl ← columns l left_columns;
  Some (vl ++ (VNull <$> right_schema)).

(** !match.IsNull() && match.GetAs<bool>() *)
Definition matches (l r : Tuple) : bool := bool_decide (predicate l r = CmpTrue).

(** while (j_ < right_tuples_.size()): the tuples from [j_] on are [rest].
    The result is the new [j_] and the tuple returned from inside the loop,
    if any. *)
Fixpoint match_loop (l : Tuple) (rest : list Tuple) (j : nat)
  : option (nat * option Tuple) :=
  match rest with
  | [] => Some (j, None)
  | r :: rest' =>
      if matches l r then t ← joined l r; Some (S j, Some t)
      else match_loop l rest' (S j)
  end.

(** if (j_ == right_tuples_.size() && !left_executor_->Next(&left_tuple_))
      return false;
    if (j_ == right_tuples_.size()) j_ = 0;
    [None] is the return. *)
Definition advance (s : NestedLoopJoinExecutor) : option NestedLoopJoinExecutor :=
  if Nat.eqb (j_ s) (length (right_tuples_ s)) then
    match left_executor_ s with
    | [] => None
    | t :: rest => Some (mkNLJ rest t (right_tuples_ s) 0)
    end
  else Some s.

(** The while (true) loop of [Next]; one round either returns or goes on
    with the next tuple of the left child. *)
Fixpoint Next_loop (fuel : nat) (s : NestedLoopJoinExecutor)
  : option (NestedLoopJoinExecutor * option Tuple) :=
  match fuel with
  | O => None
  | S fuel' =>
      match advance s with
      | None => Some (s, None)
      | Some s =>
          let start := j_ s in
          '(j, r) ← match_loop (left_tuple_ s)
                      (drop (j_ s) (right_tuples_ s)) (j_ s);
          let s := mkNLJ (left_executor_ s) (left_tuple_ s) (right_tuples_ s) j in
          match r with
          | Some t => Some (s, Some t)
          | None =>
              if bool_decide (join_type = INNER) then Next_loop fuel' s
              else if Nat.eqb start 0 && Nat.eqb j (length (right_tuples_ s))
              then t ← null_padded (left_tuple_ s); Some (s, Some t)
              else Next_loop fuel' s
          end
      end
  end.

(** A round that returns nothing leaves [j_] at the end, so all rounds but
    the first take a tuple of the left child. *)
Definition Next (s : NestedLoopJoinExecutor)
  : option (NestedLoopJoinExecutor * option Tuple) :=
  Next_loop (2 + length (left_executor_ s)) s.

(** The caller's loop: [Next] until it returns false. *)
Fixpoint pull (fuel : nat) (s : NestedLoopJoinExecutor) : option (list Tuple) :=
  match fuel with
  | O => None
  | S f =>
      '(s', r) ← Next s;
      match r with
      | None => Some []
      | Some t => cons t <$> pull f s'
      end
  end.

Definition execute (fuel : nat) (left right : list Tuple) : option (list Tuple) :=
  pull fuel (Init left right).

End Join.
End NLJ.

(** ** primer/p0_trie.h

    A node keeps, next to [key_char_], [is_end_] and [children_], the
    value of a [TrieNodeWithValue<T>] ([None] in a plain [TrieNode]);
    [type_of] gives the [T] of a value.  A [std::unique_ptr<TrieNode> *]
    is the path of key characters that leads from [root_] to the slot it
    points to: [deref] reads through it and [assign] stores through it.
    A call returns [None] where it dereferences a pointer to no node. *)
Module Trie.

Definition char : Type := Ascii.ascii.

Section Trie.
Context {TypeId Val : Type} `{EqDecision TypeId}.
Variable type_of : Val -> TypeId.

#[warnings="-register-all"]
Inductive TrieNode : Type :=
  mkNode (key_char : char) (is_end : bool) (value : option Val)
         (children : gmap char TrieNode).

Definition key_char_ (n : TrieNode) : char :=
  match n with mkNode c _ _ _ => c end.
Definition is_end_ (n : TrieNode) : bool :=
  match n with mkNode _ e _ _ => e end.
Definition value_ (n : TrieNode) : option Val :=
  match n with mkNode _ _ v _ => v end.
Definition children_ (n : TrieNode) : gmap char TrieNode :=
  match n with mkNode _ _ _ m => m end.

(** [TrieNode(char key_char)] *)
Definition TrieNode_new (key_char : char) : TrieNode :=
  mkNode key_char false None ∅.

(** [TrieNode(TrieNode &&other_trie_node)]: a plain node with the character,
    the end flag and the children of the other one. *)
Definition TrieNode_move (other : TrieNode) : TrieNode :=
  mkNode (key_char_ other) (is_end_ other) None (children_ other).

(** [TrieNodeWithValue(TrieNode &&trieNode, const T &value)] *)
Definition TrieNodeWithValue_move (n : TrieNode) (value : Val) : TrieNode :=
  mkNode (key_char_ n) true (Some value) (children_ n).

Definition HasChild (n : TrieNode) (key_char : char) : bool :=
  bool_decide (is_Some (children_ n !! key_char)).

Definition HasChildren (n : TrieNode) : bool :=
  negb (Nat.eqb (size (children_ n)) 0).

Definition IsEndNode (n : TrieNode) : bool := is_end_ n.

Definition GetKeyChar (n : TrieNode) : char := key_char_ n.

(** The node after the call; where the call returns nullptr the node is as
    before. *)
Definition InsertChildNode (n : TrieNode) (key_char : char) (child : TrieNode)
  : TrieNode :=
  if negb (bool_decide (key_char_ child = key_char)) || HasChild n key_char
  then n
  else mkNode (key_char_ n) (is_end_ n) (value_ n)
         (<[key_char := child]> (children_ n)).

(** The node in the slot the returned pointer points to; [None] is nullptr. *)
Definition GetChildNode (n : TrieNode) (key_char : char) : option TrieNode :=
  children_ n !! key_char.

Definition RemoveChildNode (n : TrieNode) (key_char : char) : TrieNode :=
  mkNode (key_char_ n) (is_end_ n) (value_ n) (delete key_char (children_ n)).

Definition SetEndNode (n : TrieNode) (is_end : bool) : TrieNode :=
  mkNode (key_char_ n) is_end (value_ n) (children_ n).

Record Trie := mkTrie { root_ : TrieNode }.

(** [Trie() : root_(new TrieNode('\0'))] *)
Definition create : Trie := mkTrie (TrieNode_new Ascii.zero).

Definition Ptr : Type := list char.

(** [*p], from the node in [root_]. *)
Fixpoint deref (root : TrieNode) (p : Ptr) : option TrieNode :=
  match p with
  | [] => Some root
  | c :: p' => child ← children_ root !! c; deref child p'
  end.

(** [*p = node]: the root after the store. *)
Fixpoint assign (root : TrieNode) (p : Ptr) (node : TrieNode) : TrieNode :=
  match p with
  | [] => node
  | c :: p' =>
      match children_ root !! c with
      | Some child =>
          mkNode (key_char_ root) (is_end_ root) (value_ root)
            (<[c := assign child p' node]> (children_ root))
      | None => root
      end
  end.

(** for (const char it : key): [cur] goes down, making the nodes that are
    missing. *)
Fixpoint Insert_loop (key : list char) (root : TrieNode) (cur : Ptr)
  : option (TrieNode * Ptr) :=
  match key with
  | [] => Some (root, cur)
  | it :: key' =>
      n ← deref root cur;
      match GetChildNode n it with
      | None =>
          let root := assign root cur (InsertChildNode n it (TrieNode_new it)) in
          n ← deref root cur;
          _ ← GetChildNode n it;
          Insert_loop key' root (cur ++ [it])
      | Some _ => Insert_loop key' root (cur ++ [it])
      end
  end.

Definition Insert (t : Trie) (key : string) (value : Val) : option (Trie * bool) :=
  if bool_decide (key = String.EmptyString) then Some (t, false)
  else
    '(root, cur) ← Insert_loop (String.list_ascii_of_string key) (root_ t) [];
    n ← deref root cur;
    if IsEndNode n then Some (mkTrie root, false)
    else Some (mkTrie (assign root cur (TrieNodeWithValue_move n value)), true).

(** The first loop of [Remove]: [cur] goes down and the pointers passed are
    pushed on [st].  The inner [None] is [return false]. *)
Fixpoint Remove_find (key : list char) (root : TrieNode) (cur : Ptr)
    (st : list Ptr) : option (option (Ptr * list Ptr)) :=
  match key with
  | [] => Some (Some (cur, st))
  | it :: key' =>
      n ← deref root cur;
      match GetChildNode n it with
      | None => Some None
      | Some _ => Remove_find key' root (cur ++ [it]) (st ++ [cur])
      end
  end.

(** The second loop of [Remove], for (j = st.size() - 1; j != -1; --j),
    with [k] = j + 1. *)
Fixpoint Remove_prune (k : nat) (root : TrieNode) (cur : Ptr) (st : list Ptr)
  : option TrieNode :=
  match k with
  | O => Some root
  | S j =>
      n ← deref root cur;
      if IsEndNode n || HasChildren n then Some root
      else
        parent ← st !! j;
        pn ← deref root parent;
        Remove_prune j
          (assign root parent (RemoveChildNode pn (GetKeyChar n))) parent st
  end.

Definition Remove (t : Trie) (key : string) : option (Trie * bool) :=
  if bool_decide (key = String.EmptyString) then Some (t, false)
  else
    found ← Remove_find (String.list_ascii_of_string key) (root_ t) [] [];
    match found with
    | None => Some (t, false)
    | Some (cur, st) =>
        n ← deref (root_ t) cur;
        if negb (IsEndNode n) then Some (t, false)
        else if HasChildren n
        then Some (mkTrie (assign (root_ t) cur (TrieNode_move n)), true)
        else
          let root := assign (root_ t) cur (SetEndNode n false) in
          root ← Remove_prune (length st) root cur st;
          Some (mkTrie root, true)
    end.

(** The loop of [GetValue]; the inner [None] is [return {}]. *)
Fixpoint GetValue_find (key : list char) (root : TrieNode) (cur : Ptr)
  : option (option Ptr) :=
  match key with
  | [] => Some (Some cur)
  | it :: key' =>
      n ← deref root cur;
      match GetChildNode n it with
      | None => Some None
      | Some _ => GetValue_find key' root (cur ++ [it])
      end
  end.

(** [GetValue<T>]: the inner result is the value returned with
    [*success = true], or [None] where [*success] stays false. *)
Definition GetValue (T : TypeId) (t : Trie) (key : string) : option (option Val) :=
  if bool_decide (key = String.EmptyString) then Some None
  else
    found ← GetValue_find (String.list_ascii_of_string key) (root_ t) [];
    match found with
    | None => Some None
    | Some cur =>
        n ← deref (root_ t) cur;
        if IsEndNode n then
          match value_ n with
          | Some v => if bool_decide (type_of v = T) then Some (Some v) else Some None
          | None => Some None
          end
        else Some None
    end.

End Trie.

Arguments TrieNode : clear implicits.
Arguments Trie : clear implicits.

End Trie.

(* ===================================================================== *)
(** * Part II: properties                                                 *)
(* ===================================================================== *)

(** ** Extendible hash table *)

Definition eht_insert_all (kvs : list (Z * string)) : option (EHT.ExtendibleHashTable string) :=
  foldl (fun ot kv => t ← ot; EHT.Insert 64 t kv.1 kv.2) (Some (EHT.create 2)) kvs.

Definition eht_s2_input : list (Z * string) :=
  [(15, "a"); (14, "b"); (23, "c"); (11, "d"); (9, "e")]%string.

(** C7: with bucket size 2, after inserting 15, 14, 23, 11, 9 the table has
    four buckets, and the buckets behind directory slots 3 and 7 both have
    local depth 3. *)
Theorem eht_insert_multiple_split :
  exists t, eht_insert_all eht_s2_input = Some t /\
    EHT.GetNumBuckets t = 4 /\
    length (EHT.heap_ t) = 4%nat /\
    EHT.GetLocalDepth t 3 = Some 3 /\
    EHT.GetLocalDepth t 7 = Some 3.
Proof.
  eexists. split; [vm_compute; reflexivity|].
  repeat split.
Qed.

(** ** LRU-K replacer *)

(** A replacer state is well formed when [k_ >= 1], the clock has not
    passed [INT64_MAX], every history holds at most [k_] timestamps and
    every timestamp was handed out by the clock. *)
Definition lruk_hist_ok (k cur : Z) (h : list Z) : bool :=
  (Z.of_nat (length h) <=? k) && forallb (fun t => (0 <=? t) && (t <? cur)) h.

Definition lruk_wf (s : LRUK.LRUKReplacer) : bool :=
  (1 <=? LRUK.k_ s) && (0 <=? LRUK.current_timestamp_ s)
  && (LRUK.current_timestamp_ s <=? LRUK.INT64_MAX)
  && forallb (fun e => lruk_hist_ok (LRUK.k_ s) (LRUK.current_timestamp_ s) e.1)
       (LRUK.replacer_ s).

(** Frame [f] is a candidate for eviction: evictable, with history [h]. *)
Definition lruk_cand (l : list (list Z * bool)) (f : nat) (h : list Z) : Prop :=
  l !! f = Some (h, true) /\ h <> [].

(** The timestamp of the [k]-th most recent access; [None] is a backward
    k-distance of +infinity. *)
Definition backward_k (k : Z) (h : list Z) : option Z :=
  reverse h !! Z.to_nat (k - 1).

Section EvictPolicy.
Variables k cur : Z.
Hypothesis Hk : 1 <= k.
Hypothesis Hcur : cur <= LRUK.INT64_MAX.

Inductive EvictInv (l : list (list Z * bool)) (st : LRUK.EvictLocals) : Prop :=
| inv_none :
    (forall f h, ~ lruk_cand l f h) -> st = LRUK.Evict_init -> EvictInv l st
| inv_young f h t :
    lruk_cand l f h -> Z.of_nat (length h) < k -> head h = Some t ->
    st = LRUK.mkLocals LRUK.INT64_MAX t true (Some f) f ->
    (forall g hg tg, lruk_cand l g hg -> Z.of_nat (length hg) < k ->
       head hg = Some tg -> t <= tg) ->
    EvictInv l st
| inv_old f h t :
    lruk_cand l f h -> head h = Some t ->
    (forall g hg, lruk_cand l g hg -> k <= Z.of_nat (length hg)) ->
    st = LRUK.mkLocals (cur - t) LRUK.INT64_MAX true (Some f) f ->
    0 < cur - t ->
    (forall g hg tg, lruk_cand l g hg -> head hg = Some tg -> t <= tg) ->
    EvictInv l st.

Lemma lruk_cand_snoc l it g hg :
  lruk_cand (l ++ [it]) g hg <->
  lruk_cand l g hg \/ (g = length l /\ it = (hg, true) /\ hg <> []).
Proof.
  unfold lruk_cand. split.
  - intros [Hl Hne]. apply lookup_snoc_Some in Hl as [[_ Hl]|[-> <-]]; eauto.
  - intros [[Hl Hne]|(-> & -> & Hne)]; split; auto.
    + apply lookup_app_l_Some; auto.
    + apply list_lookup_middle; auto.
Qed.

Lemma lruk_cand_mono l it g hg : lruk_cand l g hg -> lruk_cand (l ++ [it]) g hg.
Proof. intros. apply lruk_cand_snoc; auto. Qed.

Lemma wrap64_small t : 0 <= t < cur -> LRUK.wrap64 (cur - t) = cur - t.
Proof.
  intros. unfold LRUK.wrap64. apply Z.mod_small.
  unfold LRUK.INT64_MAX in Hcur. lia.
Qed.

Lemma Evict_body_inv l it st :
  lruk_hist_ok k cur it.1 = true ->
  EvictInv l st ->
  EvictInv (l ++ [it]) (LRUK.Evict_body k cur (length l) it st).
Proof.
  intros Hok Hinv. destruct it as [h ev]. simpl in Hok.
  assert (Hskip : (ev = false \/ h = []) ->
     forall g hg, lruk_cand (l ++ [(h, ev)]) g hg -> lruk_cand l g hg).
  { intros Hs g hg Hc. apply lruk_cand_snoc in Hc as [?|(_ & Heq & Hne)]; auto.
    inversion Heq; subst. destruct Hs; congruence. }
  assert (Hkeep : (ev = false \/ h = []) -> EvictInv (l ++ [(h, ev)]) st).
  { intros Hs.
    destruct Hinv as [Hno ->|f h' t Hc Hl Hh -> Hmin|f h' t Hc Hh Hall -> Hpos Hmin].
    - apply inv_none; [|reflexivity]. intros g hg Hg. eapply Hno, Hskip; eauto.
    - apply (inv_young _ _ f h' t); auto using lruk_cand_mono.
      intros g hg tg Hg. eapply Hmin, Hskip; eauto.
    - apply (inv_old _ _ f h' t); auto using lruk_cand_mono.
      + intros g hg Hg. eapply Hall, Hskip; eauto.
      + intros g hg tg Hg. eapply Hmin, Hskip; eauto. }
  destruct h as [|front tl], ev;
    [apply Hkeep; auto|apply Hkeep; auto| |apply Hkeep; auto].
  clear Hskip Hkeep. unfold LRUK.Evict_body.
  unfold lruk_hist_ok in Hok. apply andb_true_iff in Hok as [Hlen Hts].
  simpl in Hts. apply andb_true_iff in Hts as [Hfront _].
  assert (Hf : 0 <= front < cur) by lia.
  assert (Hnew : lruk_cand (l ++ [(front :: tl, true)]) (length l) (front :: tl)).
  { apply lruk_cand_snoc. right. repeat split; congruence. }
  assert (Hsplit : forall g hg tg (P : Prop),
     lruk_cand (l ++ [(front :: tl, true)]) g hg -> head hg = Some tg ->
     (lruk_cand l g hg -> P) -> (hg = front :: tl -> tg = front -> P) -> P).
  { intros g hg tg P Hg Hhd H1 H2.
    apply lruk_cand_snoc in Hg as [Hg|(_ & Heq & _)]; auto.
    inversion Heq; subst. simpl in Hhd. inversion Hhd. auto. }
  destruct (Z.ltb_spec (Z.of_nat (length (front :: tl))) k) as [Hlt|Hge].
  - (* fewer than k accesses *)
    destruct Hinv as [Hno ->|f h t Hc Hl Hh -> Hmin|f h t Hc Hh Hall -> Hpos Hmin];
      cbn [LRUK.eariest_time LRUK.max_interval LRUK.frame_id LRUK.j LRUK.Evict_init].
    + destruct (Z.ltb_spec front LRUK.INT64_MAX); [|lia].
      apply (inv_young _ _ (length l) (front :: tl) front); auto.
      intros g hg tg Hg _ Hhd. apply (Hsplit _ _ _ _ Hg Hhd); [|lia].
      intros Hg'. exfalso. eapply Hno; eauto.
    + destruct (Z.ltb_spec front t).
      * apply (inv_young _ _ (length l) (front :: tl) front); auto.
        intros g hg tg Hg Hlg Hhd. apply (Hsplit _ _ _ _ Hg Hhd); [|lia].
        intros Hg'. specialize (Hmin _ _ _ Hg' Hlg Hhd). lia.
      * apply (inv_young _ _ f h t); auto using lruk_cand_mono.
        intros g hg tg Hg Hlg Hhd. apply (Hsplit _ _ _ _ Hg Hhd); [|lia].
        intros Hg'. eauto.
    + destruct (Z.ltb_spec front LRUK.INT64_MAX); [|lia].
      apply (inv_young _ _ (length l) (front :: tl) front); auto.
      intros g hg tg Hg Hlg Hhd. apply (Hsplit _ _ _ _ Hg Hhd); [|lia].
      intros Hg'. specialize (Hall _ _ Hg'). lia.
  - (* at least k accesses *)
    rewrite wrap64_small by lia.
    destruct Hinv as [Hno ->|f h t Hc Hl Hh -> Hmin|f h t Hc Hh Hall -> Hpos Hmin];
      cbn [LRUK.eariest_time LRUK.max_interval LRUK.frame_id LRUK.j LRUK.Evict_init].
    + destruct (Z.gtb_spec (cur - front) 0); [|lia].
      apply (inv_old _ _ (length l) (front :: tl) front); auto; try lia.
      * intros g hg Hg. apply lruk_cand_snoc in Hg as [Hg|(_ & Heq & _)].
        -- exfalso; eapply Hno; eauto.
        -- inversion Heq; subst. lia.
      * intros g hg tg Hg Hhd. apply (Hsplit _ _ _ _ Hg Hhd); [|lia].
        intros Hg'. exfalso; eapply Hno; eauto.
    + destruct (Z.gtb_spec (cur - front) LRUK.INT64_MAX); [lia|].
      apply (inv_young _ _ f h t); auto using lruk_cand_mono.
      intros g hg tg Hg Hlg Hhd. apply (Hsplit _ _ _ _ Hg Hhd).
      * intros Hg'. eauto.
      * intros -> _. lia.
    + destruct (Z.gtb_spec (cur - front) (cur - t)).
      * apply (inv_old _ _ (length l) (front :: tl) front); auto; try lia.
        -- intros g hg Hg. apply lruk_cand_snoc in Hg as [Hg|(_ & Heq & _)]; eauto.
           inversion Heq; subst. lia.
        -- intros g hg tg Hg Hhd. apply (Hsplit _ _ _ _ Hg Hhd); [|lia].
           intros Hg'. specialize (Hmin _ _ _ Hg' Hhd). lia.
      * apply (inv_old _ _ f h t); auto using lruk_cand_mono.
        -- intros g hg Hg. apply lruk_cand_snoc in Hg as [Hg|(_ & Heq & _)]; eauto.
           inversion Heq; subst. lia.
        -- intros g hg tg Hg Hhd. apply (Hsplit _ _ _ _ Hg Hhd); [|lia].
           intros Hg'. eauto.
Qed.

Lemma Evict_loop_inv l pre st :
  forallb (fun e => lruk_hist_ok k cur e.1) l = true ->
  EvictInv pre st ->
  EvictInv (pre ++ l) (LRUK.Evict_loop k cur (length pre) l st).
Proof.
  revert pre st. induction l as [|it l IH]; intros pre st Hok Hinv; simpl.
  - rewrite app_nil_r. exact Hinv.
  - simpl in Hok. apply andb_true_iff in Hok as [Hit Hl].
    replace (pre ++ it :: l) with ((pre ++ [it]) ++ l) by (rewrite <- app_assoc; reflexivity).
    replace (S (length pre)) with (length (pre ++ [it])) by (rewrite length_app; simpl; lia).
    apply IH; auto. apply Evict_body_inv; auto.
Qed.

End EvictPolicy.

Lemma backward_k_None k h :
  1 <= k -> backward_k k h = None <-> Z.of_nat (length h) < k.
Proof.
  intros Hk. unfold backward_k. rewrite lookup_ge_None, length_reverse. lia.
Qed.

Lemma backward_k_full k h :
  1 <= k -> Z.of_nat (length h) = k -> backward_k k h = head h.
Proof.
  intros Hk Hlen. unfold backward_k.
  rewrite reverse_lookup by lia.
  replace (length h - S (Z.to_nat (k - 1)))%nat with 0%nat by lia.
  symmetry. apply head_lookup.
Qed.

Lemma lruk_wf_hist s f h e :
  lruk_wf s = true -> LRUK.replacer_ s !! f = Some (h, e) ->
  Z.of_nat (length h) <= LRUK.k_ s.
Proof.
  unfold lruk_wf, lruk_hist_ok. intros Hwf Hl.
  repeat (apply andb_true_iff in Hwf as [Hwf ?]).
  rewrite forallb_forall in H. apply list_elem_of_lookup_2, list_elem_of_In in Hl.
  apply H in Hl. simpl in Hl. apply andb_true_iff in Hl as [Hl _]. lia.
Qed.

(** The scenario S1: K = 2, accesses to frames 1, 2, 3, 1, 2, then the
    three frames made evictable, then [Evict]. *)
Definition lruk_s1 : option (bool * option nat) :=
  s ← foldl (fun os f => s ← os; LRUK.RecordAccess s f) (Some (LRUK.create 7 2)) [1; 2; 3; 1; 2];
  s ← foldl (fun os f => s ← os; LRUK.SetEvictable s f true) (Some s) [1; 2; 3];
  Some (LRUK.Evict s).2.

(** C3: on a well-formed replacer [Evict] succeeds exactly when some
    evictable frame has a history.  Its victim is such a frame; when some
    candidate has fewer than K accesses (backward K-distance +infinity) the
    victim has fewer than K accesses and the earliest first access among
    those; when every candidate has K accesses the victim is the one whose
    K-th most recent access is oldest.  With K = 2 and accesses 1,2,3,1,2 to
    three evictable frames, [Evict] returns frame 3. *)
Theorem lruk_evict_policy :
  (forall s, lruk_wf s = true ->
     let l := LRUK.replacer_ s in
     let k := LRUK.k_ s in
     let ok := (LRUK.Evict s).2.1 in
     let out := (LRUK.Evict s).2.2 in
     (ok = true <-> exists f h, lruk_cand l f h) /\
     (ok = true -> exists f h, out = Some f /\ lruk_cand l f h /\
        ((exists g hg, lruk_cand l g hg /\ backward_k k hg = None) ->
           backward_k k h = None /\
           exists t, head h = Some t /\
             forall g hg tg, lruk_cand l g hg -> backward_k k hg = None ->
               head hg = Some tg -> t <= tg) /\
        ((forall g hg, lruk_cand l g hg -> backward_k k hg <> None) ->
           exists t, backward_k k h = Some t /\
             forall g hg tg, lruk_cand l g hg -> backward_k k hg = Some tg ->
               t <= tg)))
  /\ lruk_s1 = Some (true, Some 3%nat).
Proof.
  split; [|vm_compute; reflexivity].
  intros s Hwf l k ok out.
  pose proof Hwf as Hwf0.
  unfold lruk_wf in Hwf. repeat (apply andb_true_iff in Hwf as [Hwf ?]).
  assert (Hk : 1 <= k) by (subst k; lia).
  assert (Hcur : LRUK.current_timestamp_ s <= LRUK.INT64_MAX) by lia.
  assert (Hinv : EvictInv k (LRUK.current_timestamp_ s) l
            (LRUK.Evict_loop k (LRUK.current_timestamp_ s) 0 l LRUK.Evict_init)).
  { apply (Evict_loop_inv k (LRUK.current_timestamp_ s)) with (pre := []); auto.
    apply inv_none; [|reflexivity]. intros f h [Hl _]. discriminate. }
  assert (Hok : ok = LRUK.flag (LRUK.Evict_loop k (LRUK.current_timestamp_ s) 0 l LRUK.Evict_init)).
  { subst ok. unfold LRUK.Evict. fold k l. destruct (LRUK.flag _); reflexivity. }
  assert (Hout : out = LRUK.frame_id (LRUK.Evict_loop k (LRUK.current_timestamp_ s) 0 l LRUK.Evict_init)).
  { subst out. unfold LRUK.Evict. fold k l. destruct (LRUK.flag _); reflexivity. }
  rewrite Hok, Hout. clear Hok Hout ok out.
  destruct Hinv as [Hno ->|f h t Hc Hl Hh -> Hmin|f h t Hc Hh Hall -> Hpos Hmin]; simpl.
  - split; [split; [discriminate|]|discriminate].
    intros (f & h & Hc). exfalso. eapply Hno; eauto.
  - split; [split; eauto|]. intros _. exists f, h.
    split; [reflexivity|split; [exact Hc|split]].
    + intros _. split; [apply backward_k_None; auto|].
      exists t. split; auto. intros g hg tg Hg Hb Hhd.
      apply backward_k_None in Hb; eauto.
    + intros Hall. exfalso. apply (Hall f h Hc). apply backward_k_None; auto.
  - assert (Hfull : forall g hg, lruk_cand l g hg -> Z.of_nat (length hg) = k).
    { intros g hg Hg. pose proof (Hall _ _ Hg). destruct Hg as [Hg _].
      pose proof (lruk_wf_hist _ _ _ _ Hwf0 Hg). subst k. lia. }
    split; [split; eauto|]. intros _. exists f, h.
    split; [reflexivity|split; [exact Hc|split]].
    + intros (g & hg & Hg & Hb). exfalso.
      apply backward_k_None in Hb; auto. specialize (Hall _ _ Hg). lia.
    + intros _. exists t. split.
      * rewrite backward_k_full; eauto.
      * intros g hg tg Hg Hb. rewrite backward_k_full in Hb; eauto.
Qed.

Definition lruk_sample : LRUK.LRUKReplacer :=
  LRUK.mkReplacer 5 7 3 2
    [([], false); ([0; 3], true); ([1; 4], true); ([2], true);
     ([], false); ([], false); ([], false)].

Lemma lruk_evict_policy_witness :
  lruk_wf lruk_sample = true /\
  ((LRUK.Evict lruk_sample).2.1 = true <->
   exists f h, lruk_cand (LRUK.replacer_ lruk_sample) f h).
Proof.
  split; [vm_compute; reflexivity|].
  apply (proj1 lruk_evict_policy lruk_sample). vm_compute; reflexivity.
Defined.

(** ** Buffer pool manager *)

(** A pool of three frames in which page 0 was created and unpinned
    clean: the page is resident and its dirty flag is off. *)
Definition bpm_clean_resident : option BPM.BufferPoolManagerInstance :=
  '(b, _) ← BPM.NewPgImp (BPM.create 3 ∅ 2);
  '(b, _) ← BPM.UnpinPgImp b 0 false;
  Some b.

Definition bpm_dirty_of (b : BPM.BufferPoolManagerInstance) (page_id : Z) : option bool :=
  f ← EHT.Find (BPM.page_table_ b) page_id;
  BPM.is_dirty_ <$> BPM.page_at b f.

(** C1 (the code departs from the claim): fetching a resident page turns
    its dirty flag on.  For every state in which [page_id] is resident,
    a successful [FetchPgImp] leaves the frame dirty, whatever the flag was;
    on the pool above the flag of page 0 is off before the fetch and on
    after it, with no [UnpinPgImp(_, true)] in between. *)
Theorem bpm_fetch_resident_sets_dirty :
  (forall b page_id f b' r,
     EHT.Find (BPM.page_table_ b) page_id = Some f ->
     BPM.FetchPgImp b page_id = Some (b', r) ->
     r = Some f /\ BPM.is_dirty_ <$> BPM.page_at b' f = Some true) /\
  (exists b b',
     bpm_clean_resident = Some b /\
     bpm_dirty_of b 0 = Some false /\
     BPM.FetchPgImp b 0 = Some (b', Some 0) /\
     bpm_dirty_of b' 0 = Some true).
Proof.
  split.
  - intros b page_id f b' r Hfind Hfetch.
    unfold BPM.FetchPgImp in Hfetch. rewrite Hfind in Hfetch.
    destruct (BPM.touch b f) as [b1|] eqn:Ht; simpl in Hfetch; [|discriminate].
    destruct (BPM.page_at b1 f) as [pg|] eqn:Hpg; simpl in Hfetch; [|discriminate].
    unfold BPM.page_at in *.
    assert (Hlt : (Z.to_nat f < length (BPM.pages_ b1))%nat)
      by (eapply lookup_lt_Some; eauto).
    cbn [BPM.set_page BPM.pages_] in Hfetch.
    rewrite list_lookup_insert_eq in Hfetch by auto. simpl in Hfetch.
    inversion Hfetch; subst. split; [reflexivity|].
    cbn [BPM.set_page BPM.pages_].
    rewrite list_lookup_insert_eq by (rewrite length_insert; auto).
    reflexivity.
  - eexists _, _. split; [vm_compute; reflexivity|].
    split; [vm_compute; reflexivity|].
    split; vm_compute; reflexivity.
Qed.

Lemma bpm_fetch_resident_sets_dirty_witness :
  exists b b',
    bpm_clean_resident = Some b /\
    EHT.Find (BPM.page_table_ b) 0 = Some 0 /\
    BPM.FetchPgImp b 0 = Some (b', Some 0) /\
    BPM.is_dirty_ <$> BPM.page_at b' 0 = Some true.
Proof.
  destruct (proj2 bpm_fetch_resident_sets_dirty) as (b & b' & Hb & Hd & Hf & Hd').
  exists b, b'. split; [exact Hb|].
  assert (Hfind : EHT.Find (BPM.page_table_ b) 0 = Some 0).
  { revert Hb. vm_compute. intros Hb. inversion Hb. reflexivity. }
  split; [exact Hfind|]. split; [exact Hf|].
  exact (proj2 (proj1 bpm_fetch_resident_sets_dirty b 0 0 b' (Some 0) Hfind Hf)).
Defined.

(** C10: deleting a page that is not in the page table returns true and
    leaves the whole buffer pool as it was; [DeletePgImp] returns false
    only for a resident page whose pin count is positive. *)
Theorem bpm_delete_not_resident :
  forall b page_id,
    (EHT.Find (BPM.page_table_ b) page_id = None ->
     BPM.DeletePgImp b page_id = Some (b, true)) /\
    (forall b', BPM.DeletePgImp b page_id = Some (b', false) ->
       b' = b /\
       exists f pg, EHT.Find (BPM.page_table_ b) page_id = Some f /\
         BPM.page_at b f = Some pg /\ BPM.pin_count_ pg > 0).
Proof.
  intros b page_id. split.
  - intros Hfind. unfold BPM.DeletePgImp. rewrite Hfind. reflexivity.
  - intros b' Hdel. unfold BPM.DeletePgImp in Hdel.
    destruct (EHT.Find (BPM.page_table_ b) page_id) as [f|] eqn:Hfind; [|discriminate].
    destruct (BPM.page_at b f) as [pg|] eqn:Hpg; simpl in Hdel; [|discriminate].
    destruct (Z.gtb_spec (BPM.pin_count_ pg) 0) as [Hpin|Hpin].
    + inversion Hdel; subst. split; [reflexivity|]. exists f, pg. repeat split; auto. lia.
    + exfalso.
      repeat match type of Hdel with
      | context [mbind _ ?x] => destruct x; simpl in Hdel; [|discriminate]
      | context [let '(_, _) := ?x in _] => destruct x
      end.
      discriminate.
Qed.

Lemma bpm_delete_not_resident_witness :
  EHT.Find (BPM.page_table_ (BPM.create 3 ∅ 2)) 5 = None /\
  BPM.DeletePgImp (BPM.create 3 ∅ 2) 5 = Some (BPM.create 3 ∅ 2, true).
Proof.
  split; [vm_compute; reflexivity|].
  apply (proj1 (bpm_delete_not_resident (BPM.create 3 ∅ 2) 5)).
  vm_compute; reflexivity.
Defined.

(** ** Lock manager: the deadlock detector *)

Definition lm_txn (id : Z) : LM.Transaction :=
  LM.mkTxn id LM.REPEATABLE_READ LM.GROWING ∅ ∅ ∅ ∅ ∅ ∅ ∅.

(** A run of lock calls: each step is a call of [LockTable] by one of the
    transactions of the pool [txns]. *)
Definition lm_lock_table (st : LM.LockManager * gmap Z LM.Transaction)
    (c : Z * LM.LockMode * Z) : LM.LockManager * gmap Z LM.Transaction :=
  let '(id, mode, oid) := c in
  let txn := default (lm_txn id) (st.2 !! id) in
  let '(lm, txn', _) := LM.LockTable st.1 txn mode oid in
  (lm, <[id := txn']> st.2).

(** T1 holds X on table 30, T2 and T3 hold S on table 10, T4 holds X on
    table 20; then T1 asks for X on 10, T2 for X on 20 and T3 for S on
    30, and all three sleep. *)
Definition lm_deadlock : LM.LockManager :=
  (foldl lm_lock_table (LM.create, ∅)
     [(1, LM.EXCLUSIVE, 30); (2, LM.SHARED, 10); (3, LM.SHARED, 10);
      (4, LM.EXCLUSIVE, 20); (1, LM.EXCLUSIVE, 10); (2, LM.EXCLUSIVE, 20);
      (3, LM.SHARED, 30)]).1.

Definition wf_edge (g : list (Z * list Z)) (a b : Z) : Prop :=
  exists s, LM.map_find a g = Some s /\ b ∈ s.

(** [v] lies on a cycle of the wait-for graph. *)
Definition on_cycle (g : list (Z * list Z)) (v : Z) : Prop := tc (wf_edge g) v v.

Definition lm_deadlock_graph : list (Z * list Z) := [(1, [2; 3]); (2, [4]); (3, [1])].

Lemma lm_deadlock_edges a b :
  wf_edge lm_deadlock_graph a b ->
  (a = 1 /\ b = 2) \/ (a = 1 /\ b = 3) \/ (a = 2 /\ b = 4) \/ (a = 3 /\ b = 1).
Proof.
  intros (s & Hs & Hb). unfold lm_deadlock_graph in Hs. simpl in Hs.
  destruct (Z.eqb_spec a 1); [inversion Hs; subst|].
  { apply elem_of_cons in Hb as [->|Hb]; [auto|].
    apply list_elem_of_singleton in Hb. auto. }
  destruct (Z.eqb_spec a 2); [inversion Hs; subst|].
  { apply list_elem_of_singleton in Hb. auto. }
  destruct (Z.eqb_spec a 3); [inversion Hs; subst|discriminate].
  apply list_elem_of_singleton in Hb. auto 6.
Qed.

Lemma lm_deadlock_paths a b :
  tc (wf_edge lm_deadlock_graph) a b -> a = 1 \/ a = 3 \/ (a = 2 /\ b = 4).
Proof.
  induction 1 as [a b He|a b c He Hbc IH].
  - apply lm_deadlock_edges in He. lia.
  - apply lm_deadlock_edges in He. lia.
Qed.

(** C4 (the code departs from the claim): in the deadlock above the
    wait-for graph is 1 -> 2, 1 -> 3, 2 -> 4, 3 -> 1.  Its only cycle is
    1 -> 3 -> 1, so the youngest member of the cycle is 3; the detector
    first aborts transaction 4, which lies on no cycle (it waits for
    nobody), and only then transaction 3. *)
Theorem lm_victim_outside_cycle :
  LM.waits_for_ (LM.CreateGraph lm_deadlock) = lm_deadlock_graph /\
  (exists lm', LM.RunCycleDetection 20 lm_deadlock = Some (lm', [4; 3])) /\
  (exists g', LM.HasCycle 20 lm_deadlock_graph = Some (g', Some 4)) /\
  on_cycle lm_deadlock_graph 1 /\
  on_cycle lm_deadlock_graph 3 /\
  ~ on_cycle lm_deadlock_graph 4 /\
  (forall v, on_cycle lm_deadlock_graph v -> v = 1 \/ v = 3).
Proof.
  assert (E13 : wf_edge lm_deadlock_graph 1 3).
  { exists [2; 3]. split; [reflexivity|]. apply elem_of_cons. right. left. }
  assert (E31 : wf_edge lm_deadlock_graph 3 1).
  { exists [1]. split; [reflexivity|]. left. }
  split; [vm_compute; reflexivity|].
  split; [eexists; vm_compute; reflexivity|].
  split; [eexists; vm_compute; reflexivity|].
  split; [eapply tc_l; [exact E13|apply tc_once; exact E31]|].
  split; [eapply tc_l; [exact E31|apply tc_once; exact E13]|].
  split.
  - intros H. apply lm_deadlock_paths in H. lia.
  - intros v H. apply lm_deadlock_paths in H. lia.
Qed.

(** ** Lock manager: compatibility of granted locks *)

(** The compatibility matrix as the specification words it: IS conflicts
    with X; S with X, IX, SIX; IX with S, X, SIX; SIX with all but IS; X
    with everything. *)
Definition conflicts (a b : LM.LockMode) : bool :=
  match a, b with
  | LM.INTENTION_SHARED, LM.EXCLUSIVE => true
  | LM.INTENTION_SHARED, _ => false
  | LM.SHARED, (LM.EXCLUSIVE | LM.INTENTION_EXCLUSIVE | LM.SHARED_INTENTION_EXCLUSIVE) => true
  | LM.SHARED, _ => false
  | LM.INTENTION_EXCLUSIVE, (LM.SHARED | LM.EXCLUSIVE | LM.SHARED_INTENTION_EXCLUSIVE) => true
  | LM.INTENTION_EXCLUSIVE, _ => false
  | LM.SHARED_INTENTION_EXCLUSIVE, LM.INTENTION_SHARED => false
  | LM.SHARED_INTENTION_EXCLUSIVE, _ => true
  | LM.EXCLUSIVE, _ => true
  end.

Lemma CheckLock_conflicts a b : LM.CheckLock a b = negb (conflicts a b).
Proof. destruct a, b; reflexivity. Qed.

Lemma CheckLock_sym a b : LM.CheckLock a b = LM.CheckLock b a.
Proof. destruct a, b; reflexivity. Qed.

(** The calls that reach the lock manager.  A transaction object lives
    outside the lock manager and is handed in by the caller; a run may
    hand in any transaction value, which covers every value the object can
    really have. *)
Inductive LMCall :=
| CLockTable (txn : LM.Transaction) (mode : LM.LockMode) (oid : Z)
| CLockTableWakeup (txn : LM.Transaction) (oid : Z) (upgrade : bool)
| CUnlockTable (txn : LM.Transaction) (oid : Z)
| CLockRow (txn : LM.Transaction) (mode : LM.LockMode) (oid : Z) (rid : LM.RID)
| CLockRowWakeup (txn : LM.Transaction) (oid : Z) (rid : LM.RID) (upgrade : bool)
| CUnlockRow (txn : LM.Transaction) (oid : Z) (rid : LM.RID)
| CDetect (fuel : nat).

Definition lm_call (lm : LM.LockManager) (c : LMCall) : LM.LockManager :=
  match c with
  | CLockTable txn mode oid => (LM.LockTable lm txn mode oid).1.1
  | CLockTableWakeup txn oid up =>
      default lm ((fun r => r.1.1) <$> LM.LockTable_wakeup lm txn oid up)
  | CUnlockTable txn oid => (LM.UnlockTable lm txn oid).1.1
  | CLockRow txn mode oid rid => (LM.LockRow lm txn mode oid rid).1.1
  | CLockRowWakeup txn oid rid up =>
      default lm ((fun r => r.1.1) <$> LM.LockRow_wakeup lm txn oid rid up)
  | CUnlockRow txn oid rid =>
      default lm ((fun r => r.1.1) <$> LM.UnlockRow lm txn oid rid)
  | CDetect fuel => default lm (fst <$> LM.RunCycleDetection fuel lm)
  end.

Definition lm_run (calls : list LMCall) : LM.LockManager :=
  foldl lm_call LM.create calls.

Definition compat_with (m : LM.LockMode) (q : list LM.LockRequest) : Prop :=
  forall r, r ∈ q -> LM.granted_ r = true -> LM.CheckLock (LM.lock_mode_ r) m = true.

Inductive granted_compat : list LM.LockRequest -> Prop :=
| gc_nil : granted_compat []
| gc_cons r q :
    (LM.granted_ r = true -> compat_with (LM.lock_mode_ r) q) ->
    granted_compat q -> granted_compat (r :: q).

Definition queue_ok (q : LM.LockRequestQueue) : Prop :=
  granted_compat (LM.request_queue_ q) /\
  NoDup (LM.txn_id_ <$> LM.request_queue_ q).

Definition lm_ok (lm : LM.LockManager) : Prop :=
  (forall oid q, LM.table_lock_map_ lm !! oid = Some q -> queue_ok q) /\
  (forall rid q, LM.row_lock_map_ lm !! rid = Some q -> queue_ok q).

Lemma granted_compat_lookup q :
  granted_compat q ->
  forall i j r1 r2, i <> j -> q !! i = Some r1 -> q !! j = Some r2 ->
    LM.granted_ r1 = true -> LM.granted_ r2 = true ->
    LM.CheckLock (LM.lock_mode_ r1) (LM.lock_mode_ r2) = true.
Proof.
  induction 1 as [|r q Hr Hq IH]; intros i j r1 r2 Hne H1 H2 G1 G2.
  - discriminate.
  - destruct i as [|i], j as [|j]; simpl in *.
    + congruence.
    + inversion H1; subst. rewrite CheckLock_sym.
      apply Hr; auto. eapply list_elem_of_lookup_2; eauto.
    + inversion H2; subst.
      apply Hr; auto. eapply list_elem_of_lookup_2; eauto.
    + apply (IH i j r1 r2); auto.
Qed.

Lemma compat_with_sub m q q' :
  (forall r, r ∈ q' -> r ∈ q) -> compat_with m q -> compat_with m q'.
Proof. unfold compat_with; auto. Qed.

Lemma granted_compat_snoc q lr :
  granted_compat q -> LM.granted_ lr = false -> granted_compat (q ++ [lr]).
Proof.
  intros Hq Hlr. induction Hq as [|r q Hr Hq IH]; simpl.
  - constructor; [congruence|constructor].
  - constructor; auto. intros G x Hx Gx.
    apply elem_of_app in Hx as [Hx|Hx]; [apply Hr; auto|].
    apply list_elem_of_singleton in Hx. subst. congruence.
Qed.

Lemma find_erase_Some p q x rest :
  LM.find_erase p q = Some (x, rest) ->
  p x = true /\ x ∈ q /\ (forall r, r ∈ rest -> r ∈ q) /\
  (granted_compat q -> granted_compat rest) /\
  (NoDup (LM.txn_id_ <$> q) ->
   NoDup (LM.txn_id_ <$> rest) /\ LM.txn_id_ x ∉ (LM.txn_id_ <$> rest)).
Proof.
  revert rest. induction q as [|r q IH]; intros rest H; simpl in H; [discriminate|].
  destruct (p r) eqn:Hp.
  - inversion H; subst. repeat split.
    + exact Hp.
    + left.
    + intros; right; auto.
    + inversion 1; auto.
    + inversion H0; auto.
    + inversion H0; auto.
  - destruct (LM.find_erase p q) as [[y rest']|] eqn:Hfe; simpl in H; [|discriminate].
    inversion H; subst. destruct (IH _ eq_refl) as (Hpx & Hin & Hsub & Hgc & Hnd).
    repeat split.
    + exact Hpx.
    + right; auto.
    + intros z Hz. apply elem_of_cons in Hz as [->|Hz]; [left|right; auto].
    + inversion 1; subst. constructor; auto.
      intros G. eapply compat_with_sub; [exact Hsub|auto].
    + simpl. inversion H0; subst. destruct (Hnd H4) as [Hnd' Hnotin].
      constructor; auto. intros Hc. apply H3.
      apply list_elem_of_fmap in Hc as (z & Hz1 & Hz2).
      apply list_elem_of_fmap. exists z; split; auto.
    + simpl. inversion H0; subst. destruct (Hnd H4) as [Hnd' Hnotin].
      intros Hc. apply elem_of_cons in Hc as [Hc|Hc]; auto.
      apply H3. rewrite <- Hc. apply list_elem_of_fmap. exists x; auto.
Qed.

Lemma find_erase_None p q :
  LM.find_erase p q = None -> forall r, r ∈ q -> p r = false.
Proof.
  induction q as [|x q IH]; simpl; intros H r Hr.
  - inversion Hr.
  - destruct (p x) eqn:Hp; [discriminate|].
    destruct (LM.find_erase p q) as [[y rest']|]; [discriminate|].
    apply elem_of_cons in Hr as [->|Hr]; auto.
Qed.

(** The mode of the request that [set_granted] marks. *)
Fixpoint mode_of (tid : Z) (q : list LM.LockRequest) : option LM.LockMode :=
  match q with
  | [] => None
  | r :: rest => if LM.txn_id_ r =? tid then Some (LM.lock_mode_ r) else mode_of tid rest
  end.

Lemma set_granted_elem tid q m x :
  mode_of tid q = Some m -> x ∈ LM.set_granted tid q ->
  x ∈ q \/ (LM.lock_mode_ x = m).
Proof.
  induction q as [|r q IH]; simpl; intros Hm Hx; [discriminate|].
  destruct (LM.txn_id_ r =? tid).
  - inversion Hm; subst. apply elem_of_cons in Hx as [->|Hx]; [right; reflexivity|].
    left; right; auto.
  - apply elem_of_cons in Hx as [->|Hx]; [left; left|].
    destruct (IH Hm Hx); [left; right; auto|right; auto].
Qed.

Lemma set_granted_compat tid q m :
  granted_compat q -> mode_of tid q = Some m -> compat_with m q ->
  granted_compat (LM.set_granted tid q).
Proof.
  induction 1 as [|r q Hr Hq IH]; simpl; intros Hm Hc; [constructor|].
  destruct (LM.txn_id_ r =? tid).
  - inversion Hm; subst. constructor; auto. simpl. intros _.
    eapply compat_with_sub; [|exact Hc]. intros; right; auto.
  - constructor.
    + intros G x Hx Gx. destruct (set_granted_elem _ _ _ _ Hm Hx) as [Hx'|Hx'].
      * apply Hr; auto.
      * rewrite Hx', CheckLock_sym. apply Hc; [left|auto].
    + apply IH; auto. eapply compat_with_sub; [|exact Hc]. intros; right; auto.
Qed.

Lemma set_granted_ids tid q :
  LM.txn_id_ <$> LM.set_granted tid q = LM.txn_id_ <$> q.
Proof.
  induction q as [|r q IH]; simpl; auto.
  destruct (LM.txn_id_ r =? tid); csimpl; congruence.
Qed.

Lemma GrantLock_compat que m tid :
  LM.GrantLock que m tid = true -> compat_with m (LM.request_queue_ que).
Proof.
  unfold LM.GrantLock. destruct (existsb _ _) eqn:He; [discriminate|].
  intros _ r Hr G. destruct (LM.CheckLock (LM.lock_mode_ r) m) eqn:Hc; auto.
  assert (existsb (fun i => LM.granted_ i && negb (LM.CheckLock (LM.lock_mode_ i) m))
            (LM.request_queue_ que) = true); [|congruence].
  apply existsb_exists. exists r. split; [apply list_elem_of_In; auto|].
  rewrite G, Hc. reflexivity.
Qed.

Lemma mode_of_snoc tid q lr :
  LM.txn_id_ lr = tid -> tid ∉ (LM.txn_id_ <$> q) ->
  mode_of tid (q ++ [lr]) = Some (LM.lock_mode_ lr).
Proof.
  intros Hlr. induction q as [|r q IH]; simpl; intros Hn.
  - rewrite Hlr, Z.eqb_refl. reflexivity.
  - destruct (Z.eqb_spec (LM.txn_id_ r) tid) as [He|He].
    + exfalso. apply Hn. apply elem_of_cons. auto.
    + apply IH. intros Hc. apply Hn. apply elem_of_cons. auto.
Qed.

Lemma mode_of_find tid q i lr :
  list_find (fun r => LM.txn_id_ r = tid) q = Some (i, lr) ->
  mode_of tid q = Some (LM.lock_mode_ lr).
Proof.
  revert i. induction q as [|r q IH]; simpl; intros i H; [discriminate|].
  destruct (decide (LM.txn_id_ r = tid)) as [He|He].
  - inversion H; subst. rewrite Z.eqb_refl. reflexivity.
  - destruct (Z.eqb_spec (LM.txn_id_ r) tid); [contradiction|].
    destruct (list_find _ q) as [[i' lr']|] eqn:Hf; simpl in H; [|discriminate].
    inversion H; subst. eapply IH; eauto.
Qed.

Lemma queue_ok_try que m tid :
  queue_ok que -> mode_of tid (LM.request_queue_ que) = Some m ->
  LM.GrantLock que m tid = true -> forall up,
  queue_ok (LM.mkQueue (LM.set_granted tid (LM.request_queue_ que)) up).
Proof.
  intros [Hgc Hnd] Hm Hg up. split; simpl.
  - eapply set_granted_compat; eauto. eapply GrantLock_compat; eauto.
  - rewrite set_granted_ids. auto.
Qed.

Lemma purge_table_sub t id q :
  sublist (LM.purge_table t id q).2 q.
Proof.
  revert t. induction q as [|r q IH]; intros t; simpl; [constructor|].
  destruct (LM.txn_id_ r =? id).
  - apply sublist_cons. apply IH.
  - specialize (IH t). destruct (LM.purge_table t id q) as [t' rest']. simpl in *.
    apply sublist_skip. auto.
Qed.

Lemma purge_row_sub t id rid q :
  sublist (LM.purge_row t id rid q).2 q.
Proof.
  revert t. induction q as [|r q IH]; intros t; simpl; [constructor|].
  destruct (LM.txn_id_ r =? id).
  - apply sublist_cons. apply IH.
  - specialize (IH t). destruct (LM.purge_row t id rid q) as [t' rest']. simpl in *.
    apply sublist_skip. auto.
Qed.

Lemma granted_compat_sublist q' q :
  sublist q' q -> granted_compat q -> granted_compat q'.
Proof.
  induction 1 as [|x l1 l2 Hs IH|x l1 l2 Hs IH]; intros Hq; auto.
  - inversion Hq; subst. constructor; auto.
    intros G. eapply compat_with_sub; [|auto].
    intros r Hr. eapply elem_of_sublist; eauto.
  - inversion Hq; auto.
Qed.

Lemma queue_ok_sublist q' q up :
  sublist q' (LM.request_queue_ q) -> queue_ok q -> queue_ok (LM.mkQueue q' up).
Proof.
  intros Hs [Hgc Hnd]. split; simpl.
  - eapply granted_compat_sublist; eauto.
  - eapply sublist_NoDup; [exact Hnd|]. apply fmap_sublist. auto.
Qed.

Lemma queue_ok_empty up : queue_ok (LM.mkQueue [] up).
Proof. split; simpl; constructor. Qed.

Lemma lm_ok_set_table lm oid q :
  lm_ok lm -> queue_ok q -> lm_ok (LM.set_table_queue lm oid q).
Proof.
  intros [Ht Hr] Hq. split; simpl; auto.
  intros oid' q' Hl. destruct (decide (oid = oid')) as [->|Hne].
  - rewrite lookup_insert_eq in Hl. inversion Hl; subst; auto.
  - rewrite lookup_insert_ne in Hl by auto. eauto.
Qed.

Lemma lm_ok_set_row lm rid q :
  lm_ok lm -> queue_ok q -> lm_ok (LM.set_row_queue lm rid q).
Proof.
  intros [Ht Hr] Hq. split; simpl; auto.
  intros rid' q' Hl. destruct (decide (rid = rid')) as [->|Hne].
  - rewrite lookup_insert_eq in Hl. inversion Hl; subst; auto.
  - rewrite lookup_insert_ne in Hl by auto. eauto.
Qed.

Lemma lm_ok_set_waits lm g : lm_ok lm -> lm_ok (LM.set_waits_for lm g).
Proof. intros [Ht Hr]. split; simpl; auto. Qed.

Lemma lm_ok_table_try lm txn oid que m up :
  lm_ok lm -> queue_ok que ->
  mode_of (LM.txn_id txn) (LM.request_queue_ que) = Some m ->
  lm_ok (LM.table_try_grant lm txn oid que m up).1.1.
Proof.
  intros Hlm Hq Hm. unfold LM.table_try_grant.
  destruct (LM.GrantLock que m (LM.txn_id txn)) eqn:Hg; simpl.
  - apply lm_ok_set_table; auto. eapply queue_ok_try; eauto.
  - apply lm_ok_set_table; auto.
Qed.

Lemma lm_ok_row_try lm txn oid rid que m up :
  lm_ok lm -> queue_ok que ->
  mode_of (LM.txn_id txn) (LM.request_queue_ que) = Some m ->
  lm_ok (LM.row_try_grant lm txn oid rid que m up).1.1.
Proof.
  intros Hlm Hq Hm. unfold LM.row_try_grant.
  destruct (LM.GrantLock que m (LM.txn_id txn)) eqn:Hg; simpl.
  - apply lm_ok_set_row; auto. eapply queue_ok_try; eauto.
  - apply lm_ok_set_row; auto.
Qed.

Lemma queue_ok_default_table lm oid :
  lm_ok lm ->
  queue_ok (default (LM.mkQueue [] LM.INVALID_TXN_ID) (LM.table_lock_map_ lm !! oid)).
Proof.
  intros [Ht _]. destruct (LM.table_lock_map_ lm !! oid) eqn:Hl; simpl; eauto.
  apply queue_ok_empty.
Qed.

Lemma queue_ok_default_row lm rid :
  lm_ok lm ->
  queue_ok (default (LM.mkQueue [] LM.INVALID_TXN_ID) (LM.row_lock_map_ lm !! rid)).
Proof.
  intros [_ Hr]. destruct (LM.row_lock_map_ lm !! rid) eqn:Hl; simpl; eauto.
  apply queue_ok_empty.
Qed.

(** What both lock calls do with the queue once the checks on the
    transaction have passed. *)
Lemma queue_ok_enqueue que id lr :
  queue_ok que -> LM.txn_id_ lr = id -> LM.granted_ lr = false ->
  match LM.find_erase (fun r => LM.txn_id_ r =? id) (LM.request_queue_ que) with
  | Some (iter, rest) =>
      forall up, queue_ok (LM.mkQueue (rest ++ [lr]) up) /\
                 mode_of id (rest ++ [lr]) = Some (LM.lock_mode_ lr)
  | None =>
      forall up, queue_ok (LM.mkQueue (LM.request_queue_ que ++ [lr]) up) /\
                 mode_of id (LM.request_queue_ que ++ [lr]) = Some (LM.lock_mode_ lr)
  end.
Proof.
  intros [Hgc Hnd] Hid Hg.
  destruct (LM.find_erase _ _) as [[iter rest]|] eqn:Hfe.
  - destruct (find_erase_Some _ _ _ _ Hfe) as (Hp & Hin & Hsub & Hgc' & Hnd').
    destruct (Hnd' Hnd) as [Hnd1 Hnotin].
    apply Z.eqb_eq in Hp. rewrite Hp in Hnotin.
    intros up. split; [split; simpl|].
    + apply granted_compat_snoc; auto.
    + rewrite fmap_app. apply NoDup_app. split; [auto|]. split.
      * intros x Hx Hx'. simpl in Hx'. apply list_elem_of_singleton in Hx'. congruence.
      * simpl. apply NoDup_singleton.
    + apply mode_of_snoc; auto.
  - pose proof (find_erase_None _ _ Hfe) as Hnone.
    assert (Hnotin : id ∉ LM.txn_id_ <$> LM.request_queue_ que).
    { intros Hc. apply list_elem_of_fmap in Hc as (z & Hz1 & Hz2).
      specialize (Hnone _ Hz2). simpl in Hnone. lia. }
    intros up. split; [split; simpl|].
    + apply granted_compat_snoc; auto.
    + rewrite fmap_app. apply NoDup_app. split; [auto|]. split.
      * intros x Hx Hx'. simpl in Hx'. apply list_elem_of_singleton in Hx'. congruence.
      * simpl. apply NoDup_singleton.
    + apply mode_of_snoc; auto.
Qed.

Ltac lm_branches H :=
  repeat lazymatch goal with
  | |- lm_ok (fst (fst (if ?b then _ else _))) => destruct b; [exact H|]
  end.

Lemma txn_id_TableLockRemove t m o :
  LM.txn_id (LM.TableLockRemove t m o) = LM.txn_id t.
Proof. destruct m; reflexivity. Qed.

Lemma txn_id_RowLockRemove t m o r :
  LM.txn_id (LM.RowLockRemove t m o r) = LM.txn_id t.
Proof. destruct m; reflexivity. Qed.

Lemma lm_ok_LockTable lm txn mode oid :
  lm_ok lm -> lm_ok (LM.LockTable lm txn mode oid).1.1.
Proof.
  intros Hlm. unfold LM.LockTable. cbv zeta. lm_branches Hlm.
  pose proof (queue_ok_default_table lm oid Hlm) as Hque.
  set (que := default _ _) in *.
  assert (Hlm' : lm_ok (LM.set_table_queue lm oid que))
    by (apply lm_ok_set_table; auto).
  pose proof (queue_ok_enqueue que (LM.txn_id txn)
                (LM.mkRequest (LM.txn_id txn) mode oid None false)
                Hque eq_refl eq_refl) as Henq.
  destruct (LM.find_erase _ _) as [[iter rest]|].
  - lm_branches Hlm'. apply lm_ok_table_try; auto;
      rewrite ?txn_id_TableLockRemove; apply (Henq 0).
  - apply lm_ok_table_try; auto; apply (Henq 0).
Qed.

Lemma lm_ok_LockRow lm txn mode oid rid :
  lm_ok lm -> lm_ok (LM.LockRow lm txn mode oid rid).1.1.
Proof.
  intros Hlm. unfold LM.LockRow, LM.abort_with. cbv zeta. lm_branches Hlm.
  pose proof (queue_ok_default_row lm rid Hlm) as Hque.
  set (que := default _ _) in *.
  assert (Hlm' : lm_ok (LM.set_row_queue lm rid que))
    by (apply lm_ok_set_row; auto).
  pose proof (queue_ok_enqueue que (LM.txn_id txn)
                (LM.mkRequest (LM.txn_id txn) mode oid (Some rid) false)
                Hque eq_refl eq_refl) as Henq.
  destruct (LM.find_erase _ _) as [[iter rest]|].
  - lm_branches Hlm'. apply lm_ok_row_try; auto;
      rewrite ?txn_id_RowLockRemove; apply (Henq 0).
  - apply lm_ok_row_try; auto; apply (Henq 0).
Qed.

Lemma lm_ok_LockTable_wakeup lm txn oid up r :
  lm_ok lm -> LM.LockTable_wakeup lm txn oid up = Some r -> lm_ok r.1.1.
Proof.
  intros Hlm. unfold LM.LockTable_wakeup.
  destruct (LM.table_lock_map_ lm !! oid) as [que|] eqn:Hq; simpl; [|discriminate].
  assert (Hque : queue_ok que) by (destruct Hlm as [Ht _]; eauto).
  destruct (list_find _ _) as [[i lr]|] eqn:Hf; simpl; [|discriminate].
  destruct (LM.granted_ lr); [discriminate|].
  destruct (bool_decide _).
  - pose proof (purge_table_sub txn (LM.txn_id txn) (LM.request_queue_ que)) as Hs.
    destruct (LM.purge_table _ _ _) as [txn' q]. simpl in Hs.
    intros H; inversion H; subst; simpl.
    apply lm_ok_set_table; auto. eapply queue_ok_sublist; eauto.
  - intros H; inversion H; subst.
    apply lm_ok_table_try; auto. eapply mode_of_find; eauto.
Qed.

Lemma lm_ok_LockRow_wakeup lm txn oid rid up r :
  lm_ok lm -> LM.LockRow_wakeup lm txn oid rid up = Some r -> lm_ok r.1.1.
Proof.
  intros Hlm. unfold LM.LockRow_wakeup.
  destruct (LM.row_lock_map_ lm !! rid) as [que|] eqn:Hq; simpl; [|discriminate].
  assert (Hque : queue_ok que) by (destruct Hlm as [_ Hr]; eauto).
  destruct (list_find _ _) as [[i lr]|] eqn:Hf; simpl; [|discriminate].
  destruct (LM.granted_ lr); [discriminate|].
  destruct (bool_decide _).
  - pose proof (purge_row_sub txn (LM.txn_id txn) rid (LM.request_queue_ que)) as Hs.
    destruct (LM.purge_row _ _ _ _) as [txn' q]. simpl in Hs.
    intros H; inversion H; subst; simpl.
    apply lm_ok_set_row; auto. eapply queue_ok_sublist; eauto.
  - intros H; inversion H; subst.
    apply lm_ok_row_try; auto. eapply mode_of_find; eauto.
Qed.

Lemma find_erase_sublist p q x rest :
  LM.find_erase p q = Some (x, rest) -> sublist rest q.
Proof.
  revert rest. induction q as [|r q IH]; intros rest H; simpl in H; [discriminate|].
  destruct (p r).
  - inversion H; subst. apply sublist_cons. reflexivity.
  - destruct (LM.find_erase p q) as [[y rest']|]; simpl in H; [|discriminate].
    inversion H; subst. apply sublist_skip. eauto.
Qed.

Lemma lm_ok_UnlockTable lm txn oid :
  lm_ok lm -> lm_ok (LM.UnlockTable lm txn oid).1.1.
Proof.
  intros Hlm. unfold LM.UnlockTable, LM.abort_with.
  destruct (LM.table_lock_map_ lm !! oid) as [que|] eqn:Hq; [|exact Hlm].
  assert (Hque : queue_ok que) by (destruct Hlm as [Ht _]; eauto).
  cbv zeta. lm_branches Hlm.
  destruct (LM.find_erase _ _) as [[iter rest]|] eqn:Hfe; [|exact Hlm].
  simpl. apply lm_ok_set_table; auto.
  eapply queue_ok_sublist; eauto. eapply find_erase_sublist; eauto.
Qed.

Lemma lm_ok_UnlockRow lm txn oid rid r :
  lm_ok lm -> LM.UnlockRow lm txn oid rid = Some r -> lm_ok r.1.1.
Proof.
  intros Hlm. unfold LM.UnlockRow, LM.abort_with.
  destruct (LM.row_lock_map_ lm !! rid) as [que|] eqn:Hq.
  2: { intros H; inversion H; subst. exact Hlm. }
  assert (Hque : queue_ok que) by (destruct Hlm as [_ Hr]; eauto).
  cbv zeta.
  destruct (LM.find_erase _ _) as [[iter rest]|] eqn:Hfe.
  - intros H; inversion H; subst. simpl. apply lm_ok_set_row; auto.
    eapply queue_ok_sublist; eauto. eapply find_erase_sublist; eauto.
  - destruct (_ && _); intros H; inversion H; subst. exact Hlm.
Qed.

Lemma RemovePoint_maps lm tid lm' :
  LM.RemovePoint lm tid = Some lm' ->
  LM.table_lock_map_ lm' = LM.table_lock_map_ lm /\
  LM.row_lock_map_ lm' = LM.row_lock_map_ lm.
Proof.
  unfold LM.RemovePoint. destruct (foldl _ _ _); simpl; [|discriminate].
  intros H; inversion H; subst. split; reflexivity.
Qed.

Lemma detect_loop_maps fuel lm vs lm' vs' :
  LM.detect_loop fuel lm vs = Some (lm', vs') ->
  LM.table_lock_map_ lm' = LM.table_lock_map_ lm /\
  LM.row_lock_map_ lm' = LM.row_lock_map_ lm.
Proof.
  revert lm vs. induction fuel as [|f IH]; intros lm vs H; simpl in H; [discriminate|].
  destruct (LM.HasCycle _ _) as [[g r]|]; simpl in H; [|discriminate].
  destruct r as [tid|].
  - destruct (LM.RemovePoint _ _) as [lm1|] eqn:Hrp; simpl in H; [|discriminate].
    apply RemovePoint_maps in Hrp as [Ht Hr]. simpl in Ht, Hr.
    apply IH in H as [Ht' Hr']. split; congruence.
  - inversion H; subst. split; reflexivity.
Qed.

Lemma lm_ok_RunCycleDetection fuel lm r :
  lm_ok lm -> LM.RunCycleDetection fuel lm = Some r -> lm_ok r.1.
Proof.
  intros [Ht Hr] H. unfold LM.RunCycleDetection in H. destruct r as [lm' vs].
  apply detect_loop_maps in H as [Ht' Hr']. simpl in *.
  split; [rewrite Ht'|rewrite Hr']; auto.
Qed.

Lemma lm_ok_call lm c : lm_ok lm -> lm_ok (lm_call lm c).
Proof.
  intros Hlm. destruct c; simpl.
  - apply lm_ok_LockTable; auto.
  - destruct (LM.LockTable_wakeup _ _ _ _) eqn:H; simpl; auto.
    eapply lm_ok_LockTable_wakeup; eauto.
  - apply lm_ok_UnlockTable; auto.
  - apply lm_ok_LockRow; auto.
  - destruct (LM.LockRow_wakeup _ _ _ _ _) eqn:H; simpl; auto.
    eapply lm_ok_LockRow_wakeup; eauto.
  - destruct (LM.UnlockRow _ _ _ _) eqn:H; simpl; auto.
    eapply lm_ok_UnlockRow; eauto.
  - destruct (LM.RunCycleDetection _ _) eqn:H; simpl; auto.
    eapply lm_ok_RunCycleDetection; eauto.
Qed.

Lemma lm_ok_run calls : lm_ok (lm_run calls).
Proof.
  unfold lm_run.
  assert (H0 : lm_ok LM.create).
  { split; intros ? ? H; simpl in H; rewrite lookup_empty in H; discriminate. }
  revert H0. generalize LM.create.
  induction calls as [|c calls IH]; intros lm Hlm; simpl; auto.
  apply IH. apply lm_ok_call; auto.
Qed.

(** C5: in every state the lock manager reaches through [LockTable],
    [LockRow], [UnlockTable], [UnlockRow] (with the wake-ups of their
    waiters and the passes of the deadlock detector), two distinct granted
    requests of one queue never have conflicting modes. *)
Theorem lm_granted_never_conflict :
  forall calls q,
    (exists oid, LM.table_lock_map_ (lm_run calls) !! oid = Some q) \/
    (exists rid, LM.row_lock_map_ (lm_run calls) !! rid = Some q) ->
    forall i j r1 r2,
      i <> j ->
      LM.request_queue_ q !! i = Some r1 ->
      LM.request_queue_ q !! j = Some r2 ->
      LM.granted_ r1 = true -> LM.granted_ r2 = true ->
      conflicts (LM.lock_mode_ r1) (LM.lock_mode_ r2) = false.
Proof.
  intros calls q Hq i j r1 r2 Hne H1 H2 G1 G2.
  destruct (lm_ok_run calls) as [Ht Hr].
  assert (Hok : queue_ok q) by (destruct Hq as [[oid Hq]|[rid Hq]]; eauto).
  destruct Hok as [Hgc _].
  pose proof (granted_compat_lookup _ Hgc i j r1 r2 Hne H1 H2 G1 G2) as Hc.
  rewrite CheckLock_conflicts in Hc. destruct (conflicts _ _); auto.
Qed.

(** Two transactions take IS and IX on table 7. *)
Definition lm_sample_calls : list LMCall :=
  [CLockTable (lm_txn 1) LM.INTENTION_SHARED 7;
   CLockTable (lm_txn 2) LM.INTENTION_EXCLUSIVE 7].

Lemma lm_granted_never_conflict_witness :
  exists q r1 r2,
    LM.table_lock_map_ (lm_run lm_sample_calls) !! 7 = Some q /\
    LM.request_queue_ q !! 0%nat = Some r1 /\
    LM.request_queue_ q !! 1%nat = Some r2 /\
    LM.granted_ r1 = true /\ LM.granted_ r2 = true /\
    conflicts (LM.lock_mode_ r1) (LM.lock_mode_ r2) = false.
Proof.
  eexists _, _, _.
  split; [vm_compute; reflexivity|].
  split; [reflexivity|]. split; [reflexivity|].
  split; [reflexivity|]. split; [reflexivity|].
  eapply (lm_granted_never_conflict lm_sample_calls _
            (or_introl (ex_intro _ 7 eq_refl)) 0%nat 1%nat);
    [lia|reflexivity|reflexivity|reflexivity|reflexivity].
Defined.

(** ** Lock manager: the errors of [UnlockTable] *)

(** The transaction holds a row lock on some row of table [oid]. *)
Definition holds_row_lock (txn : LM.Transaction) (oid : Z) : Prop :=
  default ∅ (LM.s_row_lock_set txn !! oid) <> ∅ \/
  default ∅ (LM.x_row_lock_set txn !! oid) <> ∅.

(** The transaction holds a table lock on [oid]: a granted request of
    its own in the queue of the table. *)
Definition holds_table_lock (lm : LM.LockManager) (txn : LM.Transaction) (oid : Z) : Prop :=
  exists q r, LM.table_lock_map_ lm !! oid = Some q /\ r ∈ LM.request_queue_ q /\
    LM.granted_ r = true /\ LM.txn_id_ r = LM.txn_id txn.

Lemma row_set_touch_lookup m oid :
  default ∅ (LM.row_set_touch m oid !! oid) = default ∅ (m !! oid).
Proof. unfold LM.row_set_touch. rewrite lookup_insert_eq. reflexivity. Qed.

(** C9, as the code has it.  [UnlockTable] tests the row locks before it
    looks for the table lock.  On a table that has a request queue it
    throws TABLE_UNLOCKED_BEFORE_UNLOCKING_ROWS when the transaction still
    holds a row lock on the table, whether or not it holds a table lock on
    it.  It throws ATTEMPTED_UNLOCK_BUT_NO_LOCK_HELD when the table has no
    request queue, and when the transaction holds neither a row lock nor a
    table lock on it; with a table lock and no row lock the call returns
    true.  Whenever it throws, the transaction it leaves is ABORTED and the
    lock manager is untouched. *)
Theorem lm_unlock_table_errors :
  forall lm txn oid,
    let lm' := (LM.UnlockTable lm txn oid).1.1 in
    let txn' := (LM.UnlockTable lm txn oid).1.2 in
    let out := (LM.UnlockTable lm txn oid).2 in
    (is_Some (LM.table_lock_map_ lm !! oid) -> holds_row_lock txn oid ->
     out = LM.Throw LM.TABLE_UNLOCKED_BEFORE_UNLOCKING_ROWS) /\
    (LM.table_lock_map_ lm !! oid = None ->
     out = LM.Throw LM.ATTEMPTED_UNLOCK_BUT_NO_LOCK_HELD) /\
    (~ holds_table_lock lm txn oid -> ~ holds_row_lock txn oid ->
     out = LM.Throw LM.ATTEMPTED_UNLOCK_BUT_NO_LOCK_HELD) /\
    (holds_table_lock lm txn oid -> ~ holds_row_lock txn oid ->
     out = LM.Ret true) /\
    (forall r, out = LM.Throw r -> LM.state txn' = LM.ABORTED /\ lm' = lm).
Proof.
  intros lm txn oid lm' txn' out.
  split; [|split; [|split; [|split]]].
  - intros [que Hq] Hrow. subst out. unfold LM.UnlockTable. rewrite Hq. cbv zeta.
    cbn [LM.set_row_sets LM.x_row_lock_set LM.s_row_lock_set].
    rewrite !row_set_touch_lookup.
    destruct (decide (default ∅ (LM.x_row_lock_set txn !! oid) = ∅)) as [Hx|Hx].
    + rewrite (bool_decide_eq_true_2 _ Hx). simpl.
      destruct Hrow as [Hs|Hx']; [|contradiction].
      rewrite (bool_decide_eq_false_2 _ Hs). reflexivity.
    + rewrite (bool_decide_eq_false_2 _ Hx). reflexivity.
  - intros Hq. subst out. unfold LM.UnlockTable. rewrite Hq. reflexivity.
  - intros Htab Hrow. subst out. unfold LM.UnlockTable.
    destruct (LM.table_lock_map_ lm !! oid) as [que|] eqn:Hq; [|reflexivity].
    cbv zeta. cbn [LM.set_row_sets LM.x_row_lock_set LM.s_row_lock_set].
    rewrite !row_set_touch_lookup.
    destruct (decide (default ∅ (LM.x_row_lock_set txn !! oid) = ∅)) as [Hx|Hx];
      [|exfalso; apply Hrow; right; auto].
    destruct (decide (default ∅ (LM.s_row_lock_set txn !! oid) = ∅)) as [Hs|Hs];
      [|exfalso; apply Hrow; left; auto].
    rewrite (bool_decide_eq_true_2 _ Hx), (bool_decide_eq_true_2 _ Hs). simpl.
    destruct (LM.find_erase _ _) as [[iter rest]|] eqn:Hfe; [|reflexivity].
    exfalso. apply Htab.
    destruct (find_erase_Some _ _ _ _ Hfe) as (Hp & Hin & _).
    apply andb_true_iff in Hp as [Hg Hid]. apply Z.eqb_eq in Hid.
    exists que, iter. auto.
  - intros (que & r & Hq & Hr & Hg & Hid) Hrow. subst out.
    unfold LM.UnlockTable. rewrite Hq.
    cbv zeta. cbn [LM.set_row_sets LM.x_row_lock_set LM.s_row_lock_set].
    rewrite !row_set_touch_lookup.
    destruct (decide (default ∅ (LM.x_row_lock_set txn !! oid) = ∅)) as [Hx|Hx];
      [|exfalso; apply Hrow; right; auto].
    destruct (decide (default ∅ (LM.s_row_lock_set txn !! oid) = ∅)) as [Hs|Hs];
      [|exfalso; apply Hrow; left; auto].
    rewrite (bool_decide_eq_true_2 _ Hx), (bool_decide_eq_true_2 _ Hs). simpl.
    destruct (LM.find_erase _ _) as [[iter rest]|] eqn:Hfe; [reflexivity|].
    exfalso. pose proof (find_erase_None _ _ Hfe r Hr) as Hp. simpl in Hp.
    rewrite Hg, Hid, Z.eqb_refl in Hp. discriminate.
  - intros r. subst out txn' lm'. unfold LM.UnlockTable, LM.abort_with.
    destruct (LM.table_lock_map_ lm !! oid) as [que|] eqn:Hq; [|simpl; auto].
    cbv zeta.
    repeat lazymatch goal with
    | |- (if ?b then _ else _).2 = _ -> _ => destruct b; [simpl; auto|]
    end.
    destruct (LM.find_erase _ _) as [[iter rest]|]; simpl; [discriminate|auto].
Qed.

(** Transaction 1 holds IX on table 7 and an X lock on a row of it. *)
Definition lm_row_holder : LM.LockManager * LM.Transaction :=
  let '(lm, t, _) := LM.LockTable LM.create (lm_txn 1) LM.INTENTION_EXCLUSIVE 7 in
  let '(lm, t, _) := LM.LockRow lm t LM.EXCLUSIVE 7 (3, 0) in
  (lm, t).

Lemma lm_unlock_table_errors_witness :
  is_Some (LM.table_lock_map_ lm_row_holder.1 !! 7) /\
  holds_row_lock lm_row_holder.2 7 /\
  (LM.UnlockTable lm_row_holder.1 lm_row_holder.2 7).2 =
    LM.Throw LM.TABLE_UNLOCKED_BEFORE_UNLOCKING_ROWS.
Proof.
  assert (Hrow : holds_row_lock lm_row_holder.2 7).
  { right. vm_compute. discriminate. }
  assert (Hq : is_Some (LM.table_lock_map_ lm_row_holder.1 !! 7)).
  { vm_compute. eauto. }
  split; [exact Hq|]. split; [exact Hrow|].
  exact (proj1 (lm_unlock_table_errors lm_row_holder.1 lm_row_holder.2 7) Hq Hrow).
Defined.

(** Transaction 2 takes IX on table 7 and an X lock on the row (3, 0) of
    it; transaction 1 takes IS on the table.  Transaction 2 asks for X on
    the table: the upgrade takes its IX request out of the queue and waits
    behind transaction 1.  Transaction 1 asks for an S lock on the row and
    waits behind transaction 2.  The deadlock detector finds the cycle and
    aborts transaction 2 ([txn->SetState(TransactionState::ABORTED)] in
    [RunCycleDetection]); woken up, transaction 2 takes its waiting request
    off the queue of the table and [LockTable] returns false.  The run gives
    the lock manager and transaction 2 as they are then. *)
Definition lm_aborted_upgrade : option (LM.LockManager * LM.Transaction) :=
  let '(lm, t2, _) := LM.LockTable LM.create (lm_txn 2) LM.INTENTION_EXCLUSIVE 7 in
  let '(lm, t2, _) := LM.LockRow lm t2 LM.EXCLUSIVE 7 (3, 0) in
  let '(lm, t1, _) := LM.LockTable lm (lm_txn 1) LM.INTENTION_SHARED 7 in
  match LM.LockTable lm t2 LM.EXCLUSIVE 7 with
  | (lm, t2, LM.Wait true) =>
      match LM.LockRow lm t1 LM.SHARED 7 (3, 0) with
      | (lm, t1, LM.Wait false) =>
          match LM.RunCycleDetection 20 lm with
          | Some (lm, [2]) =>
              match LM.LockTable_wakeup lm (LM.SetTxnState t2 LM.ABORTED) 7 true with
              | Some (lm, t2, LM.Ret false) => Some (lm, t2)
              | _ => None
              end
          | _ => None
          end
      | _ => None
      end
  | _ => None
  end.

(** C9 as the specification has it fails: a transaction that holds no
    table lock on the table does not always get
    ATTEMPTED_UNLOCK_BUT_NO_LOCK_HELD.  After the run above transaction 2
    has no request in the queue of table 7 and table 7 in none of its table
    lock sets, and it still has its X lock on the row: [UnlockTable] throws
    TABLE_UNLOCKED_BEFORE_UNLOCKING_ROWS. *)
Lemma lm_unlock_table_counterexample :
  ~ (forall lm txn oid,
       ~ holds_table_lock lm txn oid ->
       (LM.UnlockTable lm txn oid).2
       = LM.Throw LM.ATTEMPTED_UNLOCK_BUT_NO_LOCK_HELD) /\
  exists lm txn,
    lm_aborted_upgrade = Some (lm, txn) /\
    LM.txn_id txn = 2 /\
    ~ holds_table_lock lm txn 7 /\
    (forall q r, LM.table_lock_map_ lm !! 7 = Some q ->
       r ∈ LM.request_queue_ q -> LM.txn_id_ r <> 2) /\
    LM.IsTableSharedLocked txn 7 = false /\
    LM.IsTableExclusiveLocked txn 7 = false /\
    LM.IsTableIntentionSharedLocked txn 7 = false /\
    LM.IsTableIntentionExclusiveLocked txn 7 = false /\
    LM.IsTableSharedIntentionExclusiveLocked txn 7 = false /\
    holds_row_lock txn 7 /\
    (LM.UnlockTable lm txn 7).2
    = LM.Throw LM.TABLE_UNLOCKED_BEFORE_UNLOCKING_ROWS.
Proof.
  assert (H : exists lm txn,
    lm_aborted_upgrade = Some (lm, txn) /\
    LM.txn_id txn = 2 /\
    ~ holds_table_lock lm txn 7 /\
    (forall q r, LM.table_lock_map_ lm !! 7 = Some q ->
       r ∈ LM.request_queue_ q -> LM.txn_id_ r <> 2) /\
    LM.IsTableSharedLocked txn 7 = false /\
    LM.IsTableExclusiveLocked txn 7 = false /\
    LM.IsTableIntentionSharedLocked txn 7 = false /\
    LM.IsTableIntentionExclusiveLocked txn 7 = false /\
    LM.IsTableSharedIntentionExclusiveLocked txn 7 = false /\
    holds_row_lock txn 7 /\
    (LM.UnlockTable lm txn 7).2
    = LM.Throw LM.TABLE_UNLOCKED_BEFORE_UNLOCKING_ROWS).
  { eexists _, _. split; [vm_compute; reflexivity|].
    assert (Hq : forall q r,
      LM.table_lock_map_ (default LM.create (fst <$> lm_aborted_upgrade)) !! 7
      = Some q -> r ∈ LM.request_queue_ q -> LM.txn_id_ r <> 2).
    { intros q r Hq Hr. vm_compute in Hq. inversion Hq; subst. simpl in Hr.
      apply list_elem_of_singleton in Hr. subst. simpl. lia. }
    split; [reflexivity|]. split; [|split].
    - intros (q & r & Hq' & Hr & _ & Hid). by apply (Hq q r Hq' Hr).
    - exact Hq.
    - repeat (split; [vm_compute; reflexivity|]).
      split; [right; vm_compute; discriminate|].
      vm_compute. reflexivity. }
  split; [|exact H].
  destruct H as (lm & txn & _ & _ & Htab & _ & _ & _ & _ & _ & _ & _ & Hout).
  intros C. rewrite (C lm txn 7 Htab) in Hout. discriminate.
Qed.

(** ** Aggregation executor *)

Lemma agg_empty_row plan types i :
  (i + length types <= length (Exec.output_schema_ plan))%nat ->
  exists row, Exec.empty_row plan i types = Some row /\
    length row = length types /\
    forall n ty, types !! n = Some ty ->
      (ty = Exec.CountStarAggregate -> row !! n = Some (Exec.VInteger 0)) /\
      (ty <> Exec.CountStarAggregate -> exists t, row !! n = Some (Exec.VNull t)).
Proof.
  revert i. induction types as [|ty types IH]; intros i Hlen; simpl in *.
  - exists []. split; [reflexivity|]. split; [reflexivity|]. intros n ty H. discriminate.
  - destruct (IH (S i)) as (vs & Hvs & Hl & Hrow); [lia|].
    assert (Hcol : exists t, Exec.output_schema_ plan !! i = Some t).
    { apply lookup_lt_is_Some. lia. }
    destruct Hcol as [t Ht].
    exists ((match ty with
             | Exec.CountStarAggregate => Exec.VInteger 0
             | _ => Exec.VNull t
             end) :: vs).
    split; [|split].
    + rewrite Hvs, Ht. destruct ty; reflexivity.
    + simpl. congruence.
    + intros [|n] ty' Hn; simpl in Hn.
      * inversion Hn; subst. split; intros H.
        -- subst. reflexivity.
        -- exists t. destruct ty'; try reflexivity. contradiction.
      * apply Hrow. exact Hn.
Qed.

(** C8: on an empty child, a plan without group-by columns emits exactly
    one row, 0 for every CountStar aggregate and NULL for every other one; a
    plan with group-by columns emits no row. *)
Theorem agg_empty_input :
  forall InsertCombine plan,
    (Exec.group_bys plan = [] ->
     (length (Exec.agg_types plan) <= length (Exec.output_schema_ plan))%nat ->
     exists row,
       (forall fuel, (2 <= fuel)%nat ->
          Exec.Agg_execute InsertCombine plan fuel [] = Some [row]) /\
       length row = length (Exec.agg_types plan) /\
       forall n ty, Exec.agg_types plan !! n = Some ty ->
         (ty = Exec.CountStarAggregate -> row !! n = Some (Exec.VInteger 0)) /\
         (ty <> Exec.CountStarAggregate -> exists t, row !! n = Some (Exec.VNull t))) /\
    (Exec.group_bys plan <> [] ->
     forall fuel, (1 <= fuel)%nat ->
       Exec.Agg_execute InsertCombine plan fuel [] = Some []).
Proof.
  intros IC plan. split.
  - intros Hgb Hlen.
    destruct (agg_empty_row plan (Exec.agg_types plan) 0) as (row & Hrow & Hl & Hvals);
      [simpl; lia|].
    exists row. split; [|split; auto].
    intros [|[|fuel]] Hf; try lia.
    unfold Exec.Agg_execute, Exec.Agg_Init, Exec.Agg_create. simpl.
    unfold Exec.Agg_Next. simpl. rewrite Hgb, Hrow. simpl.
    unfold Exec.Agg_Next. simpl. reflexivity.
  - intros Hgb [|fuel] Hf; try lia.
    unfold Exec.Agg_execute, Exec.Agg_Init, Exec.Agg_create. simpl.
    unfold Exec.Agg_Next. simpl.
    destruct (Exec.group_bys plan); [contradiction|]. reflexivity.
Qed.

(** SELECT count( * ), max(c0) over an integer column (type id 4). *)
Definition agg_sample_plan : Exec.AggregationPlanNode :=
  Exec.mkAggPlan [] [fun _ => Exec.VInteger 1; fun t => default (Exec.VNull 4) (t !! 0%nat)]
    [Exec.CountStarAggregate; Exec.MaxAggregate] [4; 4].

Lemma agg_empty_input_witness :
  Exec.Agg_execute (fun aht _ _ => aht) agg_sample_plan 2 [] =
    Some [[Exec.VInteger 0; Exec.VNull 4]] /\
  exists row,
    (forall fuel, (2 <= fuel)%nat ->
       Exec.Agg_execute (fun aht _ _ => aht) agg_sample_plan fuel [] = Some [row]) /\
    length row = 2%nat.
Proof.
  split; [reflexivity|].
  destruct (proj1 (agg_empty_input (fun aht _ _ => aht) agg_sample_plan) eq_refl)
    as (row & Hrun & Hl & _); [simpl; lia|].
  exists row. split; [exact Hrun|exact Hl].
Defined.

(** ** Sort and TopN executors *)

(** Insertion into an ascending list, insertion sort and the greatest
    element of a bag, for a boolean order. *)
Section Ordered.
Variable ltb : Exec.Tuple -> Exec.Tuple -> bool.

Fixpoint ord_ins (x : Exec.Tuple) (l : list Exec.Tuple) : list Exec.Tuple :=
  match l with
  | [] => [x]
  | y :: r => if ltb x y then x :: y :: r else y :: ord_ins x r
  end.

Definition ord_sort (l : list Exec.Tuple) : list Exec.Tuple :=
  foldl (fun acc x => ord_ins x acc) [] l.

Fixpoint ord_max (best : Exec.Tuple) (l : list Exec.Tuple) : Exec.Tuple :=
  match l with
  | [] => best
  | y :: r => ord_max (if ltb best y then y else best) r
  end.

(** [ltb] is a strict total order on the elements of [U]. *)
Variable U : list Exec.Tuple.
Hypothesis ltb_asym : forall a b, a ∈ U -> b ∈ U -> a <> b -> ltb a b = negb (ltb b a).
Hypothesis ltb_trans :
  forall a b c, a ∈ U -> b ∈ U -> c ∈ U ->
    ltb a b = true -> ltb b c = true -> ltb a c = true.

Definition ascending (l : list Exec.Tuple) : Prop :=
  StronglySorted (fun a b => ltb a b = true) l.

Lemma ord_ins_perm x l : ord_ins x l ≡ₚ x :: l.
Proof.
  induction l as [|y r IH]; simpl; [reflexivity|].
  destruct (ltb x y); [reflexivity|].
  rewrite IH. apply Permutation_swap.
Qed.

Lemma ord_sort_snoc l x : ord_sort (l ++ [x]) = ord_ins x (ord_sort l).
Proof. unfold ord_sort. rewrite foldl_snoc. reflexivity. Qed.

Lemma ord_sort_perm l : ord_sort l ≡ₚ l.
Proof.
  induction l as [|x l IH] using rev_ind; [reflexivity|].
  rewrite ord_sort_snoc, ord_ins_perm, IH.
  rewrite Permutation_app_comm. reflexivity.
Qed.

Lemma ord_ins_ascending x l :
  x ∈ U -> l ⊆ U -> x ∉ l -> ascending l -> ascending (ord_ins x l).
Proof.
  intros Hx Hl Hn Hs. induction Hs as [|y r Hr IH Hy]; simpl.
  - repeat constructor.
  - assert (Hyu : y ∈ U) by (apply Hl; left).
    assert (Hru : r ⊆ U) by (intros z Hz; apply Hl; right; auto).
    assert (Hxy : x <> y) by (intros ->; apply Hn; left).
    assert (Hxr : x ∉ r) by (intros Hc; apply Hn; right; auto).
    destruct (ltb x y) eqn:Hlt.
    + constructor; [constructor; auto|].
      constructor; auto.
      rewrite Forall_forall in Hy |- *. intros z Hz.
      eapply ltb_trans; [| | |exact Hlt|]; auto.
    + constructor; [apply IH; auto|].
      rewrite Forall_forall in Hy |- *. intros z Hz.
      apply (elem_of_Permutation_proper z _ _ (ord_ins_perm x r)) in Hz.
      apply elem_of_cons in Hz as [->|Hz]; auto.
      rewrite (ltb_asym y x), Hlt; auto.
Qed.

Lemma ord_sort_ascending l : l ⊆ U -> NoDup l -> ascending (ord_sort l).
Proof.
  induction l as [|x l IH] using rev_ind; intros Hl Hnd.
  - constructor.
  - rewrite ord_sort_snoc.
    apply NoDup_app in Hnd as (Hnd & Hdis & _).
    apply ord_ins_ascending.
    + apply Hl. apply elem_of_app. right. left.
    + intros z Hz. apply Hl. apply elem_of_app. left.
      rewrite <- (ord_sort_perm l). exact Hz.
    + intros Hc. rewrite (ord_sort_perm l) in Hc. apply (Hdis x Hc). left.
    + apply IH; auto. intros z Hz. apply Hl. apply elem_of_app. auto.
Qed.

Lemma ord_ins_take n x l :
  take n (ord_ins x l) = take n (ord_ins x (take n l)).
Proof.
  revert n. induction l as [|y r IH]; intros [|n]; simpl; auto.
  destruct (ltb x y); simpl.
  - f_equal. destruct n; simpl; [reflexivity|]. f_equal.
    rewrite take_take. f_equal. lia.
  - f_equal. apply IH.
Qed.

Lemma ascending_take n l : ascending l -> ascending (take n l).
Proof.
  intros Hs. revert n. induction Hs as [|y r Hr IH Hy]; intros [|n]; simpl;
    try (constructor; fail).
  constructor; [apply IH|].
  rewrite Forall_forall in Hy |- *. intros z Hz. apply Hy.
  eapply elem_of_sublist; [exact Hz|apply sublist_take].
Qed.

(** The greatest element of a bag. *)
Definition greatest (m : Exec.Tuple) (l : list Exec.Tuple) : Prop :=
  m ∈ l /\ forall y, y ∈ l -> y <> m -> ltb y m = true.

Lemma ord_max_greatest best l :
  best :: l ⊆ U -> greatest (ord_max best l) (best :: l).
Proof.
  revert best. induction l as [|y r IH]; intros best Hu; simpl.
  - split; [left|]. intros z Hz Hne. apply list_elem_of_singleton in Hz. contradiction.
  - assert (Hb : best ∈ U) by (apply Hu; left).
    assert (Hy : y ∈ U) by (apply Hu; right; left).
    assert (Hr : r ⊆ U) by (intros z Hz; apply Hu; right; right; auto).
    destruct (ltb best y) eqn:Hlt.
    + destruct (IH y) as [Hin Hmax].
      { intros z Hz. apply elem_of_cons in Hz as [->|Hz]; auto. }
      split; [right; exact Hin|].
      intros z Hz Hne. apply elem_of_cons in Hz as [->|Hz]; [|apply Hmax; auto].
      destruct (decide (y = ord_max y r)) as [<-|Hym]; auto.
      eapply (ltb_trans _ y); auto.
      * apply Hu. right. exact Hin.
      * apply Hmax; [left|auto].
    + destruct (IH best) as [Hin Hmax].
      { intros z Hz. apply elem_of_cons in Hz as [->|Hz]; auto. }
      split.
      { apply elem_of_cons in Hin as [Hin|Hin]; [rewrite Hin; left|right; right; auto]. }
      intros z Hz Hne.
      apply elem_of_cons in Hz as [->|Hz];
        [apply Hmax; [left|auto]|].
      apply elem_of_cons in Hz as [->|Hz]; [|apply Hmax; [right; auto|auto]].
      destruct (decide (y = best)) as [->|Hyb].
      { apply Hmax; [left|auto]. }
      assert (Hyb' : ltb y best = true).
      { rewrite (ltb_asym y best), Hlt; auto. }
      destruct (decide (best = ord_max best r)) as [<-|Hbm]; auto.
      eapply (ltb_trans _ best); auto.
      * apply Hu. apply elem_of_cons in Hin as [->|Hin]; [left|right; right; auto].
      * apply Hmax; [left|auto].
Qed.

Lemma greatest_last s m : ascending (s ++ [m]) -> greatest m (s ++ [m]).
Proof.
  intros Hs. split; [apply elem_of_app; right; left|].
  intros y Hy Hne. apply elem_of_app in Hy as [Hy|Hy].
  - clear Hne. induction s as [|x s IH]; [inversion Hy|].
    simpl in Hs. inversion Hs; subst.
    apply elem_of_cons in Hy as [->|Hy]; auto.
    rewrite Forall_forall in H2. apply H2. apply elem_of_app. right. left.
  - apply list_elem_of_singleton in Hy. contradiction.
Qed.

Lemma greatest_unique m m' l l' :
  l ⊆ U -> l ≡ₚ l' -> greatest m l -> greatest m' l' -> m = m'.
Proof.
  intros Hu Hp [Hin Hmax] [Hin' Hmax'].
  destruct (decide (m = m')) as [|Hne]; auto. exfalso.
  assert (Hm'l : m' ∈ l) by (rewrite Hp; auto).
  assert (Hml' : m ∈ l') by (rewrite <- Hp; auto).
  pose proof (Hmax m' Hm'l (not_eq_sym Hne)) as H1.
  pose proof (Hmax' m Hml' Hne) as H2.
  rewrite (ltb_asym m m'), H1 in H2; auto. discriminate.
Qed.

Lemma pq_remove_perm m l : m ∈ l -> l ≡ₚ m :: Exec.pq_remove m l.
Proof.
  induction l as [|x r IH]; intros Hin; [inversion Hin|]. simpl.
  destruct (decide (x = m)) as [->|Hne]; [reflexivity|].
  apply elem_of_cons in Hin as [->|Hin]; [contradiction|].
  rewrite (IH Hin) at 1. apply Permutation_swap.
Qed.

Lemma pq_remove_last m l s :
  l ≡ₚ s ++ [m] -> Exec.pq_remove m l ≡ₚ s.
Proof.
  intros Hp. assert (Hin : m ∈ l) by (rewrite Hp; apply elem_of_app; right; left).
  apply pq_remove_perm in Hin. rewrite Hin in Hp.
  rewrite Permutation_app_comm in Hp. simpl in Hp.
  eapply Permutation_cons_inv. exact Hp.
Qed.

End Ordered.

(** The modelled library calls agree with the pure functions wherever
    the comparator decides every pair of distinct tuples. *)
Section Agreement.
Variable comp : Exec.Tuple -> Exec.Tuple -> option bool.
Variable ltb : Exec.Tuple -> Exec.Tuple -> bool.
Variable U : list Exec.Tuple.
Hypothesis comp_ok : forall a b, a ∈ U -> b ∈ U -> a <> b -> comp a b = Some (ltb a b).

Lemma sort_insert_ok x l :
  x ∈ U -> l ⊆ U -> x ∉ l -> Exec.sort_insert comp x l = Some (ord_ins ltb x l).
Proof.
  intros Hx. induction l as [|y r IH]; intros Hl Hn; simpl; [reflexivity|].
  rewrite comp_ok; auto.
  - simpl. destruct (ltb x y); [reflexivity|].
    rewrite IH; [reflexivity| |].
    + intros z Hz. apply Hl. right. auto.
    + intros Hc. apply Hn. right. auto.
  - apply Hl. left.
  - intros ->. apply Hn. left.
Qed.

Lemma std_sort_snoc l x :
  Exec.std_sort comp (l ++ [x]) = s ← Exec.std_sort comp l; Exec.sort_insert comp x s.
Proof. unfold Exec.std_sort. rewrite foldl_snoc. reflexivity. Qed.

Lemma std_sort_ok l :
  l ⊆ U -> NoDup l -> Exec.std_sort comp l = Some (ord_sort ltb l).
Proof.
  induction l as [|x l IH] using rev_ind; intros Hl Hnd; [reflexivity|].
  apply NoDup_app in Hnd as (Hnd & Hdis & _).
  assert (Hlu : l ⊆ U) by (intros z Hz; apply Hl, elem_of_app; auto).
  rewrite std_sort_snoc, IH, ord_sort_snoc; auto. simpl.
  apply sort_insert_ok.
  - apply Hl, elem_of_app. right. left.
  - intros z Hz. rewrite ord_sort_perm in Hz. auto.
  - intros Hc. rewrite ord_sort_perm in Hc. apply (Hdis x Hc). left.
Qed.

Lemma pq_max_ok best l :
  best :: l ⊆ U -> NoDup (best :: l) ->
  Exec.pq_max comp best l = Some (ord_max ltb best l).
Proof.
  revert best. induction l as [|y r IH]; intros best Hu Hnd; simpl; [reflexivity|].
  assert (Hb : best ∈ U) by (apply Hu; left).
  assert (Hy : y ∈ U) by (apply Hu; right; left).
  assert (Hr : r ⊆ U) by (intros z Hz; apply Hu; right; right; auto).
  inversion Hnd as [|? ? Hnb Hnd']; subst. inversion Hnd' as [|? ? Hny Hnr]; subst.
  rewrite comp_ok; auto.
  - simpl. apply IH.
    + destruct (ltb best y); intros z Hz;
        apply elem_of_cons in Hz as [->|Hz]; auto.
    + destruct (ltb best y); constructor; auto.
      intros Hc. apply Hnb. right. auto.
  - intros ->. apply Hnb. left.
Qed.

Lemma pq_top_ok a r :
  a :: r ⊆ U -> NoDup (a :: r) ->
  Exec.pq_top comp (a :: r) = Some (ord_max ltb a r).
Proof. apply pq_max_ok. Qed.

End Agreement.

Section TopNCorrect.
Variable obs : list (Exec.OrderByType * Exec.AbstractExpression).
Variable ltb : Exec.Tuple -> Exec.Tuple -> bool.
Variable U : list Exec.Tuple.
Hypothesis ltb_asym : forall a b, a ∈ U -> b ∈ U -> a <> b -> ltb a b = negb (ltb b a).
Hypothesis ltb_trans :
  forall a b c, a ∈ U -> b ∈ U -> c ∈ U ->
    ltb a b = true -> ltb b c = true -> ltb a c = true.
Hypothesis topn_ok :
  forall a b, a ∈ U -> b ∈ U -> a <> b -> Exec.topn_comp obs a b = Some (ltb a b).

Lemma pq_pop_greatest heap s m :
  heap ⊆ U -> NoDup heap -> heap ≡ₚ s ++ [m] -> ascending ltb (s ++ [m]) ->
  Exec.pq_top (Exec.topn_comp obs) heap = Some m /\
  exists heap', Exec.pq_pop (Exec.topn_comp obs) heap = Some heap' /\ heap' ≡ₚ s /\
    heap' ⊆ U /\ NoDup heap'.
Proof.
  intros Hu Hnd Hp Hs.
  destruct heap as [|a r].
  { apply Permutation_nil_l in Hp. destruct s; discriminate. }
  assert (Htop : Exec.pq_top (Exec.topn_comp obs) (a :: r) = Some m).
  { rewrite (pq_top_ok _ ltb U topn_ok); auto. f_equal.
    eapply (greatest_unique ltb U ltb_asym); [exact Hu|exact Hp| |].
    - apply (ord_max_greatest ltb U); auto.
    - apply greatest_last. exact Hs. }
  split; [exact Htop|].
  unfold Exec.pq_pop. rewrite Htop. simpl.
  eexists. split; [reflexivity|].
  assert (Hrm : Exec.pq_remove m (a :: r) ≡ₚ s) by (apply pq_remove_last; auto).
  split; [exact Hrm|].
  assert (Hin : m ∈ a :: r) by (rewrite Hp; apply elem_of_app; right; left).
  pose proof (pq_remove_perm m (a :: r) Hin) as Hperm.
  split.
  - intros z Hz. apply Hu. rewrite Hperm. right. exact Hz.
  - rewrite Hperm in Hnd. inversion Hnd; auto.
Qed.

Lemma topn_fill_snoc n l x :
  Exec.topn_fill obs n (l ++ [x]) =
  heap ← Exec.topn_fill obs n l;
  let heap := Exec.pq_emplace x heap in
  if Nat.ltb n (length heap) then Exec.pq_pop (Exec.topn_comp obs) heap else Some heap.
Proof. unfold Exec.topn_fill. rewrite foldl_snoc. reflexivity. Qed.

Lemma topn_fill_ok n l :
  l ⊆ U -> NoDup l ->
  exists heap, Exec.topn_fill obs n l = Some heap /\
    heap ≡ₚ take n (ord_sort ltb l) /\ heap ⊆ U /\ NoDup heap.
Proof.
  induction l as [|x l IH] using rev_ind; intros Hl Hnd.
  - exists []. split; [reflexivity|]. unfold ord_sort. simpl. rewrite take_nil.
    split; [reflexivity|]. split; [intros z Hz; inversion Hz|constructor].
  - apply NoDup_app in Hnd as (Hnd & Hdis & _).
    assert (Hlu : l ⊆ U) by (intros z Hz; apply Hl, elem_of_app; auto).
    assert (Hxu : x ∈ U) by (apply Hl, elem_of_app; right; left).
    assert (Hxl : x ∉ l) by (intros Hc; apply (Hdis x Hc); left).
    destruct (IH Hlu Hnd) as (heap & Hfill & Hperm & Hhu & Hhnd).
    rewrite topn_fill_snoc, Hfill. simpl. unfold Exec.pq_emplace.
    set (t := take n (ord_sort ltb l)) in *.
    assert (Hsorted : ascending ltb (ord_sort ltb l))
      by (apply (ord_sort_ascending ltb U); auto).
    assert (Htu : t ⊆ U).
    { intros z Hz. apply Hlu. rewrite <- (ord_sort_perm ltb l).
      eapply elem_of_sublist; [exact Hz|apply sublist_take]. }
    assert (Hxt : x ∉ t).
    { intros Hc. apply Hxl. rewrite <- (ord_sort_perm ltb l).
      eapply elem_of_sublist; [exact Hc|apply sublist_take]. }
    assert (Hts : ascending ltb t) by (apply ascending_take; auto).
    assert (Hins : ascending ltb (ord_ins ltb x t))
      by (apply (ord_ins_ascending ltb U); auto).
    assert (Hh1 : heap ++ [x] ≡ₚ ord_ins ltb x t).
    { rewrite ord_ins_perm, Hperm. rewrite Permutation_app_comm. reflexivity. }
    assert (Hh1u : heap ++ [x] ⊆ U).
    { intros z Hz. apply elem_of_app in Hz as [Hz|Hz]; auto.
      apply list_elem_of_singleton in Hz. subst. auto. }
    assert (Hh1nd : NoDup (heap ++ [x])).
    { apply NoDup_app. split; [auto|]. split; [|apply NoDup_singleton].
      intros z Hz Hz'. apply list_elem_of_singleton in Hz'. subst.
      apply Hxt. rewrite <- Hperm. exact Hz. }
    assert (Hlen : length (heap ++ [x]) = S (length t)).
    { rewrite length_app, Hperm. simpl. lia. }
    assert (Htl : (length t <= n)%nat) by (subst t; rewrite length_take; lia).
    rewrite ord_sort_snoc, ord_ins_take. fold t.
    destruct (Nat.ltb_spec n (length (heap ++ [x]))) as [Hgt|Hle].
    + assert (Hn : length t = n) by lia.
      destruct (ord_ins ltb x t) as [|z zs] eqn:Hz.
      { apply Permutation_length in Hh1. simpl in Hh1. lia. }
      destruct (exists_last (l := z :: zs)) as (l0 & x0 & Hsm); [discriminate|].
      rewrite Hsm in *.
      destruct (pq_pop_greatest (heap ++ [x]) l0 x0 Hh1u Hh1nd Hh1 Hins)
        as (_ & heap' & Hpop & Hperm' & Hu' & Hnd').
      exists heap'. split; [exact Hpop|]. split; [|auto].
      rewrite Hperm'. rewrite take_app_length'; [reflexivity|].
      apply Permutation_length in Hh1. rewrite Hlen, length_app in Hh1.
      simpl in Hh1. lia.
    + exists (heap ++ [x]). split; [reflexivity|]. split; [|auto].
      rewrite Hh1. rewrite take_ge; [reflexivity|].
      apply Permutation_length in Hh1. lia.
Qed.

Lemma topn_drain_ok t : forall heap fuel,
  heap ⊆ U -> NoDup heap -> heap ≡ₚ t -> ascending ltb t ->
  (length heap <= fuel)%nat ->
  Exec.topn_drain obs fuel heap = Some (reverse t).
Proof.
  induction t as [|m t IH] using rev_ind; intros heap fuel Hu Hnd Hp Hs Hf.
  - apply Permutation_nil_r in Hp. subst. destruct fuel; reflexivity.
  - destruct (pq_pop_greatest heap t m Hu Hnd Hp Hs)
      as (Htop & heap' & Hpop & Hperm' & Hu' & Hnd').
    destruct heap as [|a r]; [discriminate|].
    destruct fuel as [|f]; [simpl in Hf; lia|].
    cbn [Exec.topn_drain]. rewrite Htop, Hpop. simpl.
    rewrite (IH heap' f); auto.
    + simpl. rewrite reverse_snoc. reflexivity.
    + eapply StronglySorted_app_1_l. exact Hs.
    + apply Permutation_length in Hp, Hperm'.
      rewrite length_app in Hp. simpl in *. lia.
Qed.

Hypothesis sort_ok :
  forall a b, a ∈ U -> b ∈ U -> a <> b -> Exec.sort_comp obs a b = Some (ltb a b).
Hypothesis U_nodup : NoDup U.

Lemma topn_sort_ordered n :
  Exec.Sort_Init obs U = Some (ord_sort ltb U) /\
  Exec.TopN_Init obs n U = Some (take n (ord_sort ltb U)) /\
  ord_sort ltb U ≡ₚ U /\ ascending ltb (ord_sort ltb U).
Proof.
  split; [|split; [|split]].
  - unfold Exec.Sort_Init. apply (std_sort_ok _ ltb U); auto.
  - unfold Exec.TopN_Init.
    destruct (topn_fill_ok n U) as (heap & Hfill & Hperm & Hu & Hnd); auto.
    rewrite Hfill. simpl.
    rewrite (topn_drain_ok (take n (ord_sort ltb U))); auto.
    + simpl. rewrite reverse_involutive. reflexivity.
    + apply ascending_take. apply (ord_sort_ascending ltb U); auto.
  - apply ord_sort_perm.
  - apply (ord_sort_ascending ltb U); auto.
Qed.

End TopNCorrect.

(** The comparator decides the pair [x], [y] strictly: one of the two
    calls returns true, the other false, and neither asserts. *)
Definition comp_strict (obs : list (Exec.OrderByType * Exec.AbstractExpression))
    (x y : Exec.Tuple) : Prop :=
  exists b, Exec.comp_loop obs x y = Some (inr b) /\
            Exec.comp_loop obs y x = Some (inr (negb b)).

Lemma comp_loop_trans obs a b c :
  comp_strict obs a b -> comp_strict obs b c -> comp_strict obs a c ->
  Exec.comp_loop obs a b = Some (inr true) ->
  Exec.comp_loop obs b c = Some (inr true) ->
  Exec.comp_loop obs a c = Some (inr true).
Proof.
  induction obs as [|[ot e] rest IH];
    intros (b1 & A1 & A2) (b2 & B1 & B2) (b3 & C1 & C2) H1 H2; simpl in *.
  - discriminate.
  - destruct (e a) as [za|], (e b) as [zb|], (e c) as [zc|]; simpl in *;
      try (destruct ot, b1; simpl in *; discriminate);
      try (destruct ot, b2; simpl in *; discriminate).
    destruct (Z.ltb_spec za zb), (Z.ltb_spec zb za), (Z.ltb_spec zb zc),
      (Z.ltb_spec zc zb), (Z.ltb_spec za zc), (Z.ltb_spec zc za);
      simpl in *; try lia;
      try (destruct ot; simpl in *; congruence).
    apply IH; auto; eexists; eauto.
Qed.

(** Every two tuples of the input, taken at different positions, are
    decided strictly by the sort comparator: no two tuples tie on all
    order-by keys, and no deciding comparison meets a NULL. *)
Definition strictly_ordered (obs : list (Exec.OrderByType * Exec.AbstractExpression))
    (input : list Exec.Tuple) : Prop :=
  forall i j ti tj, i <> j -> input !! i = Some ti -> input !! j = Some tj ->
    exists b, Exec.sort_comp obs ti tj = Some b /\
              Exec.sort_comp obs tj ti = Some (negb b).

Definition sort_ltb (obs : list (Exec.OrderByType * Exec.AbstractExpression))
    (a b : Exec.Tuple) : bool :=
  bool_decide (Exec.sort_comp obs a b = Some true).

Lemma sort_comp_inr obs x y b :
  Exec.sort_comp obs x y = Some b <-> Exec.comp_loop obs x y = Some (inr b).
Proof.
  unfold Exec.sort_comp. destruct (Exec.comp_loop obs x y) as [[[]|b']|]; simpl;
    split; intros H; try discriminate; congruence.
Qed.

Lemma topn_comp_inr obs x y b :
  Exec.comp_loop obs x y = Some (inr b) -> Exec.topn_comp obs x y = Some b.
Proof. unfold Exec.topn_comp. intros ->. reflexivity. Qed.

Lemma strictly_ordered_NoDup obs input : strictly_ordered obs input -> NoDup input.
Proof.
  intros H. apply NoDup_alt. intros i j x Hi Hj.
  destruct (decide (i = j)) as [|Hne]; auto.
  destruct (H i j x x Hne Hi Hj) as (b & H1 & H2).
  rewrite H1 in H2. destruct b; discriminate.
Qed.

Lemma strictly_ordered_pair obs input a b :
  strictly_ordered obs input -> a ∈ input -> b ∈ input -> a <> b ->
  comp_strict obs a b.
Proof.
  intros H Ha Hb Hne.
  apply list_elem_of_lookup in Ha as [i Hi]. apply list_elem_of_lookup in Hb as [j Hj].
  assert (Hij : i <> j) by (intros ->; congruence).
  destruct (H i j a b Hij Hi Hj) as (b0 & H1 & H2).
  exists b0. split; apply sort_comp_inr; auto.
Qed.

Lemma sort_ltb_spec obs a b b0 :
  Exec.comp_loop obs a b = Some (inr b0) -> sort_ltb obs a b = b0.
Proof.
  intros H. apply sort_comp_inr in H. unfold sort_ltb. rewrite H.
  destruct b0; [apply bool_decide_eq_true_2; reflexivity|].
  apply bool_decide_eq_false_2. discriminate.
Qed.

Lemma ascending_sort_comp obs l :
  ascending (sort_ltb obs) l ->
  StronglySorted (fun a b => Exec.sort_comp obs a b = Some true) l.
Proof.
  induction 1 as [|x l Hl IH Hx]; constructor; auto.
  eapply Forall_impl; [exact Hx|].
  intros b Hab. simpl in Hab. unfold sort_ltb in Hab.
  apply bool_decide_eq_true_1 in Hab. exact Hab.
Qed.

(** C6, as the code has it: on an input that the comparator orders
    strictly (no ties, no NULL in a deciding key), for every order-by list
    and every N, the sort executor emits a sequence [s] that is the input
    rearranged in ascending order, and the top-N executor emits exactly the
    first N tuples of [s]. *)
Theorem topn_is_prefix_of_sort :
  forall obs n input,
    strictly_ordered obs input ->
    exists s,
      Exec.Sort_Init obs input = Some s /\
      Exec.TopN_Init obs n input = Some (take n s) /\
      s ≡ₚ input /\
      StronglySorted (fun a b => Exec.sort_comp obs a b = Some true) s.
Proof.
  intros obs n input Hord.
  pose proof (strictly_ordered_NoDup _ _ Hord) as Hnd.
  assert (Hasym : forall a b, a ∈ input -> b ∈ input -> a <> b ->
            sort_ltb obs a b = negb (sort_ltb obs b a)).
  { intros a b Ha Hb Hne.
    destruct (strictly_ordered_pair _ _ _ _ Hord Ha Hb Hne) as (b0 & H1 & H2).
    rewrite (sort_ltb_spec _ _ _ _ H1), (sort_ltb_spec _ _ _ _ H2).
    destruct b0; reflexivity. }
  assert (Hsort : forall a b, a ∈ input -> b ∈ input -> a <> b ->
            Exec.sort_comp obs a b = Some (sort_ltb obs a b)).
  { intros a b Ha Hb Hne.
    destruct (strictly_ordered_pair _ _ _ _ Hord Ha Hb Hne) as (b0 & H1 & H2).
    rewrite (sort_ltb_spec _ _ _ _ H1). apply sort_comp_inr. exact H1. }
  assert (Htopn : forall a b, a ∈ input -> b ∈ input -> a <> b ->
            Exec.topn_comp obs a b = Some (sort_ltb obs a b)).
  { intros a b Ha Hb Hne.
    destruct (strictly_ordered_pair _ _ _ _ Hord Ha Hb Hne) as (b0 & H1 & H2).
    rewrite (sort_ltb_spec _ _ _ _ H1). apply topn_comp_inr. exact H1. }
  assert (Hirr : forall a, sort_ltb obs a a = true -> False).
  { intros a Ha. unfold sort_ltb in Ha. apply bool_decide_eq_true_1 in Ha.
    apply sort_comp_inr in Ha. clear -Ha.
    induction obs as [|[ot e] rest IH]; simpl in Ha; [discriminate|].
    destruct (e a) as [z|]; simpl in Ha.
    - rewrite Z.ltb_irrefl in Ha. simpl in Ha. auto.
    - destruct ot; discriminate. }
  assert (Htrans : forall a b c, a ∈ input -> b ∈ input -> c ∈ input ->
            sort_ltb obs a b = true -> sort_ltb obs b c = true ->
            sort_ltb obs a c = true).
  { intros a b c Ha Hb Hc Hab Hbc.
    destruct (decide (a = b)) as [->|Nab]; auto.
    destruct (decide (b = c)) as [->|Nbc]; auto.
    destruct (decide (a = c)) as [->|Nac].
    { exfalso. rewrite (Hasym c b) in Hab by auto. rewrite Hbc in Hab. discriminate. }
    unfold sort_ltb in *.
    apply bool_decide_eq_true_1 in Hab, Hbc. apply bool_decide_eq_true_2.
    apply sort_comp_inr in Hab, Hbc. apply sort_comp_inr.
    apply (comp_loop_trans obs a b c); auto;
      eapply strictly_ordered_pair; eauto. }
  destruct (topn_sort_ordered obs (sort_ltb obs) input Hasym Htrans Htopn Hsort Hnd n)
    as (Hs & Ht & Hp & Hasc).
  exists (ord_sort (sort_ltb obs) input).
  split; [exact Hs|]. split; [exact Ht|]. split; [exact Hp|].
  apply ascending_sort_comp. exact Hasc.
Qed.

(** Column 0, ascending. *)
Definition sort_by_col0 : list (Exec.OrderByType * Exec.AbstractExpression) :=
  [(Exec.ASC, fun t => default (Exec.VNull 4) (t !! 0%nat))].

Definition sort_s7_input : list Exec.Tuple :=
  [[Exec.VInteger 5]; [Exec.VInteger 2]; [Exec.VInteger 8]; [Exec.VInteger 1];
   [Exec.VInteger 4]].

Lemma sort_s7_strictly_ordered : strictly_ordered sort_by_col0 sort_s7_input.
Proof.
  intros i j ti tj Hne Hi Hj.
  destruct i as [|[|[|[|[|?]]]]]; destruct j as [|[|[|[|[|?]]]]];
    try discriminate; try congruence;
    inversion Hi; inversion Hj; subst;
    eexists; split; vm_compute; reflexivity.
Qed.

Lemma topn_is_prefix_of_sort_witness :
  strictly_ordered sort_by_col0 sort_s7_input /\
  Exec.TopN_Init sort_by_col0 3 sort_s7_input =
    Some [[Exec.VInteger 1]; [Exec.VInteger 2]; [Exec.VInteger 4]] /\
  exists s, Exec.Sort_Init sort_by_col0 sort_s7_input = Some s /\
    Exec.TopN_Init sort_by_col0 3 sort_s7_input = Some (take 3 s).
Proof.
  split; [exact sort_s7_strictly_ordered|]. split; [vm_compute; reflexivity|].
  destruct (topn_is_prefix_of_sort sort_by_col0 3 sort_s7_input sort_s7_strictly_ordered)
    as (s & Hs & Ht & _).
  exists s. split; [exact Hs|exact Ht].
Defined.

(** Two tuples that tie on the only order-by key. *)
Definition sort_tie_input : list Exec.Tuple :=
  [[Exec.VInteger 1; Exec.VInteger 10]; [Exec.VInteger 1; Exec.VInteger 20]].

(** The claim as stated fails on an input with a tie: the sort executor
    runs into its assertion ("tuple eq") and emits nothing, the top-N
    executor emits a tuple. *)
Lemma topn_sort_tie_counterexample :
  ~ (forall obs n input, exists s,
       Exec.Sort_Init obs input = Some s /\
       Exec.TopN_Init obs n input = Some (take n s)) /\
  Exec.Sort_Init sort_by_col0 sort_tie_input = None /\
  Exec.TopN_Init sort_by_col0 1 sort_tie_input =
    Some [[Exec.VInteger 1; Exec.VInteger 10]].
Proof.
  assert (Hs : Exec.Sort_Init sort_by_col0 sort_tie_input = None)
    by (vm_compute; reflexivity).
  split; [|split; [exact Hs|vm_compute; reflexivity]].
  intros H. destruct (H sort_by_col0 1%nat sort_tie_input) as (s & Hs' & _).
  rewrite Hs in Hs'. discriminate.
Qed.

(** ** B+ tree index *)

Set Warnings "-clear-no-such-hyp".
Import BPT.


(** *** Arrays and pages *)

Lemma half_bounds (n : nat) :
  (2 * Nat.div2 n <= n < 2 * Nat.div2 n + 2)%nat.
Proof.
  rewrite Nat.div2_div.
  pose proof (Nat.div_mod_eq n 2). pose proof (Nat.mod_upper_bound n 2). lia.
Qed.


(** The first n slots of an array. *)
Definition slots (a : list MappingType) (n : nat) : list MappingType :=
  map (arr_get a) (seq 0 n).

Lemma length_slots a n : length (slots a n) = n.
Proof. unfold slots. by rewrite length_map, length_seq. Qed.

Lemma slots_lookup a n i :
  (i < n)%nat -> slots a n !! i = Some (arr_get a i).
Proof.
  intros Hi. unfold slots. rewrite list_lookup_fmap.
  rewrite lookup_seq_lt by done. done.
Qed.


Lemma slots_ext a b n :
  (forall i, (i < n)%nat -> arr_get a i = arr_get b i) -> slots a n = slots b n.
Proof.
  intros H. apply list_eq. intros i.
  destruct (decide (i < n)%nat).
  - rewrite !slots_lookup by done. by rewrite H.
  - rewrite !lookup_ge_None_2; [done|rewrite length_slots; lia..].
Qed.




Lemma FetchPage_with_page p f ps q :
  FetchPage (with_page p f ps) q
  = if decide (q = p) then f (FetchPage ps p) else FetchPage ps q.
Proof.
  unfold FetchPage, with_page. case_decide; subst.
  - by rewrite lookup_insert_eq.
  - by rewrite lookup_insert_ne.
Qed.

(** Two pages with the same header. *)
Definition hdr (pg : BPlusTreePage) : BPlusTreePage := set_array [] pg.










(** *** The binary searches *)

Lemma LowerBound_loop_spec a key fuel first len b :
  (len <= fuel)%nat -> (first <= b <= first + len)%nat ->
  (forall j, (first <= j < b)%nat -> fst (arr_get a j) < key) ->
  (forall j, (b <= j < first + len)%nat -> key <= fst (arr_get a j)) ->
  LowerBound_loop fuel a first len key = b.
Proof.
  revert first len. induction fuel as [|fuel IH]; intros first len Hf Hb Hlo Hhi.
  - simpl. lia.
  - simpl. destruct (Nat.ltb_spec 0 len) as [Hpos|Hz]; [|lia].
    pose proof (half_bounds len) as Hh.
    destruct (Z.ltb_spec (fst (arr_get a (first + Nat.div2 len))) key)
      as [Hlt|Hge].
    + assert (first + Nat.div2 len < b)%nat.
      { destruct (decide (first + Nat.div2 len < b)%nat); [done|].
        specialize (Hhi (first + Nat.div2 len)%nat). lia. }
      apply IH; [lia|lia| |]; intros j Hj; [apply Hlo|apply Hhi]; lia.
    + assert (b <= first + Nat.div2 len)%nat.
      { destruct (decide (b <= first + Nat.div2 len)%nat); [done|].
        specialize (Hlo (first + Nat.div2 len)%nat). lia. }
      apply IH; [lia|lia| |]; intros j Hj; [apply Hlo|apply Hhi]; lia.
Qed.

Lemma LowerBound_spec a key first last b :
  (first <= b <= last)%nat ->
  (forall j, (first <= j < b)%nat -> fst (arr_get a j) < key) ->
  (forall j, (b <= j < last)%nat -> key <= fst (arr_get a j)) ->
  LowerBound a first last key = b.
Proof.
  intros Hb Hlo Hhi. unfold LowerBound.
  apply LowerBound_loop_spec; [lia|lia|done|].
  intros j Hj. apply Hhi. lia.
Qed.

Lemma UpperBound_loop_spec a key fuel first len b :
  (len <= fuel)%nat -> (first <= b <= first + len)%nat ->
  (forall j, (first <= j < b)%nat -> fst (arr_get a j) <= key) ->
  (forall j, (b <= j < first + len)%nat -> key < fst (arr_get a j)) ->
  UpperBound_loop fuel a first len key = b.
Proof.
  revert first len. induction fuel as [|fuel IH]; intros first len Hf Hb Hlo Hhi.
  - simpl. lia.
  - simpl. destruct (Nat.ltb_spec 0 len) as [Hpos|Hz]; [|lia].
    pose proof (half_bounds len) as Hh.
    destruct (Z.ltb_spec key (fst (arr_get a (first + Nat.div2 len))))
      as [Hlt|Hge].
    + assert (b <= first + Nat.div2 len)%nat.
      { destruct (decide (b <= first + Nat.div2 len)%nat); [done|].
        specialize (Hlo (first + Nat.div2 len)%nat). lia. }
      apply IH; [lia|lia| |]; intros j Hj; [apply Hlo|apply Hhi]; lia.
    + assert (first + Nat.div2 len < b)%nat.
      { destruct (decide (first + Nat.div2 len < b)%nat); [done|].
        specialize (Hhi (first + Nat.div2 len)%nat). lia. }
      apply IH; [lia|lia| |]; intros j Hj; [apply Hlo|apply Hhi]; lia.
Qed.

Lemma UpperBound_spec a key first last b :
  (first <= b <= last)%nat ->
  (forall j, (first <= j < b)%nat -> fst (arr_get a j) <= key) ->
  (forall j, (b <= j < last)%nat -> key < fst (arr_get a j)) ->
  UpperBound a first last key = b.
Proof.
  intros Hb Hlo Hhi. unfold UpperBound.
  apply UpperBound_loop_spec; [lia|lia|done|].
  intros j Hj. apply Hhi. lia.
Qed.

(** A predicate that holds on an initial part of [first, last) has a
    boundary there. *)
Lemma boundary (P : nat -> Prop) (first last : nat) :
  (forall j, Decision (P j)) -> (first <= last)%nat ->
  (forall i j, (first <= i <= j)%nat -> (j < last)%nat -> P j -> P i) ->
  exists b, (first <= b <= last)%nat /\
    (forall j, (first <= j < b)%nat -> P j) /\
    (forall j, (b <= j < last)%nat -> ~ P j).
Proof.
  intros Hdec Hle. induction last as [|last IH].
  - intros _. exists first. split; [lia|]. split; intros; lia.
  - intros Hmono. destruct (decide (first = S last)) as [->|Hne].
    { exists (S last). split; [lia|]. split; intros; lia. }
    destruct IH as (b & Hb & Hlo & Hhi); [lia| |].
    { intros i j ? ? ?. apply (Hmono i j); [lia|lia|done]. }
    destruct (decide (P last)) as [HP|HP].
    + exists (S last). split; [lia|]. split; [|intros; lia].
      intros j Hj. apply (Hmono j last); [lia|lia|done].
    + exists b. split; [lia|]. split; [done|].
      intros j Hj. destruct (decide (j = last)) as [->|]; [done|].
      apply Hhi. lia.
Qed.

(** *** The tree held by a page store

    The pages reachable from the root are described by a tree: a leaf with
    its page id and entries, an internal node with its page id and, per
    slot, the key of the slot and the subtree under it. *)
#[warnings="-register-all"]
Inductive tree :=
| TLeaf (pid : page_id_t) (es : list MappingType)
| TNode (pid : page_id_t) (cs : list (KeyType * tree)).

Definition root_pid (x : tree) : page_id_t :=
  match x with TLeaf pid _ | TNode pid _ => pid end.

Fixpoint first_leaf (x : tree) : page_id_t :=
  match x with
  | TLeaf pid _ => pid
  | TNode _ [] => INVALID_PAGE_ID
  | TNode _ ((_, c) :: _) => first_leaf c
  end.

Fixpoint pids (x : tree) : list page_id_t :=
  match x with
  | TLeaf pid _ => [pid]
  | TNode pid cs => pid :: concat (map (fun kc => pids (snd kc)) cs)
  end.



Definition kpids (cs : list (KeyType * tree)) : list page_id_t :=
  concat (map (fun kc => pids (snd kc)) cs).
Definition slot_of (kc : KeyType * tree) : MappingType :=
  (fst kc, root_pid (snd kc)).

Definition bound := option Z.
Definition lo_le (lo : bound) (k : Z) : Prop :=
  match lo with None => True | Some l => l <= k end.
Definition lt_hi (k : Z) (hi : bound) : Prop :=
  match hi with None => True | Some h => k < h end.
Definition within (lo hi : bound) (k : Z) : Prop := lo_le lo k /\ lt_hi k hi.

(** Strictly ascending, by positions. *)
Definition asc (ks : list Z) : Prop :=
  forall i j x y, ks !! i = Some x -> ks !! j = Some y -> (i < j)%nat -> x < y.

Definition page_is (pg : BPlusTreePage) (ty : IndexPageType)
    (pid parent : page_id_t) (ents : list MappingType) : Prop :=
  page_type_ pg = ty /\ page_id_ pg = pid /\ parent_page_id_ pg = parent /\
  size_ pg = length ents /\ slots (array_ pg) (length ents) = ents.

Section Good.
Variables lmax lmin imax imin : nat.

(** good ps root parent nxt lo hi x: the store ps holds the tree x, whose
    root page has the given parent; the leaves of x are chained and the
    last one points to nxt; the keys of x are strictly ascending within
    [lo, hi); every node but the root holds at least the min size, every
    node less than (leaf) or at most (internal) the max size. *)
Inductive good (ps : Pages)
  : bool -> page_id_t -> page_id_t -> bound -> bound -> tree -> Prop :=
| good_leaf (root : bool) parent nxt lo hi pid es :
    0 <= pid ->
    page_is (FetchPage ps pid) LEAF_PAGE pid parent es ->
    next_page_id_ (FetchPage ps pid) = nxt ->
    asc (es.*1) ->
    (forall k, k ∈ es.*1 -> within lo hi k) ->
    (1 <= length es < lmax)%nat ->
    (root = false -> lmin <= length es)%nat ->
    good ps root parent nxt lo hi (TLeaf pid es)
| good_node (root : bool) parent nxt lo hi pid cs :
    0 <= pid ->
    page_is (FetchPage ps pid) INTERNAL_PAGE pid parent (slot_of <$> cs) ->
    ((if root then 2 else imin) <= length cs <= imax)%nat ->
    kids ps pid nxt lo hi cs ->
    good ps root parent nxt lo hi (TNode pid cs)
with kids (ps : Pages)
  : page_id_t -> page_id_t -> bound -> bound -> list (KeyType * tree) -> Prop :=
| kids_one pid nxt lo hi k c :
    good ps false pid nxt lo hi c ->
    kids ps pid nxt lo hi [(k, c)]
| kids_cons pid nxt lo hi k c k' c' rest :
    good ps false pid (first_leaf c') lo (Some k') c ->
    kids ps pid nxt (Some k') hi ((k', c') :: rest) ->
    kids ps pid nxt lo hi ((k, c) :: (k', c') :: rest).

Scheme good_mut := Minimality for good Sort Prop
  with kids_mut := Minimality for kids Sort Prop.
Combined Scheme good_kids_ind from good_mut, kids_mut.







Lemma kpids_cons k c cs : kpids ((k, c) :: cs) = pids c ++ kpids cs.
Proof. done. Qed.


Lemma kpids_app l r : kpids (l ++ r) = kpids l ++ kpids r.
Proof. unfold kpids. by rewrite map_app, concat_app. Qed.










(** The bounds and the next leaf of the child in a slot, given what is left
    and right of it. *)
Definition c_lo (lo : bound) (l : list (KeyType * tree)) (k : KeyType) : bound :=
  match l with [] => lo | _ => Some k end.
Definition c_hi (hi : bound) (r : list (KeyType * tree)) : bound :=
  match r with [] => hi | (k', _) :: _ => Some k' end.
Definition c_nxt (nxt : page_id_t) (r : list (KeyType * tree)) : page_id_t :=
  match r with [] => nxt | (_, c') :: _ => first_leaf c' end.









(** *** Contexts

    A frame is a node with one of its slots taken out; a context is the
    list of frames from a subtree up to the root, innermost first. *)
Record frame := mkFrame {
  fpid : page_id_t;
  fleft : list (KeyType * tree);
  fkey : KeyType;
  fright : list (KeyType * tree)
}.


(** What a subtree is held to: whether it is the root, the parent page, the
    leaf after its last leaf, and the bounds of its keys. *)
Record iface := mkIface {
  i_root : bool;
  i_parent : page_id_t;
  i_nxt : page_id_t;
  i_lo : bound;
  i_hi : bound
}.

Definition down (f : frame) (h : iface) : iface :=
  mkIface false (fpid f) (c_nxt (i_nxt h) (fright f))
          (c_lo (i_lo h) (fleft f) (fkey f)) (c_hi (i_hi h) (fright f)).
Definition iface_of (ctx : list frame) (o : iface) : iface := foldr down o ctx.













Lemma iface_of_parent ctx o :
  i_parent (iface_of ctx o)
  = match ctx with [] => i_parent o | f :: _ => fpid f end.
Proof. by destruct ctx. Qed.










(** *** The steps of Insert on the pages *)


Lemma page_is_ext pg pg' ty pid parent ents :
  page_is pg ty pid parent ents ->
  hdr pg' = hdr pg ->
  (forall i, (i < length ents)%nat -> arr_get (array_ pg') i = arr_get (array_ pg) i) ->
  page_is pg' ty pid parent ents.
Proof.
  intros (H1 & H2 & H3 & H4 & H5) Hh Ha.
  destruct pg, pg'. unfold hdr, set_array in Hh. simpl in *.
  inversion Hh; subst. repeat split; try done.
  simpl. etransitivity; [|exact H5]. by apply slots_ext.
Qed.




Hypothesis Hlmax : (2 <= lmax)%nat.
Hypothesis Hlmin : lmin = Nat.div2 lmax.
Hypothesis Himax : (2 <= imax)%nat.
Hypothesis Himin : imin = Nat.div2 (1 + imax).













(** The children moved by move_range. *)
Definition moved (a : list MappingType) (from n : nat) : list page_id_t :=
  map (fun k => snd (arr_get a (from + k))) (seq 0 n).



Lemma set_parent_idem p pg : set_parent p (set_parent p pg) = set_parent p pg.
Proof. done. Qed.







Lemma in_take {A} (x : A) n l : x ∈ take n l -> x ∈ l.
Proof. intros H. rewrite <- (take_drop n l). apply elem_of_app. by left. Qed.





(** *** The steps of Insert on the tree *)

















Lemma first_leaf_take pid cs n :
  (1 <= n)%nat -> first_leaf (TNode pid (take n cs)) = first_leaf (TNode pid cs).
Proof. intros Hn. destruct n; [lia|]. by destruct cs as [|[? ?] ?]. Qed.


Lemma kpids_sub k c cs q : (k, c) ∈ cs -> q ∈ pids c -> q ∈ kpids cs.
Proof.
  intros Hin Hq. apply list_elem_of_lookup in Hin as [i Hi].
  apply take_drop_middle in Hi. rewrite <- Hi.
  rewrite kpids_app, kpids_cons. set_solver.
Qed.

























(** *** The leaf *)












(** *** Insert *)







(** *** The first insertion *)




(** *** The traversal *)






(** *** The nodes of the tree *)




(** *** Runs of insertions *)




(** *** Point queries *)













(** *** Range scans *)






(** *** What a run of insertions stores *)


(** *** The slots a run of insertions writes

    array_ holds the slots of a page up to the highest one written.  Insert
    writes a leaf page in the slots below leaf_max_size and an internal
    page in the slots up to internal_max_size (between the insertion into
    it and its split an internal page holds internal_max_size + 1
    entries).  The invariant below keeps, for every page id, the length of
    the array and the size within that room; the parent pointers are part
    of it because SplitLeaf and SplitInternal write into the parent. *)














(** **** The writes, one by one *)






(** **** What the writes keep *)


Lemma GetSize_SetNextPageId p r ps q :
  GetSize (SetNextPageId p r ps) q = GetSize ps q.
Proof.
  unfold GetSize, SetNextPageId. rewrite FetchPage_with_page.
  by case_decide; subst.
Qed.

Lemma GetParentPageId_SetSize p n ps q :
  GetParentPageId (SetSize p n ps) q = GetParentPageId ps q.
Proof.
  unfold GetParentPageId, SetSize. rewrite FetchPage_with_page.
  by case_decide; subst.
Qed.








(** **** The blocks of SplitLeaf and SplitInternal *)








(** **** SplitLeaf, SplitInternal, Insert *)









End Good.

(** *** Insert-only runs from the empty tree *)









(** The remove path (outside the amended claim): MergeInternal guards its
    merge-right case with i + 1 <= GetSize() and shifts the parent's slots
    with j < GetSize(), where MergeLeaf has i + 1 < GetSize() and
    j + 1 < GetSize().  With leaf_max_size 2 and internal_max_size 3, after
    the inserts 4, 3, 10, 11, 7, 9, 6, 2 and Remove(9) the tree accepts the
    key 3 a second time, and the traversal is no longer ascending. *)
Lemma bpt_remove_merge_slip :
  (scan 20 <$> run 20 (create 1 2 3)
     [OpInsert 4 4; OpInsert 3 3; OpInsert 10 10; OpInsert 11 11;
      OpInsert 7 7; OpInsert 9 9; OpInsert 6 6; OpInsert 2 2;
      OpRemove 9; OpInsert 3 3])
  = Some (Some [(2, 2); (3, 3); (4, 4); (6, 6); (3, 3); (7, 7); (10, 10);
                (11, 11)]).
Proof. by vm_compute. Qed.


(** *** More on insert-only runs *)










(** X6.  LowerBound on slots [first, last) whose keys are in ascending
    order returns the first slot whose key is not below the key looked for
    (last when there is none). *)
Theorem bpt_lower_bound_sorted (a : list MappingType) (first last : nat)
    (key : KeyType) :
  (first <= last)%nat ->
  (forall i j, (first <= i <= j)%nat -> (j < last)%nat ->
     (arr_get a i).1 <= (arr_get a j).1) ->
  (first <= LowerBound a first last key <= last)%nat /\
  (forall j, (first <= j < LowerBound a first last key)%nat ->
     (arr_get a j).1 < key) /\
  (forall j, (LowerBound a first last key <= j < last)%nat ->
     key <= (arr_get a j).1).
Proof.
  intros Hle Hs.
  destruct (boundary (fun j => (arr_get a j).1 < key) first last)
    as (b & Hb & Hlo & Hhi); [intros; apply _|done| |].
  { intros i j Hij Hj HP. specialize (Hs i j Hij Hj). simpl in *. lia. }
  assert (E : LowerBound a first last key = b).
  { apply LowerBound_spec; [done|done|].
    intros j Hj. specialize (Hhi j Hj). simpl in Hhi. lia. }
  rewrite E. split; [done|]. split; [done|].
  intros j Hj. specialize (Hhi j Hj). simpl in Hhi. lia.
Qed.

Definition bsearch_sample : list MappingType := [(1, 0); (3, 0); (5, 0)].

Lemma bpt_lower_bound_sorted_witness :
  (0 <= LowerBound bsearch_sample 0 3 4 <= 3)%nat /\
  (forall j, (0 <= j < LowerBound bsearch_sample 0 3 4)%nat ->
     (arr_get bsearch_sample j).1 < 4) /\
  (forall j, (LowerBound bsearch_sample 0 3 4 <= j < 3)%nat ->
     4 <= (arr_get bsearch_sample j).1).
Proof.
  apply (bpt_lower_bound_sorted bsearch_sample 0 3 4); [lia|].
  intros i j Hij Hj.
  destruct j as [|[|[|j]]]; [| | |lia];
    destruct i as [|[|[|i]]]; simpl; lia.
Defined.

(** X7.  UpperBound on slots [first, last) whose keys are in ascending
    order returns the first slot whose key is above the key looked for
    (last when there is none). *)
Theorem bpt_upper_bound_sorted (a : list MappingType) (first last : nat)
    (key : KeyType) :
  (first <= last)%nat ->
  (forall i j, (first <= i <= j)%nat -> (j < last)%nat ->
     (arr_get a i).1 <= (arr_get a j).1) ->
  (first <= UpperBound a first last key <= last)%nat /\
  (forall j, (first <= j < UpperBound a first last key)%nat ->
     (arr_get a j).1 <= key) /\
  (forall j, (UpperBound a first last key <= j < last)%nat ->
     key < (arr_get a j).1).
Proof.
  intros Hle Hs.
  destruct (boundary (fun j => (arr_get a j).1 <= key) first last)
    as (b & Hb & Hlo & Hhi); [intros; apply _|done| |].
  { intros i j Hij Hj HP. specialize (Hs i j Hij Hj). simpl in *. lia. }
  assert (E : UpperBound a first last key = b).
  { apply UpperBound_spec; [done|done|].
    intros j Hj. specialize (Hhi j Hj). simpl in Hhi. lia. }
  rewrite E. split; [done|]. split; [done|].
  intros j Hj. specialize (Hhi j Hj). simpl in Hhi. lia.
Qed.

Lemma bpt_upper_bound_sorted_witness :
  (1 <= UpperBound bsearch_sample 1 3 3 <= 3)%nat /\
  (forall j, (1 <= j < UpperBound bsearch_sample 1 3 3)%nat ->
     (arr_get bsearch_sample j).1 <= 3) /\
  (forall j, (UpperBound bsearch_sample 1 3 3 <= j < 3)%nat ->
     3 < (arr_get bsearch_sample j).1).
Proof.
  apply (bpt_upper_bound_sorted bsearch_sample 1 3 3); [lia|].
  intros i j Hij Hj.
  destruct j as [|[|[|j]]]; [| | |lia];
    destruct i as [|[|[|i]]]; simpl; lia.
Defined.

(** ** LRU-K replacer: runs of operations *)

(** A call of the replacer. *)
Inductive lruk_op :=
| LRecordAccess (frame_id : Z)
| LSetEvictable (frame_id : Z) (set_evictable : bool)
| LRemove (frame_id : Z)
| LEvict.

(** None: an assertion of the replacer failed. *)
Definition lruk_step (s : LRUK.LRUKReplacer) (op : lruk_op)
  : option LRUK.LRUKReplacer :=
  match op with
  | LRecordAccess f => LRUK.RecordAccess s f
  | LSetEvictable f b => LRUK.SetEvictable s f b
  | LRemove f => LRUK.Remove s f
  | LEvict => Some (LRUK.Evict s).1
  end.

Definition lruk_run (s : LRUK.LRUKReplacer) (ops : list lruk_op)
  : option LRUK.LRUKReplacer :=
  foldl (fun os op => s ← os; lruk_step s op) (Some s) ops.

(** The number of frames that are marked evictable. *)
Definition lruk_evictable (l : list (list Z * bool)) : nat :=
  length (filter (fun e => e.2 = true) l).

(** What the operations keep: the state is well formed, the clock counts
    at most [n] accesses, there are [total_size_] frames, fewer than 2^64,
    an evictable frame has a history, and [replacer_size_] is the number of
    evictable frames. *)
Definition lruk_inv (n : Z) (s : LRUK.LRUKReplacer) : Prop :=
  lruk_wf s = true /\
  LRUK.current_timestamp_ s <= n /\
  LRUK.total_size_ s = Z.of_nat (length (LRUK.replacer_ s)) /\
  LRUK.total_size_ s < 2 ^ 64 /\
  (forall f h, LRUK.replacer_ s !! f = Some (h, true) -> h <> []) /\
  LRUK.replacer_size_ s = Z.of_nat (lruk_evictable (LRUK.replacer_ s)).

Lemma lruk_evictable_le l : (lruk_evictable l <= length l)%nat.
Proof. apply length_filter. Qed.

Lemma lruk_evictable_insert l f h e h' e' :
  l !! f = Some (h, e) ->
  Z.of_nat (lruk_evictable (<[f := (h', e')]> l))
  = Z.of_nat (lruk_evictable l) - Z.b2z e + Z.b2z e'.
Proof.
  intros Hf. unfold lruk_evictable.
  rewrite <- (take_drop_middle _ _ _ Hf) at 2.
  rewrite insert_take_drop by (by eapply lookup_lt_Some).
  rewrite !filter_app, !filter_cons, !length_app. simpl.
  destruct e, e'; repeat case_decide; try done; simpl; lia.
Qed.

Lemma lruk_evictable_pos l f h :
  l !! f = Some (h, true) -> (0 < lruk_evictable l)%nat.
Proof.
  intros Hf. unfold lruk_evictable.
  rewrite <- (take_drop_middle _ _ _ Hf).
  rewrite !filter_app, filter_cons_True, !length_app by done. simpl. lia.
Qed.

Lemma lruk_evictable_zero l :
  lruk_evictable l = 0%nat -> forall f h, l !! f <> Some (h, true).
Proof.
  intros H f h Hf. pose proof (lruk_evictable_pos l f h Hf). lia.
Qed.

Lemma lruk_evictable_none l :
  (forall f h, l !! f <> Some (h, true)) -> lruk_evictable l = 0%nat.
Proof.
  induction l as [|[h e] l IH]; intros H; [done|].
  unfold lruk_evictable. destruct e.
  - exfalso. by apply (H 0%nat h).
  - rewrite filter_cons_False by done. apply IH. intros f h'. apply (H (S f)).
Qed.

Lemma lruk_wf_iff s :
  lruk_wf s = true <->
  1 <= LRUK.k_ s /\ 0 <= LRUK.current_timestamp_ s <= LRUK.INT64_MAX /\
  forall f h e, LRUK.replacer_ s !! f = Some (h, e) ->
    lruk_hist_ok (LRUK.k_ s) (LRUK.current_timestamp_ s) h = true.
Proof.
  unfold lruk_wf. rewrite !andb_true_iff, !Z.leb_le, forallb_forall. split.
  - intros [[[H1 H2] H3] HA]. split; [done|]. split; [lia|].
    intros f h e Hf. apply (HA (h, e)).
    by apply list_elem_of_In, list_elem_of_lookup_2 with f.
  - intros (H1 & H2 & HA). split; [split; [split|]; lia|].
    intros [h e] Hin. apply list_elem_of_In, list_elem_of_lookup in Hin as [f Hf].
    by apply (HA f h e).
Qed.

Lemma lruk_hist_ok_iff k cur h :
  lruk_hist_ok k cur h = true <->
  Z.of_nat (length h) <= k /\ forall t, t ∈ h -> 0 <= t < cur.
Proof.
  unfold lruk_hist_ok. rewrite andb_true_iff, Z.leb_le, forallb_forall.
  split; intros [H1 HA]; (split; [done|]).
  - intros t Ht. apply list_elem_of_In, HA in Ht. lia.
  - intros t Ht. apply list_elem_of_In, HA in Ht. lia.
Qed.

Lemma wrap64_id x : 0 <= x < 2 ^ 64 -> LRUK.wrap64 x = x.
Proof. intros H. unfold LRUK.wrap64. by apply Z.mod_small. Qed.

Lemma lruk_in_range s frame :
  LRUK.total_size_ s = Z.of_nat (length (LRUK.replacer_ s)) ->
  LRUK.in_range s frame = true ->
  0 <= frame /\ (Z.to_nat frame < length (LRUK.replacer_ s))%nat.
Proof.
  unfold LRUK.in_range. rewrite andb_true_iff, Z.leb_le, Z.ltb_lt. lia.
Qed.

Lemma lruk_inv_create num_frames k :
  1 <= k -> Z.of_nat num_frames < 2 ^ 64 ->
  lruk_inv 0 (LRUK.create num_frames k).
Proof.
  intros Hk Hn. unfold lruk_inv, LRUK.create. simpl.
  rewrite length_replicate. split; [|split; [done|split; [done|split; [done|split]]]].
  - apply lruk_wf_iff. simpl. split; [done|]. split; [unfold LRUK.INT64_MAX; lia|].
    intros f h e Hf. apply lookup_replicate in Hf as [Hf _]. inversion Hf; subst.
    apply lruk_hist_ok_iff. simpl. split; [lia|]. by intros t ?%elem_of_nil.
  - intros f h Hf. apply lookup_replicate in Hf as [Hf _]. by inversion Hf.
  - rewrite lruk_evictable_none; [done|].
    intros f h Hf. apply lookup_replicate in Hf as [Hf _]. by inversion Hf.
Qed.

Lemma lruk_inv_RecordAccess n s frame s' :
  lruk_inv n s -> n < LRUK.INT64_MAX ->
  LRUK.RecordAccess s frame = Some s' -> lruk_inv (n + 1) s'.
Proof.
  intros (Hwf & Hn & Htot & Hlt & Hev & Hsz) Hmax.
  unfold LRUK.RecordAccess.
  destruct (LRUK.in_range s frame) eqn:Hr; [|done].
  destruct (lruk_in_range _ _ Htot Hr) as [H0 Hf].
  destruct (lookup_lt_is_Some_2 _ _ Hf) as [[hist ev] Hl].
  rewrite Hl. simpl. intros E. inversion E; subst; clear E.
  apply lruk_wf_iff in Hwf as (Hk & Hcur & Hh).
  assert (Hw : LRUK.wrap64 (LRUK.current_timestamp_ s + 1)
               = LRUK.current_timestamp_ s + 1).
  { apply wrap64_id. unfold LRUK.INT64_MAX in *. lia. }
  pose proof (Hh _ _ _ Hl) as Hok. apply lruk_hist_ok_iff in Hok as [Hlen Hts].
  set (hist1 := if Z.of_nat (length hist) =? LRUK.k_ s then tl hist else hist).
  assert (H1 : Z.of_nat (length hist1) < LRUK.k_ s /\ forall t, t ∈ hist1 -> t ∈ hist).
  { unfold hist1. destruct (Z.eqb_spec (Z.of_nat (length hist)) (LRUK.k_ s)).
    - destruct hist; simpl in *; [lia|]. split; [lia|].
      intros t Ht. apply elem_of_cons. by right.
    - split; [lia|done]. }
  destruct H1 as [Hlen1 Hin1].
  rewrite Hw. unfold lruk_inv. simpl. rewrite length_insert.
  split; [|split; [lia|split; [done|split; [done|split]]]].
  - apply lruk_wf_iff. simpl. split; [done|]. split; [lia|].
    intros f h e Hfl. apply lruk_hist_ok_iff.
    destruct (decide (f = Z.to_nat frame)) as [->|Hne].
    + rewrite list_lookup_insert_eq in Hfl by done. inversion Hfl; subst.
      rewrite length_app. simpl. split; [lia|].
      intros t [Ht|Ht%list_elem_of_singleton]%elem_of_app.
      * apply Hin1, Hts in Ht. lia.
      * lia.
    + rewrite list_lookup_insert_ne in Hfl by done.
      apply Hh, lruk_hist_ok_iff in Hfl as [? Ht]. split; [done|].
      intros t Hin. apply Ht in Hin. lia.
  - intros f h Hfl. destruct (decide (f = Z.to_nat frame)) as [->|Hne].
    + rewrite list_lookup_insert_eq in Hfl by done. inversion Hfl; subst.
      by destruct hist1.
    + rewrite list_lookup_insert_ne in Hfl by done. by eapply Hev.
  - rewrite (lruk_evictable_insert _ _ _ _ _ _ Hl). rewrite Hsz.
    destruct ev; simpl; lia.
Qed.

Lemma lruk_inv_SetEvictable n s frame b s' :
  lruk_inv n s -> LRUK.SetEvictable s frame b = Some s' -> lruk_inv n s'.
Proof.
  intros (Hwf & Hn & Htot & Hlt & Hev & Hsz).
  unfold LRUK.SetEvictable.
  destruct (LRUK.in_range s frame) eqn:Hr; [|done].
  destruct (lruk_in_range _ _ Htot Hr) as [H0 Hf].
  destruct (lookup_lt_is_Some_2 _ _ Hf) as [[hist ev] Hl].
  rewrite Hl. simpl.
  destruct hist as [|t0 hist]; intros E; inversion E; subst; clear E.
  { by repeat split. }
  pose proof (lruk_evictable_insert _ _ _ _ (t0 :: hist) b Hl) as Hc.
  pose proof (lruk_evictable_le (<[Z.to_nat frame := (t0 :: hist, b)]>
                                   (LRUK.replacer_ s))) as Hle.
  rewrite length_insert in Hle.
  apply lruk_wf_iff in Hwf as (Hk & Hcur & Hh).
  unfold lruk_inv. simpl. rewrite length_insert.
  split; [|split; [done|split; [done|split; [done|split]]]].
  - apply lruk_wf_iff. simpl. split; [done|]. split; [done|].
    intros f h e Hfl. destruct (decide (f = Z.to_nat frame)) as [->|Hne].
    + rewrite list_lookup_insert_eq in Hfl by done. inversion Hfl; subst.
      by eapply Hh.
    + rewrite list_lookup_insert_ne in Hfl by done. by eapply Hh.
  - intros f h Hfl. destruct (decide (f = Z.to_nat frame)) as [->|Hne].
    + rewrite list_lookup_insert_eq in Hfl by done. by inversion Hfl.
    + rewrite list_lookup_insert_ne in Hfl by done. by eapply Hev.
  - rewrite Hc, Hsz.
    pose proof (lruk_evictable_le (LRUK.replacer_ s)).
    destruct b, ev; simpl in *; rewrite ?wrap64_id; lia.
Qed.

Lemma lruk_inv_Remove n s frame s' :
  lruk_inv n s -> LRUK.Remove s frame = Some s' -> lruk_inv n s'.
Proof.
  intros (Hwf & Hn & Htot & Hlt & Hev & Hsz).
  unfold LRUK.Remove.
  destruct (LRUK.in_range s frame) eqn:Hr; simpl;
    [|intros E; inversion E; subst; by repeat split].
  destruct (lruk_in_range _ _ Htot Hr) as [H0 Hf].
  destruct (lookup_lt_is_Some_2 _ _ Hf) as [[hist ev] Hl].
  rewrite Hl. simpl.
  destruct hist as [|t0 hist]; [intros E; inversion E; subst; by repeat split|].
  destruct ev; [|done]. intros E; inversion E; subst; clear E.
  pose proof (lruk_evictable_insert _ _ _ _ [] false Hl) as Hc.
  apply lruk_wf_iff in Hwf as (Hk & Hcur & Hh).
  unfold lruk_inv. simpl. rewrite length_insert.
  split; [|split; [done|split; [done|split; [done|split]]]].
  - apply lruk_wf_iff. simpl. split; [done|]. split; [done|].
    intros f h e Hfl. destruct (decide (f = Z.to_nat frame)) as [->|Hne].
    + rewrite list_lookup_insert_eq in Hfl by done. inversion Hfl; subst.
      apply lruk_hist_ok_iff. simpl. split; [lia|]. by intros t ?%elem_of_nil.
    + rewrite list_lookup_insert_ne in Hfl by done. by eapply Hh.
  - intros f h Hfl. destruct (decide (f = Z.to_nat frame)) as [->|Hne].
    + rewrite list_lookup_insert_eq in Hfl by done. by inversion Hfl.
    + rewrite list_lookup_insert_ne in Hfl by done. by eapply Hev.
  - pose proof (lruk_evictable_le (LRUK.replacer_ s)).
    rewrite Hc, Hsz. simpl in *. rewrite wrap64_id; lia.
Qed.

Lemma lruk_Evict_spec n s :
  lruk_inv n s ->
  ((forall f h, LRUK.replacer_ s !! f <> Some (h, true)) /\
   LRUK.Evict s = (s, (false, None))) \/
  (exists f h,
     LRUK.replacer_ s !! f = Some (h, true) /\ h <> [] /\
     LRUK.Evict s
     = (LRUK.mkReplacer (LRUK.current_timestamp_ s) (LRUK.total_size_ s)
          (LRUK.replacer_size_ s - 1) (LRUK.k_ s)
          (<[f := ([], false)]> (LRUK.replacer_ s)),
        (true, Some f))).
Proof.
  intros (Hwf & Hn & Htot & Hlt & Hev & Hsz).
  pose proof Hwf as Hwf0.
  unfold lruk_wf in Hwf. repeat (apply andb_true_iff in Hwf as [Hwf ?]).
  assert (Hk : 1 <= LRUK.k_ s) by lia.
  assert (Hcur : LRUK.current_timestamp_ s <= LRUK.INT64_MAX) by lia.
  assert (Hinv : EvictInv (LRUK.k_ s) (LRUK.current_timestamp_ s) (LRUK.replacer_ s)
            (LRUK.Evict_loop (LRUK.k_ s) (LRUK.current_timestamp_ s) 0
               (LRUK.replacer_ s) LRUK.Evict_init)).
  { apply (Evict_loop_inv (LRUK.k_ s) (LRUK.current_timestamp_ s))
      with (pre := []); auto.
    apply inv_none; [|reflexivity]. intros f h [Hl _]. discriminate. }
  unfold LRUK.Evict.
  destruct Hinv as [Hno E|f h t [Hc Hne] _ _ E _|f h t [Hc Hne] _ _ E _ _];
    rewrite E; simpl.
  - left. split; [|done]. intros f h Hf. apply (Hno f h). split; [done|].
    by eapply Hev.
  - right. exists f, h. split; [done|]. split; [done|].
    pose proof (lruk_evictable_pos _ _ _ Hc).
    pose proof (lruk_evictable_le (LRUK.replacer_ s)).
    rewrite wrap64_id by lia. done.
  - right. exists f, h. split; [done|]. split; [done|].
    pose proof (lruk_evictable_pos _ _ _ Hc).
    pose proof (lruk_evictable_le (LRUK.replacer_ s)).
    rewrite wrap64_id by lia. done.
Qed.

Lemma lruk_inv_Evict n s : lruk_inv n s -> lruk_inv n (LRUK.Evict s).1.
Proof.
  intros Hinv.
  destruct (lruk_Evict_spec n s Hinv) as [[_ ->]|(f & h & Hf & Hne & ->)];
    [done|].
  destruct Hinv as (Hwf & Hn & Htot & Hlt & Hev & Hsz).
  pose proof (lruk_evictable_insert _ _ _ _ [] false Hf) as Hc.
  apply lruk_wf_iff in Hwf as (Hk & Hcur & Hh).
  unfold lruk_inv. simpl. rewrite length_insert.
  split; [|split; [done|split; [done|split; [done|split]]]].
  - apply lruk_wf_iff. simpl. split; [done|]. split; [done|].
    intros g hg e Hfl. destruct (decide (g = f)) as [->|Hneq].
    + rewrite list_lookup_insert_eq in Hfl by (by eapply lookup_lt_Some).
      inversion Hfl; subst.
      apply lruk_hist_ok_iff. simpl. split; [lia|]. by intros t ?%elem_of_nil.
    + rewrite list_lookup_insert_ne in Hfl by done. by eapply Hh.
  - intros g hg Hfl. destruct (decide (g = f)) as [->|Hneq].
    + rewrite list_lookup_insert_eq in Hfl by (by eapply lookup_lt_Some).
      by inversion Hfl.
    + rewrite list_lookup_insert_ne in Hfl by done. by eapply Hev.
  - rewrite Hc, Hsz. simpl. lia.
Qed.

Lemma lruk_inv_mono n m s : lruk_inv n s -> n <= m -> lruk_inv m s.
Proof. intros (? & ? & ?) ?. split; [done|]. split; [lia|done]. Qed.

Lemma lruk_inv_step n s op s' :
  lruk_inv n s -> n < LRUK.INT64_MAX ->
  lruk_step s op = Some s' -> lruk_inv (n + 1) s'.
Proof.
  intros Hinv Hn. destruct op as [f|f b|f|]; simpl; intros E.
  - by eapply lruk_inv_RecordAccess.
  - apply lruk_inv_mono with n; [|lia]. by eapply lruk_inv_SetEvictable.
  - apply lruk_inv_mono with n; [|lia]. by eapply lruk_inv_Remove.
  - inversion E; subst. apply lruk_inv_mono with n; [|lia].
    by apply lruk_inv_Evict.
Qed.

Lemma lruk_run_snoc s ops op :
  lruk_run s (ops ++ [op]) = (s' ← lruk_run s ops; lruk_step s' op).
Proof. unfold lruk_run. by rewrite foldl_app. Qed.

Lemma lruk_inv_run num_frames k ops s :
  1 <= k -> Z.of_nat num_frames < 2 ^ 64 ->
  Z.of_nat (length ops) <= LRUK.INT64_MAX ->
  lruk_run (LRUK.create num_frames k) ops = Some s ->
  lruk_inv (Z.of_nat (length ops)) s.
Proof.
  intros Hk Hn. revert s. induction ops as [|op ops IH] using rev_ind;
    intros s Hlen Hrun.
  - inversion Hrun; subst. by apply lruk_inv_create.
  - rewrite lruk_run_snoc in Hrun. rewrite length_app in Hlen |- *.
    simpl in Hlen |- *.
    destruct (lruk_run _ ops) as [s1|] eqn:E; [|done]. simpl in Hrun.
    replace (Z.of_nat (length ops + 1)) with (Z.of_nat (length ops) + 1) by lia.
    apply (lruk_inv_step _ s1 op); [apply IH; [lia|done]|lia|done].
Qed.

(** X8.  After any run of calls that trips no assertion, on a replacer made for
    fewer than 2^31 frames (the frames the int [total_size_] can count)
    with [k >= 1]: [Size()] is the number of frames marked evictable, every
    evictable frame has an access history, and every history holds at most
    [k] timestamps. *)
Theorem lruk_size_counts_evictable (num_frames : nat) (k : Z)
    (ops : list lruk_op) (s : LRUK.LRUKReplacer) :
  1 <= k -> Z.of_nat num_frames < 2 ^ 31 ->
  Z.of_nat (length ops) <= LRUK.INT64_MAX ->
  lruk_run (LRUK.create num_frames k) ops = Some s ->
  LRUK.Size s = Z.of_nat (lruk_evictable (LRUK.replacer_ s)) /\
  length (LRUK.replacer_ s) = num_frames /\
  (forall f h, LRUK.replacer_ s !! f = Some (h, true) -> h <> []) /\
  (forall f h e, LRUK.replacer_ s !! f = Some (h, e) ->
     Z.of_nat (length h) <= k).
Proof.
  intros Hk Hn31 Hlen Hrun.
  assert (Hn : Z.of_nat num_frames < 2 ^ 64).
  { assert (2 ^ 31 < 2 ^ 64) by (apply Z.pow_lt_mono_r; lia). lia. }
  assert (Hkn : LRUK.k_ s = k /\ length (LRUK.replacer_ s) = num_frames).
  { clear Hlen. revert s Hrun. induction ops as [|op ops IH] using rev_ind;
      intros s Hrun.
    - inversion Hrun; subst. simpl. by rewrite length_replicate.
    - rewrite lruk_run_snoc in Hrun.
      destruct (lruk_run _ ops) as [s1|] eqn:E; [|done]. simpl in Hrun.
      destruct (IH s1 eq_refl) as [IHk IHn].
      destruct op as [f|f b|f|]; simpl in Hrun.
      + unfold LRUK.RecordAccess in Hrun.
        destruct (LRUK.in_range s1 f); [|done].
        destruct (LRUK.replacer_ s1 !! Z.to_nat f) as [[h e]|]; [|done].
        inversion Hrun; subst. simpl. by rewrite length_insert.
      + unfold LRUK.SetEvictable in Hrun.
        destruct (LRUK.in_range s1 f); [|done].
        destruct (LRUK.replacer_ s1 !! Z.to_nat f) as [[[|t h] e]|]; [| |done];
          inversion Hrun; subst; simpl; by rewrite ?length_insert.
      + unfold LRUK.Remove in Hrun.
        destruct (LRUK.in_range s1 f); simpl in Hrun;
          [|by inversion Hrun; subst].
        destruct (LRUK.replacer_ s1 !! Z.to_nat f) as [[[|t h] [|]]|];
          try done; inversion Hrun; subst; simpl; by rewrite ?length_insert.
      + inversion Hrun; subst. unfold LRUK.Evict.
        destruct (LRUK.flag _); simpl; by rewrite ?length_insert. }
  destruct Hkn as [Hks Hns].
  destruct (lruk_inv_run num_frames k ops s Hk Hn Hlen Hrun)
    as (Hwf & _ & _ & _ & Hev & Hsz).
  split; [done|]. split; [done|]. split; [done|].
  intros f h e Hf. rewrite <- Hks. by eapply lruk_wf_hist.
Qed.

Definition lruk_sample_ops : list lruk_op :=
  [LRecordAccess 1; LRecordAccess 2; LSetEvictable 1 true; LRecordAccess 1;
   LSetEvictable 2 true; LEvict; LRemove 5].

Lemma lruk_size_counts_evictable_witness :
  exists s,
    lruk_run (LRUK.create 7 2) lruk_sample_ops = Some s /\
    LRUK.Size s = Z.of_nat (lruk_evictable (LRUK.replacer_ s)) /\
    length (LRUK.replacer_ s) = 7%nat /\
    (forall f h, LRUK.replacer_ s !! f = Some (h, true) -> h <> []) /\
    (forall f h e, LRUK.replacer_ s !! f = Some (h, e) ->
       Z.of_nat (length h) <= 2).
Proof.
  eexists. split; [vm_compute; reflexivity|].
  apply (lruk_size_counts_evictable 7 2 lruk_sample_ops);
    [lia|simpl; lia|vm_compute; discriminate|vm_compute; reflexivity].
Defined.

(** X9.  On a state reached by such a run (fewer than 2^31 frames,
    [k >= 1], no assertion tripped), [Evict] fails exactly when no frame
    is evictable ([Size()] is 0) and then changes nothing; otherwise it
    returns an evictable frame, clears its history, marks it non-evictable,
    leaves every other frame alone and takes one off [Size()]. *)
Theorem lruk_evict_effect (num_frames : nat) (k : Z)
    (ops : list lruk_op) (s : LRUK.LRUKReplacer) :
  1 <= k -> Z.of_nat num_frames < 2 ^ 31 ->
  Z.of_nat (length ops) <= LRUK.INT64_MAX ->
  lruk_run (LRUK.create num_frames k) ops = Some s ->
  (LRUK.Size s = 0 /\ LRUK.Evict s = (s, (false, None))) \/
  (0 < LRUK.Size s /\
   exists f h s',
     LRUK.Evict s = (s', (true, Some f)) /\
     LRUK.replacer_ s !! f = Some (h, true) /\
     LRUK.replacer_ s' = <[f := ([], false)]> (LRUK.replacer_ s) /\
     LRUK.Size s' = LRUK.Size s - 1).
Proof.
  intros Hk Hn31 Hlen Hrun.
  assert (Hn : Z.of_nat num_frames < 2 ^ 64).
  { assert (2 ^ 31 < 2 ^ 64) by (apply Z.pow_lt_mono_r; lia). lia. }
  pose proof (lruk_inv_run num_frames k ops s Hk Hn Hlen Hrun) as Hinv.
  destruct (lruk_Evict_spec _ s Hinv) as [[Hno ->]|(f & h & Hf & Hne & ->)].
  - left. split; [|done].
    destruct Hinv as (_ & _ & _ & _ & _ & Hsz). unfold LRUK.Size.
    rewrite Hsz, lruk_evictable_none; done.
  - right. destruct Hinv as (_ & _ & _ & _ & _ & Hsz). unfold LRUK.Size.
    pose proof (lruk_evictable_pos _ _ _ Hf). split; [lia|].
    exists f, h. eexists. split; [reflexivity|]. split; [done|].
    split; [done|]. simpl. done.
Qed.

Lemma lruk_evict_effect_witness :
  exists s,
    lruk_run (LRUK.create 7 2) lruk_sample_ops = Some s /\
    ((LRUK.Size s = 0 /\ LRUK.Evict s = (s, (false, None))) \/
     (0 < LRUK.Size s /\
      exists f h s',
        LRUK.Evict s = (s', (true, Some f)) /\
        LRUK.replacer_ s !! f = Some (h, true) /\
        LRUK.replacer_ s' = <[f := ([], false)]> (LRUK.replacer_ s) /\
        LRUK.Size s' = LRUK.Size s - 1)).
Proof.
  eexists. split; [vm_compute; reflexivity|].
  apply (lruk_evict_effect 7 2 lruk_sample_ops);
    [lia|simpl; lia|vm_compute; discriminate|vm_compute; reflexivity].
Defined.

(** ** Extendible hash table: the table as a finite map *)

Lemma eht_land_mask x d : 0 <= d -> Z.land x (Z.shiftl 1 d - 1) = x mod 2 ^ d.
Proof.
  intros Hd. rewrite Z.shiftl_1_l, Z.sub_1_r, <- Z.ones_equiv.
  by apply Z.land_ones.
Qed.

Lemma eht_bit x d : 0 <= d -> Z.land (Z.shiftr x d) 1 = (x / 2 ^ d) mod 2.
Proof.
  intros Hd. rewrite Z.shiftr_div_pow2 by done.
  change 1 with (Z.ones 1). by rewrite Z.land_ones.
Qed.

Lemma eht_mod_succ x d :
  0 <= d -> x mod 2 ^ (d + 1) = x mod 2 ^ d + 2 ^ d * ((x / 2 ^ d) mod 2).
Proof.
  intros Hd. rewrite Z.pow_add_r, Z.pow_1_r by lia.
  apply Z.rem_mul_r; lia.
Qed.

Lemma eht_bit_range x d : 0 <= (x / 2 ^ d) mod 2 < 2.
Proof. apply Z.mod_pos_bound. lia. Qed.

Lemma eht_mod_mod x d g : 0 <= d <= g -> (x mod 2 ^ g) mod 2 ^ d = x mod 2 ^ d.
Proof.
  intros Hd. apply Z.mod_mod_divide.
  exists (2 ^ (g - d)). rewrite <- Z.pow_add_r by lia. f_equal. lia.
Qed.

(** Agreement on the low d + 1 bits is agreement on the low d bits and on
    bit d. *)
Lemma eht_agree_succ x y d :
  0 <= d ->
  x mod 2 ^ (d + 1) = y mod 2 ^ (d + 1) <->
  x mod 2 ^ d = y mod 2 ^ d /\ (x / 2 ^ d) mod 2 = (y / 2 ^ d) mod 2.
Proof.
  intros Hd. rewrite !eht_mod_succ by done.
  pose proof (eht_bit_range x d). pose proof (eht_bit_range y d).
  pose proof (Z.mod_pos_bound x (2 ^ d) ltac:(lia)).
  pose proof (Z.mod_pos_bound y (2 ^ d) ltac:(lia)).
  split; [|intros [-> ->]; done].
  intros E. assert ((x / 2 ^ d) mod 2 = (y / 2 ^ d) mod 2) by nia.
  split; [nia|done].
Qed.

Lemma eht_agree_le x y d g :
  0 <= d <= g -> x mod 2 ^ g = y mod 2 ^ g -> x mod 2 ^ d = y mod 2 ^ d.
Proof.
  intros Hd E. rewrite <- (eht_mod_mod x d g), <- (eht_mod_mod y d g) by done.
  by rewrite E.
Qed.

Section EHTMap.
Context {V : Type}.
Implicit Types (t : EHT.ExtendibleHashTable V) (b : EHT.Bucket V).
Implicit Types (l : list (Z * V)).

(** The bucket behind slot i, at address a: its depth is at most the
    global depth, the slots that point to it are the ones that agree with i
    on the low depth bits, its keys hash to those bits and are distinct. *)
Definition eht_slot_ok t (i a : nat) b : Prop :=
  0 <= EHT.depth_ b <= EHT.global_depth_ t /\
  (forall j a', EHT.dir_ t !! j = Some a' ->
     (a' = a <-> Z.of_nat j mod 2 ^ EHT.depth_ b
                 = Z.of_nat i mod 2 ^ EHT.depth_ b)) /\
  (forall k v, (k, v) ∈ EHT.list_ b ->
     EHT.hash k mod 2 ^ EHT.depth_ b = Z.of_nat i mod 2 ^ EHT.depth_ b) /\
  NoDup (EHT.list_ b).*1.

Definition eht_wf t : Prop :=
  0 <= EHT.global_depth_ t /\
  Z.of_nat (length (EHT.dir_ t)) = 2 ^ EHT.global_depth_ t /\
  forall i a, EHT.dir_ t !! i = Some a ->
    exists b, EHT.heap_ t !! a = Some b /\ eht_slot_ok t i a b.

(** The table holds the pair (k, v) in some bucket of its directory. *)
Definition eht_has t (k : Z) (v : V) : Prop :=
  exists i a b, EHT.dir_ t !! i = Some a /\ EHT.heap_ t !! a = Some b /\
    (k, v) ∈ EHT.list_ b.

Lemma Bucket_lookup_elem k v l :
  EHT.Bucket_lookup k l = Some v -> (k, v) ∈ l.
Proof.
  induction l as [|[k' v'] l IH]; simpl; [done|].
  destruct (Z.eqb_spec k k') as [->|Hne].
  - intros E. inversion E; subst. apply elem_of_cons. by left.
  - intros E. apply elem_of_cons. right. by apply IH.
Qed.

Lemma Bucket_lookup_None k l :
  EHT.Bucket_lookup k l = None <-> k ∉ l.*1.
Proof.
  induction l as [|[k' v'] l IH]; simpl.
  - split; [intros _; apply not_elem_of_nil|done].
  - rewrite not_elem_of_cons. destruct (Z.eqb_spec k k') as [->|Hne].
    + split; [done|]. by intros [? _].
    + rewrite IH. tauto.
Qed.

Lemma Bucket_lookup_NoDup k v l :
  NoDup l.*1 -> (k, v) ∈ l -> EHT.Bucket_lookup k l = Some v.
Proof.
  induction l as [|[k' v'] l IH]; simpl; intros Hnd Hin.
  - by apply elem_of_nil in Hin.
  - apply NoDup_cons in Hnd as [Hk' Hnd].
    apply elem_of_cons in Hin as [Hin|Hin].
    + inversion Hin; subst. by rewrite Z.eqb_refl.
    + destruct (Z.eqb_spec k k') as [->|Hne]; [|by apply IH].
      exfalso. apply Hk'. apply list_elem_of_fmap. by exists (k', v).
Qed.

Lemma Bucket_assign_None k v l :
  EHT.Bucket_assign k v l = None <-> k ∉ l.*1.
Proof.
  induction l as [|[k' v'] l IH]; simpl.
  - split; [intros _; apply not_elem_of_nil|done].
  - rewrite not_elem_of_cons. destruct (Z.eqb_spec k k') as [->|Hne].
    + split; [done|]. by intros [? _].
    + rewrite fmap_None, IH. tauto.
Qed.

Lemma Bucket_assign_Some k v l l' :
  NoDup l.*1 -> EHT.Bucket_assign k v l = Some l' ->
  k ∈ l.*1 /\ l'.*1 = l.*1 /\
  forall k' v', (k', v') ∈ l' <->
                (k' = k /\ v' = v) \/ (k' <> k /\ (k', v') ∈ l).
Proof.
  revert l'. induction l as [|[k0 v0] l IH]; simpl; intros l' Hnd E; [done|].
  apply NoDup_cons in Hnd as [Hk0 Hnd].
  destruct (Z.eqb_spec k k0) as [->|Hne].
  - inversion E; subst. simpl. split; [apply elem_of_cons; by left|].
    split; [done|]. intros k' v'. rewrite !elem_of_cons. split.
    + intros [Hin|Hin]; [inversion Hin; subst; by left|].
      right. split; [|by right]. intros ->. apply Hk0.
      apply list_elem_of_fmap. by exists (k0, v').
    + intros [[-> ->]|[Hk [Hin|Hin]]]; [by left| |by right].
      inversion Hin; subst. done.
  - destruct (EHT.Bucket_assign k v l) as [l1|] eqn:E1; [|done].
    simpl in E. inversion E; subst.
    destruct (IH l1 Hnd eq_refl) as (Hin & Hkeys & Hiff).
    simpl. split; [apply elem_of_cons; by right|]. split; [by f_equal|].
    intros k' v'. rewrite !elem_of_cons, Hiff. split.
    + intros [Hin'|[?|[? ?]]]; [|by left|right; split; [done|by right]].
      inversion Hin'; subst. right. split; [done|by left].
    + intros [?|[Hk [Hin'|Hin']]]; [right; by left|by left|].
      right. right. done.
Qed.

Lemma Bucket_erase_None k l :
  EHT.Bucket_erase k l = None <-> k ∉ l.*1.
Proof.
  induction l as [|[k' v'] l IH]; simpl.
  - split; [intros _; apply not_elem_of_nil|done].
  - rewrite not_elem_of_cons. destruct (Z.eqb_spec k' k) as [->|Hne].
    + split; [done|]. by intros [? _].
    + rewrite fmap_None, IH. split; [intros ?; split; [congruence|done]|tauto].
Qed.

Lemma Bucket_erase_Some k l l' :
  NoDup l.*1 -> EHT.Bucket_erase k l = Some l' ->
  k ∈ l.*1 /\ NoDup l'.*1 /\
  forall k' v', (k', v') ∈ l' <-> k' <> k /\ (k', v') ∈ l.
Proof.
  revert l'. induction l as [|[k0 v0] l IH]; simpl; intros l' Hnd E; [done|].
  apply NoDup_cons in Hnd as [Hk0 Hnd].
  destruct (Z.eqb_spec k0 k) as [->|Hne].
  - inversion E; subst. split; [apply elem_of_cons; by left|].
    split; [done|]. intros k' v'. rewrite elem_of_cons. split.
    + intros Hin. split; [|by right]. intros ->. apply Hk0.
      apply list_elem_of_fmap. by exists (k, v').
    + intros [Hk [Hin|Hin]]; [|done]. inversion Hin; subst. done.
  - destruct (EHT.Bucket_erase k l) as [l1|] eqn:E1; [|done].
    simpl in E. inversion E; subst.
    destruct (IH l1 Hnd eq_refl) as (Hin & Hnd1 & Hiff).
    split; [apply elem_of_cons; by right|]. split.
    + simpl. apply NoDup_cons. split; [|done].
      intros Hin0. apply Hk0. apply list_elem_of_fmap in Hin0 as ([k1 v1] & -> & Hin1).
      apply Hiff in Hin1 as [_ Hin1]. apply list_elem_of_fmap. by exists (k1, v1).
    + intros k' v'. rewrite !elem_of_cons, Hiff. split.
      * intros [Hin'|[? ?]]; [|split; [done|by right]].
        inversion Hin'; subst. split; [done|by left].
      * intros [Hk [Hin'|Hin']]; [by left|by right].
Qed.

Lemma eht_IndexOf t k :
  eht_wf t ->
  Z.of_nat (EHT.IndexOf t k) = EHT.hash k mod 2 ^ EHT.global_depth_ t /\
  (EHT.IndexOf t k < length (EHT.dir_ t))%nat.
Proof.
  intros (Hg & Hlen & _). unfold EHT.IndexOf.
  rewrite eht_land_mask by done.
  pose proof (Z.mod_pos_bound (EHT.hash k) (2 ^ EHT.global_depth_ t) ltac:(lia)).
  split; lia.
Qed.

(** A pair sits in the bucket that the slot of its key points to. *)
Lemma eht_locate t i a b k v :
  eht_wf t -> EHT.dir_ t !! i = Some a -> EHT.heap_ t !! a = Some b ->
  (k, v) ∈ EHT.list_ b -> EHT.dir_ t !! EHT.IndexOf t k = Some a.
Proof.
  intros Hwf Hi Ha Hin.
  destruct (eht_IndexOf t k Hwf) as [Hidx Hlt].
  destruct (lookup_lt_is_Some_2 _ _ Hlt) as [a' Ha'].
  destruct Hwf as (Hg & Hlen & Hslots).
  destruct (Hslots i a Hi) as (b' & Hb' & Hd & Hsame & Hkeys & _).
  rewrite Ha in Hb'. inversion Hb'; subst b'.
  rewrite Ha'. f_equal. apply (Hsame _ _ Ha').
  rewrite Hidx, eht_mod_mod by done. by eapply Hkeys.
Qed.

Lemma eht_Find_has t k v :
  eht_wf t -> EHT.Find t k = Some v <-> eht_has t k v.
Proof.
  intros Hwf. unfold EHT.Find, EHT.bucket_at, EHT.Bucket_Find. split.
  - destruct (EHT.dir_ t !! EHT.IndexOf t k) as [a|] eqn:Ea; [|done]. simpl.
    destruct (EHT.heap_ t !! a) as [b|] eqn:Eb; [|done]. simpl.
    intros Hl. exists (EHT.IndexOf t k), a, b. split; [done|]. split; [done|].
    by apply Bucket_lookup_elem.
  - intros (i & a & b & Hi & Ha & Hin).
    rewrite (eht_locate t i a b k v Hwf Hi Ha Hin). simpl. rewrite Ha. simpl.
    destruct Hwf as (_ & _ & Hslots).
    destruct (Hslots i a Hi) as (b' & Hb' & _ & _ & _ & Hnd).
    rewrite Ha in Hb'. inversion Hb'; subst b'.
    by apply Bucket_lookup_NoDup.
Qed.

Lemma eht_wf_create bucket_size : eht_wf (EHT.create (V := V) bucket_size).
Proof.
  split; [done|]. split; [done|].
  intros i a Hi. simpl in Hi. destruct i as [|i]; [|done]. inversion Hi; subst.
  eexists. split; [done|]. split; [done|]. split; [|split].
  - intros j a' Hj. destruct j as [|j]; [|done]. by inversion Hj.
  - by intros k v ?%elem_of_nil.
  - simpl. apply NoDup_nil_2.
Qed.

Lemma eht_has_create bucket_size k v : ~ eht_has (EHT.create (V := V) bucket_size) k v.
Proof.
  intros (i & a & b & Hi & Ha & Hin). simpl in *.
  destruct i as [|i]; [|done]. inversion Hi; subst. inversion Ha; subst.
  by apply elem_of_nil in Hin.
Qed.

(** Writing the bucket behind the slot of a key. *)
Lemma eht_set_bucket t key a b b' :
  eht_wf t -> EHT.dir_ t !! EHT.IndexOf t key = Some a ->
  EHT.heap_ t !! a = Some b ->
  EHT.depth_ b' = EHT.depth_ b -> NoDup (EHT.list_ b').*1 ->
  (forall k v, (k, v) ∈ EHT.list_ b' -> (k, v) ∈ EHT.list_ b \/ k = key) ->
  let t' := EHT.set_heap t (<[a := b']> (EHT.heap_ t)) in
  eht_wf t' /\
  forall k v, eht_has t' k v <->
    (k, v) ∈ EHT.list_ b' \/
    (eht_has t k v /\ EHT.dir_ t !! EHT.IndexOf t k <> Some a).
Proof.
  intros Hwf Hi0 Ha Hd Hnd Hsub t'.
  pose proof (lookup_lt_Some _ _ _ Ha) as Hlt.
  destruct (eht_IndexOf t key Hwf) as [Hidx _].
  pose proof Hwf as (Hg & Hlen & Hslots).
  split.
  - split; [done|]. split; [done|]. intros i a2 Hi. simpl in Hi |- *.
    destruct (Hslots i a2 Hi) as (b2 & Hb2 & Hdep & Hsame & Hkeys & Hnd2).
    destruct (decide (a2 = a)) as [->|Hne].
    + rewrite Ha in Hb2. inversion Hb2; subst b2.
      exists b'. rewrite list_lookup_insert_eq by done. split; [done|].
      unfold eht_slot_ok. simpl. rewrite Hd.
      split; [done|]. split; [done|]. split; [|done].
      intros k v Hin. destruct (Hsub k v Hin) as [Hold| ->]; [by eapply Hkeys|].
      rewrite <- (eht_mod_mod _ _ (EHT.global_depth_ t)), <- Hidx by done.
      by apply (Hsame _ _ Hi0).
    + exists b2. rewrite list_lookup_insert_ne by done. done.
  - intros k v. split.
    + intros (i & a2 & b2 & Hi & Hb2 & Hin). simpl in Hi, Hb2.
      destruct (decide (a2 = a)) as [->|Hne].
      * rewrite list_lookup_insert_eq in Hb2 by done. inversion Hb2; subst.
        by left.
      * rewrite list_lookup_insert_ne in Hb2 by done. right. split.
        -- by exists i, a2, b2.
        -- rewrite (eht_locate t i a2 b2 k v Hwf Hi Hb2 Hin). congruence.
    + intros [Hin|[(i & a2 & b2 & Hi & Hb2 & Hin) Hne]].
      * exists (EHT.IndexOf t key), a, b'. simpl.
        by rewrite list_lookup_insert_eq.
      * exists i, a2, b2. simpl. split; [done|]. split; [|done].
        rewrite list_lookup_insert_ne; [done|].
        intros <-. apply Hne. by eapply eht_locate.
Qed.

Lemma eht_Bucket_Insert_ok b key value b' :
  NoDup (EHT.list_ b).*1 -> EHT.Bucket_Insert key value b = (true, b') ->
  EHT.depth_ b' = EHT.depth_ b /\ EHT.size_ b' = EHT.size_ b /\
  NoDup (EHT.list_ b').*1 /\
  forall k v, (k, v) ∈ EHT.list_ b' <->
              (k = key /\ v = value) \/ (k <> key /\ (k, v) ∈ EHT.list_ b).
Proof.
  intros Hnd. unfold EHT.Bucket_Insert.
  destruct (EHT.Bucket_assign key value (EHT.list_ b)) as [l|] eqn:E.
  - intros E'. inversion E'; subst. simpl.
    destruct (Bucket_assign_Some _ _ _ _ Hnd E) as (_ & Hkeys & Hiff).
    split; [done|]. split; [done|]. split; [by rewrite Hkeys|done].
  - destruct (negb (EHT.IsFull b)); intros E'; inversion E'; subst. simpl.
    apply Bucket_assign_None in E.
    split; [done|]. split; [done|]. split; [by apply NoDup_cons|].
    intros k v. rewrite elem_of_cons. split.
    + intros [Hin|Hin]; [inversion Hin; by left|]. right. split; [|done].
      intros ->. apply E. apply list_elem_of_fmap. by exists (key, v).
    + intros [[-> ->]|[_ ?]]; [by left|by right].
Qed.

Lemma eht_Bucket_Insert_not_full b key value :
  EHT.IsFull b = false -> (EHT.Bucket_Insert key value b).1 = true.
Proof.
  intros Hf. unfold EHT.Bucket_Insert. rewrite Hf. simpl.
  by destruct (EHT.Bucket_assign _ _ _).
Qed.

(** Insert into the bucket of the key, when the bucket takes it. *)
Lemma eht_insert_bucket t key value a b b' :
  eht_wf t -> EHT.dir_ t !! EHT.IndexOf t key = Some a ->
  EHT.heap_ t !! a = Some b ->
  EHT.Bucket_Insert key value b = (true, b') ->
  let t' := EHT.set_heap t (<[a := b']> (EHT.heap_ t)) in
  eht_wf t' /\
  forall k v, eht_has t' k v <->
    (k = key /\ v = value) \/ (k <> key /\ eht_has t k v).
Proof.
  intros Hwf Hi Ha Hins t'.
  pose proof Hwf as (_ & _ & Hslots).
  destruct (Hslots _ _ Hi) as (b0 & Hb0 & _ & _ & _ & Hnd).
  rewrite Ha in Hb0. inversion Hb0; subst b0.
  destruct (eht_Bucket_Insert_ok b key value b' Hnd Hins)
    as (Hd & _ & Hnd' & Hiff).
  destruct (eht_set_bucket t key a b b' Hwf Hi Ha Hd Hnd') as [Hwf' Hhas].
  { intros k v Hin. apply Hiff in Hin as [[-> _]|[_ ?]]; [by right|by left]. }
  split; [done|]. intros k v. subst t'. rewrite Hhas, Hiff. split.
  - intros [[?|[? Hin]]|[Hh Hne]]; [by left| |].
    + right. split; [done|]. by exists (EHT.IndexOf t key), a, b.
    + right. split; [|done]. intros ->. done.
  - intros [?|[Hk (i & a2 & b2 & Hi2 & Hb2 & Hin)]]; [left; by left|].
    destruct (decide (a2 = a)) as [->|Hne].
    + rewrite Ha in Hb2. inversion Hb2; subst. left. by right.
    + right. split; [by exists i, a2, b2|].
      rewrite (eht_locate t i a2 b2 k v Hwf Hi2 Hb2 Hin). congruence.
Qed.

(** Remove: the answer says whether the key was there; afterwards it is
    not, and every other key is where it was. *)
Lemma eht_Remove_spec t key :
  eht_wf t ->
  exists t',
    EHT.Remove t key = Some (bool_decide (is_Some (EHT.Find t key)), t') /\
    eht_wf t' /\
    forall k v, eht_has t' k v <-> k <> key /\ eht_has t k v.
Proof.
  intros Hwf.
  destruct (eht_IndexOf t key Hwf) as [Hidx Hlt].
  destruct (lookup_lt_is_Some_2 _ _ Hlt) as [a Hi].
  pose proof Hwf as (_ & _ & Hslots).
  destruct (Hslots _ _ Hi) as (b & Ha & _ & _ & _ & Hnd).
  unfold EHT.Remove, EHT.Find, EHT.bucket_at, EHT.Bucket_Find,
    EHT.Bucket_Remove.
  rewrite Hi. simpl. rewrite Ha. simpl.
  destruct (EHT.Bucket_erase key (EHT.list_ b)) as [l|] eqn:E.
  - destruct (Bucket_erase_Some _ _ _ Hnd E) as (Hin & Hnd' & Hiff).
    eexists. split.
    { f_equal. f_equal. symmetry. apply bool_decide_eq_true_2.
      destruct (EHT.Bucket_lookup key (EHT.list_ b)) eqn:El; [done|].
      by apply Bucket_lookup_None in El. }
    destruct (eht_set_bucket t key a b (EHT.mkBucket (EHT.size_ b) (EHT.depth_ b) l)
                Hwf Hi Ha eq_refl Hnd') as [Hwf' Hhas].
    { intros k v Hkv. left. by apply Hiff in Hkv as [_ ?]. }
    split; [done|]. intros k v. rewrite Hhas. simpl. rewrite Hiff. split.
    + intros [[? Hkv]|[Hh Hne]].
      * split; [done|]. by exists (EHT.IndexOf t key), a, b.
      * split; [|done]. by intros ->.
    + intros [Hk (i & a2 & b2 & Hi2 & Hb2 & Hkv)].
      destruct (decide (a2 = a)) as [->|Hne].
      * rewrite Ha in Hb2. inversion Hb2; subst. by left.
      * right. split; [by exists i, a2, b2|].
        rewrite (eht_locate t i a2 b2 k v Hwf Hi2 Hb2 Hkv). congruence.
  - apply Bucket_erase_None in E. eexists. split.
    { f_equal. f_equal. symmetry. apply bool_decide_eq_false_2.
      apply Bucket_lookup_None in E. rewrite E. by intros [? ?]. }
    rewrite list_insert_id by done.
    assert (EHT.set_heap t (EHT.heap_ t) = t) as -> by (by destruct t).
    split; [done|]. intros k v. split; [|tauto].
    intros Hh. split; [|done]. intros ->.
    destruct Hh as (i & a2 & b2 & Hi2 & Hb2 & Hkv).
    pose proof (eht_locate t i a2 b2 key v Hwf Hi2 Hb2 Hkv) as Hl.
    rewrite Hi in Hl. inversion Hl; subst. rewrite Ha in Hb2.
    inversion Hb2; subst. apply E. apply list_elem_of_fmap. by exists (key, v).
Qed.

Lemma eht_redirect_spec fuel i n mask d nb (dir : list nat) :
  0 < mask -> 0 <= i -> Z.of_nat (length dir) = n ->
  n - i < Z.of_nat fuel \/ n <= i ->
  length (EHT.redirect fuel i n mask d nb dir) = length dir /\
  forall j, (j < length dir)%nat ->
    EHT.redirect fuel i n mask d nb dir !! j
    = if decide (i <= Z.of_nat j /\ Z.of_nat j mod mask = i mod mask /\
                 Z.land (Z.shiftr (Z.of_nat j) d) 1 = 0)
      then Some nb else dir !! j.
Proof.
  intros Hmask. revert i dir.
  induction fuel as [|fuel IH]; intros i dir Hi Hlen Hfuel.
  - simpl. split; [done|]. intros j Hj. rewrite decide_False; [done|lia].
  - simpl. destruct (Z.ltb_spec i n) as [Hlt|Hge].
    + set (dir1 := if Z.land (Z.shiftr i d) 1 =? 0
                   then <[Z.to_nat i := nb]> dir else dir).
      assert (Hlen1 : length dir1 = length dir).
      { unfold dir1. destruct (_ =? _); by rewrite ?length_insert. }
      destruct (IH (i + mask) dir1) as [IHlen IHj]; [lia|lia|lia|].
      split; [lia|]. intros j Hj. rewrite IHj by lia.
      assert (Hm : (i + mask) mod mask = i mod mask).
      { rewrite <- (Z.mul_1_l mask) at 1. apply Z_mod_plus_full. }
      rewrite Hm.
      destruct (decide (Z.of_nat j = i)) as [Hji|Hji].
      * rewrite decide_False by lia. subst i.
        unfold dir1. rewrite Nat2Z.id. destruct (Z.eqb_spec (Z.land (Z.shiftr (Z.of_nat j) d) 1) 0)
          as [Hb|Hb].
        -- rewrite list_lookup_insert_eq by done. by rewrite decide_True.
        -- rewrite decide_False; [done|]. tauto.
      * assert (Hd1 : dir1 !! j = dir !! j).
        { unfold dir1. destruct (_ =? _); [|done].
          apply list_lookup_insert_ne. lia. }
        rewrite Hd1.
        destruct (decide (i <= Z.of_nat j /\ Z.of_nat j mod mask = i mod mask /\
                          Z.land (Z.shiftr (Z.of_nat j) d) 1 = 0))
          as [(H1 & H2 & H3)|Hn].
        -- rewrite decide_True; [done|]. split; [|done].
           pose proof (Z.div_mod (Z.of_nat j) mask ltac:(lia)).
           pose proof (Z.div_mod i mask ltac:(lia)).
           assert (i / mask < Z.of_nat j / mask) by nia. nia.
        -- rewrite decide_False; [done|]. intros (H1 & H2 & H3). apply Hn.
           split; [lia|done].
    + split; [done|]. intros j Hj. rewrite decide_False; [done|lia].
Qed.

(** What one round of the split loop makes of the table: the directory is
    doubled when the bucket is at the global depth; the bucket keeps the
    pairs whose bit at its depth is 1 and a new bucket, at the end of the
    heap, takes the others; the slots of the bucket whose bit is 0 point to
    the new bucket. *)
Lemma eht_split_shape t key a b :
  eht_wf t -> EHT.dir_ t !! EHT.IndexOf t key = Some a ->
  EHT.heap_ t !! a = Some b ->
  let d := EHT.depth_ b in
  exists t',
    EHT.split t key (EHT.IndexOf t key) = Some t' /\
    0 <= d < EHT.global_depth_ t' /\
    EHT.global_depth_ t <= EHT.global_depth_ t' /\
    EHT.global_depth_ t' = Z.max (EHT.global_depth_ t) (d + 1) /\
    EHT.num_buckets_ t' = EHT.num_buckets_ t + 1 /\
    Z.of_nat (length (EHT.dir_ t')) = 2 ^ EHT.global_depth_ t' /\
    EHT.bucket_size_ t' = EHT.bucket_size_ t /\
    EHT.heap_ t'
    = <[a := EHT.mkBucket (EHT.size_ b) (d + 1)
              (filter (fun kv => Z.land (Z.shiftr (EHT.hash kv.1) d) 1 ≠ 0)
                      (EHT.list_ b))]> (EHT.heap_ t)
      ++ [EHT.mkBucket (EHT.bucket_size_ t) (d + 1)
            (filter (fun kv => Z.land (Z.shiftr (EHT.hash kv.1) d) 1 = 0)
                    (EHT.list_ b))] /\
    forall j, (j < length (EHT.dir_ t'))%nat ->
      exists aj,
        EHT.dir_ t !! Z.to_nat (Z.of_nat j mod 2 ^ EHT.global_depth_ t)
        = Some aj /\
        EHT.dir_ t' !! j
        = Some (if decide (Z.of_nat j mod 2 ^ d = EHT.hash key mod 2 ^ d /\
                           (Z.of_nat j / 2 ^ d) mod 2 = 0)
                then length (EHT.heap_ t) else aj).
Proof.
  intros Hwf Hi Ha d.
  pose proof Hwf as (Hg & Hlen & Hslots).
  destruct (Hslots _ _ Hi) as (b0 & Hb0 & Hd & _).
  rewrite Ha in Hb0. inversion Hb0; subst b0. fold d in Hd.
  unfold EHT.split. rewrite Hi. cbn [mbind option_bind].
  rewrite Ha. cbn [mbind option_bind]. fold d.
  set (gd := EHT.global_depth_ t) in *.
  set (dir0 := if d =? gd then EHT.dir_ t ++ EHT.dir_ t else EHT.dir_ t).
  set (gd' := if d =? gd then gd + 1 else gd).
  assert (Hgd' : d < gd' /\ gd <= gd').
  { unfold gd'. destruct (Z.eqb_spec d gd); lia. }
  assert (Hlen0 : Z.of_nat (length dir0) = 2 ^ gd').
  { unfold dir0, gd'. destruct (Z.eqb_spec d gd); [|done].
    rewrite length_app, Z.pow_add_r by lia. lia. }
  assert (Hdir0 : forall j, (j < length dir0)%nat ->
            dir0 !! j = EHT.dir_ t !! Z.to_nat (Z.of_nat j mod 2 ^ gd)).
  { intros j Hj. unfold dir0, gd' in *. destruct (Z.eqb_spec d gd) as [E|E].
    - rewrite Z.pow_add_r in Hlen0 by lia.
      destruct (decide (j < length (EHT.dir_ t))%nat) as [Hlt|Hge].
      + rewrite lookup_app_l by done. f_equal.
        rewrite Z.mod_small by lia. lia.
      + rewrite lookup_app_r by lia. f_equal.
        replace (Z.of_nat j) with (Z.of_nat j - 2 ^ gd + 1 * 2 ^ gd) by lia.
        rewrite Z_mod_plus_full, Z.mod_small by lia. lia.
    - f_equal. rewrite Z.mod_small by lia. lia. }
  eexists. split.
  { assert ((if d =? gd then (gd + 1, EHT.dir_ t ++ EHT.dir_ t)
             else (gd, EHT.dir_ t)) = (gd', dir0)) as ->
      by (unfold gd', dir0; by destruct (d =? gd)).
    reflexivity. }
  cbn [EHT.global_depth_ EHT.dir_ EHT.heap_ EHT.bucket_size_ EHT.num_buckets_].
  destruct (eht_redirect_spec (S (length dir0))
              (Z.land (EHT.hash key) (Z.shiftl 1 d - 1))
              (Z.of_nat (length dir0)) (Z.shiftl 1 d) d
              (length (EHT.heap_ t)) dir0) as [Hrl Hrj].
  { rewrite Z.shiftl_1_l. lia. }
  { rewrite eht_land_mask by lia. apply Z.mod_pos_bound. lia. }
  { done. }
  { left. rewrite eht_land_mask by lia.
    pose proof (Z.mod_pos_bound (EHT.hash key) (2 ^ d) ltac:(lia)). lia. }
  split; [lia|]. split; [lia|].
  split; [unfold gd'; destruct (Z.eqb_spec d gd); lia|]. split; [done|].
  split; [by rewrite Hrl|]. split; [done|].
  split; [done|].
  intros j Hj. rewrite Hrl in Hj.
  assert (Hjm : (Z.to_nat (Z.of_nat j mod 2 ^ gd) < length (EHT.dir_ t))%nat).
  { pose proof (Z.mod_pos_bound (Z.of_nat j) (2 ^ gd) ltac:(lia)). lia. }
  destruct (lookup_lt_is_Some_2 _ _ Hjm) as [aj Haj].
  exists aj. split; [done|].
  rewrite Hrj by done. rewrite Hdir0, Haj by done.
  rewrite eht_land_mask, Z.shiftl_1_l, eht_bit by lia.
  rewrite Z.mod_mod by lia.
  pose proof (Z.mod_pos_bound (EHT.hash key) (2 ^ d) ltac:(lia)).
  pose proof (Z.mod_pos_bound (Z.of_nat j) (2 ^ d) ltac:(lia)).
  pose proof (Z.mod_le (Z.of_nat j) (2 ^ d) ltac:(lia) ltac:(lia)).
  destruct (decide (_ /\ _ /\ _)) as [(G1 & G2 & G3)|Hn];
    destruct (decide (_ /\ _)) as [[G4 G5]|Hn']; try done.
  - exfalso. apply Hn'. done.
  - exfalso. apply Hn. split; [lia|done].
Qed.

Lemma eht_NoDup_filter (P : Z * V -> Prop) `{!forall x, Decision (P x)} l :
  NoDup l.*1 -> NoDup (filter P l).*1.
Proof.
  intros Hnd. apply (sublist_NoDup _ _ Hnd). apply fmap_sublist, sublist_filter.
Qed.

(** One round of the split loop keeps the table well formed and keeps what
    it holds. *)
Lemma eht_split_ok t key a b :
  eht_wf t -> EHT.dir_ t !! EHT.IndexOf t key = Some a ->
  EHT.heap_ t !! a = Some b ->
  exists t',
    EHT.split t key (EHT.IndexOf t key) = Some t' /\
    eht_wf t' /\
    EHT.bucket_size_ t' = EHT.bucket_size_ t /\
    (forall k v, eht_has t' k v <-> eht_has t k v) /\
    EHT.global_depth_ t' = Z.max (EHT.global_depth_ t) (EHT.depth_ b + 1) /\
    EHT.num_buckets_ t' = EHT.num_buckets_ t + 1 /\
    length (EHT.heap_ t') = S (length (EHT.heap_ t)) /\
    (forall j a2 b2,
       EHT.dir_ t' !! j = Some a2 -> EHT.heap_ t' !! a2 = Some b2 ->
       exists i a0 b0,
         EHT.dir_ t !! i = Some a0 /\ EHT.heap_ t !! a0 = Some b0 /\
         (forall kv, kv ∈ EHT.list_ b2 -> kv ∈ EHT.list_ b0) /\
         (length (EHT.list_ b2) <= length (EHT.list_ b0))%nat /\
         (EHT.size_ b2 = EHT.size_ b0 \/ EHT.size_ b2 = EHT.bucket_size_ t)) /\
    (exists a1 b1,
       EHT.dir_ t' !! EHT.IndexOf t' key = Some a1 /\
       EHT.heap_ t' !! a1 = Some b1 /\
       EHT.depth_ b1 = EHT.depth_ b + 1 /\
       forall kv, kv ∈ EHT.list_ b1 -> kv ∈ EHT.list_ b).
Proof.
  intros Hwf Hi Ha.
  destruct (eht_split_shape t key a b Hwf Hi Ha)
    as (t' & Hsplit & Hd & Hgd & Hgdmax & Hnum & Hlen' & Hbs & Hheap & Hdir).
  exists t'. split; [done|].
  destruct (eht_IndexOf t key Hwf) as [Hidx _].
  pose proof Hwf as (Hg & Hlen & Hslots).
  set (d := EHT.depth_ b) in *.
  set (gd := EHT.global_depth_ t) in *.
  set (gd' := EHT.global_depth_ t') in *.
  set (nb := length (EHT.heap_ t)) in *.
  set (old := EHT.mkBucket (EHT.size_ b) (d + 1) _) in Hheap.
  set (new := EHT.mkBucket (EHT.bucket_size_ t) (d + 1) _) in Hheap.
  pose proof (lookup_lt_Some _ _ _ Ha) as Halt. fold nb in Halt.
  destruct (Hslots _ _ Hi) as (b0 & Hb0 & Hdb & Hsame & Hkeys & Hnd).
  rewrite Ha in Hb0. inversion Hb0; subst b0. clear Hb0.
  fold d gd in Hdb, Hsame, Hkeys.
  assert (Hi0 : Z.of_nat (EHT.IndexOf t key) mod 2 ^ d = EHT.hash key mod 2 ^ d).
  { rewrite Hidx. apply eht_mod_mod. lia. }
  rewrite Hi0 in Hsame, Hkeys.
  assert (Hnew : EHT.heap_ t' !! nb = Some new).
  { rewrite Hheap, lookup_app_r; rewrite length_insert; [|done].
    by rewrite Nat.sub_diag. }
  assert (Hold : EHT.heap_ t' !! a = Some old).
  { rewrite Hheap, lookup_app_l by (by rewrite length_insert).
    by apply list_lookup_insert_eq. }
  assert (Hother : forall a2, a2 <> a -> (a2 < nb)%nat ->
                     EHT.heap_ t' !! a2 = EHT.heap_ t !! a2).
  { intros a2 Hne Hlt. rewrite Hheap, lookup_app_l by (by rewrite length_insert).
    by apply list_lookup_insert_ne. }
  assert (Haddr : forall i x, EHT.dir_ t !! i = Some x -> (x < nb)%nat).
  { intros i x Hx. destruct (Hslots _ _ Hx) as (bx & Hbx & _).
    by apply lookup_lt_Some in Hbx. }
  assert (Hjm : forall j, Z.of_nat (Z.to_nat (Z.of_nat j mod 2 ^ gd))
                          = Z.of_nat j mod 2 ^ gd).
  { intros j. pose proof (Z.mod_pos_bound (Z.of_nat j) (2 ^ gd) ltac:(lia)).
    lia. }
  assert (Hjmd : forall j e, 0 <= e <= gd ->
            Z.of_nat (Z.to_nat (Z.of_nat j mod 2 ^ gd)) mod 2 ^ e
            = Z.of_nat j mod 2 ^ e).
  { intros j e He. rewrite Hjm. by apply eht_mod_mod. }
  assert (Hbit : forall x, Z.land (Z.shiftr x d) 1 = (x / 2 ^ d) mod 2).
  { intros x. apply eht_bit. lia. }
  (* the slots of the new table *)
  assert (Hslot' : forall j a2, EHT.dir_ t' !! j = Some a2 ->
            exists aj,
              EHT.dir_ t !! Z.to_nat (Z.of_nat j mod 2 ^ gd) = Some aj /\
              (aj < nb)%nat /\
              (aj = a <-> Z.of_nat j mod 2 ^ d = EHT.hash key mod 2 ^ d) /\
              a2 = if decide (Z.of_nat j mod 2 ^ d = EHT.hash key mod 2 ^ d /\
                              (Z.of_nat j / 2 ^ d) mod 2 = 0)
                   then nb else aj).
  { intros j a2 Hj. destruct (Hdir j) as (aj & Haj & Hj'); [by eapply lookup_lt_Some|].
    exists aj. split; [done|]. split; [by eapply Haddr|]. split.
    - rewrite (Hsame _ _ Haj). rewrite Hjmd by lia. done.
    - rewrite Hj in Hj'. by inversion Hj'. }
  assert (Hwf' : eht_wf t'); [|split; [done|split; [done|split;
    [|split; [done|split; [done|split; [|split]]]]]]].
  - (* well formed *)
    split; [lia|]. split; [done|]. intros j a2 Hj.
    destruct (Hslot' j a2 Hj) as (aj & Haj & Hajlt & Haja & Ha2).
    destruct (decide (_ /\ _)) as [[Hc1 Hc2]|Hnc]; subst a2.
    + (* the new bucket *)
      exists new. split; [done|]. split; [simpl; fold gd'; lia|].
      split; [|split].
      * intros j2 a' Hj2. simpl.
        destruct (Hslot' j2 a' Hj2) as (aj2 & _ & Hlt2 & _ & ->).
        rewrite (eht_agree_succ _ _ d) by lia.
        destruct (decide (_ /\ _)) as [[Hc1' Hc2']|Hnc'].
        -- split; [|done]. intros _. split; congruence.
        -- split; [lia|]. intros [E1 E2]. exfalso. apply Hnc'.
           split; congruence.
      * intros k v Hin. simpl in Hin |- *.
        apply list_elem_of_filter in Hin as [Hb Hin]. simpl in Hb.
        rewrite Hbit in Hb. apply eht_agree_succ; [lia|].
        split; [|congruence]. rewrite Hc1. by eapply Hkeys.
      * simpl. by apply eht_NoDup_filter.
    + destruct (decide (aj = a)) as [->|Hne].
      * (* the old bucket *)
        pose proof (proj1 Haja eq_refl) as Hc1.
        assert (Hc2 : (Z.of_nat j / 2 ^ d) mod 2 = 1).
        { pose proof (eht_bit_range (Z.of_nat j) d).
          destruct (decide ((Z.of_nat j / 2 ^ d) mod 2 = 0)); [|lia].
          exfalso. by apply Hnc. }
        exists old. split; [done|]. split; [simpl; fold gd'; lia|].
        split; [|split].
        -- intros j2 a' Hj2. simpl.
           destruct (Hslot' j2 a' Hj2) as (aj2 & _ & Hlt2 & Haja2 & ->).
           rewrite (eht_agree_succ _ _ d) by lia.
           destruct (decide (_ /\ _)) as [[Hc1' Hc2']|Hnc'].
           ++ split; [lia|]. intros [_ E2]. lia.
           ++ rewrite Haja2. split; [|intros [E1 _]; congruence].
              intros E1. split; [congruence|]. rewrite Hc2.
              pose proof (eht_bit_range (Z.of_nat j2) d).
              destruct (decide ((Z.of_nat j2 / 2 ^ d) mod 2 = 0)); [|lia].
              exfalso. by apply Hnc'.
        -- intros k v Hin. simpl in Hin |- *.
           apply list_elem_of_filter in Hin as [Hb Hin]. simpl in Hb.
           rewrite Hbit in Hb. apply eht_agree_succ; [lia|].
           pose proof (eht_bit_range (EHT.hash k) d).
           split; [|lia]. rewrite Hc1. by eapply Hkeys.
        -- simpl. by apply eht_NoDup_filter.
      * (* another bucket *)
        destruct (Hslots _ _ Haj) as (b2 & Hb2 & Hd2 & Hsame2 & Hkeys2 & Hnd2).
        exists b2. split; [by rewrite Hother|].
        split; [fold gd gd'; lia|]. split; [|split; [|done]].
        -- intros j2 a' Hj2.
           destruct (Hslot' j2 a' Hj2) as (aj2 & Haj2 & Hlt2 & Haja2 & ->).
           rewrite <- (Hjmd j2 (EHT.depth_ b2)), <- (Hjmd j (EHT.depth_ b2))
             by done.
           rewrite <- (Hsame2 _ _ Haj2).
           destruct (decide (_ /\ _)) as [[Hc1' Hc2']|Hnc']; [|done].
           split; [lia|]. intros ->. exfalso. apply Hne. by apply Haja2.
        -- intros k v Hin. rewrite <- (Hjmd j (EHT.depth_ b2)) by done.
           by eapply Hkeys2.
  - (* what it holds *)
    intros k v. split.
    + intros (j & a2 & b2 & Hj & Hb2 & Hin).
      destruct (Hslot' j a2 Hj) as (aj & Haj & Hajlt & Haja & Ha2).
      destruct (decide (_ /\ _)) as [[Hc1 Hc2]|Hnc]; subst a2.
      * rewrite Hnew in Hb2. inversion Hb2; subst b2. simpl in Hin.
        apply list_elem_of_filter in Hin as [_ Hin].
        by exists (EHT.IndexOf t key), a, b.
      * destruct (decide (aj = a)) as [->|Hne].
        -- rewrite Hold in Hb2. inversion Hb2; subst b2. simpl in Hin.
           apply list_elem_of_filter in Hin as [_ Hin].
           by exists (EHT.IndexOf t key), a, b.
        -- rewrite Hother in Hb2 by done. by eexists _, aj, b2.
    + intros (i & a2 & b2 & Hi2 & Hb2 & Hin).
      pose proof (lookup_lt_Some _ _ _ Hi2) as Hilt.
      assert (Him : Z.of_nat i mod 2 ^ gd = Z.of_nat i)
        by (apply Z.mod_small; lia).
      assert (Hpow : 2 ^ d < 2 ^ gd' /\ 2 ^ gd <= 2 ^ gd' /\ 0 < 2 ^ d).
      { split; [apply Z.pow_lt_mono_r; lia|].
        split; [apply Z.pow_le_mono_r; lia|lia]. }
      destruct (decide (a2 = a)) as [->|Hne].
      * rewrite Ha in Hb2. inversion Hb2; subst b2.
        pose proof (Z.mod_pos_bound (EHT.hash key) (2 ^ d) ltac:(lia)) as Hk.
        destruct (decide ((EHT.hash k / 2 ^ d) mod 2 = 0)) as [Hb|Hb].
        -- (* moved to the new bucket: the slot of the low bits of key *)
           set (j := Z.to_nat (EHT.hash key mod 2 ^ d)).
           assert (Hjlt : (j < length (EHT.dir_ t'))%nat) by (unfold j; lia).
           destruct (lookup_lt_is_Some_2 _ _ Hjlt) as [a' Hj].
           destruct (Hslot' j a' Hj) as (aj & _ & _ & _ & Ha').
           assert (Ej : Z.of_nat j = EHT.hash key mod 2 ^ d) by (unfold j; lia).
           rewrite decide_True in Ha'.
           2:{ rewrite Ej. split; [apply Z.mod_mod; lia|].
               rewrite Z.div_small by lia. done. }
           subst a'. exists j, nb, new. split; [done|]. split; [done|].
           simpl. apply list_elem_of_filter. split; [|done]. simpl.
           by rewrite Hbit.
        -- (* kept: the slot one bucket further *)
           set (j := Z.to_nat (EHT.hash key mod 2 ^ d + 2 ^ d)).
           assert (E2 : 2 ^ (d + 1) <= 2 ^ gd')
             by (apply Z.pow_le_mono_r; lia).
           rewrite Z.pow_add_r, Z.pow_1_r in E2 by lia.
           assert (Hjlt : (j < length (EHT.dir_ t'))%nat) by (unfold j; lia).
           destruct (lookup_lt_is_Some_2 _ _ Hjlt) as [a' Hj].
           destruct (Hslot' j a' Hj) as (aj & _ & _ & Haja & Ha').
           assert (Ej : Z.of_nat j = EHT.hash key mod 2 ^ d + 2 ^ d)
             by (unfold j; lia).
           assert (Ejm : Z.of_nat j mod 2 ^ d = EHT.hash key mod 2 ^ d).
           { rewrite Ej. rewrite <- (Z.mul_1_l (2 ^ d)) at 2.
             rewrite Z_mod_plus_full. apply Z.mod_mod. lia. }
           assert (Ejb : (Z.of_nat j / 2 ^ d) mod 2 = 1).
           { rewrite Ej. rewrite <- (Z.mul_1_l (2 ^ d)) at 2.
             rewrite Z.div_add, Z.div_small by lia. done. }
           rewrite decide_False in Ha' by (intros [_ ?]; lia).
           subst a'. apply Haja in Ejm. subst aj.
           exists j, a, old. split; [done|]. split; [done|].
           simpl. apply list_elem_of_filter. split; [|done]. simpl.
           by rewrite Hbit.
      * assert (Hi'lt : (i < length (EHT.dir_ t'))%nat) by lia.
        destruct (lookup_lt_is_Some_2 _ _ Hi'lt) as [a' Hi'].
        destruct (Hslot' i a' Hi') as (aj & Haj & _ & Haja & Ha').
        rewrite Him, Nat2Z.id, Hi2 in Haj. inversion Haj; subst aj.
        rewrite decide_False in Ha' by (intros [E _]; apply Hne; by apply Haja).
        subst a'. exists i, a2, b2. split; [done|]. split; [|done].
        rewrite Hother; [done|done|]. by eapply Haddr.
  - rewrite Hheap, length_app, length_insert. simpl. lia.
  - (* where a bucket comes from *)
    intros j a2 b2 Hj Hb2.
    destruct (Hslot' j a2 Hj) as (aj & Haj & Hajlt & Haja & Ha2).
    destruct (decide (_ /\ _)) as [[Hc1 Hc2]|Hnc]; subst a2.
    + rewrite Hnew in Hb2. inversion Hb2; subst b2.
      exists (EHT.IndexOf t key), a, b. split; [done|]. split; [done|].
      simpl. split; [|split; [apply length_filter|by right]].
      intros kv Hin. by apply list_elem_of_filter in Hin as [_ ?].
    + destruct (decide (aj = a)) as [->|Hne].
      * rewrite Hold in Hb2. inversion Hb2; subst b2.
        exists (EHT.IndexOf t key), a, b. split; [done|]. split; [done|].
        simpl. split; [|split; [apply length_filter|by left]].
        intros kv Hin. by apply list_elem_of_filter in Hin as [_ ?].
      * rewrite Hother in Hb2 by done.
        exists (Z.to_nat (Z.of_nat j mod 2 ^ gd)), aj, b2.
        split; [done|]. split; [done|]. split; [done|]. split; [done|by left].
  - (* the bucket of the key *)
    destruct (eht_IndexOf t' key Hwf') as [Hidx' Hlt'].
    destruct (lookup_lt_is_Some_2 _ _ Hlt') as [a' Hj].
    destruct (Hslot' _ a' Hj) as (aj & _ & _ & _ & Ha').
    fold gd' in Hidx'.
    destruct (decide (_ /\ _)) as [[Hc1 Hc2]|Hnc]; subst a'.
    + exists nb, new. split; [done|]. split; [done|]. split; [done|].
      simpl. intros kv Hin. by apply list_elem_of_filter in Hin as [_ ?].
    + destruct (Hslot' _ aj Hj) as (aj' & _ & _ & Haja & Ha').
      rewrite decide_False in Ha' by done. subst aj'.
      assert (aj = a) as ->.
      { apply Haja. rewrite Hidx'. apply eht_mod_mod. lia. }
      exists a, old. split; [done|]. split; [done|]. split; [done|].
      simpl. intros kv Hin. by apply list_elem_of_filter in Hin as [_ ?].
Qed.

(** *** Keys below 2^30

    [1 << depth] is an [int] in the source; with keys in [0, 2^30) no
    depth passes 30 and the shifts of the source are the powers of two of
    the model. *)
Definition eht_key_ok (k : Z) : Prop := 0 <= k < 2 ^ 30.

Definition eht_ok t : Prop :=
  eht_wf t /\ (1 <= EHT.bucket_size_ t)%nat /\ EHT.global_depth_ t <= 30 /\
  EHT.num_buckets_ t = Z.of_nat (length (EHT.heap_ t)) /\
  forall i a b, EHT.dir_ t !! i = Some a -> EHT.heap_ t !! a = Some b ->
    EHT.size_ b = EHT.bucket_size_ t /\
    (length (EHT.list_ b) <= EHT.size_ b)%nat /\
    forall k v, (k, v) ∈ EHT.list_ b -> eht_key_ok k.

Lemma eht_ok_create bucket_size :
  (1 <= bucket_size)%nat -> eht_ok (EHT.create (V := V) bucket_size).
Proof.
  intros Hbs. split; [apply eht_wf_create|]. split; [done|]. split; [done|].
  split; [done|]. intros i a b Hi Ha. simpl in *.
  destruct i as [|i]; [|done]. inversion Hi; subst. inversion Ha; subst.
  simpl. split; [done|]. split; [lia|]. by intros k v ?%elem_of_nil.
Qed.

Lemma eht_hash_ok k : eht_key_ok k -> EHT.hash k = k.
Proof. intros [? ?]. unfold EHT.hash. apply Z.mod_small. lia. Qed.

(** A full bucket that the key is not in is not yet at depth 30. *)
Lemma eht_full_depth t key a b :
  eht_ok t -> eht_key_ok key ->
  EHT.dir_ t !! EHT.IndexOf t key = Some a -> EHT.heap_ t !! a = Some b ->
  EHT.IsFull b = true -> key ∉ (EHT.list_ b).*1 -> EHT.depth_ b <= 29.
Proof.
  intros (Hwf & Hbs & Hgd & _ & Hb) Hkey Hi Ha Hfull Hnot.
  destruct (Hb _ _ _ Hi Ha) as (Hsz & Hlen & Hks).
  unfold EHT.IsFull in Hfull. apply Nat.eqb_eq in Hfull.
  destruct (EHT.list_ b) as [|[k v] l] eqn:El; [simpl in *; lia|].
  destruct (eht_IndexOf t key Hwf) as [Hidx _].
  pose proof Hwf as (Hg & _ & Hslots).
  destruct (Hslots _ _ Hi) as (b0 & Hb0 & Hd & _ & Hkeys & _).
  rewrite Ha in Hb0. inversion Hb0; subst b0.
  destruct (decide (EHT.depth_ b <= 29)) as [|Hbig]; [done|]. exfalso.
  assert (Hin : (k, v) ∈ EHT.list_ b) by (rewrite El; apply elem_of_cons; by left).
  pose proof (Hkeys k v Hin) as E.
  rewrite Hidx, eht_mod_mod in E by lia.
  apply (eht_agree_le _ _ 30) in E; [|lia].
  specialize (Hks k v ltac:(apply elem_of_cons; by left)).
  rewrite !eht_hash_ok in E by done.
  unfold eht_key_ok in *. rewrite !Z.mod_small in E by lia. subst k.
  apply Hnot. simpl. apply elem_of_cons. by left.
Qed.

Lemma eht_Insert_loop_unfold fuel t key index :
  EHT.Insert_loop fuel t key index
  = (b ← EHT.bucket_at t index;
     if EHT.IsFull b then
       match fuel with
       | O => None
       | S f => t' ← EHT.split t key index;
                EHT.Insert_loop f t' key (EHT.IndexOf t' key)
       end
     else Some (t, index)).
Proof. by destruct fuel. Qed.

Lemma eht_Insert_loop_total fuel :
  forall t key a b,
    eht_ok t -> eht_key_ok key ->
    EHT.dir_ t !! EHT.IndexOf t key = Some a -> EHT.heap_ t !! a = Some b ->
    key ∉ (EHT.list_ b).*1 -> 30 <= EHT.depth_ b + Z.of_nat fuel ->
    exists t1 a1 b1,
      EHT.Insert_loop fuel t key (EHT.IndexOf t key)
      = Some (t1, EHT.IndexOf t1 key) /\
      eht_ok t1 /\ EHT.bucket_size_ t1 = EHT.bucket_size_ t /\
      (forall k v, eht_has t1 k v <-> eht_has t k v) /\
      EHT.dir_ t1 !! EHT.IndexOf t1 key = Some a1 /\
      EHT.heap_ t1 !! a1 = Some b1 /\ EHT.IsFull b1 = false.
Proof.
  induction fuel as [|fuel IH]; intros t key a b Hok Hkey Hi Ha Hnot Hfuel;
    rewrite eht_Insert_loop_unfold; unfold EHT.bucket_at;
    rewrite Hi; simpl; rewrite Ha; simpl;
    destruct (EHT.IsFull b) eqn:Hfull;
    try (exists t, a, b; split; [done|]; split; [done|]; split; [done|];
         split; [done|]; split; [done|]; split; done).
  - pose proof (eht_full_depth t key a b Hok Hkey Hi Ha Hfull Hnot). lia.
  - pose proof (eht_full_depth t key a b Hok Hkey Hi Ha Hfull Hnot) as Hd.
    pose proof Hok as (Hwf & Hbs & Hgd & Hnum & Hb).
    destruct (eht_split_ok t key a b Hwf Hi Ha)
      as (t' & Hsplit & Hwf' & Hbs' & Hhas & Hgd' & Hnum' & Hlen' & Hprov
          & a1 & b1 & Hi1 & Ha1 & Hd1 & Hsub).
    rewrite Hsplit. simpl.
    assert (Hok' : eht_ok t').
    { split; [done|]. split; [lia|]. split; [lia|]. split; [lia|].
      intros j a2 b2 Hj Hb2.
      destruct (Hprov j a2 b2 Hj Hb2) as (i & a0 & b0 & Hi0 & Ha0 & Hs & Hl & Hsz).
      destruct (Hb _ _ _ Hi0 Ha0) as (Hsz0 & Hlen0 & Hks0).
      rewrite Hbs'. split; [destruct Hsz; congruence|].
      split; [destruct Hsz as [-> | ->]; lia|].
      intros k v Hin. by eapply Hks0, Hs. }
    destruct (IH t' key a1 b1 Hok' Hkey Hi1 Ha1)
      as (t1 & a2 & b2 & Hloop & Hok1 & Hbs1 & Hhas1 & Hi2 & Ha2 & Hnf).
    { intros Hin. apply Hnot. apply list_elem_of_fmap in Hin as (kv & -> & Hin).
      apply list_elem_of_fmap. exists kv. split; [done|]. by apply Hsub. }
    { lia. }
    exists t1, a2, b2. split; [done|]. split; [done|].
    split; [congruence|]. split; [|done].
    intros k v. by rewrite Hhas1, Hhas.
Qed.

Lemma Bucket_assign_length k v l l' :
  EHT.Bucket_assign k v l = Some l' -> length l' = length l.
Proof.
  revert l'. induction l as [|[k0 v0] l IH]; simpl; intros l' E; [done|].
  destruct (k =? k0); [by inversion E|].
  destruct (EHT.Bucket_assign k v l); [|done].
  inversion E; subst. simpl. f_equal. by apply IH.
Qed.

Lemma Bucket_erase_length k l l' :
  EHT.Bucket_erase k l = Some l' -> (length l' <= length l)%nat.
Proof.
  revert l'. induction l as [|[k0 v0] l IH]; simpl; intros l' E; [done|].
  destruct (k0 =? k); [inversion E; lia|].
  destruct (EHT.Bucket_erase k l); [|done].
  inversion E; subst. simpl. specialize (IH _ eq_refl). lia.
Qed.

Lemma eht_Bucket_Insert_length b key value b' :
  (length (EHT.list_ b) <= EHT.size_ b)%nat ->
  EHT.Bucket_Insert key value b = (true, b') ->
  (length (EHT.list_ b') <= EHT.size_ b')%nat.
Proof.
  intros Hlen. unfold EHT.Bucket_Insert.
  destruct (EHT.Bucket_assign key value (EHT.list_ b)) as [l|] eqn:E.
  - intros E'. inversion E'; subst. simpl.
    apply Bucket_assign_length in E. lia.
  - unfold EHT.IsFull. destruct (Nat.eqb_spec (length (EHT.list_ b)) (EHT.size_ b));
      simpl; intros E'; inversion E'; subst. simpl. lia.
Qed.

Lemma eht_ok_insert_bucket t key value a b b' :
  eht_ok t -> eht_key_ok key ->
  EHT.dir_ t !! EHT.IndexOf t key = Some a -> EHT.heap_ t !! a = Some b ->
  EHT.Bucket_Insert key value b = (true, b') ->
  let t' := EHT.set_heap t (<[a := b']> (EHT.heap_ t)) in
  eht_ok t' /\
  forall k v, eht_has t' k v <->
    (k = key /\ v = value) \/ (k <> key /\ eht_has t k v).
Proof.
  intros (Hwf & Hbs & Hgd & Hnum & Hb) Hkey Hi Ha Hins t'.
  destruct (eht_insert_bucket t key value a b b' Hwf Hi Ha Hins) as [Hwf' Hhas].
  split; [|done]. split; [done|]. split; [done|]. split; [done|].
  split; [simpl; by rewrite length_insert|].
  intros i a2 b2 Hi2 Hb2. simpl in Hi2, Hb2 |- *.
  destruct (decide (a2 = a)) as [->|Hne].
  - rewrite list_lookup_insert_eq in Hb2 by (by eapply lookup_lt_Some).
    inversion Hb2; subst b2.
    destruct (Hb _ _ _ Hi Ha) as (Hsz & Hlen & Hks).
    pose proof Hwf as (_ & _ & Hslots).
    destruct (Hslots _ _ Hi) as (b0 & Hb0 & _ & _ & _ & Hnd).
    rewrite Ha in Hb0. inversion Hb0; subst b0.
    destruct (eht_Bucket_Insert_ok b key value b' Hnd Hins) as (_ & Hsz' & _ & Hiff).
    split; [congruence|]. split; [by eapply eht_Bucket_Insert_length|].
    intros k v Hin. apply Hiff in Hin as [[-> _]|[_ Hin]]; [done|by eapply Hks].
  - rewrite list_lookup_insert_ne in Hb2 by done. by eapply Hb.
Qed.

(** Insert, with fuel for 30 rounds of the split loop. *)
Lemma eht_Insert_total t key value fuel :
  eht_ok t -> eht_key_ok key -> (30 <= fuel)%nat ->
  exists t',
    EHT.Insert fuel t key value = Some t' /\ eht_ok t' /\
    EHT.bucket_size_ t' = EHT.bucket_size_ t /\
    forall k v, eht_has t' k v <->
      (k = key /\ v = value) \/ (k <> key /\ eht_has t k v).
Proof.
  intros Hok Hkey Hfuel.
  pose proof Hok as (Hwf & Hbs & Hgd & Hnum & Hb).
  destruct (eht_IndexOf t key Hwf) as [Hidx Hlt].
  destruct (lookup_lt_is_Some_2 _ _ Hlt) as [a Hi].
  pose proof Hwf as (_ & _ & Hslots).
  destruct (Hslots _ _ Hi) as (b & Ha & Hd & _).
  unfold EHT.Insert. rewrite Hi. simpl. rewrite Ha. simpl.
  destruct (EHT.Bucket_Insert key value b) as [[|] b'] eqn:Hins.
  - eexists. split; [done|].
    destruct (eht_ok_insert_bucket t key value a b b') as [? ?]; done.
  - assert (Hnot : key ∉ (EHT.list_ b).*1).
    { unfold EHT.Bucket_Insert in Hins.
      destruct (EHT.Bucket_assign key value (EHT.list_ b)) eqn:E; [done|].
      by apply Bucket_assign_None in E. }
    destruct (eht_Insert_loop_total fuel t key a b Hok Hkey Hi Ha Hnot)
      as (t1 & a1 & b1 & Hloop & Hok1 & Hbs1 & Hhas1 & Hi1 & Ha1 & Hnf); [lia|].
    rewrite Hloop. simpl. rewrite Hi1. simpl. rewrite Ha1. simpl.
    eexists. split; [done|].
    pose proof (eht_Bucket_Insert_not_full b1 key value Hnf) as Htrue.
    destruct (EHT.Bucket_Insert key value b1) as [ok b1'] eqn:Hins1.
    simpl in Htrue. subst ok. simpl.
    destruct (eht_ok_insert_bucket t1 key value a1 b1 b1' Hok1 Hkey Hi1 Ha1 Hins1)
      as [Hok' Hhas'].
    split; [done|]. split; [done|].
    intros k v. rewrite Hhas'. by rewrite Hhas1.
Qed.

Lemma eht_Remove_total t key :
  eht_ok t ->
  exists t',
    EHT.Remove t key = Some (bool_decide (is_Some (EHT.Find t key)), t') /\
    eht_ok t' /\ EHT.bucket_size_ t' = EHT.bucket_size_ t /\
    forall k v, eht_has t' k v <-> k <> key /\ eht_has t k v.
Proof.
  intros (Hwf & Hbs & Hgd & Hnum & Hb).
  destruct (eht_Remove_spec t key Hwf) as (t' & Hrm & Hwf' & Hhas).
  exists t'. split; [done|].
  assert (eht_ok t' /\ EHT.bucket_size_ t' = EHT.bucket_size_ t) as [? ?];
    [|done].
  (* the shape of the table after Remove *)
  unfold EHT.Remove in Hrm.
  destruct (EHT.dir_ t !! EHT.IndexOf t key) as [a|] eqn:Hi; [|done].
  simpl in Hrm. destruct (EHT.heap_ t !! a) as [b|] eqn:Ha; [|done].
  simpl in Hrm. unfold EHT.Bucket_Remove in Hrm.
  pose proof Hwf as (_ & _ & Hslots).
  destruct (Hslots _ _ Hi) as (b0 & Hb0 & _ & _ & _ & Hnd).
  rewrite Ha in Hb0. inversion Hb0; subst b0.
  destruct (Hb _ _ _ Hi Ha) as (Hsz & Hlen & Hks).
  destruct (EHT.Bucket_erase key (EHT.list_ b)) as [l|] eqn:E;
    inversion Hrm; subst t'; clear Hrm.
  - destruct (Bucket_erase_Some _ _ _ Hnd E) as (_ & _ & Hiff).
    split; [|done].
    split; [done|]. split; [done|]. split; [done|].
    split; [simpl; by rewrite length_insert|].
    intros i a2 b2 Hi2 Hb2. simpl in Hi2, Hb2 |- *.
    destruct (decide (a2 = a)) as [->|Hne].
    + rewrite list_lookup_insert_eq in Hb2 by (by eapply lookup_lt_Some).
      inversion Hb2; subst b2. simpl. split; [done|]. split.
      * apply Bucket_erase_length in E. lia.
      * intros k v Hin. apply Hiff in Hin as [_ Hin]. by eapply Hks.
    + rewrite list_lookup_insert_ne in Hb2 by done. by eapply Hb.
  - split; [|done].
    split; [done|]. split; [done|]. split; [done|].
    split; [simpl; by rewrite length_insert|].
    intros i a2 b2 Hi2 Hb2. simpl in Hi2, Hb2 |- *.
    rewrite list_insert_id in Hb2 by done. by eapply Hb.
Qed.

(** *** Runs of calls *)

Inductive eht_op :=
| EInsert (key : Z) (value : V)
| ERemove (key : Z).

Definition eht_step (fuel : nat) t (op : eht_op)
  : option (EHT.ExtendibleHashTable V) :=
  match op with
  | EInsert k v => EHT.Insert fuel t k v
  | ERemove k => snd <$> EHT.Remove t k
  end.

Definition eht_run (fuel : nat) t (ops : list eht_op)
  : option (EHT.ExtendibleHashTable V) :=
  foldl (fun ot op => t ← ot; eht_step fuel t op) (Some t) ops.

(** The map that the calls describe. *)
Definition eht_model (ops : list eht_op) : gmap Z V :=
  foldl (fun m op =>
           match op with
           | EInsert k v => <[k := v]> m
           | ERemove k => delete k m
           end) ∅ ops.

Definition eht_keys_ok (ops : list eht_op) : Prop :=
  forall k v, EInsert k v ∈ ops -> eht_key_ok k.

Lemma eht_run_ok bucket_size fuel ops :
  (1 <= bucket_size)%nat -> (30 <= fuel)%nat -> eht_keys_ok ops ->
  exists t,
    eht_run fuel (EHT.create bucket_size) ops = Some t /\ eht_ok t /\
    EHT.bucket_size_ t = bucket_size /\
    forall k v, eht_has t k v <-> eht_model ops !! k = Some v.
Proof.
  intros Hbs Hfuel. induction ops as [|op ops IH] using rev_ind; intros Hks.
  - exists (EHT.create bucket_size). split; [done|].
    split; [by apply eht_ok_create|]. split; [done|].
    intros k v. split; [|done].
    intros H. by apply eht_has_create in H.
  - destruct IH as (t & Hrun & Hok & Hsize & Hhas).
    { intros k v Hin. apply (Hks k v). apply elem_of_app. by left. }
    unfold eht_run, eht_model in *. rewrite !foldl_app. simpl.
    rewrite Hrun. simpl. destruct op as [key value|key]; simpl.
    + destruct (eht_Insert_total t key value fuel Hok)
        as (t' & Hins & Hok' & Hsize' & Hhas'); [|done|].
      { apply (Hks key value). apply elem_of_app. right.
        apply elem_of_cons. by left. }
      exists t'. split; [done|]. split; [done|]. split; [congruence|].
      intros k v. rewrite Hhas', lookup_insert_Some, Hhas.
      split; (intros [[? ?]|[? ?]]; [left|right]); done.
    + destruct (eht_Remove_total t key Hok)
        as (t' & Hrm & Hok' & Hsize' & Hhas').
      rewrite Hrm. simpl. exists t'. split; [done|]. split; [done|].
      split; [congruence|].
      intros k v. rewrite Hhas', lookup_delete_Some, Hhas.
      split; intros [? ?]; done.
Qed.

Lemma eht_Find_model t (m : gmap Z V) :
  eht_wf t -> (forall k v, eht_has t k v <-> m !! k = Some v) ->
  forall k, EHT.Find t k = m !! k.
Proof.
  intros Hwf Hhas k. apply option_eq. intros v.
  by rewrite eht_Find_has, Hhas.
Qed.

End EHTMap.

Arguments eht_op : clear implicits.

(** X10.  The extendible hash table is a finite map.  From an empty table with
    room for at least one pair per bucket, every run of Insert and Remove
    calls with the inserted keys in [0, 2^30) goes through (30 rounds of
    the split loop are enough for an Insert), and afterwards Find returns,
    for every key, the value of the last Insert of that key that no Remove
    followed, and fails for every other key. *)
Theorem eht_refines_map {V : Type} (bucket_size fuel : nat)
    (ops : list (eht_op V)) :
  (1 <= bucket_size)%nat -> (30 <= fuel)%nat -> eht_keys_ok ops ->
  exists t,
    eht_run fuel (EHT.create bucket_size) ops = Some t /\
    forall k, EHT.Find t k = eht_model ops !! k.
Proof.
  intros Hbs Hfuel Hks.
  destruct (eht_run_ok bucket_size fuel ops Hbs Hfuel Hks)
    as (t & Hrun & (Hwf & _) & _ & Hhas).
  exists t. split; [done|]. by apply eht_Find_model.
Qed.

Definition eht_sample_ops : list (eht_op Z) :=
  [EInsert 15 1; EInsert 14 2; EInsert 23 3; EInsert 11 4; EInsert 9 5;
   ERemove 14; EInsert 15 6; ERemove 7].

Lemma eht_sample_keys_ok : eht_keys_ok eht_sample_ops.
Proof.
  intros k v Hin. unfold eht_sample_ops in Hin.
  repeat (apply elem_of_cons in Hin as [Hin|Hin];
          [inversion Hin; subst; unfold eht_key_ok; lia|]).
  by apply elem_of_nil in Hin.
Qed.

Lemma eht_refines_map_witness :
  exists t,
    eht_run 30 (EHT.create 2) eht_sample_ops = Some t /\
    forall k, EHT.Find t k = eht_model eht_sample_ops !! k.
Proof.
  apply (eht_refines_map 2 30 eht_sample_ops); [lia|lia|].
  exact eht_sample_keys_ok.
Defined.

(** X11.  On a table reached by such a run, Remove returns true exactly when
    Find finds the key; afterwards Find fails for the key and is unchanged
    for every other key. *)
Theorem eht_remove_result {V : Type} (bucket_size fuel : nat)
    (ops : list (eht_op V)) (key : Z) :
  (1 <= bucket_size)%nat -> (30 <= fuel)%nat -> eht_keys_ok ops ->
  exists t t',
    eht_run fuel (EHT.create bucket_size) ops = Some t /\
    EHT.Remove t key = Some (bool_decide (is_Some (EHT.Find t key)), t') /\
    forall k, EHT.Find t' k = if decide (k = key) then None else EHT.Find t k.
Proof.
  intros Hbs Hfuel Hks.
  destruct (eht_run_ok bucket_size fuel ops Hbs Hfuel Hks)
    as (t & Hrun & Hok & _ & Hhas).
  destruct (eht_Remove_total t key Hok) as (t' & Hrm & (Hwf' & _) & _ & Hhas').
  exists t, t'. split; [done|]. split; [done|].
  destruct Hok as (Hwf & _).
  intros k. apply option_eq. intros v. rewrite eht_Find_has, Hhas' by done.
  destruct (decide (k = key)) as [->|Hne].
  - split; [by intros [? _]|done].
  - rewrite eht_Find_has by done. tauto.
Qed.

Lemma eht_remove_result_witness :
  exists t t',
    eht_run 30 (EHT.create 2) eht_sample_ops = Some t /\
    EHT.Remove t 23 = Some (bool_decide (is_Some (EHT.Find t 23)), t') /\
    forall k, EHT.Find t' k = if decide (k = 23) then None else EHT.Find t k.
Proof.
  apply (eht_remove_result 2 30 eht_sample_ops 23); [lia|lia|].
  exact eht_sample_keys_ok.
Defined.

(** X12.  The shape of a table reached by such a run: the global depth is at
    most 30 and the directory has 2^global-depth slots; GetNumBuckets is
    the number of buckets made; every slot points to a bucket whose local
    depth is at most the global depth, which holds at most bucket-size
    pairs and which is shared by exactly the slots that agree with the slot
    on the low local-depth bits. *)
Theorem eht_directory_shape {V : Type} (bucket_size fuel : nat)
    (ops : list (eht_op V)) :
  (1 <= bucket_size)%nat -> (30 <= fuel)%nat -> eht_keys_ok ops ->
  exists t,
    eht_run fuel (EHT.create bucket_size) ops = Some t /\
    0 <= EHT.GetGlobalDepth t <= 30 /\
    Z.of_nat (length (EHT.dir_ t)) = 2 ^ EHT.GetGlobalDepth t /\
    EHT.GetNumBuckets t = Z.of_nat (length (EHT.heap_ t)) /\
    forall i, (i < length (EHT.dir_ t))%nat ->
      exists a b,
        EHT.dir_ t !! i = Some a /\ EHT.heap_ t !! a = Some b /\
        EHT.GetLocalDepth t i = Some (EHT.depth_ b) /\
        0 <= EHT.depth_ b <= EHT.GetGlobalDepth t /\
        (length (EHT.list_ b) <= bucket_size)%nat /\
        forall j, (j < length (EHT.dir_ t))%nat ->
          (EHT.dir_ t !! j = Some a <->
           Z.of_nat j mod 2 ^ EHT.depth_ b = Z.of_nat i mod 2 ^ EHT.depth_ b).
Proof.
  intros Hbs Hfuel Hks.
  destruct (eht_run_ok bucket_size fuel ops Hbs Hfuel Hks)
    as (t & Hrun & Hok & Hsize & _).
  exists t. split; [done|].
  destruct Hok as ((Hg & Hlen & Hslots) & _ & Hgd & Hnum & Hb).
  unfold EHT.GetGlobalDepth, EHT.GetNumBuckets.
  split; [lia|]. split; [done|]. split; [done|].
  intros i Hi. destruct (lookup_lt_is_Some_2 _ _ Hi) as [a Ha].
  destruct (Hslots _ _ Ha) as (b & Hhb & Hd & Hsame & _).
  destruct (Hb _ _ _ Ha Hhb) as (Hsz & Hl & _).
  exists a, b. split; [done|]. split; [done|].
  split; [unfold EHT.GetLocalDepth, EHT.bucket_at; rewrite Ha; simpl;
          by rewrite Hhb|].
  split; [done|]. split; [lia|].
  intros j Hj. destruct (lookup_lt_is_Some_2 _ _ Hj) as [a' Ha'].
  rewrite Ha'. rewrite <- (Hsame _ _ Ha'). split; congruence.
Qed.

Lemma eht_directory_shape_witness :
  exists t,
    eht_run 30 (EHT.create 2) eht_sample_ops = Some t /\
    0 <= EHT.GetGlobalDepth t <= 30 /\
    Z.of_nat (length (EHT.dir_ t)) = 2 ^ EHT.GetGlobalDepth t /\
    EHT.GetNumBuckets t = Z.of_nat (length (EHT.heap_ t)) /\
    forall i, (i < length (EHT.dir_ t))%nat ->
      exists a b,
        EHT.dir_ t !! i = Some a /\ EHT.heap_ t !! a = Some b /\
        EHT.GetLocalDepth t i = Some (EHT.depth_ b) /\
        0 <= EHT.depth_ b <= EHT.GetGlobalDepth t /\
        (length (EHT.list_ b) <= 2)%nat /\
        forall j, (j < length (EHT.dir_ t))%nat ->
          (EHT.dir_ t !! j = Some a <->
           Z.of_nat j mod 2 ^ EHT.depth_ b = Z.of_nat i mod 2 ^ EHT.depth_ b).
Proof.
  apply (eht_directory_shape 2 30 eht_sample_ops); [lia|lia|].
  exact eht_sample_keys_ok.
Defined.

(** ** Nested loop join *)

Section NLJProofs.
Variable join_type : NLJ.JoinType.
Variable predicate : Exec.Tuple -> Exec.Tuple -> Exec.CmpBool.
Variable left_columns : nat.
Variable right_schema : list Exec.TypeId.

(** The rows of one left tuple: in an inner join, the tuple with each right
    tuple on which the predicate is true, in the order of the right child;
    in a left join the same, or the tuple padded with NULLs when there is
    none. *)
Definition nlj_inner_rows (right : list Exec.Tuple) (l : Exec.Tuple)
  : list Exec.Tuple :=
  (fun r => l ++ r) <$> filter (fun r => predicate l r = Exec.CmpTrue) right.

Definition nlj_left_rows (right : list Exec.Tuple) (l : Exec.Tuple)
  : list Exec.Tuple :=
  match nlj_inner_rows right l with
  | [] => [l ++ (Exec.VNull <$> right_schema)]
  | rows => rows
  end.

Definition nlj_rows (right : list Exec.Tuple) (l : Exec.Tuple)
  : list Exec.Tuple :=
  if bool_decide (join_type = NLJ.INNER) then nlj_inner_rows right l
  else nlj_left_rows right l.

Definition nlj_join (left right : list Exec.Tuple) : list Exec.Tuple :=
  concat (nlj_rows right <$> left).

Lemma nlj_columns_app (pre t : Exec.Tuple) :
  mapM (fun k => (pre ++ t) !! k) (seq (length pre) (length t)) = Some t.
Proof.
  revert pre. induction t as [|x t IH]; intros pre; [done|].
  simpl. rewrite lookup_app_r, Nat.sub_diag by done. simpl.
  specialize (IH (pre ++ [x])). rewrite length_app, <- app_assoc in IH.
  simpl in IH. rewrite Nat.add_1_r in IH. by rewrite IH.
Qed.

Lemma nlj_columns_all (t : Exec.Tuple) n :
  length t = n -> NLJ.columns t n = Some t.
Proof. intros <-. exact (nlj_columns_app [] t). Qed.

Lemma nlj_joined (l r : Exec.Tuple) :
  length l = left_columns -> length r = length right_schema ->
  NLJ.joined left_columns right_schema l r = Some (l ++ r).
Proof.
  intros Hl Hr. unfold NLJ.joined.
  by rewrite (nlj_columns_all l), (nlj_columns_all r).
Qed.

Lemma nlj_null_padded (l : Exec.Tuple) :
  length l = left_columns ->
  NLJ.null_padded left_columns right_schema l
  = Some (l ++ (Exec.VNull <$> right_schema)).
Proof. intros Hl. unfold NLJ.null_padded. by rewrite (nlj_columns_all l). Qed.

Lemma nlj_inner_rows_cons (right : list Exec.Tuple) (l r : Exec.Tuple) :
  nlj_inner_rows (r :: right) l
  = if NLJ.matches predicate l r then (l ++ r) :: nlj_inner_rows right l
    else nlj_inner_rows right l.
Proof.
  unfold nlj_inner_rows, NLJ.matches. case_bool_decide as Hm.
  - by rewrite filter_cons_True.
  - by rewrite filter_cons_False.
Qed.

(** The scan of the right tuples from [j] on: it stops after the first
    match, or at the end. *)
Lemma nlj_match_loop (l : Exec.Tuple) (rest : list Exec.Tuple) j :
  length l = left_columns ->
  Forall (fun r => length r = length right_schema) rest ->
  (nlj_inner_rows rest l = [] ->
   NLJ.match_loop predicate left_columns right_schema l rest j
   = Some ((j + length rest)%nat, None)) /\
  (forall row rows, nlj_inner_rows rest l = row :: rows ->
   exists k, (k < length rest)%nat /\
     NLJ.match_loop predicate left_columns right_schema l rest j
     = Some (S (j + k), Some row) /\
     nlj_inner_rows (drop (S k) rest) l = rows).
Proof.
  intros Hl. revert j. induction rest as [|r rest IH]; intros j Hr.
  - split; [|done]. intros _. simpl. by rewrite Nat.add_0_r.
  - apply Forall_cons in Hr as [Hr Hrest].
    rewrite nlj_inner_rows_cons. simpl.
    destruct (IH (S j) Hrest) as [IH1 IH2].
    destruct (NLJ.matches predicate l r) eqn:Hm.
    + split; [done|]. intros row rows E. injection E as <- <-.
      exists 0%nat. rewrite nlj_joined by done. simpl.
      rewrite Nat.add_0_r. split; [lia|]. done.
    + split.
      * intros E. rewrite (IH1 E). f_equal. f_equal. lia.
      * intros row rows E. destruct (IH2 row rows E) as (k & Hk & -> & Hrows).
        exists (S k). split; [lia|]. split; [|done]. f_equal. f_equal. lia.
Qed.

(** What the executor has still to return: the rest of the rows of the
    current left tuple, then the rows of the left tuples to come. *)
Definition nlj_pending (s : NLJ.NestedLoopJoinExecutor) : list Exec.Tuple :=
  nlj_inner_rows (drop (NLJ.j_ s) (NLJ.right_tuples_ s)) (NLJ.left_tuple_ s)
  ++ nlj_join (NLJ.left_executor_ s) (NLJ.right_tuples_ s).

Definition nlj_inv (s : NLJ.NestedLoopJoinExecutor) : Prop :=
  (NLJ.j_ s <= length (NLJ.right_tuples_ s))%nat /\
  (NLJ.j_ s = length (NLJ.right_tuples_ s) \/
   (1 <= NLJ.j_ s)%nat /\ length (NLJ.left_tuple_ s) = left_columns) /\
  Forall (fun l => length l = left_columns) (NLJ.left_executor_ s) /\
  Forall (fun r => length r = length right_schema) (NLJ.right_tuples_ s).

(** One scan for the left tuple [l] from slot [j]. *)
Lemma nlj_scan (l : Exec.Tuple) (L R : list Exec.Tuple) j :
  length l = left_columns ->
  Forall (fun r => length r = length right_schema) R ->
  Forall (fun l => length l = left_columns) L ->
  (j <= length R)%nat ->
  (nlj_inner_rows (drop j R) l = [] /\
   NLJ.match_loop predicate left_columns right_schema l (drop j R) j
   = Some (length R, None)) \/
  (exists row rows j',
     nlj_inner_rows (drop j R) l = row :: rows /\
     NLJ.match_loop predicate left_columns right_schema l (drop j R) j
     = Some (j', Some row) /\
     nlj_inv (NLJ.mkNLJ L l R j') /\
     nlj_inner_rows (drop j' R) l = rows).
Proof.
  intros Hl HR HL Hj.
  destruct (nlj_match_loop l (drop j R) j Hl) as [H1 H2];
    [by apply Forall_drop|].
  destruct (nlj_inner_rows (drop j R) l) as [|row rows] eqn:E.
  - left. split; [done|]. rewrite H1 by done. rewrite length_drop.
    f_equal. f_equal. lia.
  - right. destruct (H2 row rows eq_refl) as (k & Hk & Hm & Hrows).
    rewrite length_drop in Hk. rewrite drop_drop in Hrows.
    exists row, rows, (S (j + k)). split; [done|]. split; [done|].
    split; [|by rewrite <- Hrows, Nat.add_succ_r].
    split; [simpl; unfold Exec.Tuple in *; lia|].
    split; [right; simpl; split; [lia|done]|done].
Qed.

Lemma nlj_rows_None (R : list Exec.Tuple) (t : Exec.Tuple) :
  nlj_inner_rows R t = [] ->
  nlj_rows R t = if bool_decide (join_type = NLJ.INNER) then []
                 else [t ++ (Exec.VNull <$> right_schema)].
Proof.
  intros E. unfold nlj_rows, nlj_left_rows. rewrite E. done.
Qed.

Lemma nlj_rows_Some (R : list Exec.Tuple) (t : Exec.Tuple) row rows :
  nlj_inner_rows R t = row :: rows -> nlj_rows R t = row :: rows.
Proof.
  intros E. unfold nlj_rows, nlj_left_rows. rewrite E.
  by destruct (bool_decide _).
Qed.

(** [Next] from a state where the rows of the current left tuple are out. *)
Lemma nlj_Next_loop_end (L : list Exec.Tuple) :
  forall fuel (l : Exec.Tuple) (R : list Exec.Tuple),
    Forall (fun l => length l = left_columns) L ->
    Forall (fun r => length r = length right_schema) R ->
    (length L < fuel)%nat ->
    let s := NLJ.mkNLJ L l R (length R) in
    exists s',
      NLJ.Next_loop join_type predicate left_columns right_schema fuel s
      = Some (s', head (nlj_join L R)) /\
      nlj_inv s' /\ nlj_pending s' = tail (nlj_join L R).
Proof.
  induction L as [|t L IH]; intros fuel l R HL HR Hfuel s;
    (destruct fuel as [|fuel]; [simpl in Hfuel; lia|]).
  - exists s. simpl. unfold NLJ.advance. simpl. rewrite Nat.eqb_refl.
    split; [done|]. split.
    + split; [done|]. split; [by left|done].
    + unfold nlj_pending. simpl. rewrite drop_all. done.
  - apply Forall_cons in HL as [Ht HL].
    cbn [NLJ.Next_loop]. unfold NLJ.advance. simpl.
    rewrite Nat.eqb_refl. simpl. rewrite drop_0.
    unfold nlj_join. simpl. fold (nlj_join L R).
    destruct (nlj_scan t L R 0 Ht HR HL ltac:(lia))
      as [[E Hm]|(row & rows & j' & E & Hm & Hinv & Hrows)];
      rewrite drop_0 in E, Hm; rewrite Hm; simpl.
    + rewrite (nlj_rows_None _ _ E).
      destruct (IH fuel t R HL HR ltac:(simpl in Hfuel; lia))
        as (s' & Hs' & Hinv' & Hp').
      destruct (bool_decide (join_type = NLJ.INNER)); simpl.
      * by exists s'.
      * rewrite Nat.eqb_refl. simpl. rewrite nlj_null_padded by done. simpl.
        eexists. split; [done|]. split.
        -- split; [done|]. split; [by left|done].
        -- unfold nlj_pending. simpl. by rewrite drop_all.
    + rewrite (nlj_rows_Some _ _ _ _ E). simpl.
      eexists. split; [done|]. split; [done|].
      unfold nlj_pending.
      cbn [NLJ.j_ NLJ.right_tuples_ NLJ.left_tuple_ NLJ.left_executor_ tail].
      f_equal; exact Hrows.
Qed.

Lemma nlj_Next s :
  nlj_inv s ->
  exists s',
    NLJ.Next join_type predicate left_columns right_schema s
    = Some (s', head (nlj_pending s)) /\
    nlj_inv s' /\ nlj_pending s' = tail (nlj_pending s).
Proof.
  intros (Hj & Hcur & HL & HR). destruct s as [L l R j]. simpl in *.
  unfold NLJ.Next. simpl NLJ.left_executor_.
  change (2 + length L)%nat with (S (S (length L))).
  destruct (decide (j = length R)) as [->|Hne].
  - destruct (nlj_Next_loop_end L (S (S (length L))) l R HL HR
                (Nat.lt_lt_succ_r _ _ (Nat.lt_succ_diag_r _)))
      as (s' & Hs' & Hinv' & Hp').
    exists s'. unfold nlj_pending. simpl. rewrite drop_all. simpl.
    done.
  - destruct Hcur as [?|[Hj1 Hl]]; [done|].
    remember (S (length L)) as fuel eqn:Hfuel.
    cbn [NLJ.Next_loop]. unfold NLJ.advance.
    cbn [NLJ.j_ NLJ.right_tuples_ NLJ.left_tuple_ NLJ.left_executor_].
    rewrite (proj2 (Nat.eqb_neq _ _) Hne).
    unfold nlj_pending.
    cbn [NLJ.j_ NLJ.right_tuples_ NLJ.left_tuple_ NLJ.left_executor_].
    destruct (nlj_scan l L R j Hl HR HL Hj)
      as [[E Hm]|(row & rows & j' & E & Hm & Hinv & Hrows)];
      rewrite Hm, E; cbn [mbind option_bind].
    + assert (Hlt : (length L < fuel)%nat) by (subst fuel; apply Nat.lt_succ_diag_r).
      destruct (nlj_Next_loop_end L fuel l R HL HR Hlt)
        as (s' & Hs' & Hinv' & Hp').
      assert (Hstart : (j =? 0)%nat = false) by (apply Nat.eqb_neq; lia).
      rewrite Hstart. cbn [andb app].
      exists s'. split; [|done].
      by destruct (bool_decide (join_type = NLJ.INNER)).
    + eexists. split; [done|]. split; [done|].
      unfold nlj_pending.
      cbn [NLJ.j_ NLJ.right_tuples_ NLJ.left_tuple_ NLJ.left_executor_ tail app].
      f_equal; exact Hrows.
Qed.

Lemma nlj_pull fuel :
  forall s, nlj_inv s -> (length (nlj_pending s) < fuel)%nat ->
    NLJ.pull join_type predicate left_columns right_schema fuel s
    = Some (nlj_pending s).
Proof.
  induction fuel as [|fuel IH]; intros s Hinv Hfuel; [lia|].
  destruct (nlj_Next s Hinv) as (s' & Hnext & Hinv' & Hp').
  simpl. rewrite Hnext. simpl.
  destruct (nlj_pending s) as [|row rows] eqn:E; simpl in *; [done|].
  rewrite IH; [by rewrite Hp'|done|rewrite Hp'; lia].
Qed.

Lemma nlj_execute fuel (left right : list Exec.Tuple) :
  Forall (fun l => length l = left_columns) left ->
  Forall (fun r => length r = length right_schema) right ->
  (length (nlj_join left right) < fuel)%nat ->
  NLJ.execute join_type predicate left_columns right_schema fuel left right
  = Some (nlj_join left right).
Proof.
  intros HL HR Hfuel. unfold NLJ.execute.
  rewrite nlj_pull.
  - unfold nlj_pending, NLJ.Init. simpl. by rewrite drop_all.
  - split; [done|]. split; [by left|done].
  - unfold nlj_pending, NLJ.Init. simpl. by rewrite drop_all.
Qed.

End NLJProofs.

Lemma nlj_join_length jt p rs (left right : list Exec.Tuple) :
  (length (nlj_join jt p rs left right) <= length left * S (length right))%nat.
Proof.
  assert (Hrow : forall l,
    (length (nlj_rows jt p rs right l) <= S (length right))%nat).
  { intros l.
    assert (Hin : (length (nlj_inner_rows p right l) <= length right)%nat).
    { unfold nlj_inner_rows. rewrite length_fmap. apply length_filter. }
    unfold nlj_rows, nlj_left_rows.
    destruct (bool_decide _); [lia|].
    destruct (nlj_inner_rows p right l); simpl in *; lia. }
  induction left as [|l left IH]; [done|].
  change (nlj_join jt p rs (l :: left) right)
    with (nlj_rows jt p rs right l ++ nlj_join jt p rs left right).
  rewrite length_app. specialize (Hrow l).
  change (length (l :: left)) with (S (length left)).
  unfold Exec.Tuple in *. lia.
Qed.

(** X13. Inner join: pulling the executor until [Next] returns false gives,
    for each tuple of the left child in order, the tuple followed by each
    tuple of the right child on which the predicate evaluates to true (not
    false, not NULL), in the order of the right child; left tuples without
    a match give no row.  The tuples have the column counts of the
    children's schemas, and the fuel covers the rows. *)
Theorem nlj_inner_join
  (predicate : Exec.Tuple -> Exec.Tuple -> Exec.CmpBool)
  (left_columns : nat) (right_schema : list Exec.TypeId)
  (fuel : nat) (left right : list Exec.Tuple) :
  Forall (fun l => length l = left_columns) left ->
  Forall (fun r => length r = length right_schema) right ->
  (length left * S (length right) < fuel)%nat ->
  NLJ.execute NLJ.INNER predicate left_columns right_schema fuel left right
  = Some (concat ((fun l =>
            (fun r => l ++ r) <$>
              filter (fun r => predicate l r = Exec.CmpTrue) right) <$> left)).
Proof.
  intros HL HR Hfuel.
  rewrite (nlj_execute NLJ.INNER predicate left_columns right_schema);
    [done|done|done|].
  pose proof (nlj_join_length NLJ.INNER predicate right_schema left right).
  lia.
Qed.

(** X14. Left join: as the inner join, but a left tuple on which the
    predicate is true for no right tuple (also when the right child is
    empty) gives one row: the tuple followed by a NULL of each right
    column's type.  No left tuple is lost and none gets a NULL row beside a
    matching one. *)
Theorem nlj_left_join
  (predicate : Exec.Tuple -> Exec.Tuple -> Exec.CmpBool)
  (left_columns : nat) (right_schema : list Exec.TypeId)
  (fuel : nat) (left right : list Exec.Tuple) :
  Forall (fun l => length l = left_columns) left ->
  Forall (fun r => length r = length right_schema) right ->
  (length left * S (length right) < fuel)%nat ->
  NLJ.execute NLJ.LEFT predicate left_columns right_schema fuel left right
  = Some (concat ((fun l =>
            match filter (fun r => predicate l r = Exec.CmpTrue) right with
            | [] => [l ++ (Exec.VNull <$> right_schema)]
            | rs => (fun r => l ++ r) <$> rs
            end) <$> left)).
Proof.
  intros HL HR Hfuel.
  rewrite (nlj_execute NLJ.LEFT predicate left_columns right_schema);
    [|done|done|].
  - f_equal. unfold nlj_join. f_equal. apply list_fmap_ext.
    intros _ l _. unfold nlj_rows, nlj_left_rows, nlj_inner_rows. simpl.
    by destruct (filter _ right).
  - pose proof (nlj_join_length NLJ.LEFT predicate right_schema left right).
    lia.
Qed.

(** A join on equal first columns, where a NULL makes the comparison NULL. *)
Definition nlj_sample_predicate (l r : Exec.Tuple) : Exec.CmpBool :=
  match l, r with
  | Exec.VInteger a :: _, Exec.VInteger b :: _ =>
      if a =? b then Exec.CmpTrue else Exec.CmpFalse
  | _, _ => Exec.CmpNull
  end.

Definition nlj_sample_left : list Exec.Tuple :=
  [[Exec.VInteger 1; Exec.VInteger 10]; [Exec.VInteger 2; Exec.VInteger 20];
   [Exec.VNull 4; Exec.VInteger 30]; [Exec.VInteger 1; Exec.VInteger 40]].

Definition nlj_sample_right : list Exec.Tuple :=
  [[Exec.VInteger 1]; [Exec.VInteger 3]; [Exec.VInteger 1]; [Exec.VNull 4]].

Lemma nlj_inner_join_witness :
  NLJ.execute NLJ.INNER nlj_sample_predicate 2 [4] 21
    nlj_sample_left nlj_sample_right
  = Some [[Exec.VInteger 1; Exec.VInteger 10; Exec.VInteger 1];
          [Exec.VInteger 1; Exec.VInteger 10; Exec.VInteger 1];
          [Exec.VInteger 1; Exec.VInteger 40; Exec.VInteger 1];
          [Exec.VInteger 1; Exec.VInteger 40; Exec.VInteger 1]].
Proof.
  rewrite (nlj_inner_join nlj_sample_predicate 2 [4] 21
             nlj_sample_left nlj_sample_right).
  - reflexivity.
  - repeat constructor.
  - repeat constructor.
  - vm_compute. lia.
Defined.

Lemma nlj_left_join_witness :
  NLJ.execute NLJ.LEFT nlj_sample_predicate 2 [4] 21
    nlj_sample_left nlj_sample_right
  = Some [[Exec.VInteger 1; Exec.VInteger 10; Exec.VInteger 1];
          [Exec.VInteger 1; Exec.VInteger 10; Exec.VInteger 1];
          [Exec.VInteger 2; Exec.VInteger 20; Exec.VNull 4];
          [Exec.VNull 4; Exec.VInteger 30; Exec.VNull 4];
          [Exec.VInteger 1; Exec.VInteger 40; Exec.VInteger 1];
          [Exec.VInteger 1; Exec.VInteger 40; Exec.VInteger 1]].
Proof.
  rewrite (nlj_left_join nlj_sample_predicate 2 [4] 21
             nlj_sample_left nlj_sample_right).
  - reflexivity.
  - repeat constructor.
  - repeat constructor.
  - vm_compute. lia.
Defined.

(** ** Buffer pool manager: the frames, the page table, the replacer and
    the free list agree *)

Lemma eht_has_fun {V : Type} (t : EHT.ExtendibleHashTable V) k (v v' : V) :
  eht_wf t -> eht_has t k v -> eht_has t k v' -> v = v'.
Proof.
  intros Hwf H1 H2.
  apply (eht_Find_has _ _ _ Hwf) in H1. apply (eht_Find_has _ _ _ Hwf) in H2.
  congruence.
Qed.

(** A frame of the free list holds no page, is unpinned and clean, and the
    replacer has no history of it. *)
Definition bpm_free_frame (b : BPM.BufferPoolManagerInstance) (f : Z) : Prop :=
  0 <= f < Z.of_nat (BPM.pool_size_ b) /\
  BPM.page_at b f = Some (BPM.mkPage 0 0 false 0) /\
  LRUK.replacer_ (BPM.replacer_ b) !! Z.to_nat f = Some ([], false) /\
  forall pid, ~ eht_has (BPM.page_table_ b) pid f.

(** A frame the page table gives for [pid] holds that page; it is evictable
    in the replacer exactly when its pin count is 0. *)
Definition bpm_resident (n : Z) (b : BPM.BufferPoolManagerInstance) (pid f : Z)
  : Prop :=
  0 <= pid < BPM.next_page_id_ b /\
  0 <= f < Z.of_nat (BPM.pool_size_ b) /\
  exists pg h,
    BPM.page_at b f = Some pg /\ BPM.page_id_ pg = pid /\
    0 <= BPM.pin_count_ pg <= n /\ h <> [] /\
    LRUK.replacer_ (BPM.replacer_ b) !! Z.to_nat f
    = Some (h, bool_decide (BPM.pin_count_ pg = 0)).

(** The invariant of the pool after at most [n] calls. *)
Record bpm_inv (n : Z) (b : BPM.BufferPoolManagerInstance) : Prop := mk_bpm_inv {
  inv_pages : length (BPM.pages_ b) = BPM.pool_size_ b;
  inv_frames : length (LRUK.replacer_ (BPM.replacer_ b)) = BPM.pool_size_ b;
  inv_table : eht_ok (BPM.page_table_ b);
  inv_replacer : lruk_inv n (BPM.replacer_ b);
  inv_next : 0 <= BPM.next_page_id_ b <= n;
  inv_free_nodup : NoDup (BPM.free_list_ b);
  inv_free : forall f, f ∈ BPM.free_list_ b -> bpm_free_frame b f;
  inv_resident : forall pid f,
    eht_has (BPM.page_table_ b) pid f -> bpm_resident n b pid f;
  inv_cover : forall f, 0 <= f < Z.of_nat (BPM.pool_size_ b) ->
    f ∈ BPM.free_list_ b \/ exists pid, eht_has (BPM.page_table_ b) pid f
}.

Lemma bpm_to_nat_ne (f g : Z) : 0 <= f -> 0 <= g -> g <> f -> Z.to_nat f <> Z.to_nat g.
Proof. lia. Qed.

Lemma bpm_inv_create (pool_size : nat) disk k :
  1 <= k -> Z.of_nat pool_size < 2 ^ 31 ->
  bpm_inv 0 (BPM.create pool_size disk k).
Proof.
  intros Hk Hp. split; simpl.
  - apply length_replicate.
  - apply length_replicate.
  - apply eht_ok_create. unfold BPM.bucket_size_. lia.
  - apply lruk_inv_create; [done|].
    assert (2 ^ 31 < 2 ^ 64) by (apply Z.pow_lt_mono_r; lia). lia.
  - lia.
  - apply NoDup_fmap; [intros x y; lia|]. apply NoDup_seq.
  - intros f Hf. apply list_elem_of_fmap in Hf as (i & -> & Hi).
    apply elem_of_seq in Hi. unfold bpm_free_frame, BPM.page_at. simpl.
    rewrite Nat2Z.id.
    split; [lia|]. split; [apply lookup_replicate_2; lia|].
    split; [apply lookup_replicate_2; lia|].
    intros pid. apply eht_has_create.
  - intros pid f Hh. by apply eht_has_create in Hh.
  - intros f Hf. left. apply list_elem_of_fmap. exists (Z.to_nat f).
    split; [lia|]. apply elem_of_seq. lia.
Qed.

(** Frame [f] takes page [pid']: from the free list, from an evicted page,
    or keeping the page it has. *)
Lemma bpm_inv_install n n' b b' f pid' pg' h' :
  bpm_inv n b -> n <= n' ->
  BPM.pool_size_ b' = BPM.pool_size_ b ->
  BPM.next_page_id_ b <= BPM.next_page_id_ b' <= n' ->
  0 <= f < Z.of_nat (BPM.pool_size_ b) ->
  BPM.pages_ b' = <[Z.to_nat f := pg']> (BPM.pages_ b) ->
  lruk_inv n' (BPM.replacer_ b') ->
  LRUK.replacer_ (BPM.replacer_ b')
  = <[Z.to_nat f := (h', bool_decide (BPM.pin_count_ pg' = 0))]>
      (LRUK.replacer_ (BPM.replacer_ b)) ->
  h' <> [] -> BPM.page_id_ pg' = pid' -> 0 <= BPM.pin_count_ pg' <= n' ->
  0 <= pid' < BPM.next_page_id_ b' ->
  eht_ok (BPM.page_table_ b') ->
  (forall k v, eht_has (BPM.page_table_ b') k v <->
     (k = pid' /\ v = f) \/ (eht_has (BPM.page_table_ b) k v /\ v <> f)) ->
  NoDup (BPM.free_list_ b') ->
  (forall g, g ∈ BPM.free_list_ b' <-> g ∈ BPM.free_list_ b /\ g <> f) ->
  bpm_inv n' b'.
Proof.
  intros Hinv Hn Hpool Hnext Hf Hpages Hrepl Hlist Hh' Hpid' Hpin Hpidr Htab
    Hhas Hnd Hfree.
  destruct Hinv as [Ip If It Ir In Ind Ifr Ires Icov].
  split.
  - by rewrite Hpages, length_insert, Hpool.
  - by rewrite Hlist, length_insert, Hpool.
  - done.
  - done.
  - lia.
  - done.
  - intros g Hg. apply Hfree in Hg as [Hg Hne].
    destruct (Ifr g Hg) as (Hr & Hpg & Hl & Hno).
    unfold bpm_free_frame, BPM.page_at in *. rewrite Hpool, Hpages, Hlist.
    split; [done|].
    rewrite !list_lookup_insert_ne by (apply bpm_to_nat_ne; lia).
    split; [done|]. split; [done|].
    intros pid Hp. apply Hhas in Hp as [[_ ->]|[Hp _]]; [done|].
    by apply (Hno pid).
  - intros pid g Hp. apply Hhas in Hp as [[-> ->]|[Hp Hne]].
    + unfold bpm_resident, BPM.page_at. rewrite Hpool, Hpages, Hlist.
      split; [done|]. split; [done|]. exists pg', h'.
      rewrite !list_lookup_insert_eq by lia. done.
    + destruct (Ires pid g Hp) as (Hr & Hg & pg & h & Hpg & Hid & Hpn & Hh & Hl).
      unfold bpm_resident, BPM.page_at in *. rewrite Hpool, Hpages, Hlist.
      split; [lia|]. split; [done|]. exists pg, h.
      rewrite !list_lookup_insert_ne by (apply bpm_to_nat_ne; lia).
      split; [done|]. split; [done|]. split; [lia|]. done.
  - intros g Hg. rewrite Hpool in Hg. destruct (decide (g = f)) as [->|Hne].
    + right. exists pid'. apply Hhas. by left.
    + destruct (Icov g Hg) as [Hin|[pid Hp]].
      * left. by apply Hfree.
      * right. exists pid. apply Hhas. by right.
Qed.

(** Frame [f] gives up its page and goes to the end of the free list. *)
Lemma bpm_inv_release n b b' f :
  bpm_inv n b ->
  BPM.pool_size_ b' = BPM.pool_size_ b ->
  BPM.next_page_id_ b' = BPM.next_page_id_ b ->
  0 <= f < Z.of_nat (BPM.pool_size_ b) ->
  f ∉ BPM.free_list_ b ->
  BPM.pages_ b' = <[Z.to_nat f := BPM.mkPage 0 0 false 0]> (BPM.pages_ b) ->
  lruk_inv n (BPM.replacer_ b') ->
  LRUK.replacer_ (BPM.replacer_ b')
  = <[Z.to_nat f := ([], false)]> (LRUK.replacer_ (BPM.replacer_ b)) ->
  eht_ok (BPM.page_table_ b') ->
  (forall k v, eht_has (BPM.page_table_ b') k v <->
     eht_has (BPM.page_table_ b) k v /\ v <> f) ->
  BPM.free_list_ b' = BPM.free_list_ b ++ [f] ->
  bpm_inv n b'.
Proof.
  intros Hinv Hpool Hnext Hf Hnin Hpages Hrepl Hlist Htab Hhas Hfree.
  destruct Hinv as [Ip If It Ir In Ind Ifr Ires Icov].
  split.
  - by rewrite Hpages, length_insert, Hpool.
  - by rewrite Hlist, length_insert, Hpool.
  - done.
  - done.
  - lia.
  - rewrite Hfree. apply NoDup_app. split; [done|]. split.
    + intros x Hx Hx'. apply list_elem_of_singleton in Hx'. by subst.
    + apply NoDup_singleton.
  - intros g Hg. rewrite Hfree in Hg. apply elem_of_app in Hg as [Hg|Hg].
    + assert (Hne : g <> f) by (by intros ->).
      destruct (Ifr g Hg) as (Hr & Hpg & Hl & Hno).
      unfold bpm_free_frame, BPM.page_at in *. rewrite Hpool, Hpages, Hlist.
      split; [done|].
      rewrite !list_lookup_insert_ne by (apply bpm_to_nat_ne; lia).
      split; [done|]. split; [done|].
      intros pid Hp. apply Hhas in Hp as [Hp _]. by apply (Hno pid).
    + apply list_elem_of_singleton in Hg as ->.
      unfold bpm_free_frame, BPM.page_at. rewrite Hpool, Hpages, Hlist.
      split; [done|]. rewrite !list_lookup_insert_eq by lia.
      split; [done|]. split; [done|].
      intros pid Hp. apply Hhas in Hp as [_ Hp]. done.
  - intros pid g Hp. apply Hhas in Hp as [Hp Hne].
    destruct (Ires pid g Hp) as (Hr & Hg & pg & h & Hpg & Hid & Hpn & Hh & Hl).
    unfold bpm_resident, BPM.page_at in *.
    rewrite Hpool, Hpages, Hlist, Hnext.
    split; [lia|]. split; [done|]. exists pg, h.
    rewrite !list_lookup_insert_ne by (apply bpm_to_nat_ne; lia). done.
  - intros g Hg. rewrite Hpool in Hg. rewrite Hfree.
    destruct (decide (g = f)) as [->|Hne].
    + left. apply elem_of_app. right. by apply list_elem_of_singleton.
    + destruct (Icov g Hg) as [Hin|[pid Hp]].
      * left. apply elem_of_app. by left.
      * right. exists pid. apply Hhas. done.
Qed.

Ltac bpm_simpl :=
  unfold BPM.page_at, BPM.set_page, BPM.set_table, BPM.set_replacer,
    BPM.set_free_list, BPM.set_disk, BPM.AllocatePage in *;
  cbn [BPM.pool_size_ BPM.next_page_id_ BPM.pages_ BPM.page_table_
       BPM.replacer_ BPM.free_list_ BPM.disk_manager_ BPM.page_id_
       BPM.pin_count_ BPM.is_dirty_ BPM.data_ mbind option_bind fst snd negb]
    in *.

Lemma bpm_set_replacer_id b : BPM.set_replacer b (BPM.replacer_ b) = b.
Proof. by destruct b. Qed.

(** [RecordAccess] then [SetEvictable(false)] on a frame of the pool. *)
Lemma bpm_touch n b f :
  lruk_inv n (BPM.replacer_ b) -> n < LRUK.INT64_MAX -> 0 <= f ->
  (Z.to_nat f < length (LRUK.replacer_ (BPM.replacer_ b)))%nat ->
  exists r h,
    BPM.touch b f = Some (BPM.set_replacer b r) /\
    lruk_inv (n + 1) r /\ h <> [] /\
    LRUK.replacer_ r
    = <[Z.to_nat f := (h, false)]> (LRUK.replacer_ (BPM.replacer_ b)).
Proof.
  intros Hinv Hn Hf Hlt. unfold BPM.touch.
  pose proof Hinv as (_ & _ & Htot & _).
  assert (Hr : LRUK.in_range (BPM.replacer_ b) f = true).
  { unfold LRUK.in_range. rewrite Htot. apply andb_true_iff.
    split; [apply Z.leb_le|apply Z.ltb_lt]; lia. }
  destruct (lookup_lt_is_Some_2 _ _ Hlt) as [[hist ev] Hl].
  destruct (LRUK.RecordAccess (BPM.replacer_ b) f) as [r1|] eqn:E1.
  2: { unfold LRUK.RecordAccess in E1. rewrite Hr, Hl in E1. done. }
  pose proof (lruk_inv_RecordAccess _ _ _ _ Hinv Hn E1) as Hinv1.
  unfold LRUK.RecordAccess in E1. rewrite Hr, Hl in E1. simpl in E1.
  injection E1 as E1.
  set (h := (if Z.of_nat (length hist) =? LRUK.k_ (BPM.replacer_ b)
             then tl hist else hist) ++ [LRUK.current_timestamp_ (BPM.replacer_ b)])
    in E1.
  assert (Hh : h <> []).
  { unfold h. intros E. apply (f_equal length) in E.
    rewrite length_app in E. simpl in E. lia. }
  cbn [mbind option_bind].
  destruct (LRUK.SetEvictable r1 f false) as [r2|] eqn:E2.
  2: { unfold LRUK.SetEvictable in E2. subst r1.
       unfold LRUK.in_range in *. cbn [LRUK.total_size_ LRUK.replacer_] in E2.
       rewrite Hr, list_lookup_insert_eq in E2 by done.
       simpl in E2. by destruct h. }
  pose proof (lruk_inv_SetEvictable _ _ _ _ _ Hinv1 E2) as Hinv2.
  exists r2, h. split; [done|]. split; [done|]. split; [done|].
  unfold LRUK.SetEvictable in E2. subst r1.
  unfold LRUK.in_range in *. cbn [LRUK.total_size_ LRUK.replacer_] in E2.
  rewrite Hr, list_lookup_insert_eq in E2 by done.
  cbn [mbind option_bind] in E2.
  destruct h as [|t0 h0] eqn:Eh; [done|].
  injection E2 as <-. cbn [LRUK.replacer_].
  by rewrite list_insert_insert_eq.
Qed.

Lemma bpm_table_insert b pid f :
  eht_ok (BPM.page_table_ b) -> 0 <= pid < 2 ^ 30 ->
  exists t,
    BPM.table_insert b pid f = Some (BPM.set_table b t) /\ eht_ok t /\
    forall k v, eht_has t k v <->
      k = pid /\ v = f \/ k <> pid /\ eht_has (BPM.page_table_ b) k v.
Proof.
  intros Hok Hpid. unfold BPM.table_insert.
  destruct (eht_Insert_total (BPM.page_table_ b) pid f BPM.table_fuel Hok)
    as (t & -> & Hok' & _ & Hhas); [done|unfold BPM.table_fuel; lia|].
  by exists t.
Qed.

Lemma bpm_table_remove b pid :
  eht_ok (BPM.page_table_ b) ->
  exists t,
    BPM.table_remove b pid = Some (BPM.set_table b t) /\ eht_ok t /\
    forall k v, eht_has t k v <->
      k <> pid /\ eht_has (BPM.page_table_ b) k v.
Proof.
  intros Hok. unfold BPM.table_remove.
  destruct (eht_Remove_total (BPM.page_table_ b) pid Hok)
    as (t & -> & Hok' & _ & Hhas).
  by exists t.
Qed.

(** The entries of the page table after frame [f] took page [pid']. *)
Definition bpm_table_install (t t' : EHT.ExtendibleHashTable Z) (pid' f : Z)
  : Prop :=
  forall k v, eht_has t' k v <->
    (k = pid' /\ v = f) \/ (eht_has t k v /\ v <> f).

Lemma bpm_table_install_free (t t' : EHT.ExtendibleHashTable Z) pid' f :
  (forall pid, ~ eht_has t pid f) ->
  (forall v, ~ eht_has t pid' v) ->
  (forall k v, eht_has t' k v <->
     k = pid' /\ v = f \/ k <> pid' /\ eht_has t k v) ->
  bpm_table_install t t' pid' f.
Proof.
  intros Hf Hp Hhas k v. rewrite Hhas. split.
  - intros [?|[Hk Hkv]]; [by left|]. right. split; [done|].
    intros ->. by apply (Hf k).
  - intros [?|[Hkv Hv]]; [by left|]. right. split; [|done].
    intros ->. by apply (Hp v).
Qed.

Lemma bpm_table_install_evict (t t1 t' : EHT.ExtendibleHashTable Z) old pid' f :
  eht_wf t -> eht_has t old f ->
  (forall pid, eht_has t pid f -> pid = old) ->
  (forall v, ~ eht_has t pid' v) ->
  (forall k v, eht_has t1 k v <-> k <> old /\ eht_has t k v) ->
  (forall k v, eht_has t' k v <->
     k = pid' /\ v = f \/ k <> pid' /\ eht_has t1 k v) ->
  bpm_table_install t t' pid' f.
Proof.
  intros Hwf Hold Hf Hp H1 Hhas k v. rewrite Hhas, H1. split.
  - intros [?|(Hk & Hk' & Hkv)]; [by left|]. right. split; [done|].
    intros ->. by apply Hk', Hf.
  - intros [?|[Hkv Hv]]; [by left|]. right. split; [|split; [|done]].
    + intros ->. by apply (Hp v).
    + intros ->. apply Hv. by apply (eht_has_fun t old).
Qed.

Lemma bpm_table_install_same (t : EHT.ExtendibleHashTable Z) pid f :
  eht_has t pid f ->
  (forall k, eht_has t k f -> k = pid) ->
  bpm_table_install t t pid f.
Proof.
  intros Hp Hf k v. split.
  - intros Hkv. destruct (decide (v = f)) as [->|Hne]; [|by right].
    left. split; [by apply Hf|done].
  - intros [[-> ->]|[? _]]; done.
Qed.

(** The frame of a resident page holds no other page. *)
Lemma bpm_resident_frame n b pid f k :
  bpm_inv n b -> eht_has (BPM.page_table_ b) pid f ->
  eht_has (BPM.page_table_ b) k f -> k = pid.
Proof.
  intros Hinv H1 H2.
  destruct (inv_resident _ _ Hinv _ _ H1) as (_ & _ & pg & h & Hpg & Hid & _).
  destruct (inv_resident _ _ Hinv _ _ H2) as (_ & _ & pg' & h' & Hpg' & Hid' & _).
  congruence.
Qed.

Lemma bpm_int64 n : n < 2 ^ 30 -> n < LRUK.INT64_MAX.
Proof. unfold LRUK.INT64_MAX. lia. Qed.

(** Every frame is pinned when the free list is empty and the replacer has
    nothing to evict. *)
Lemma bpm_all_pinned n b :
  bpm_inv n b -> BPM.free_list_ b = [] ->
  (forall (f : nat) h, LRUK.replacer_ (BPM.replacer_ b) !! f <> Some (h, true)) ->
  forall f, 0 <= f < Z.of_nat (BPM.pool_size_ b) ->
    exists pg, BPM.page_at b f = Some pg /\ 0 < BPM.pin_count_ pg.
Proof.
  intros Hinv Hfl Hnone f Hf.
  destruct (inv_cover _ _ Hinv f Hf) as [Hin|[pid Hp]].
  { rewrite Hfl in Hin. by apply elem_of_nil in Hin. }
  destruct (inv_resident _ _ Hinv _ _ Hp)
    as (_ & _ & pg & h & Hpg & _ & Hpin & _ & Hl).
  exists pg. split; [done|].
  destruct (decide (BPM.pin_count_ pg = 0)) as [E|E]; [|lia].
  rewrite bool_decide_eq_true_2 in Hl by done. by apply Hnone in Hl.
Qed.

(** The victim of [Evict] when the free list is empty: a frame holding an
    unpinned page. *)
Lemma bpm_victim n b (fn : nat) h :
  bpm_inv n b -> BPM.free_list_ b = [] ->
  LRUK.replacer_ (BPM.replacer_ b) !! fn = Some (h, true) ->
  0 <= Z.of_nat fn < Z.of_nat (BPM.pool_size_ b) /\
  exists pg,
    BPM.pages_ b !! fn = Some pg /\ BPM.pin_count_ pg = 0 /\
    0 <= BPM.page_id_ pg < BPM.next_page_id_ b /\
    eht_has (BPM.page_table_ b) (BPM.page_id_ pg) (Z.of_nat fn).
Proof.
  intros Hinv Hfl Hl.
  assert (Hf : 0 <= Z.of_nat fn < Z.of_nat (BPM.pool_size_ b)).
  { apply lookup_lt_Some in Hl. rewrite (inv_frames _ _ Hinv) in Hl. lia. }
  split; [done|].
  destruct (inv_cover _ _ Hinv _ Hf) as [Hin|[pid Hp]].
  { rewrite Hfl in Hin. by apply elem_of_nil in Hin. }
  destruct (inv_resident _ _ Hinv _ _ Hp)
    as (Hpid & _ & pg & h' & Hpg & Hid & Hpin & _ & Hl').
  unfold BPM.page_at in Hpg. rewrite Nat2Z.id in Hpg, Hl'.
  exists pg. split; [done|]. subst pid. split; [|done].
  rewrite Hl in Hl'. injection Hl' as _ Hb.
  symmetry in Hb. by apply bool_decide_eq_true in Hb.
Qed.

Lemma bpm_NewPgImp_spec n b :
  bpm_inv n b -> n < 2 ^ 30 ->
  (BPM.free_list_ b = [] /\
   (forall f, 0 <= f < Z.of_nat (BPM.pool_size_ b) ->
      exists pg, BPM.page_at b f = Some pg /\ 0 < BPM.pin_count_ pg) /\
   BPM.NewPgImp b = Some (b, None)) \/
  (exists b' f d,
     BPM.NewPgImp b = Some (b', Some (BPM.next_page_id_ b, f)) /\
     bpm_inv (n + 1) b' /\
     BPM.pool_size_ b' = BPM.pool_size_ b /\
     BPM.next_page_id_ b' = BPM.next_page_id_ b + 1 /\
     0 <= f < Z.of_nat (BPM.pool_size_ b) /\
     BPM.pages_ b'
     = <[Z.to_nat f := BPM.mkPage (BPM.next_page_id_ b) 1 d 0]> (BPM.pages_ b) /\
     bpm_table_install (BPM.page_table_ b) (BPM.page_table_ b')
       (BPM.next_page_id_ b) f /\
     ((BPM.free_list_ b = f :: BPM.free_list_ b' /\
       BPM.disk_manager_ b' = BPM.disk_manager_ b) \/
      (BPM.free_list_ b = [] /\ BPM.free_list_ b' = [] /\
       exists pg,
         BPM.page_at b f = Some pg /\ BPM.pin_count_ pg = 0 /\
         eht_has (BPM.page_table_ b) (BPM.page_id_ pg) f /\
         BPM.disk_manager_ b'
         = if BPM.is_dirty_ pg
           then BPM.WritePage (BPM.disk_manager_ b) (BPM.page_id_ pg) (BPM.data_ pg)
           else BPM.disk_manager_ b))).
Proof.
  intros Hinv Hn. pose proof Hinv as [Ip If It Ir In Ind Ifr Ires Icov].
  assert (Hfresh : forall v, ~ eht_has (BPM.page_table_ b) (BPM.next_page_id_ b) v).
  { intros v Hv. destruct (Ires _ _ Hv) as (? & _). lia. }
  unfold BPM.NewPgImp.
  destruct (BPM.free_list_ b) as [|f rest] eqn:Hfl.
  - destruct (lruk_Evict_spec n _ Ir) as [[Hnone HE]|(fn & h & Hl & Hh & HE)];
      rewrite HE; cbn [negb].
    + left. split; [done|]. split; [by apply (bpm_all_pinned n)|].
      by rewrite bpm_set_replacer_id.
    + right.
      destruct (bpm_victim n b fn h Hinv Hfl Hl)
        as (Hf & pg & Hpg & Hpin & Hpid & Hold).
      pose proof (lruk_inv_Evict n _ Ir) as Ir1. rewrite HE in Ir1.
      cbn [fst] in Ir1.
      bpm_simpl. rewrite Nat2Z.id, Hpg. bpm_simpl.
      match goal with |- context [BPM.table_remove ?b1 ?p] =>
        destruct (bpm_table_remove b1 p It) as (t1 & -> & Hok1 & Hhas1) end.
      bpm_simpl.
      match goal with |- context [BPM.table_insert ?b1 ?p ?f] =>
        destruct (bpm_table_insert b1 p f Hok1) as (t2 & -> & Hok2 & Hhas2);
          [bpm_simpl; lia|] end.
      bpm_simpl.
      match goal with |- context [BPM.touch ?b1 ?f] =>
        destruct (bpm_touch n b1 f) as (r2 & h2 & -> & Ir2 & Hh2 & Hl2);
          [by destruct (BPM.is_dirty_ pg)|by apply bpm_int64|lia|
           destruct (BPM.is_dirty_ pg); bpm_simpl;
           cbn [LRUK.replacer_]; rewrite length_insert, If; lia|] end.
      assert (Hl2' : LRUK.replacer_ r2
                     = <[fn := (h2, false)]> (LRUK.replacer_ (BPM.replacer_ b))).
      { rewrite Hl2. destruct (BPM.is_dirty_ pg); bpm_simpl;
          cbn [LRUK.replacer_]; by rewrite Nat2Z.id, list_insert_insert_eq. }
      assert (Hinst : bpm_table_install (BPM.page_table_ b) t2
                        (BPM.next_page_id_ b) (Z.of_nat fn)).
      { apply (bpm_table_install_evict _ t1 _ (BPM.page_id_ pg));
          try done; [by destruct It|].
        intros pid Hp. by apply (bpm_resident_frame n b _ (Z.of_nat fn)). }
      destruct (BPM.is_dirty_ pg) eqn:Hd; bpm_simpl;
        rewrite ?Nat2Z.id, list_lookup_insert_eq
          by (apply lookup_lt_Some in Hpg; done);
        bpm_simpl; rewrite list_insert_insert_eq;
        (eexists _, (Z.of_nat fn), _; split; [reflexivity|]);
        (split; [|bpm_simpl; rewrite ?Nat2Z.id; split; [done|]; split; [done|];
                  split; [done|]; split; [done|]; split; [done|];
                  right; split; [done|]; split; [done|];
                  exists pg; rewrite ?Nat2Z.id, ?Hd; done]);
        (eapply (bpm_inv_install n (n + 1) b _ (Z.of_nat fn) (BPM.next_page_id_ b)
                  _ h2 Hinv); bpm_simpl; rewrite ?Nat2Z.id;
         [lia|done|lia|done|done|done|done|done|done|simpl; lia|lia|done|done|
          by rewrite Hfl; apply NoDup_nil|
          intros g; rewrite Hfl; split; [by intros ?%elem_of_nil|
                                         by intros [?%elem_of_nil _]]]).
  - right.
    destruct (Ifr f) as (Hf & Hpg & Hl & Hno); [by left|].
    unfold BPM.page_at in Hpg.
    bpm_simpl. rewrite Hpg. bpm_simpl.
    match goal with |- context [BPM.table_insert ?b1 ?p ?f] =>
      destruct (bpm_table_insert b1 p f It) as (t2 & -> & Hok2 & Hhas2);
        [bpm_simpl; lia|] end.
    bpm_simpl.
    match goal with |- context [BPM.touch ?b1 ?f] =>
      destruct (bpm_touch n b1 f) as (r2 & h2 & -> & Ir2 & Hh2 & Hl2);
        [done|by apply bpm_int64|lia|bpm_simpl; rewrite If; lia|] end.
    bpm_simpl.
    rewrite list_lookup_insert_eq by (apply lookup_lt_Some in Hpg; done).
    bpm_simpl. rewrite list_insert_insert_eq.
    apply NoDup_cons in Ind as [Hnin Hnd].
    assert (Hinst : bpm_table_install (BPM.page_table_ b) t2
                      (BPM.next_page_id_ b) f).
    { by apply bpm_table_install_free. }
    eexists _, f, _. split; [reflexivity|].
    split; [|bpm_simpl; split; [done|]; split; [done|]; split; [done|];
             split; [done|]; split; [done|]; by left].
    eapply (bpm_inv_install n (n + 1) b _ f (BPM.next_page_id_ b) _ h2 Hinv);
      bpm_simpl;
      [lia|done|lia|done|done|done|done|done|done|simpl; lia|lia|done|done|done|].
    intros g. rewrite Hfl, elem_of_cons. split.
    + intros Hg. split; [by right|]. by intros ->.
    + intros [[?|?] ?]; done.
Qed.

Lemma bpm_find_resident n b pid f :
  bpm_inv n b -> EHT.Find (BPM.page_table_ b) pid = Some f ->
  eht_has (BPM.page_table_ b) pid f /\
  0 <= f < Z.of_nat (BPM.pool_size_ b) /\
  exists pg h,
    BPM.pages_ b !! Z.to_nat f = Some pg /\ BPM.page_id_ pg = pid /\
    0 <= BPM.pin_count_ pg <= n /\ h <> [] /\
    LRUK.replacer_ (BPM.replacer_ b) !! Z.to_nat f
    = Some (h, bool_decide (BPM.pin_count_ pg = 0)).
Proof.
  intros Hinv Hfind. destruct (inv_table _ _ Hinv) as [Hwf _].
  apply (eht_Find_has _ _ _ Hwf) in Hfind. split; [done|].
  by destruct (inv_resident _ _ Hinv _ _ Hfind) as (_ & ? & ?).
Qed.

Lemma bpm_find_range n b pid f :
  bpm_inv n b -> EHT.Find (BPM.page_table_ b) pid = Some f ->
  0 <= pid < BPM.next_page_id_ b.
Proof.
  intros Hinv Hfind. destruct (inv_table _ _ Hinv) as [Hwf _].
  apply (eht_Find_has _ _ _ Hwf) in Hfind.
  by destruct (inv_resident _ _ Hinv _ _ Hfind) as (? & _).
Qed.

Lemma bpm_find_None n b pid :
  bpm_inv n b -> EHT.Find (BPM.page_table_ b) pid = None ->
  forall v, ~ eht_has (BPM.page_table_ b) pid v.
Proof.
  intros Hinv Hfind v Hv. destruct (inv_table _ _ Hinv) as [Hwf _].
  apply (eht_Find_has _ _ _ Hwf) in Hv. congruence.
Qed.

Lemma bpm_free_same n b pid f :
  bpm_inv n b -> eht_has (BPM.page_table_ b) pid f ->
  forall g, g ∈ BPM.free_list_ b <-> g ∈ BPM.free_list_ b /\ g <> f.
Proof.
  intros Hinv Hhas g. split; [|by intros [? _]].
  intros Hg. split; [done|]. intros ->.
  destruct (inv_free _ _ Hinv f Hg) as (_ & _ & _ & Hno). by apply (Hno pid).
Qed.

Lemma bpm_ReadPage_other d old bytes pid :
  pid <> old -> BPM.ReadPage (BPM.WritePage d old bytes) pid = BPM.ReadPage d pid.
Proof.
  intros Hne. unfold BPM.ReadPage, BPM.WritePage, BPM.DiskManager, BPM.Data in *.
  by rewrite lookup_insert_ne.
Qed.

Lemma bpm_FetchPgImp_spec n b pid :
  bpm_inv n b -> n < 2 ^ 30 -> 0 <= pid < BPM.next_page_id_ b ->
  (EHT.Find (BPM.page_table_ b) pid = None /\ BPM.free_list_ b = [] /\
   (forall f, 0 <= f < Z.of_nat (BPM.pool_size_ b) ->
      exists pg, BPM.page_at b f = Some pg /\ 0 < BPM.pin_count_ pg) /\
   BPM.FetchPgImp b pid = Some (b, None)) \/
  (exists b' f pg',
     BPM.FetchPgImp b pid = Some (b', Some f) /\
     bpm_inv (n + 1) b' /\
     BPM.pool_size_ b' = BPM.pool_size_ b /\
     BPM.next_page_id_ b' = BPM.next_page_id_ b /\
     0 <= f < Z.of_nat (BPM.pool_size_ b) /\
     BPM.pages_ b' = <[Z.to_nat f := pg']> (BPM.pages_ b) /\
     bpm_table_install (BPM.page_table_ b) (BPM.page_table_ b') pid f /\
     ((exists pg,
         EHT.Find (BPM.page_table_ b) pid = Some f /\
         BPM.page_at b f = Some pg /\
         pg' = BPM.mkPage pid (BPM.pin_count_ pg + 1) true (BPM.data_ pg) /\
         BPM.free_list_ b' = BPM.free_list_ b /\
         BPM.disk_manager_ b' = BPM.disk_manager_ b) \/
      (EHT.Find (BPM.page_table_ b) pid = None /\
       BPM.free_list_ b = f :: BPM.free_list_ b' /\
       BPM.disk_manager_ b' = BPM.disk_manager_ b /\
       pg' = BPM.mkPage pid 1 false (BPM.ReadPage (BPM.disk_manager_ b) pid)) \/
      (EHT.Find (BPM.page_table_ b) pid = None /\
       BPM.free_list_ b = [] /\ BPM.free_list_ b' = [] /\
       exists pg,
         BPM.page_at b f = Some pg /\ BPM.pin_count_ pg = 0 /\
         eht_has (BPM.page_table_ b) (BPM.page_id_ pg) f /\
         BPM.disk_manager_ b'
         = (if BPM.is_dirty_ pg
            then BPM.WritePage (BPM.disk_manager_ b) (BPM.page_id_ pg) (BPM.data_ pg)
            else BPM.disk_manager_ b) /\
         pg' = BPM.mkPage pid 1 (BPM.is_dirty_ pg)
                 (BPM.ReadPage (BPM.disk_manager_ b) pid)))).
Proof.
  intros Hinv Hn Hpid. pose proof Hinv as [Ip If It Ir In Ind Ifr Ires Icov].
  unfold BPM.FetchPgImp.
  destruct (EHT.Find (BPM.page_table_ b) pid) as [f|] eqn:Hfind.
  - (* the page is in the pool *)
    right.
    destruct (bpm_find_resident n b pid f Hinv Hfind)
      as (Hhas & Hf & pg & h & Hpg & Hid & Hpin & Hh & Hl).
    destruct (bpm_touch n b f) as (r2 & h2 & -> & Ir2 & Hh2 & Hl2);
      [done|by apply bpm_int64|lia|rewrite If; lia|].
    bpm_simpl. rewrite Hpg. bpm_simpl.
    rewrite list_lookup_insert_eq by (apply lookup_lt_Some in Hpg; done).
    bpm_simpl. rewrite list_insert_insert_eq.
    eexists _, f, _. split; [reflexivity|].
    split; [|bpm_simpl; split; [done|]; split; [done|]; split; [done|];
             split; [done|]; split;
             [apply bpm_table_install_same; [done|];
              intros k Hk; by apply (bpm_resident_frame n b pid f)|];
             left; exists pg; rewrite Hid; done].
    eapply (bpm_inv_install n (n + 1) b _ f pid _ h2 Hinv); bpm_simpl;
      [lia|done|lia|done|done|done| |done|done|simpl; lia|lia|done| |done|
       by apply (bpm_free_same n b pid)].
    + rewrite Hl2. f_equal. f_equal. symmetry.
      apply bool_decide_eq_false_2. simpl. lia.
    + apply bpm_table_install_same; [done|].
      intros k Hk. by apply (bpm_resident_frame n b pid f).
  - pose proof (bpm_find_None n b pid Hinv Hfind) as Hnot.
    destruct (BPM.free_list_ b) as [|f rest] eqn:Hfl.
    + destruct (lruk_Evict_spec n _ Ir) as [[Hnone HE]|(fn & h & Hl & Hh & HE)];
        rewrite HE; cbn [negb].
      * left. split; [done|]. split; [done|].
        split; [by apply (bpm_all_pinned n)|].
        by rewrite bpm_set_replacer_id.
      * right.
        destruct (bpm_victim n b fn h Hinv Hfl Hl)
          as (Hf & pg & Hpg & Hpin & Hpidv & Hold).
        pose proof (lruk_inv_Evict n _ Ir) as Ir1. rewrite HE in Ir1.
        cbn [fst] in Ir1.
        assert (Hne : pid <> BPM.page_id_ pg) by (intros ->; by apply (Hnot _ Hold)).
        bpm_simpl. rewrite ?Nat2Z.id, Hpg. bpm_simpl.
        match goal with |- context [BPM.table_remove ?b1 ?p] =>
          destruct (bpm_table_remove b1 p It) as (t1 & -> & Hok1 & Hhas1) end.
        bpm_simpl.
        match goal with |- context [BPM.table_insert ?b1 ?p ?f] =>
          destruct (bpm_table_insert b1 p f Hok1) as (t2 & -> & Hok2 & Hhas2);
            [bpm_simpl; lia|] end.
        bpm_simpl.
        match goal with |- context [BPM.touch ?b1 ?f] =>
          destruct (bpm_touch n b1 f) as (r2 & h2 & -> & Ir2 & Hh2 & Hl2);
            [done|by apply bpm_int64|lia|
             bpm_simpl; cbn [LRUK.replacer_]; rewrite length_insert, If; lia|] end.
        bpm_simpl. cbn [LRUK.replacer_] in Hl2.
        rewrite ?Nat2Z.id, list_insert_insert_eq in Hl2.
        assert (Hinst : bpm_table_install (BPM.page_table_ b) t2 pid (Z.of_nat fn)).
        { apply (bpm_table_install_evict _ t1 _ (BPM.page_id_ pg));
            try done; [by destruct It|].
          intros k Hk. by apply (bpm_resident_frame n b _ (Z.of_nat fn)). }
        rewrite Hpin.
        assert (Hread : BPM.ReadPage
                  (BPM.disk_manager_
                     (if BPM.is_dirty_ pg
                      then BPM.set_disk
                             (BPM.mkBPM (BPM.pool_size_ b) (BPM.next_page_id_ b)
                                (BPM.pages_ b) t2 r2 (BPM.free_list_ b)
                                (BPM.disk_manager_ b))
                             (BPM.WritePage (BPM.disk_manager_ b)
                                (BPM.page_id_ pg) (BPM.data_ pg))
                      else BPM.mkBPM (BPM.pool_size_ b) (BPM.next_page_id_ b)
                             (BPM.pages_ b) t2 r2 (BPM.free_list_ b)
                             (BPM.disk_manager_ b))) pid
                = BPM.ReadPage (BPM.disk_manager_ b) pid).
        { destruct (BPM.is_dirty_ pg); bpm_simpl; [|done].
          by apply bpm_ReadPage_other. }
        destruct (BPM.is_dirty_ pg) eqn:Hd; bpm_simpl;
          (eexists _, (Z.of_nat fn), _; split; [reflexivity|]);
          (split; [|bpm_simpl; rewrite ?Nat2Z.id; split; [done|]; split; [done|];
                    split; [done|]; split; [reflexivity|]; split; [done|];
                    right; right; split; [done|]; split; [done|]; split; [done|];
                    exists pg; rewrite ?Nat2Z.id, ?Hd, ?Hread; done]);
          (eapply (bpm_inv_install n (n + 1) b _ (Z.of_nat fn) pid _ h2 Hinv);
           bpm_simpl; rewrite ?Nat2Z.id;
           [lia|done|lia|done|reflexivity|done|done|done|done|simpl; lia|lia|done|
            done|by rewrite Hfl; apply NoDup_nil|
            intros g; rewrite Hfl; split; [by intros ?%elem_of_nil|
                                           by intros [?%elem_of_nil _]]]).
    + right.
      destruct (Ifr f) as (Hf & Hpg & Hl & Hno); [by left|].
      unfold BPM.page_at in Hpg.
      bpm_simpl. rewrite Hpg. bpm_simpl.
      match goal with |- context [BPM.table_insert ?b1 ?p ?f] =>
        destruct (bpm_table_insert b1 p f It) as (t2 & -> & Hok2 & Hhas2);
          [bpm_simpl; lia|] end.
      bpm_simpl.
      match goal with |- context [BPM.touch ?b1 ?f] =>
        destruct (bpm_touch n b1 f) as (r2 & h2 & -> & Ir2 & Hh2 & Hl2);
          [done|by apply bpm_int64|lia|bpm_simpl; rewrite If; lia|] end.
      bpm_simpl.
      apply NoDup_cons in Ind as [Hnin Hnd].
      assert (Hinst : bpm_table_install (BPM.page_table_ b) t2 pid f).
      { by apply bpm_table_install_free. }
      eexists _, f, _. split; [reflexivity|].
      split; [|bpm_simpl; split; [done|]; split; [done|]; split; [done|];
               split; [reflexivity|]; split; [done|]; right; left; done].
      eapply (bpm_inv_install n (n + 1) b _ f pid _ h2 Hinv);
        bpm_simpl;
        [lia|done|lia|done|reflexivity|done|done|done|done|simpl; lia|lia|done|
         done|done|].
      intros g. rewrite Hfl, elem_of_cons. split.
      * intros Hg. split; [by right|]. by intros ->.
      * intros [[?|?] ?]; done.
Qed.

Lemma bpm_UnpinPgImp_spec n b pid is_dirty :
  bpm_inv n b ->
  (BPM.UnpinPgImp b pid is_dirty = Some (b, false) /\
   (EHT.Find (BPM.page_table_ b) pid = None \/
    exists f pg, EHT.Find (BPM.page_table_ b) pid = Some f /\
      BPM.page_at b f = Some pg /\ BPM.pin_count_ pg = 0)) \/
  (exists b' f pg,
     BPM.UnpinPgImp b pid is_dirty = Some (b', true) /\
     bpm_inv n b' /\
     EHT.Find (BPM.page_table_ b) pid = Some f /\
     BPM.page_at b f = Some pg /\ 0 < BPM.pin_count_ pg /\
     BPM.pool_size_ b' = BPM.pool_size_ b /\
     BPM.next_page_id_ b' = BPM.next_page_id_ b /\
     BPM.pages_ b'
     = <[Z.to_nat f := BPM.mkPage pid (BPM.pin_count_ pg - 1)
                         (BPM.is_dirty_ pg || is_dirty) (BPM.data_ pg)]>
         (BPM.pages_ b) /\
     BPM.page_table_ b' = BPM.page_table_ b /\
     BPM.free_list_ b' = BPM.free_list_ b /\
     BPM.disk_manager_ b' = BPM.disk_manager_ b).
Proof.
  intros Hinv. pose proof Hinv as [Ip If It Ir In Ind Ifr Ires Icov].
  unfold BPM.UnpinPgImp.
  destruct (EHT.Find (BPM.page_table_ b) pid) as [f|] eqn:Hfind.
  2: { left. split; [done|]. by left. }
  destruct (bpm_find_resident n b pid f Hinv Hfind)
    as (Hhas & Hf & pg & h & Hpg & Hid & Hpin & Hh & Hl).
  pose proof (bpm_find_range n b pid f Hinv Hfind) as Hrange.
  bpm_simpl. rewrite Hpg. bpm_simpl.
  destruct (BPM.pin_count_ pg <=? 0) eqn:Hle.
  { apply Z.leb_le in Hle. left. split; [done|]. right. exists f, pg.
    split; [done|]. split; [done|]. lia. }
  apply Z.leb_gt in Hle. right.
  rewrite bool_decide_eq_false_2 in Hl by lia.
  assert (Hdirty : (if negb (BPM.is_dirty_ pg) then is_dirty else BPM.is_dirty_ pg)
                   = BPM.is_dirty_ pg || is_dirty).
  { by destruct (BPM.is_dirty_ pg), is_dirty. }
  rewrite Hdirty, Hid.
  assert (Hsame : bpm_table_install (BPM.page_table_ b) (BPM.page_table_ b) pid f).
  { apply bpm_table_install_same; [done|].
    intros k Hk. by apply (bpm_resident_frame n b pid f). }
  destruct (BPM.pin_count_ pg - 1 =? 0) eqn:Hz.
  - apply Z.eqb_eq in Hz.
    pose proof Ir as (_ & _ & Htot & _).
    assert (Hr : LRUK.in_range (BPM.replacer_ b) f = true).
    { unfold LRUK.in_range. rewrite Htot, If. apply andb_true_iff.
      split; [apply Z.leb_le|apply Z.ltb_lt]; lia. }
    destruct (LRUK.SetEvictable (BPM.replacer_ b) f true) as [r2|] eqn:E2.
    2: { unfold LRUK.SetEvictable in E2. rewrite Hr, Hl in E2.
         simpl in E2. by destruct h. }
    pose proof (lruk_inv_SetEvictable _ _ _ _ _ Ir E2) as Ir2.
    unfold LRUK.SetEvictable in E2. rewrite Hr, Hl in E2.
    cbn [mbind option_bind] in E2.
    destruct h as [|t0 h0] eqn:Eh; [done|]. injection E2 as E2.
    bpm_simpl.
    eexists _, f, pg. split; [reflexivity|].
    split; [|bpm_simpl; split; [done|]; split; [done|]; split; [lia|]; done].
    eapply (bpm_inv_install n n b _ f pid _ (t0 :: h0) Hinv); bpm_simpl;
      [lia|done|lia|done|reflexivity|done| |done|done|simpl; lia|lia|done|done|
       done|by apply (bpm_free_same n b pid)].
    subst r2. cbn [LRUK.replacer_]. f_equal. f_equal. symmetry.
    apply bool_decide_eq_true_2. simpl. lia.
  - apply Z.eqb_neq in Hz. bpm_simpl.
    eexists _, f, pg. split; [reflexivity|].
    split; [|bpm_simpl; split; [done|]; split; [done|]; split; [lia|]; done].
    eapply (bpm_inv_install n n b _ f pid _ h Hinv); bpm_simpl;
      [lia|done|lia|done|reflexivity|done| |done|done|simpl; lia|lia|done|done|
       done|by apply (bpm_free_same n b pid)].
    rewrite bool_decide_eq_false_2 by (simpl; lia).
    by rewrite list_insert_id.
Qed.

Lemma bpm_FlushPgImp_spec n b pid :
  bpm_inv n b ->
  (BPM.FlushPgImp b pid = Some (b, false) /\
   EHT.Find (BPM.page_table_ b) pid = None) \/
  (exists b' f pg,
     BPM.FlushPgImp b pid = Some (b', true) /\
     bpm_inv n b' /\
     EHT.Find (BPM.page_table_ b) pid = Some f /\
     BPM.page_at b f = Some pg /\
     BPM.pool_size_ b' = BPM.pool_size_ b /\
     BPM.next_page_id_ b' = BPM.next_page_id_ b /\
     BPM.pages_ b'
     = <[Z.to_nat f := BPM.mkPage pid (BPM.pin_count_ pg) false (BPM.data_ pg)]>
         (BPM.pages_ b) /\
     BPM.page_table_ b' = BPM.page_table_ b /\
     BPM.free_list_ b' = BPM.free_list_ b /\
     BPM.disk_manager_ b'
     = BPM.WritePage (BPM.disk_manager_ b) pid (BPM.data_ pg)).
Proof.
  intros Hinv. pose proof Hinv as [Ip If It Ir In Ind Ifr Ires Icov].
  unfold BPM.FlushPgImp.
  destruct (EHT.Find (BPM.page_table_ b) pid) as [f|] eqn:Hfind.
  2: { by left. }
  destruct (bpm_find_resident n b pid f Hinv Hfind)
    as (Hhas & Hf & pg & h & Hpg & Hid & Hpin & Hh & Hl).
  pose proof (bpm_find_range n b pid f Hinv Hfind) as Hrange.
  bpm_simpl. rewrite Hpg. bpm_simpl. rewrite Hid. right.
  eexists _, f, pg. split; [reflexivity|].
  split; [|bpm_simpl; done].
  eapply (bpm_inv_install n n b _ f pid _ h Hinv); bpm_simpl;
    [lia|done|lia|done|reflexivity|done| |done|done|simpl; lia|lia|done| |
     done|by apply (bpm_free_same n b pid)].
  - by rewrite list_insert_id.
  - apply bpm_table_install_same; [done|].
    intros k Hk. by apply (bpm_resident_frame n b pid f).
Qed.

Lemma bpm_DeletePgImp_spec n b pid :
  bpm_inv n b ->
  (BPM.DeletePgImp b pid = Some (b, true) /\
   EHT.Find (BPM.page_table_ b) pid = None) \/
  (BPM.DeletePgImp b pid = Some (b, false) /\
   exists f pg, EHT.Find (BPM.page_table_ b) pid = Some f /\
     BPM.page_at b f = Some pg /\ 0 < BPM.pin_count_ pg) \/
  (exists b' f pg,
     BPM.DeletePgImp b pid = Some (b', true) /\
     bpm_inv n b' /\
     EHT.Find (BPM.page_table_ b) pid = Some f /\
     BPM.page_at b f = Some pg /\ BPM.pin_count_ pg = 0 /\
     BPM.pool_size_ b' = BPM.pool_size_ b /\
     BPM.next_page_id_ b' = BPM.next_page_id_ b /\
     BPM.pages_ b' = <[Z.to_nat f := BPM.mkPage 0 0 false 0]> (BPM.pages_ b) /\
     (forall k v, eht_has (BPM.page_table_ b') k v <->
        eht_has (BPM.page_table_ b) k v /\ v <> f) /\
     BPM.free_list_ b' = BPM.free_list_ b ++ [f] /\
     BPM.disk_manager_ b'
     = (if BPM.is_dirty_ pg
        then BPM.WritePage (BPM.disk_manager_ b) pid (BPM.data_ pg)
        else BPM.disk_manager_ b)).
Proof.
  intros Hinv. pose proof Hinv as [Ip If It Ir In Ind Ifr Ires Icov].
  unfold BPM.DeletePgImp.
  destruct (EHT.Find (BPM.page_table_ b) pid) as [f|] eqn:Hfind.
  2: { by left. }
  destruct (bpm_find_resident n b pid f Hinv Hfind)
    as (Hhas & Hf & pg & h & Hpg & Hid & Hpin & Hh & Hl).
  pose proof (bpm_find_range n b pid f Hinv Hfind) as Hrange.
  bpm_simpl. rewrite Hpg. bpm_simpl. right.
  destruct (BPM.pin_count_ pg >? 0) eqn:Hgt.
  { left. split; [done|]. exists f, pg. split; [done|]. split; [done|]. lia. }
  right.
  assert (Hp0 : BPM.pin_count_ pg = 0) by lia.
  rewrite bool_decide_eq_true_2 in Hl by done. rewrite Hp0, Hid.
  set (b0 := if BPM.is_dirty_ pg then _ else b).
  assert (Hb0 : b0 = BPM.mkBPM (BPM.pool_size_ b) (BPM.next_page_id_ b)
                       (BPM.pages_ b) (BPM.page_table_ b) (BPM.replacer_ b)
                       (BPM.free_list_ b)
                       (if BPM.is_dirty_ pg
                        then BPM.WritePage (BPM.disk_manager_ b) pid (BPM.data_ pg)
                        else BPM.disk_manager_ b)).
  { unfold b0. destruct (BPM.is_dirty_ pg); [done|by destruct b]. }
  clearbody b0. subst b0. bpm_simpl.
  match goal with |- context [BPM.table_remove ?b1 ?p] =>
    destruct (bpm_table_remove b1 p) as (t1 & -> & Hok1 & Hhas1); [done|] end.
  bpm_simpl.
  assert (Ht1 : forall k v, eht_has t1 k v <->
            eht_has (BPM.page_table_ b) k v /\ v <> f).
  { intros k v. rewrite Hhas1. split.
    - intros [Hk Hkv]. split; [done|]. intros ->.
      apply Hk. by apply (bpm_resident_frame n b pid f).
    - intros [Hkv Hv]. split; [|done]. intros ->. apply Hv.
      pose proof It as [Hwf _].
      by apply (eht_has_fun (BPM.page_table_ b) pid). }
  pose proof Ir as (_ & _ & Htot & _).
  assert (Hr : LRUK.in_range (BPM.replacer_ b) f = true).
  { unfold LRUK.in_range. rewrite Htot, If. apply andb_true_iff.
    split; [apply Z.leb_le|apply Z.ltb_lt]; lia. }
  assert (E1 : LRUK.SetEvictable (BPM.replacer_ b) f true
               = Some (LRUK.mkReplacer (LRUK.current_timestamp_ (BPM.replacer_ b))
                         (LRUK.total_size_ (BPM.replacer_ b))
                         (LRUK.replacer_size_ (BPM.replacer_ b))
                         (LRUK.k_ (BPM.replacer_ b))
                         (LRUK.replacer_ (BPM.replacer_ b)))).
  { unfold LRUK.SetEvictable. rewrite Hr, Hl. cbn [mbind option_bind].
    destruct h; [done|]. cbn [andb negb]. by rewrite list_insert_id. }
  pose proof (lruk_inv_SetEvictable _ _ _ _ _ Ir E1) as Ir1.
  rewrite E1. cbn [mbind option_bind].
  match goal with |- context [LRUK.Remove ?r1 f] =>
    destruct (LRUK.Remove r1 f) as [r2|] eqn:E2 end.
  2: { unfold LRUK.Remove, LRUK.in_range in *.
       cbn [LRUK.total_size_ LRUK.replacer_] in E2. rewrite Hr, Hl in E2.
       simpl in E2. by destruct h. }
  pose proof (lruk_inv_Remove _ _ _ _ Ir1 E2) as Ir2.
  unfold LRUK.Remove, LRUK.in_range in E2, Hr.
  cbn [LRUK.total_size_ LRUK.replacer_ LRUK.current_timestamp_ LRUK.k_
       LRUK.replacer_size_] in E2.
  rewrite Hr, Hl in E2. cbn [negb mbind option_bind] in E2.
  destruct h as [|t0 h0] eqn:Eh; [done|]. injection E2 as E2.
  bpm_simpl.
  assert (Hnin : f ∉ BPM.free_list_ b).
  { intros Hin. destruct (Ifr f Hin) as (_ & _ & _ & Hno). by apply (Hno pid). }
  eexists _, f, pg. split; [reflexivity|].
  split; [|bpm_simpl; done].
  eapply (bpm_inv_release n b _ f Hinv); bpm_simpl;
    [done|done|done|done|reflexivity|done|by subst r2|done|done|done].
Qed.

Lemma bpm_inv_mono n m b : bpm_inv n b -> n <= m -> bpm_inv m b.
Proof.
  intros [Ip If It Ir In Ind Ifr Ires Icov] Hnm. split; try done.
  - by apply (lruk_inv_mono n).
  - lia.
  - intros pid f Hp.
    destruct (Ires pid f Hp) as (Hr & Hf & pg & h & Hpg & Hid & Hpin & Hh & Hl).
    split; [done|]. split; [done|]. exists pg, h.
    split; [done|]. split; [done|]. split; [lia|]. done.
Qed.

(** The calls of a client of the pool. *)
Inductive bpm_op :=
  | BNewPage
  | BFetchPage (page_id : Z)
  | BUnpinPage (page_id : Z) (is_dirty : bool)
  | BFlushPage (page_id : Z)
  | BDeletePage (page_id : Z).

Definition bpm_step (b : BPM.BufferPoolManagerInstance) (op : bpm_op)
  : option BPM.BufferPoolManagerInstance :=
  match op with
  | BNewPage => fst <$> BPM.NewPgImp b
  | BFetchPage p => fst <$> BPM.FetchPgImp b p
  | BUnpinPage p d => fst <$> BPM.UnpinPgImp b p d
  | BFlushPage p => fst <$> BPM.FlushPgImp b p
  | BDeletePage p => fst <$> BPM.DeletePgImp b p
  end.

(** Clients fetch the pages that [NewPgImp] has handed out. *)
Definition bpm_op_ok (b : BPM.BufferPoolManagerInstance) (op : bpm_op) : Prop :=
  match op with
  | BFetchPage p => 0 <= p < BPM.next_page_id_ b
  | _ => True
  end.

(** The pools reached from a new one by [n] calls. *)
Inductive bpm_reach (pool_size : nat) (disk : BPM.DiskManager) (k : Z)
  : nat -> BPM.BufferPoolManagerInstance -> Prop :=
  | bpm_reach_create : bpm_reach pool_size disk k 0 (BPM.create pool_size disk k)
  | bpm_reach_step n b op b' :
      bpm_reach pool_size disk k n b -> bpm_op_ok b op ->
      bpm_step b op = Some b' ->
      bpm_reach pool_size disk k (S n) b'.

Lemma bpm_step_spec n b op :
  bpm_inv n b -> n < 2 ^ 30 -> bpm_op_ok b op ->
  exists b', bpm_step b op = Some b' /\ bpm_inv (n + 1) b' /\
    BPM.pool_size_ b' = BPM.pool_size_ b.
Proof.
  intros Hinv Hn Hok.
  assert (Hsame : bpm_inv (n + 1) b) by (apply (bpm_inv_mono n); [done|lia]).
  destruct op as [|p|p d|p|p]; simpl in *.
  - destruct (bpm_NewPgImp_spec n b Hinv Hn)
      as [(_ & _ & ->)|(b' & f & d & -> & Hinv' & Hpool & _)]; by eexists.
  - destruct (bpm_FetchPgImp_spec n b p Hinv Hn Hok)
      as [(_ & _ & _ & ->)|(b' & f & pg' & -> & Hinv' & Hpool & _)]; by eexists.
  - destruct (bpm_UnpinPgImp_spec n b p d Hinv)
      as [(-> & _)|(b' & f & pg & -> & Hinv' & _ & _ & _ & Hpool & _)];
      [by eexists|].
    eexists. split; [done|]. split; [|done]. apply (bpm_inv_mono n); [done|lia].
  - destruct (bpm_FlushPgImp_spec n b p Hinv)
      as [(-> & _)|(b' & f & pg & -> & Hinv' & _ & _ & Hpool & _)]; [by eexists|].
    eexists. split; [done|]. split; [|done]. apply (bpm_inv_mono n); [done|lia].
  - destruct (bpm_DeletePgImp_spec n b p Hinv)
      as [(-> & _)|[(-> & _)|(b' & f & pg & -> & Hinv' & _ & _ & _ & Hpool & _)]];
      [by eexists|by eexists|].
    eexists. split; [done|]. split; [|done]. apply (bpm_inv_mono n); [done|lia].
Qed.

Lemma bpm_reach_inv pool_size disk k n b :
  1 <= k -> Z.of_nat pool_size < 2 ^ 31 ->
  bpm_reach pool_size disk k n b -> Z.of_nat n <= 2 ^ 30 ->
  bpm_inv (Z.of_nat n) b /\ BPM.pool_size_ b = pool_size.
Proof.
  intros Hk Hp Hreach. induction Hreach as [|n b op b' Hreach IH Hok Hstep];
    intros Hn.
  - split; [by apply bpm_inv_create|done].
  - destruct IH as [Hinv Hpool]; [lia|].
    destruct (bpm_step_spec _ b op Hinv) as (b2 & Hstep2 & Hinv2 & Hpool2);
      [lia|done|].
    rewrite Hstep in Hstep2. injection Hstep2 as <-.
    split; [by replace (Z.of_nat (S n)) with (Z.of_nat n + 1) by lia|].
    congruence.
Qed.

#[global] Instance bpm_op_ok_dec b op : Decision (bpm_op_ok b op).
Proof. destruct op; simpl; apply _. Defined.

(** A run of calls, each one allowed where it is made. *)
Fixpoint bpm_run (ops : list bpm_op) (b : BPM.BufferPoolManagerInstance)
  : option BPM.BufferPoolManagerInstance :=
  match ops with
  | [] => Some b
  | op :: ops =>
      if bool_decide (bpm_op_ok b op)
      then b' ← bpm_step b op; bpm_run ops b'
      else None
  end.

Lemma bpm_run_reach pool_size disk k ops :
  forall n b b',
    bpm_reach pool_size disk k n b -> bpm_run ops b = Some b' ->
    bpm_reach pool_size disk k (length ops + n) b'.
Proof.
  induction ops as [|op ops IH]; intros n b b' Hreach Hrun; simpl in *.
  - by injection Hrun as <-.
  - case_bool_decide as Hok; [|done].
    destruct (bpm_step b op) as [b1|] eqn:Hstep; [|done]. simpl in Hrun.
    replace (S (length ops + n)) with (length ops + S n)%nat by lia.
    apply (IH _ b1); [|done]. by apply (bpm_reach_step _ _ _ n b op).
Qed.

(** A pool of two frames (k = 2) over an empty disk: page 0 is made,
    unpinned dirty, and page 1 is made. *)
Definition bpm_sample_ops : list bpm_op :=
  [BNewPage; BUnpinPage 0 true; BNewPage].

Definition bpm_sample : BPM.BufferPoolManagerInstance :=
  default (BPM.create 2 ∅ 2) (bpm_run bpm_sample_ops (BPM.create 2 ∅ 2)).

Lemma bpm_sample_reach : bpm_reach 2 ∅ 2 3 bpm_sample.
Proof.
  apply (bpm_run_reach 2 ∅ 2 bpm_sample_ops 0 (BPM.create 2 ∅ 2));
    [apply bpm_reach_create|].
  vm_compute. reflexivity.
Qed.

(** X15.  No call of a client aborts: in a pool reached by fewer than 2^30
    calls, of fewer than 2^31 frames with k >= 1, no assertion of the
    replacer trips and the insertion into the page table finishes. *)
Theorem bpm_calls_complete pool_size disk k n b op :
  1 <= k -> Z.of_nat pool_size < 2 ^ 31 ->
  bpm_reach pool_size disk k n b -> Z.of_nat n < 2 ^ 30 ->
  bpm_op_ok b op ->
  is_Some (bpm_step b op).
Proof.
  intros Hk Hp Hreach Hn Hok.
  destruct (bpm_reach_inv _ _ _ _ _ Hk Hp Hreach) as [Hinv _]; [lia|].
  destruct (bpm_step_spec _ b op Hinv Hn Hok) as (b' & -> & _). by eexists.
Qed.

Lemma bpm_calls_complete_witness :
  is_Some (bpm_step bpm_sample (BFetchPage 0)).
Proof.
  apply (bpm_calls_complete 2 ∅ 2 3 bpm_sample (BFetchPage 0)).
  - lia.
  - vm_compute. reflexivity.
  - exact bpm_sample_reach.
  - vm_compute. reflexivity.
  - unfold bpm_op_ok. change (BPM.next_page_id_ bpm_sample) with 2. lia.
Defined.

(** X16.  The page table, the frames, the free list and the replacer agree
    in every reached pool: a page of the table sits in a frame of the pool
    that carries its id and a pin count >= 0, its id is below
    [next_page_id_], and the replacer holds its frame evictable exactly when
    the pin count is 0; no frame holds two pages of the table; the free list
    has no frame twice, its frames hold no page of the table and are blank;
    and every frame is in the free list or holds a page of the table. *)
Theorem bpm_pool_consistent pool_size disk k n b :
  1 <= k -> Z.of_nat pool_size < 2 ^ 31 ->
  bpm_reach pool_size disk k n b -> Z.of_nat n <= 2 ^ 30 ->
  (forall pid f, EHT.Find (BPM.page_table_ b) pid = Some f ->
     0 <= pid < BPM.next_page_id_ b /\ 0 <= f < Z.of_nat pool_size /\
     (f ∉ BPM.free_list_ b) /\
     exists pg h,
       BPM.page_at b f = Some pg /\ BPM.page_id_ pg = pid /\
       0 <= BPM.pin_count_ pg /\
       LRUK.replacer_ (BPM.replacer_ b) !! Z.to_nat f
       = Some (h, bool_decide (BPM.pin_count_ pg = 0))) /\
  (forall pid pid' f, EHT.Find (BPM.page_table_ b) pid = Some f ->
     EHT.Find (BPM.page_table_ b) pid' = Some f -> pid = pid') /\
  NoDup (BPM.free_list_ b) /\
  (forall f, f ∈ BPM.free_list_ b ->
     0 <= f < Z.of_nat pool_size /\
     BPM.page_at b f = Some (BPM.mkPage 0 0 false 0) /\
     LRUK.replacer_ (BPM.replacer_ b) !! Z.to_nat f = Some ([], false)) /\
  (forall f, 0 <= f < Z.of_nat pool_size ->
     f ∈ BPM.free_list_ b \/
     exists pid, EHT.Find (BPM.page_table_ b) pid = Some f).
Proof.
  intros Hk Hp Hreach Hn.
  destruct (bpm_reach_inv _ _ _ _ _ Hk Hp Hreach Hn) as [Hinv Hpool].
  pose proof (inv_table _ _ Hinv) as [Hwf _].
  split; [|split; [|split; [|split]]].
  - intros pid f Hfind.
    pose proof (bpm_find_range _ _ _ _ Hinv Hfind) as Hrange.
    destruct (bpm_find_resident _ _ _ _ Hinv Hfind)
      as (Hhas & Hf & pg & h & Hpg & Hid & Hpin & Hh & Hl).
    split; [done|]. split; [by rewrite <- Hpool|]. split.
    + intros Hin. destruct (inv_free _ _ Hinv f Hin) as (_ & _ & _ & Hno).
      by apply (Hno pid).
    + exists pg, h. split; [done|]. split; [done|]. split; [lia|done].
  - intros pid pid' f H1 H2.
    apply (eht_Find_has _ _ _ Hwf) in H1, H2.
    by apply (bpm_resident_frame _ b pid' f pid Hinv).
  - apply (inv_free_nodup _ _ Hinv).
  - intros f Hin. destruct (inv_free _ _ Hinv f Hin) as (? & ? & ? & _).
    by rewrite <- Hpool.
  - intros f Hf. rewrite <- Hpool in Hf.
    destruct (inv_cover _ _ Hinv f Hf) as [?|[pid Hp']]; [by left|].
    right. exists pid. by apply (eht_Find_has _ _ _ Hwf).
Qed.

Lemma bpm_pool_consistent_witness :
  EHT.Find (BPM.page_table_ bpm_sample) 1 = Some 1 /\
  BPM.free_list_ bpm_sample = [] /\
  forall f, 0 <= f < 2 ->
    f ∈ BPM.free_list_ bpm_sample \/
    exists pid, EHT.Find (BPM.page_table_ bpm_sample) pid = Some f.
Proof.
  split; [vm_compute; reflexivity|]. split; [vm_compute; reflexivity|].
  apply (bpm_pool_consistent 2 ∅ 2 3 bpm_sample).
  - lia.
  - vm_compute. reflexivity.
  - exact bpm_sample_reach.
  - vm_compute. intros H; discriminate H.
Defined.

Lemma bpm_install_find n b' (t : EHT.ExtendibleHashTable Z) pid f :
  bpm_inv n b' -> bpm_table_install t (BPM.page_table_ b') pid f ->
  EHT.Find (BPM.page_table_ b') pid = Some f.
Proof.
  intros Hinv Hinst. destruct (inv_table _ _ Hinv) as [Hwf _].
  apply (eht_Find_has _ _ _ Hwf). apply Hinst. by left.
Qed.

(** X17.  [NewPgImp] in a reached pool returns nullptr exactly when the free
    list is empty and every frame holds a pinned page, and then changes
    nothing.  Otherwise the new page has the id [next_page_id_], which goes
    up by one; the page table maps the id to the returned frame, and the
    frame holds the id with pin count 1 and zeroed data. *)
Theorem bpm_new_page pool_size disk k n b :
  1 <= k -> Z.of_nat pool_size < 2 ^ 31 ->
  bpm_reach pool_size disk k n b -> Z.of_nat n < 2 ^ 30 ->
  exists b' r,
    BPM.NewPgImp b = Some (b', r) /\
    (r = None <->
     BPM.free_list_ b = [] /\
     forall f, 0 <= f < Z.of_nat pool_size ->
       exists pg, BPM.page_at b f = Some pg /\ 0 < BPM.pin_count_ pg) /\
    (r = None -> b' = b) /\
    (forall pid f, r = Some (pid, f) ->
       pid = BPM.next_page_id_ b /\ BPM.next_page_id_ b' = pid + 1 /\
       0 <= f < Z.of_nat pool_size /\
       EHT.Find (BPM.page_table_ b') pid = Some f /\
       exists d, BPM.page_at b' f = Some (BPM.mkPage pid 1 d 0)).
Proof.
  intros Hk Hp Hreach Hn.
  destruct (bpm_reach_inv _ _ _ _ _ Hk Hp Hreach) as [Hinv Hpool]; [lia|].
  destruct (bpm_NewPgImp_spec _ b Hinv Hn)
    as [(Hfl & Hpinned & ->)|(b' & f & d & -> & Hinv' & _ & Hnext & Hf & Hpages
                               & Hinst & Hcase)].
  - exists b, None. split; [done|]. rewrite <- Hpool. by repeat split.
  - exists b', (Some (BPM.next_page_id_ b, f)). split; [done|].
    split; [|split; [done|]].
    + split; [done|]. intros [Hfl Hpinned]. exfalso.
      destruct Hcase as [[Hfl' _]|(_ & _ & pg & Hpg & Hpin & _)];
        [congruence|].
      rewrite <- Hpool in Hpinned.
      destruct (Hpinned f Hf) as (pg' & Hpg' & Hpin'). 
      rewrite Hpg in Hpg'. injection Hpg' as <-. lia.
    + intros pid f' E. injection E as <- <-. split; [done|]. split; [done|].
      split; [by rewrite <- Hpool|].
      split; [by apply (bpm_install_find (Z.of_nat n + 1) _ (BPM.page_table_ b))|].
      exists d. unfold BPM.page_at. rewrite Hpages.
      apply list_lookup_insert_eq. rewrite (inv_pages _ _ Hinv). lia.
Qed.

Lemma bpm_new_page_witness :
  exists b' r,
    BPM.NewPgImp bpm_sample = Some (b', r) /\
    (r = None <->
     BPM.free_list_ bpm_sample = [] /\
     forall f, 0 <= f < 2 ->
       exists pg, BPM.page_at bpm_sample f = Some pg /\ 0 < BPM.pin_count_ pg) /\
    (r = None -> b' = bpm_sample) /\
    (forall pid f, r = Some (pid, f) ->
       pid = BPM.next_page_id_ bpm_sample /\ BPM.next_page_id_ b' = pid + 1 /\
       0 <= f < 2 /\
       EHT.Find (BPM.page_table_ b') pid = Some f /\
       exists d, BPM.page_at b' f = Some (BPM.mkPage pid 1 d 0)).
Proof.
  apply (bpm_new_page 2 ∅ 2 3 bpm_sample).
  - lia.
  - vm_compute. reflexivity.
  - exact bpm_sample_reach.
  - vm_compute. reflexivity.
Defined.

(** X18.  [FetchPgImp] of a page id handed out before, in a reached pool,
    returns nullptr exactly when the page is not in the pool, the free list
    is empty and every frame holds a pinned page, and then changes nothing.
    Otherwise the page table maps the id to the returned frame afterwards;
    for a page that was in the pool it is the frame it was in, with the pin
    count one up and the data kept; for another page the pin count is 1 and
    the data is what the disk holds for the id. *)
Theorem bpm_fetch_page pool_size disk k n b pid :
  1 <= k -> Z.of_nat pool_size < 2 ^ 31 ->
  bpm_reach pool_size disk k n b -> Z.of_nat n < 2 ^ 30 ->
  0 <= pid < BPM.next_page_id_ b ->
  exists b' r,
    BPM.FetchPgImp b pid = Some (b', r) /\
    (r = None <->
     EHT.Find (BPM.page_table_ b) pid = None /\
     BPM.free_list_ b = [] /\
     forall f, 0 <= f < Z.of_nat pool_size ->
       exists pg, BPM.page_at b f = Some pg /\ 0 < BPM.pin_count_ pg) /\
    (r = None -> b' = b) /\
    (forall f, r = Some f ->
       EHT.Find (BPM.page_table_ b') pid = Some f /\
       exists pg',
         BPM.page_at b' f = Some pg' /\ BPM.page_id_ pg' = pid /\
         match EHT.Find (BPM.page_table_ b) pid with
         | Some f0 =>
             f = f0 /\
             exists pg, BPM.page_at b f = Some pg /\
               BPM.pin_count_ pg' = BPM.pin_count_ pg + 1 /\
               BPM.data_ pg' = BPM.data_ pg
         | None =>
             BPM.pin_count_ pg' = 1 /\
             BPM.data_ pg' = BPM.ReadPage (BPM.disk_manager_ b) pid
         end).
Proof.
  intros Hk Hp Hreach Hn Hpid.
  destruct (bpm_reach_inv _ _ _ _ _ Hk Hp Hreach) as [Hinv Hpool]; [lia|].
  destruct (bpm_FetchPgImp_spec _ b pid Hinv Hn Hpid)
    as [(Hfind & Hfl & Hpinned & ->)|(b' & f & pg' & -> & Hinv' & _ & Hnext & Hf
                                       & Hpages & Hinst & Hcase)].
  - exists b, None. split; [done|]. rewrite <- Hpool. by repeat split.
  - exists b', (Some f). split; [done|].
    assert (Hpg' : BPM.page_at b' f = Some pg').
    { unfold BPM.page_at. rewrite Hpages.
      apply list_lookup_insert_eq. rewrite (inv_pages _ _ Hinv). lia. }
    split; [|split; [done|]].
    + split; [done|]. intros (Hfind & Hfl & Hpinned). exfalso.
      destruct Hcase as [(pg & Hfind' & _)|[(_ & Hfl' & _)|
                          (_ & _ & _ & pg & Hpg & Hpin & _)]];
        [congruence|congruence|].
      rewrite <- Hpool in Hpinned.
      destruct (Hpinned f Hf) as (pg0 & Hpg0 & Hpin0).
      rewrite Hpg in Hpg0. injection Hpg0 as <-. lia.
    + intros f' E. injection E as <-.
      split; [by apply (bpm_install_find (Z.of_nat n + 1) _ (BPM.page_table_ b))|].
      exists pg'. split; [done|].
      destruct Hcase as [(pg & Hfind & Hpg & -> & _)|[(Hfind & _ & _ & ->)|
                          (Hfind & _ & _ & pg & _ & _ & _ & _ & ->)]];
        rewrite Hfind; simpl; try done.
      split; [done|]. split; [done|]. by exists pg.
Qed.

Lemma bpm_fetch_page_witness :
  exists b' r,
    BPM.FetchPgImp bpm_sample 0 = Some (b', r) /\
    (r = None <->
     EHT.Find (BPM.page_table_ bpm_sample) 0 = None /\
     BPM.free_list_ bpm_sample = [] /\
     forall f, 0 <= f < 2 ->
       exists pg, BPM.page_at bpm_sample f = Some pg /\ 0 < BPM.pin_count_ pg) /\
    (r = None -> b' = bpm_sample) /\
    (forall f, r = Some f ->
       EHT.Find (BPM.page_table_ b') 0 = Some f /\
       exists pg',
         BPM.page_at b' f = Some pg' /\ BPM.page_id_ pg' = 0 /\
         match EHT.Find (BPM.page_table_ bpm_sample) 0 with
         | Some f0 =>
             f = f0 /\
             exists pg, BPM.page_at bpm_sample f = Some pg /\
               BPM.pin_count_ pg' = BPM.pin_count_ pg + 1 /\
               BPM.data_ pg' = BPM.data_ pg
         | None =>
             BPM.pin_count_ pg' = 1 /\
             BPM.data_ pg' = BPM.ReadPage (BPM.disk_manager_ bpm_sample) 0
         end).
Proof.
  apply (bpm_fetch_page 2 ∅ 2 3 bpm_sample 0).
  - lia.
  - vm_compute. reflexivity.
  - exact bpm_sample_reach.
  - vm_compute. reflexivity.
  - change (BPM.next_page_id_ bpm_sample) with 2. lia.
Defined.

(** X19.  [UnpinPgImp] in a reached pool returns false exactly when the page
    is not in the pool or its pin count is 0, and then changes nothing.
    Otherwise the pin count of the page goes down by one, its dirty flag
    becomes its old value or [is_dirty] (a false argument does not clear
    it), its data, the other frames, the page table, the free list and the
    disk stay, and the replacer holds the frame evictable exactly when the
    pin count has reached 0. *)
Theorem bpm_unpin_page pool_size disk k n b pid is_dirty :
  1 <= k -> Z.of_nat pool_size < 2 ^ 31 ->
  bpm_reach pool_size disk k n b -> Z.of_nat n <= 2 ^ 30 ->
  exists b' r,
    BPM.UnpinPgImp b pid is_dirty = Some (b', r) /\
    (r = false <->
     EHT.Find (BPM.page_table_ b) pid = None \/
     exists f pg, EHT.Find (BPM.page_table_ b) pid = Some f /\
       BPM.page_at b f = Some pg /\ BPM.pin_count_ pg = 0) /\
    (r = false -> b' = b) /\
    (r = true ->
     exists f pg h,
       EHT.Find (BPM.page_table_ b) pid = Some f /\
       BPM.page_at b f = Some pg /\
       BPM.pages_ b'
       = <[Z.to_nat f := BPM.mkPage pid (BPM.pin_count_ pg - 1)
                           (BPM.is_dirty_ pg || is_dirty) (BPM.data_ pg)]>
           (BPM.pages_ b) /\
       BPM.page_table_ b' = BPM.page_table_ b /\
       BPM.free_list_ b' = BPM.free_list_ b /\
       BPM.disk_manager_ b' = BPM.disk_manager_ b /\
       LRUK.replacer_ (BPM.replacer_ b') !! Z.to_nat f
       = Some (h, bool_decide (BPM.pin_count_ pg - 1 = 0))).
Proof.
  intros Hk Hp Hreach Hn.
  destruct (bpm_reach_inv _ _ _ _ _ Hk Hp Hreach) as [Hinv Hpool]; [lia|].
  destruct (bpm_UnpinPgImp_spec _ b pid is_dirty Hinv)
    as [(-> & Hcase)|(b' & f & pg & -> & Hinv' & Hfind & Hpg & Hpin & _ & _
                       & Hpages & Htab & Hfl & Hdisk)].
  - exists b, false. by repeat split.
  - exists b', true. split; [done|]. split; [|split; [done|]].
    + split; [done|]. intros [Hnone|(f' & pg' & Hfind' & Hpg' & Hpin')];
        [congruence|].
      rewrite Hfind in Hfind'. injection Hfind' as <-.
      rewrite Hpg in Hpg'. injection Hpg' as <-. lia.
    + intros _.
      assert (Hfind' : EHT.Find (BPM.page_table_ b') pid = Some f)
        by (by rewrite Htab).
      destruct (bpm_find_resident _ _ _ _ Hinv' Hfind')
        as (_ & _ & pg' & h & Hpg' & _ & _ & _ & Hl).
      rewrite Hpages, list_lookup_insert_eq in Hpg'
        by (apply lookup_lt_Some in Hpg; done).
      injection Hpg' as <-. exists f, pg, h. done.
Qed.

Lemma bpm_unpin_page_witness :
  exists b' r,
    BPM.UnpinPgImp bpm_sample 1 false = Some (b', r) /\
    (r = false <->
     EHT.Find (BPM.page_table_ bpm_sample) 1 = None \/
     exists f pg, EHT.Find (BPM.page_table_ bpm_sample) 1 = Some f /\
       BPM.page_at bpm_sample f = Some pg /\ BPM.pin_count_ pg = 0) /\
    (r = false -> b' = bpm_sample) /\
    (r = true ->
     exists f pg h,
       EHT.Find (BPM.page_table_ bpm_sample) 1 = Some f /\
       BPM.page_at bpm_sample f = Some pg /\
       BPM.pages_ b'
       = <[Z.to_nat f := BPM.mkPage 1 (BPM.pin_count_ pg - 1)
                           (BPM.is_dirty_ pg || false) (BPM.data_ pg)]>
           (BPM.pages_ bpm_sample) /\
       BPM.page_table_ b' = BPM.page_table_ bpm_sample /\
       BPM.free_list_ b' = BPM.free_list_ bpm_sample /\
       BPM.disk_manager_ b' = BPM.disk_manager_ bpm_sample /\
       LRUK.replacer_ (BPM.replacer_ b') !! Z.to_nat f
       = Some (h, bool_decide (BPM.pin_count_ pg - 1 = 0))).
Proof.
  apply (bpm_unpin_page 2 ∅ 2 3 bpm_sample 1 false).
  - lia.
  - vm_compute. reflexivity.
  - exact bpm_sample_reach.
  - vm_compute. intros H; discriminate H.
Defined.

(** A page in a frame other than the one a call changes stays where it is. *)
Lemma bpm_frame_kept n n' b b' pid f pg f1 pg1 :
  bpm_inv n b -> bpm_inv n' b' ->
  BPM.pages_ b' = <[Z.to_nat f1 := pg1]> (BPM.pages_ b) ->
  (eht_has (BPM.page_table_ b) pid f -> eht_has (BPM.page_table_ b') pid f) ->
  0 <= f1 -> f <> f1 ->
  EHT.Find (BPM.page_table_ b) pid = Some f -> BPM.page_at b f = Some pg ->
  EHT.Find (BPM.page_table_ b') pid = Some f /\ BPM.page_at b' f = Some pg.
Proof.
  intros Hinv Hinv' Hpages Htab Hf1 Hne Hfind Hpg.
  destruct (bpm_find_resident _ _ _ _ Hinv Hfind) as (Hhas & Hf & _).
  destruct (inv_table _ _ Hinv') as [Hwf' _]. split.
  - apply (eht_Find_has _ _ _ Hwf'). by apply Htab.
  - unfold BPM.page_at in *. rewrite Hpages.
    rewrite list_lookup_insert_ne by lia. done.
Qed.

(** X20.  A pinned page stays: a call other than [FetchPgImp],
    [UnpinPgImp] and [FlushPgImp] of the page itself leaves a page with pin
    count above 0 in its frame, with its data, flag and pin count; it is
    never the victim of an eviction, and [DeletePgImp] of it does
    nothing. *)
Theorem bpm_pinned_pages_stay pool_size disk k n b op b' pid f pg :
  1 <= k -> Z.of_nat pool_size < 2 ^ 31 ->
  bpm_reach pool_size disk k n b -> Z.of_nat n < 2 ^ 30 ->
  bpm_op_ok b op -> bpm_step b op = Some b' ->
  EHT.Find (BPM.page_table_ b) pid = Some f ->
  BPM.page_at b f = Some pg -> 0 < BPM.pin_count_ pg ->
  op <> BFetchPage pid -> (forall d, op <> BUnpinPage pid d) ->
  op <> BFlushPage pid ->
  EHT.Find (BPM.page_table_ b') pid = Some f /\ BPM.page_at b' f = Some pg.
Proof.
  intros Hk Hp Hreach Hn Hok Hstep Hfind Hpg Hpin Hnf Hnu Hnfl.
  destruct (bpm_reach_inv _ _ _ _ _ Hk Hp Hreach) as [Hinv Hpool]; [lia|].
  destruct (bpm_find_resident _ _ _ _ Hinv Hfind) as (Hhas & Hf & _).
  destruct op as [|p|p d|p|p]; simpl in Hstep, Hok.
  - destruct (bpm_NewPgImp_spec _ b Hinv Hn)
      as [(_ & _ & E)|(b2 & f1 & d & E & Hinv' & _ & _ & Hf1 & Hpages & Hinst
                        & Hcase)];
      rewrite E in Hstep; injection Hstep as <-; [done|].
    assert (Hne : f <> f1).
    { intros ->. destruct Hcase as [[Hfl _]|(_ & _ & pg1 & Hpg1 & Hpin1 & _)].
      - destruct (inv_free _ _ Hinv f1) as (_ & _ & _ & Hno);
          [rewrite Hfl; by left|]. by apply (Hno pid).
      - rewrite Hpg in Hpg1. injection Hpg1 as <-. lia. }
    apply (bpm_frame_kept _ _ b b2 pid f pg f1 _ Hinv Hinv' Hpages);
      try done; [|lia].
    intros _. apply Hinst. by right.
  - destruct (bpm_FetchPgImp_spec _ b p Hinv Hn Hok)
      as [(_ & _ & _ & E)|(b2 & f1 & pg' & E & Hinv' & _ & _ & Hf1 & Hpages
                            & Hinst & Hcase)];
      rewrite E in Hstep; injection Hstep as <-; [done|].
    assert (Hne : f <> f1).
    { intros ->.
      destruct Hcase as [(pg1 & Hfind1 & _)|[(_ & Hfl & _)|
                          (_ & _ & _ & pg1 & Hpg1 & Hpin1 & _)]].
      - destruct (inv_table _ _ Hinv) as [Hwf _].
        apply (eht_Find_has _ _ _ Hwf) in Hfind1.
        apply Hnf. f_equal. by apply (bpm_resident_frame _ b pid f1 p Hinv).
      - destruct (inv_free _ _ Hinv f1) as (_ & _ & _ & Hno);
          [rewrite Hfl; by left|]. by apply (Hno pid).
      - rewrite Hpg in Hpg1. injection Hpg1 as <-. lia. }
    apply (bpm_frame_kept _ _ b b2 pid f pg f1 _ Hinv Hinv' Hpages);
      try done; [|lia].
    intros _. apply Hinst. by right.
  - destruct (bpm_UnpinPgImp_spec _ b p d Hinv)
      as [(E & _)|(b2 & f1 & pg1 & E & Hinv' & Hfind1 & Hpg1 & _ & _ & _
                    & Hpages & Htab & _)];
      rewrite E in Hstep; injection Hstep as <-; [done|].
    destruct (bpm_find_resident _ _ _ _ Hinv Hfind1) as (Hhas1 & Hf1 & _).
    assert (Hne : f <> f1).
    { intros ->. apply (Hnu d). f_equal.
      by apply (bpm_resident_frame _ b pid f1 p Hinv). }
    apply (bpm_frame_kept _ _ b b2 pid f pg f1 _ Hinv Hinv' Hpages);
      try done; [|lia].
    by rewrite Htab.
  - destruct (bpm_FlushPgImp_spec _ b p Hinv)
      as [(E & _)|(b2 & f1 & pg1 & E & Hinv' & Hfind1 & Hpg1 & _ & _
                    & Hpages & Htab & _)];
      rewrite E in Hstep; injection Hstep as <-; [done|].
    destruct (bpm_find_resident _ _ _ _ Hinv Hfind1) as (Hhas1 & Hf1 & _).
    assert (Hne : f <> f1).
    { intros ->. apply Hnfl. f_equal.
      by apply (bpm_resident_frame _ b pid f1 p Hinv). }
    apply (bpm_frame_kept _ _ b b2 pid f pg f1 _ Hinv Hinv' Hpages);
      try done; [|lia].
    by rewrite Htab.
  - destruct (bpm_DeletePgImp_spec _ b p Hinv)
      as [(E & _)|[(E & _)|(b2 & f1 & pg1 & E & Hinv' & Hfind1 & Hpg1 & Hpin1
                             & _ & _ & Hpages & Htab & _)]];
      rewrite E in Hstep; injection Hstep as <-; [done|done|].
    destruct (bpm_find_resident _ _ _ _ Hinv Hfind1) as (Hhas1 & Hf1 & _).
    assert (Hne : f <> f1).
    { intros ->. rewrite Hpg in Hpg1. injection Hpg1 as <-. lia. }
    apply (bpm_frame_kept _ _ b b2 pid f pg f1 _ Hinv Hinv' Hpages);
      try done; [|lia].
    intros _. by apply Htab.
Qed.

Lemma bpm_pinned_pages_stay_witness :
  exists b',
    bpm_step bpm_sample BNewPage = Some b' /\
    EHT.Find (BPM.page_table_ b') 1 = Some 1 /\
    BPM.page_at b' 1 = Some (BPM.mkPage 1 1 false 0).
Proof.
  exists (default bpm_sample (bpm_step bpm_sample BNewPage)).
  split; [vm_compute; reflexivity|].
  apply (bpm_pinned_pages_stay 2 ∅ 2 3 bpm_sample BNewPage _ 1 1
           (BPM.mkPage 1 1 false 0)).
  - lia.
  - vm_compute. reflexivity.
  - exact bpm_sample_reach.
  - vm_compute. reflexivity.
  - exact I.
  - vm_compute. reflexivity.
  - vm_compute. reflexivity.
  - vm_compute. reflexivity.
  - simpl. lia.
  - discriminate.
  - discriminate.
  - discriminate.
Defined.

Lemma bpm_ReadPage_written d pid bytes :
  BPM.ReadPage (BPM.WritePage d pid bytes) pid = bytes.
Proof.
  unfold BPM.ReadPage, BPM.WritePage, BPM.DiskManager, BPM.Data in *.
  by rewrite lookup_insert_eq.
Qed.

(** X21.  A page leaves the pool only unpinned and written back: when a page
    of the pool is no longer in the page table after a call, its pin count
    was 0, and the disk then holds its data if it was dirty and what it
    held before if it was clean. *)
Theorem bpm_dropped_page_written pool_size disk k n b op b' pid f pg :
  1 <= k -> Z.of_nat pool_size < 2 ^ 31 ->
  bpm_reach pool_size disk k n b -> Z.of_nat n < 2 ^ 30 ->
  bpm_op_ok b op -> bpm_step b op = Some b' ->
  EHT.Find (BPM.page_table_ b) pid = Some f ->
  BPM.page_at b f = Some pg ->
  EHT.Find (BPM.page_table_ b') pid = None ->
  BPM.pin_count_ pg = 0 /\
  BPM.ReadPage (BPM.disk_manager_ b') pid
  = if BPM.is_dirty_ pg then BPM.data_ pg
    else BPM.ReadPage (BPM.disk_manager_ b) pid.
Proof.
  intros Hk Hp Hreach Hn Hok Hstep Hfind Hpg Hgone.
  destruct (bpm_reach_inv _ _ _ _ _ Hk Hp Hreach) as [Hinv Hpool]; [lia|].
  destruct (bpm_find_resident _ _ _ _ Hinv Hfind)
    as (Hhas & Hf & pg0 & h & Hpg0 & Hid & _).
  unfold BPM.page_at in Hpg. rewrite Hpg in Hpg0. injection Hpg0 as <-.
  assert (Hkept : forall n' , bpm_inv n' b' ->
            ~ eht_has (BPM.page_table_ b') pid f).
  { intros n' Hinv' Hh. destruct (inv_table _ _ Hinv') as [Hwf' _].
    apply (eht_Find_has _ _ _ Hwf') in Hh. congruence. }
  assert (Hvictim : forall f1 pg1 (d' : BPM.DiskManager),
            BPM.page_at b f1 = Some pg1 -> BPM.pin_count_ pg1 = 0 ->
            eht_has (BPM.page_table_ b) (BPM.page_id_ pg1) f1 ->
            d' = (if BPM.is_dirty_ pg1
                  then BPM.WritePage (BPM.disk_manager_ b) (BPM.page_id_ pg1)
                         (BPM.data_ pg1)
                  else BPM.disk_manager_ b) ->
            f = f1 ->
            BPM.pin_count_ pg = 0 /\
            BPM.ReadPage d' pid
            = if BPM.is_dirty_ pg then BPM.data_ pg
              else BPM.ReadPage (BPM.disk_manager_ b) pid).
  { intros f1 pg1 d' Hpg1 Hpin1 Hhas1 -> <-.
    unfold BPM.page_at in Hpg1. rewrite Hpg in Hpg1. injection Hpg1 as <-.
    split; [done|]. rewrite Hid.
    destruct (BPM.is_dirty_ pg); [|done]. apply bpm_ReadPage_written. }
  destruct op as [|p|p d|p|p]; simpl in Hstep, Hok.
  - destruct (bpm_NewPgImp_spec _ b Hinv Hn)
      as [(_ & _ & E)|(b2 & f1 & d & E & Hinv' & _ & _ & Hf1 & Hpages & Hinst
                        & Hcase)];
      rewrite E in Hstep; injection Hstep as <-; [congruence|].
    assert (Heq : f = f1).
    { destruct (decide (f = f1)) as [|Hne]; [done|]. exfalso.
      apply (Hkept _ Hinv'). apply Hinst. by right. }
    destruct Hcase as [[Hfl _]|(_ & _ & pg1 & Hpg1 & Hpin1 & Hhas1 & Hdisk)].
    + exfalso. destruct (inv_free _ _ Hinv f1) as (_ & _ & _ & Hno);
        [rewrite Hfl; by left|]. subst f1. by apply (Hno pid).
    + by apply (Hvictim f1 pg1).
  - destruct (bpm_FetchPgImp_spec _ b p Hinv Hn Hok)
      as [(_ & _ & _ & E)|(b2 & f1 & pg' & E & Hinv' & _ & _ & Hf1 & Hpages
                            & Hinst & Hcase)];
      rewrite E in Hstep; injection Hstep as <-; [congruence|].
    assert (Heq : f = f1).
    { destruct (decide (f = f1)) as [|Hne]; [done|]. exfalso.
      apply (Hkept _ Hinv'). apply Hinst. by right. }
    destruct Hcase as [(pg1 & Hfind1 & _)|[(_ & Hfl & _)|
                        (_ & _ & _ & pg1 & Hpg1 & Hpin1 & Hhas1 & Hdisk & _)]].
    + exfalso. subst f1. destruct (inv_table _ _ Hinv) as [Hwf _].
      apply (eht_Find_has _ _ _ Hwf) in Hfind1.
      assert (p = pid) as -> by (by apply (bpm_resident_frame _ b pid f p Hinv)).
      apply (Hkept _ Hinv'). apply Hinst. by left.
    + exfalso. destruct (inv_free _ _ Hinv f1) as (_ & _ & _ & Hno);
        [rewrite Hfl; by left|]. subst f1. by apply (Hno pid).
    + by apply (Hvictim f1 pg1).
  - destruct (bpm_UnpinPgImp_spec _ b p d Hinv)
      as [(E & _)|(b2 & f1 & pg1 & E & Hinv' & _ & _ & _ & _ & _
                    & Hpages & Htab & _)];
      rewrite E in Hstep; injection Hstep as <-; congruence.
  - destruct (bpm_FlushPgImp_spec _ b p Hinv)
      as [(E & _)|(b2 & f1 & pg1 & E & Hinv' & _ & _ & _ & _
                    & Hpages & Htab & _)];
      rewrite E in Hstep; injection Hstep as <-; congruence.
  - destruct (bpm_DeletePgImp_spec _ b p Hinv)
      as [(E & _)|[(E & _)|(b2 & f1 & pg1 & E & Hinv' & Hfind1 & Hpg1 & Hpin1
                             & _ & _ & Hpages & Htab & _ & Hdisk)]];
      rewrite E in Hstep; injection Hstep as <-; [congruence|congruence|].
    assert (Heq : f = f1).
    { destruct (decide (f = f1)) as [|Hne]; [done|]. exfalso.
      apply (Hkept _ Hinv'). by apply Htab. }
    destruct (bpm_find_resident _ _ _ _ Hinv Hfind1)
      as (Hhas1 & _ & pg2 & _ & Hpg2 & Hid2 & _).
    unfold BPM.page_at in Hpg1. rewrite Hpg1 in Hpg2. injection Hpg2 as <-.
    apply (Hvictim f1 pg1); try done; [by rewrite Hid2|].
    by rewrite Hid2.
Qed.

Lemma bpm_dropped_page_written_witness :
  exists b',
    bpm_step bpm_sample BNewPage = Some b' /\
    BPM.pin_count_ (BPM.mkPage 0 0 true 0) = 0 /\
    BPM.ReadPage (BPM.disk_manager_ b') 0 = 0.
Proof.
  exists (default bpm_sample (bpm_step bpm_sample BNewPage)).
  split; [vm_compute; reflexivity|].
  apply (bpm_dropped_page_written 2 ∅ 2 3 bpm_sample BNewPage _ 0 0
           (BPM.mkPage 0 0 true 0)).
  - lia.
  - vm_compute. reflexivity.
  - exact bpm_sample_reach.
  - vm_compute. reflexivity.
  - exact I.
  - vm_compute. reflexivity.
  - vm_compute. reflexivity.
  - vm_compute. reflexivity.
  - vm_compute. reflexivity.
Defined.

(** X22.  [DeletePgImp] of a page of a reached pool returns false exactly
    when the page is pinned, and then changes nothing.  Otherwise the page
    is no longer in the page table, the other pages stay in it, the frame
    is blank and goes to the end of the free list, and the replacer has no
    history of it. *)
Theorem bpm_delete_page pool_size disk k n b pid f pg :
  1 <= k -> Z.of_nat pool_size < 2 ^ 31 ->
  bpm_reach pool_size disk k n b -> Z.of_nat n <= 2 ^ 30 ->
  EHT.Find (BPM.page_table_ b) pid = Some f ->
  BPM.page_at b f = Some pg ->
  exists b' r,
    BPM.DeletePgImp b pid = Some (b', r) /\
    (r = false <-> 0 < BPM.pin_count_ pg) /\
    (r = false -> b' = b) /\
    (r = true ->
     EHT.Find (BPM.page_table_ b') pid = None /\
     (forall pid', pid' <> pid ->
        EHT.Find (BPM.page_table_ b') pid' = EHT.Find (BPM.page_table_ b) pid') /\
     BPM.free_list_ b' = BPM.free_list_ b ++ [f] /\
     BPM.page_at b' f = Some (BPM.mkPage 0 0 false 0) /\
     LRUK.replacer_ (BPM.replacer_ b') !! Z.to_nat f = Some ([], false)).
Proof.
  intros Hk Hp Hreach Hn Hfind Hpg.
  destruct (bpm_reach_inv _ _ _ _ _ Hk Hp Hreach) as [Hinv Hpool]; [lia|].
  destruct (bpm_find_resident _ _ _ _ Hinv Hfind) as (Hhas & Hf & _).
  destruct (inv_table _ _ Hinv) as [Hwf _].
  destruct (bpm_DeletePgImp_spec _ b pid Hinv)
    as [(_ & E)|[(-> & f1 & pg1 & Hfind1 & Hpg1 & Hpin1)|
                 (b' & f1 & pg1 & -> & Hinv' & Hfind1 & Hpg1 & Hpin1 & _ & _
                  & Hpages & Htab & Hfl & _)]]; [congruence| |].
  - rewrite Hfind in Hfind1. injection Hfind1 as <-.
    rewrite Hpg in Hpg1. injection Hpg1 as <-.
    exists b, false. by repeat split.
  - rewrite Hfind in Hfind1. injection Hfind1 as <-.
    rewrite Hpg in Hpg1. injection Hpg1 as <-.
    destruct (inv_table _ _ Hinv') as [Hwf' _].
    exists b', true. split; [done|]. split; [split; [done|lia]|].
    split; [done|]. intros _.
    assert (Hin : f ∈ BPM.free_list_ b').
    { rewrite Hfl. apply elem_of_app. right. by apply list_elem_of_singleton. }
    destruct (inv_free _ _ Hinv' f Hin) as (_ & Hblank & Hl & Hno).
    split; [|split; [|done]].
    + destruct (EHT.Find (BPM.page_table_ b') pid) as [v|] eqn:E; [|done].
      apply (eht_Find_has _ _ _ Hwf') in E. apply Htab in E as [E Hv].
      exfalso. apply Hv. by apply (eht_has_fun (BPM.page_table_ b) pid).
    + intros pid' Hne. apply option_eq. intros v.
      rewrite (eht_Find_has _ _ _ Hwf'), (eht_Find_has _ _ _ Hwf), Htab.
      split; [by intros [? _]|]. intros Hv. split; [done|]. intros ->.
      apply Hne. by apply (bpm_resident_frame _ b pid f pid' Hinv).
Qed.

Lemma bpm_delete_page_witness :
  exists b' r,
    BPM.DeletePgImp bpm_sample 0 = Some (b', r) /\
    (r = false <-> 0 < BPM.pin_count_ (BPM.mkPage 0 0 true 0)) /\
    (r = false -> b' = bpm_sample) /\
    (r = true ->
     EHT.Find (BPM.page_table_ b') 0 = None /\
     (forall pid', pid' <> 0 ->
        EHT.Find (BPM.page_table_ b') pid'
        = EHT.Find (BPM.page_table_ bpm_sample) pid') /\
     BPM.free_list_ b' = BPM.free_list_ bpm_sample ++ [0] /\
     BPM.page_at b' 0 = Some (BPM.mkPage 0 0 false 0) /\
     LRUK.replacer_ (BPM.replacer_ b') !! Z.to_nat 0 = Some ([], false)).
Proof.
  apply (bpm_delete_page 2 ∅ 2 3 bpm_sample 0 0 (BPM.mkPage 0 0 true 0)).
  - lia.
  - vm_compute. reflexivity.
  - exact bpm_sample_reach.
  - vm_compute. intros H; discriminate H.
  - vm_compute. reflexivity.
  - vm_compute. reflexivity.
Defined.

(** ** Trie *)

Section TrieProofs.
Context {TypeId Val : Type} `{EqDecision TypeId}.
Variable type_of : Val -> TypeId.

Implicit Types n m new root : Trie.TrieNode Val.
Implicit Types p q r cur : Trie.Ptr.

Lemma trie_node_eta n :
  Trie.mkNode (Trie.key_char_ n) (Trie.is_end_ n) (Trie.value_ n)
    (Trie.children_ n) = n.
Proof. by destruct n. Qed.

Lemma trie_deref_app n p q :
  Trie.deref n (p ++ q) = Trie.deref n p ≫= fun m => Trie.deref m q.
Proof.
  revert n. induction p as [|c p IH]; intros n; simpl; [done|].
  destruct (Trie.children_ n !! c) as [ch|]; simpl; [apply IH|done].
Qed.

Lemma trie_deref_snoc n m p c :
  Trie.deref n p = Some m ->
  Trie.deref n (p ++ [c]) = Trie.children_ m !! c.
Proof.
  intros Hp. rewrite trie_deref_app, Hp. simpl.
  by destruct (Trie.children_ m !! c).
Qed.

Lemma trie_deref_prefix n p q :
  is_Some (Trie.deref n (p ++ q)) -> is_Some (Trie.deref n p).
Proof.
  rewrite trie_deref_app. destruct (Trie.deref n p); [by eexists|].
  by intros [? ?].
Qed.

Lemma trie_assign_same n m p :
  Trie.deref n p = Some m -> Trie.assign n p m = n.
Proof.
  revert n. induction p as [|c p IH]; intros n Hp; simpl in *.
  - by injection Hp as ->.
  - destruct (Trie.children_ n !! c) as [ch|] eqn:E; simpl in *; [|done].
    rewrite (IH ch) by done. rewrite insert_id by done. apply trie_node_eta.
Qed.

Lemma trie_deref_assign n m new p q :
  Trie.deref n p = Some m ->
  Trie.deref (Trie.assign n p new) (p ++ q) = Trie.deref new q.
Proof.
  revert n. induction p as [|c p IH]; intros n Hp; simpl in *; [done|].
  destruct (Trie.children_ n !! c) as [ch|] eqn:E; simpl in *; [|done].
  rewrite lookup_insert_eq. simpl. by apply IH.
Qed.

Lemma trie_deref_assign_eq n m new p :
  Trie.deref n p = Some m -> Trie.deref (Trie.assign n p new) p = Some new.
Proof.
  intros Hp. rewrite <- (app_nil_r p) at 2.
  by rewrite (trie_deref_assign n m).
Qed.

(** A store through [p] leaves the nodes above [p] where they are. *)
Lemma trie_deref_assign_above n m new p q :
  Trie.deref n (p ++ q) = Some m ->
  is_Some (Trie.deref (Trie.assign n (p ++ q) new) p).
Proof.
  revert n. induction p as [|c p IH]; intros n Hp; simpl in *; [by eexists|].
  destruct (Trie.children_ n !! c) as [ch|] eqn:E; simpl in *; [|done].
  rewrite lookup_insert_eq. simpl. by apply IH.
Qed.

(** What a key finds at the end of its path: nothing, an end mark without
    a value, or a value. *)
Definition trie_view n q : option (option Val) :=
  match Trie.deref n q with
  | Some m => if Trie.is_end_ m then Some (Trie.value_ m) else None
  | None => None
  end.

Lemma trie_view_app n m p r :
  Trie.deref n p = Some m -> trie_view n (p ++ r) = trie_view m r.
Proof. intros Hp. unfold trie_view. by rewrite trie_deref_app, Hp. Qed.

Lemma trie_view_assign_below n m new p r :
  Trie.deref n p = Some m ->
  trie_view (Trie.assign n p new) (p ++ r) = trie_view new r.
Proof. intros Hp. unfold trie_view. by rewrite (trie_deref_assign n m). Qed.

(** A store through [p] is not seen by the keys that do not pass [p]. *)
Lemma trie_view_assign_other n m new p q :
  Trie.deref n p = Some m -> ~ p `prefix_of` q ->
  trie_view (Trie.assign n p new) q = trie_view n q.
Proof.
  unfold trie_view.
  revert n q. induction p as [|c p IH]; intros n q Hp Hq; simpl in *.
  - exfalso. apply Hq. by exists q.
  - destruct (Trie.children_ n !! c) as [ch|] eqn:E; simpl in *; [|done].
    destruct q as [|d q]; simpl; [done|].
    destruct (decide (d = c)) as [->|Hne].
    + rewrite lookup_insert_eq, E. simpl. apply (IH ch); [done|].
      intros [r ->]. apply Hq. by exists r.
    + by rewrite lookup_insert_ne.
Qed.

(** A node stored in place of one with the same views changes no view. *)
Lemma trie_view_assign n m new p :
  Trie.deref n p = Some m ->
  (forall r, trie_view new r = trie_view m r) ->
  forall q, trie_view (Trie.assign n p new) q = trie_view n q.
Proof.
  intros Hp Hsame q. destruct (decide (p `prefix_of` q)) as [[r ->]|Hq].
  - by rewrite (trie_view_assign_below n m), (trie_view_app n m), Hsame.
  - by apply (trie_view_assign_other n m).
Qed.

(** A node stored in place of one with the same children changes the view
    of [p] only. *)
Lemma trie_view_assign_fields n m new p q :
  Trie.deref n p = Some m -> Trie.children_ new = Trie.children_ m ->
  q <> p ->
  trie_view (Trie.assign n p new) q = trie_view n q.
Proof.
  intros Hp Hch Hq. destruct (decide (p `prefix_of` q)) as [[r ->]|Hpre].
  - rewrite (trie_view_assign_below n m), (trie_view_app n m) by done.
    destruct r as [|c r]; [by rewrite app_nil_r in Hq|].
    unfold trie_view. simpl. by rewrite Hch.
  - by apply (trie_view_assign_other n m).
Qed.

Lemma trie_view_leaf n r :
  Trie.is_end_ n = false -> Trie.children_ n = ∅ -> trie_view n r = None.
Proof.
  intros He Hch. unfold trie_view. destruct r as [|c r]; simpl.
  - by rewrite He.
  - by rewrite Hch, lookup_empty.
Qed.

(** [GetValue<T>] of what a key finds. *)
Definition trie_get (T : TypeId) (o : option (option Val)) : option Val :=
  match o with
  | Some (Some v) => if bool_decide (type_of v = T) then Some v else None
  | _ => None
  end.

Lemma trie_GetValue_find key : forall root cur n,
  Trie.deref root cur = Some n ->
  Trie.GetValue_find key root cur
  = Some (match Trie.deref root (cur ++ key) with
          | Some _ => Some (cur ++ key)
          | None => None
          end).
Proof.
  induction key as [|it key IH]; intros root cur n Hcur; simpl.
  - by rewrite app_nil_r, Hcur.
  - rewrite Hcur. simpl. unfold Trie.GetChildNode.
    pose proof (trie_deref_snoc root n cur it Hcur) as Hsnoc.
    replace (cur ++ it :: key) with ((cur ++ [it]) ++ key)
      by (by rewrite <- app_assoc).
    destruct (Trie.children_ n !! it) as [ch|] eqn:E.
    + by apply (IH root (cur ++ [it]) ch).
    + by rewrite trie_deref_app, Hsnoc.
Qed.

Lemma trie_key_nonempty (key : string) :
  key <> String.EmptyString -> String.list_ascii_of_string key <> [].
Proof. by destruct key. Qed.

Lemma trie_key_inj (key key' : string) :
  String.list_ascii_of_string key = String.list_ascii_of_string key' ->
  key = key'.
Proof.
  intros E. rewrite <- (String.string_of_list_ascii_of_string key),
    <- (String.string_of_list_ascii_of_string key'). by rewrite E.
Qed.

(** [GetValue] reads the view of the key. *)
Lemma trie_GetValue_view T (t : Trie.Trie Val) (key : string) :
  Trie.GetValue type_of T t key
  = Some (if bool_decide (key = String.EmptyString) then None
          else trie_get T (trie_view (Trie.root_ t)
                             (String.list_ascii_of_string key))).
Proof.
  unfold Trie.GetValue. case_bool_decide; [done|].
  rewrite (trie_GetValue_find _ _ [] (Trie.root_ t)) by done. simpl.
  unfold trie_view, trie_get, Trie.IsEndNode.
  destruct (Trie.deref (Trie.root_ t) (String.list_ascii_of_string key))
    as [n|] eqn:E; simpl; [rewrite E; simpl|done].
  destruct (Trie.is_end_ n); [|done].
  destruct (Trie.value_ n) as [v|]; [|done].
  by destruct (bool_decide _).
Qed.

(** The first loop of [Insert]: it ends at the slot of the key, and the
    nodes it makes are seen by no key. *)
Lemma trie_Insert_loop key : forall root cur n,
  Trie.deref root cur = Some n ->
  exists root' final,
    Trie.Insert_loop key root cur = Some (root', cur ++ key) /\
    Trie.deref root' (cur ++ key) = Some final /\
    (forall q, trie_view root' q = trie_view root q) /\
    (is_Some (Trie.deref root (cur ++ key)) -> root' = root).
Proof.
  induction key as [|it key IH]; intros root cur n Hcur; simpl.
  - exists root, n. rewrite app_nil_r. done.
  - rewrite Hcur. simpl. unfold Trie.GetChildNode.
    pose proof (trie_deref_snoc root n cur it Hcur) as Hsnoc.
    replace (cur ++ it :: key) with ((cur ++ [it]) ++ key)
      by (by rewrite <- app_assoc).
    destruct (Trie.children_ n !! it) as [ch|] eqn:E.
    + by apply (IH root (cur ++ [it]) ch).
    + set (n1 := Trie.InsertChildNode n it (Trie.TrieNode_new it)).
      assert (Hn1 : n1 = Trie.mkNode (Trie.key_char_ n) (Trie.is_end_ n)
                          (Trie.value_ n)
                          (<[it := Trie.TrieNode_new it]> (Trie.children_ n))).
      { unfold n1, Trie.InsertChildNode, Trie.HasChild. simpl.
        rewrite bool_decide_eq_true_2 by done.
        rewrite bool_decide_eq_false_2; [done|]. rewrite E. by intros [? ?]. }
      set (root1 := Trie.assign root cur n1).
      assert (Hcur1 : Trie.deref root1 cur = Some n1)
        by (by apply (trie_deref_assign_eq root n)).
      rewrite Hcur1. simpl.
      assert (Hch : Trie.children_ n1 !! it = Some (Trie.TrieNode_new it))
        by (rewrite Hn1; simpl; apply lookup_insert_eq).
      rewrite Hch. simpl.
      destruct (IH root1 (cur ++ [it]) (Trie.TrieNode_new it))
        as (root' & final & Hloop & Hfinal & Hview & _).
      { by rewrite (trie_deref_snoc root1 n1). }
      exists root', final. split; [done|]. split; [done|]. split.
      * intros q. rewrite Hview. apply (trie_view_assign root n); [done|].
        intros r. unfold trie_view. destruct r as [|d r]; simpl.
        { by rewrite Hn1. }
        rewrite Hn1. simpl. destruct (decide (d = it)) as [->|Hne].
        -- rewrite lookup_insert_eq, E. simpl.
           destruct r; simpl; [done|]. by rewrite lookup_empty.
        -- by rewrite lookup_insert_ne.
      * rewrite trie_deref_app, Hsnoc. simpl. by intros [? ?].
Qed.

Lemma trie_eta (t : Trie.Trie Val) : Trie.mkTrie (Trie.root_ t) = t.
Proof. by destruct t. Qed.

Lemma trie_Insert_spec (t : Trie.Trie Val) (key : string) (value : Val) :
  key <> String.EmptyString ->
  let k := String.list_ascii_of_string key in
  (exists v, trie_view (Trie.root_ t) k = Some v /\
     Trie.Insert t key value = Some (t, false)) \/
  (exists t',
     trie_view (Trie.root_ t) k = None /\
     Trie.Insert t key value = Some (t', true) /\
     trie_view (Trie.root_ t') k = Some (Some value) /\
     forall q, q <> k -> trie_view (Trie.root_ t') q = trie_view (Trie.root_ t) q).
Proof.
  intros Hkey k. unfold Trie.Insert.
  rewrite bool_decide_eq_false_2 by done.
  destruct (trie_Insert_loop k (Trie.root_ t) [] (Trie.root_ t) eq_refl)
    as (root' & final & Hloop & Hfinal & Hview & Hsame).
  fold k. rewrite Hloop. simpl in *. rewrite Hfinal. simpl.
  unfold Trie.IsEndNode.
  assert (Hk : trie_view root' k
               = if Trie.is_end_ final then Some (Trie.value_ final) else None)
    by (unfold trie_view; by rewrite Hfinal).
  destruct (Trie.is_end_ final) eqn:He.
  - left. exists (Trie.value_ final). rewrite <- Hview, Hk. split; [done|].
    rewrite Hsame, trie_eta; [done|].
    rewrite Hview in Hk. unfold trie_view in Hk.
    destruct (Trie.deref (Trie.root_ t) k); [by eexists|done].
  - right. eexists. split; [by rewrite <- Hview|]. split; [done|]. simpl.
    split.
    + unfold trie_view. by rewrite (trie_deref_assign_eq root' final).
    + intros q Hq. rewrite <- Hview.
      by apply (trie_view_assign_fields root' final).
Qed.

(** The children maps are keyed by the characters of the children. *)
Inductive trie_wf : Trie.TrieNode Val -> Prop :=
  | trie_wf_node n :
      (forall c ch, Trie.children_ n !! c = Some ch -> Trie.key_char_ ch = c) ->
      (forall c ch, Trie.children_ n !! c = Some ch -> trie_wf ch) ->
      trie_wf n.

Lemma trie_wf_child n c ch :
  trie_wf n -> Trie.children_ n !! c = Some ch ->
  Trie.key_char_ ch = c /\ trie_wf ch.
Proof.
  intros Hwf Hc. inversion Hwf as [? Hkc Hch]. split; [by apply Hkc|].
  by apply (Hch c).
Qed.

Lemma trie_wf_deref n p m :
  trie_wf n -> Trie.deref n p = Some m -> trie_wf m.
Proof.
  revert n. induction p as [|c p IH]; intros n Hwf Hp; simpl in *.
  - by injection Hp as <-.
  - destruct (Trie.children_ n !! c) as [ch|] eqn:E; simpl in *; [|done].
    apply (IH ch); [|done]. by apply (trie_wf_child n c).
Qed.

Lemma trie_wf_deref_snoc n p c m :
  trie_wf n -> Trie.deref n (p ++ [c]) = Some m -> Trie.key_char_ m = c.
Proof.
  intros Hwf Hp. rewrite trie_deref_app in Hp.
  destruct (Trie.deref n p) as [pn|] eqn:E; simpl in Hp; [|done].
  destruct (Trie.children_ pn !! c) as [ch|] eqn:Ec; simpl in Hp; [|done].
  injection Hp as <-.
  destruct (trie_wf_child pn c ch) as [? _]; [by apply (trie_wf_deref n p)|done|done].
Qed.

Lemma trie_wf_assign n p m new :
  trie_wf n -> Trie.deref n p = Some m -> trie_wf new ->
  Trie.key_char_ new = Trie.key_char_ m ->
  trie_wf (Trie.assign n p new).
Proof.
  revert n. induction p as [|c p IH]; intros n Hwf Hp Hnew Hc; simpl in *;
    [done|].
  destruct (Trie.children_ n !! c) as [ch|] eqn:E; simpl in *; [|done].
  destruct (trie_wf_child n c ch Hwf E) as [Hkc Hwfch].
  constructor; simpl; intros d ch' Hd;
    (destruct (decide (d = c)) as [->|Hne];
     [rewrite lookup_insert_eq in Hd; injection Hd as <-
     |rewrite lookup_insert_ne in Hd by done; by apply (trie_wf_child n d)]).
  - destruct p as [|a p]; simpl in *; [|by destruct (Trie.children_ ch !! a)].
    injection Hp as <-. congruence.
  - by apply IH.
Qed.

Lemma trie_wf_new c : trie_wf (Trie.TrieNode_new c).
Proof. constructor; simpl; intros d ch Hd; by rewrite lookup_empty in Hd. Qed.

Lemma trie_wf_fields n new :
  trie_wf n -> Trie.children_ new = Trie.children_ n -> trie_wf new.
Proof.
  intros Hwf Hch. constructor; rewrite Hch; intros c ch Hc;
    by apply (trie_wf_child n c).
Qed.

Lemma trie_Insert_loop_wf key : forall root cur n root' cur',
  trie_wf root -> Trie.deref root cur = Some n ->
  Trie.Insert_loop key root cur = Some (root', cur') -> trie_wf root'.
Proof.
  induction key as [|it key IH]; intros root cur n root' cur' Hwf Hcur Hloop;
    simpl in Hloop.
  - by injection Hloop as <- _.
  - rewrite Hcur in Hloop. simpl in Hloop. unfold Trie.GetChildNode in Hloop.
    destruct (Trie.children_ n !! it) as [ch|] eqn:E.
    + apply (IH root (cur ++ [it]) ch root' cur'); [done| |done].
      by rewrite (trie_deref_snoc root n).
    + set (n1 := Trie.InsertChildNode n it (Trie.TrieNode_new it)) in *.
      assert (Hn1 : n1 = Trie.mkNode (Trie.key_char_ n) (Trie.is_end_ n)
                          (Trie.value_ n)
                          (<[it := Trie.TrieNode_new it]> (Trie.children_ n))).
      { unfold n1, Trie.InsertChildNode, Trie.HasChild. simpl.
        rewrite bool_decide_eq_true_2 by done.
        rewrite bool_decide_eq_false_2; [done|]. rewrite E. by intros [? ?]. }
      set (root1 := Trie.assign root cur n1) in *.
      assert (Hcur1 : Trie.deref root1 cur = Some n1)
        by (by apply (trie_deref_assign_eq root n)).
      rewrite Hcur1 in Hloop. simpl in Hloop.
      assert (Hch : Trie.children_ n1 !! it = Some (Trie.TrieNode_new it))
        by (rewrite Hn1; simpl; apply lookup_insert_eq).
      rewrite Hch in Hloop. simpl in Hloop.
      apply (IH root1 (cur ++ [it]) (Trie.TrieNode_new it) root' cur');
        [|by rewrite (trie_deref_snoc root1 n1)|done].
      apply (trie_wf_assign root cur n); [done|done| |by rewrite Hn1].
      assert (Hwfn : trie_wf n) by (by apply (trie_wf_deref root cur)).
      constructor; rewrite Hn1; simpl; intros d ch Hd;
        (destruct (decide (d = it)) as [->|Hne];
         [rewrite lookup_insert_eq in Hd; injection Hd as <-
         |rewrite lookup_insert_ne in Hd by done; by apply (trie_wf_child n d)]).
      * done.
      * apply trie_wf_new.
Qed.

Lemma trie_Insert_wf (t t' : Trie.Trie Val) key value (res : bool) :
  trie_wf (Trie.root_ t) -> Trie.Insert t key value = Some (t', res) ->
  trie_wf (Trie.root_ t').
Proof.
  intros Hwf. unfold Trie.Insert. case_bool_decide.
  { intros E. by injection E as <- _. }
  destruct (Trie.Insert_loop _ _ _) as [[root cur]|] eqn:Hloop; simpl; [|done].
  pose proof (trie_Insert_loop_wf _ (Trie.root_ t) [] (Trie.root_ t) _ _ Hwf
                eq_refl Hloop) as Hwf1.
  destruct (Trie.deref root cur) as [n|] eqn:Hn; simpl; [|done].
  destruct (Trie.IsEndNode n); intros E; injection E as <- _; simpl; [done|].
  apply (trie_wf_assign root cur n); [done|done| |done].
  apply (trie_wf_fields n); [|done]. by apply (trie_wf_deref root cur).
Qed.

(** The pointers pushed by the first loop of [Remove]. *)
Definition trie_stack cur (key : list Trie.char) : list Trie.Ptr :=
  (fun i => cur ++ take i key) <$> seq 0 (length key).

Lemma trie_stack_cons cur it key :
  trie_stack cur (it :: key) = cur :: trie_stack (cur ++ [it]) key.
Proof.
  unfold trie_stack. simpl. rewrite app_nil_r. f_equal.
  rewrite <- fmap_S_seq, <- list_fmap_compose. apply list_fmap_ext.
  intros _ i _. simpl. by rewrite <- app_assoc.
Qed.

Lemma trie_stack_lookup key j :
  (j < length key)%nat -> trie_stack [] key !! j = Some (take j key).
Proof.
  intros Hj. unfold trie_stack. rewrite list_lookup_fmap, lookup_seq_lt by done.
  done.
Qed.

Lemma trie_Remove_find key : forall root cur st n,
  Trie.deref root cur = Some n ->
  Trie.Remove_find key root cur st
  = Some (match Trie.deref root (cur ++ key) with
          | Some _ => Some (cur ++ key, st ++ trie_stack cur key)
          | None => None
          end).
Proof.
  induction key as [|it key IH]; intros root cur st n Hcur; simpl.
  - by rewrite !app_nil_r, Hcur.
  - rewrite Hcur. simpl. unfold Trie.GetChildNode.
    pose proof (trie_deref_snoc root n cur it Hcur) as Hsnoc.
    replace (cur ++ it :: key) with ((cur ++ [it]) ++ key)
      by (by rewrite <- app_assoc).
    destruct (Trie.children_ n !! it) as [ch|] eqn:E.
    + rewrite (IH root (cur ++ [it]) (st ++ [cur]) ch) by done.
      rewrite trie_stack_cons. f_equal.
      destruct (Trie.deref root _); [|done]. f_equal. f_equal.
      by rewrite <- (app_assoc st).
    + by rewrite trie_deref_app, Hsnoc.
Qed.

Lemma trie_HasChildren_false n :
  Trie.HasChildren n = false -> Trie.children_ n = ∅.
Proof.
  unfold Trie.HasChildren. intros Hs. apply negb_false_iff, Nat.eqb_eq in Hs.
  by apply map_size_empty_iff.
Qed.

(** The second loop of [Remove]: the nodes it unlinks are seen by no key. *)
Lemma trie_Remove_prune key : forall k root n,
  (k <= length key)%nat -> trie_wf root ->
  Trie.deref root (take k key) = Some n ->
  exists root',
    Trie.Remove_prune k root (take k key) (trie_stack [] key) = Some root' /\
    trie_wf root' /\
    forall q, trie_view root' q = trie_view root q.
Proof.
  induction k as [|j IH]; intros root n Hk Hwf Hn; simpl.
  - by exists root.
  - rewrite Hn. simpl.
    destruct (Trie.IsEndNode n || Trie.HasChildren n) eqn:Hstop;
      [by exists root|].
    apply orb_false_iff in Hstop as [He Hch]. unfold Trie.IsEndNode in He.
    apply trie_HasChildren_false in Hch.
    rewrite trie_stack_lookup by lia. simpl.
    destruct (lookup_lt_is_Some_2 key j) as [c Hc]; [lia|].
    assert (Htake : take (S j) key = take j key ++ [c])
      by (by apply take_S_r).
    rewrite Htake in Hn.
    destruct (trie_deref_prefix root (take j key) [c]) as [pn Hpn];
      [by eexists|].
    rewrite Hpn. simpl.
    assert (Hkc : Trie.GetKeyChar n = c)
      by (by apply (trie_wf_deref_snoc root (take j key))).
    rewrite Hkc.
    assert (Hchild : Trie.children_ pn !! c = Some n)
      by (by rewrite <- (trie_deref_snoc root pn (take j key))).
    set (pn' := Trie.RemoveChildNode pn c).
    destruct (IH (Trie.assign root (take j key) pn') pn')
      as (root' & Hprune & Hwf' & Hview).
    + lia.
    + apply (trie_wf_assign root (take j key) pn); [done|done| |done].
      assert (Hwfpn : trie_wf pn) by (by apply (trie_wf_deref root (take j key))).
      constructor; simpl; intros d ch Hd;
        apply lookup_delete_Some in Hd as [_ Hd];
        by apply (trie_wf_child pn d).
    + by apply (trie_deref_assign_eq root pn).
    + exists root'. split; [done|]. split; [done|].
      intros q. rewrite Hview.
      apply (trie_view_assign root pn); [done|].
      intros r. unfold trie_view. destruct r as [|d r]; simpl; [done|].
      destruct (decide (d = c)) as [->|Hne].
      * rewrite lookup_delete_eq, Hchild. simpl.
        symmetry. by apply trie_view_leaf.
      * by rewrite lookup_delete_ne.
Qed.

Lemma trie_Remove_spec (t : Trie.Trie Val) (key : string) :
  key <> String.EmptyString -> trie_wf (Trie.root_ t) ->
  let k := String.list_ascii_of_string key in
  (trie_view (Trie.root_ t) k = None /\ Trie.Remove t key = Some (t, false)) \/
  (exists t' n,
     Trie.deref (Trie.root_ t) k = Some n /\ Trie.is_end_ n = true /\
     Trie.Remove t key = Some (t', true) /\
     trie_wf (Trie.root_ t') /\
     trie_view (Trie.root_ t') k
     = (if Trie.HasChildren n then Some None else None) /\
     forall q, q <> k -> trie_view (Trie.root_ t') q = trie_view (Trie.root_ t) q).
Proof.
  intros Hkey Hwf k. unfold Trie.Remove.
  rewrite bool_decide_eq_false_2 by done.
  rewrite (trie_Remove_find _ _ [] [] (Trie.root_ t)) by done. fold k.
  simpl. unfold trie_view at 1.
  destruct (Trie.deref (Trie.root_ t) k) as [n|] eqn:Hn; simpl; [|by left].
  rewrite Hn. simpl. unfold Trie.IsEndNode.
  destruct (Trie.is_end_ n) eqn:He; simpl; [|by left].
  right. destruct (Trie.HasChildren n) eqn:Hch.
  - eexists _, n. split; [done|]. split; [done|]. split; [done|]. simpl.
    split; [|split].
    + apply (trie_wf_assign (Trie.root_ t) k n); [done|done| |done].
      apply (trie_wf_fields n); [|done]. by apply (trie_wf_deref (Trie.root_ t) k).
    + unfold trie_view. rewrite (trie_deref_assign_eq (Trie.root_ t) n) by done.
      simpl. by rewrite He, Hch.
    + intros q Hq. by apply (trie_view_assign_fields (Trie.root_ t) n).
  - set (root1 := Trie.assign (Trie.root_ t) k (Trie.SetEndNode n false)).
    assert (Hlen : length (trie_stack [] k) = length k).
    { unfold trie_stack. by rewrite length_fmap, length_seq. }
    rewrite Hlen.
    destruct (trie_Remove_prune k (length k) root1 (Trie.SetEndNode n false))
      as (root' & Hprune & Hwf' & Hview).
    + done.
    + apply (trie_wf_assign (Trie.root_ t) k n); [done|done| |done].
      apply (trie_wf_fields n); [|done]. by apply (trie_wf_deref (Trie.root_ t) k).
    + rewrite firstn_all. by apply (trie_deref_assign_eq (Trie.root_ t) n).
    + rewrite firstn_all in Hprune. rewrite Hprune. simpl.
      eexists _, n. split; [done|]. split; [done|]. split; [done|]. simpl.
      split; [done|]. split.
      * rewrite Hview, Hch. unfold trie_view, root1.
        by rewrite (trie_deref_assign_eq (Trie.root_ t) n).
      * intros q Hq. rewrite Hview.
        by apply (trie_view_assign_fields (Trie.root_ t) n).
Qed.

Lemma trie_wf_create : trie_wf (Trie.root_ (@Trie.create Val)).
Proof. apply trie_wf_new. Qed.

(** The calls that change a trie. *)
Inductive trie_op :=
  | TInsert (key : string) (value : Val)
  | TRemove (key : string).

Definition trie_step (t : Trie.Trie Val) (op : trie_op) : option (Trie.Trie Val) :=
  match op with
  | TInsert key value => fst <$> Trie.Insert t key value
  | TRemove key => fst <$> Trie.Remove t key
  end.

Fixpoint trie_run (ops : list trie_op) (t : Trie.Trie Val)
  : option (Trie.Trie Val) :=
  match ops with
  | [] => Some t
  | op :: ops => t' ← trie_step t op; trie_run ops t'
  end.

Lemma trie_step_wf (t : Trie.Trie Val) op :
  trie_wf (Trie.root_ t) ->
  exists t', trie_step t op = Some t' /\ trie_wf (Trie.root_ t').
Proof.
  intros Hwf. destruct op as [key value|key]; simpl.
  - destruct (decide (key = String.EmptyString)) as [->|Hkey].
    { exists t. done. }
    destruct (trie_Insert_spec t key value Hkey)
      as [(v & _ & E)|(t' & _ & E & _)]; rewrite E; simpl.
    + by exists t.
    + exists t'. split; [done|]. by apply (trie_Insert_wf t t' key value true).
  - destruct (decide (key = String.EmptyString)) as [->|Hkey].
    { exists t. done. }
    destruct (trie_Remove_spec t key Hkey Hwf)
      as [(_ & E)|(t' & n & _ & _ & E & Hwf' & _)]; rewrite E; simpl.
    + by exists t.
    + by exists t'.
Qed.

Lemma trie_run_wf ops : forall (t : Trie.Trie Val),
  trie_wf (Trie.root_ t) ->
  exists t', trie_run ops t = Some t' /\ trie_wf (Trie.root_ t').
Proof.
  induction ops as [|op ops IH]; intros t Hwf; simpl.
  - by exists t.
  - destruct (trie_step_wf t op Hwf) as (t1 & -> & Hwf1). simpl.
    by apply IH.
Qed.

(** The end mark of the node of a key ([false] without a node). *)
Definition trie_is_end (t : Trie.Trie Val) (key : string) : bool :=
  match Trie.deref (Trie.root_ t) (String.list_ascii_of_string key) with
  | Some n => Trie.is_end_ n
  | None => false
  end.

Lemma trie_is_end_view (t : Trie.Trie Val) key :
  trie_is_end t key
  = bool_decide (is_Some (trie_view (Trie.root_ t)
                            (String.list_ascii_of_string key))).
Proof.
  unfold trie_is_end, trie_view.
  destruct (Trie.deref _ _) as [n|].
  - destruct (Trie.is_end_ n).
    + symmetry. apply bool_decide_eq_true_2. by eexists.
    + symmetry. apply bool_decide_eq_false_2. by intros [? ?].
  - symmetry. apply bool_decide_eq_false_2. by intros [? ?].
Qed.

Lemma trie_key_app (a b : string) :
  String.list_ascii_of_string (a +:+ b)
  = String.list_ascii_of_string a ++ String.list_ascii_of_string b.
Proof. induction a as [|c a IH]; simpl; [done|]. by rewrite IH. Qed.

Lemma trie_HasChildren_true n c ch :
  Trie.children_ n !! c = Some ch -> Trie.HasChildren n = true.
Proof.
  intros Hc. destruct (Trie.HasChildren n) eqn:E; [done|].
  apply trie_HasChildren_false in E. by rewrite E, lookup_empty in Hc.
Qed.

(** The end mark and whether there are children, of the node a pointer
    points to. *)
Definition trie_shape n q : option (bool * bool) :=
  (fun m => (Trie.is_end_ m, Trie.HasChildren m)) <$> Trie.deref n q.

Lemma trie_shape_assign_other n m new p q :
  Trie.deref n p = Some m -> ~ p `prefix_of` q ->
  trie_shape (Trie.assign n p new) q = trie_shape n q.
Proof.
  unfold trie_shape.
  revert n q. induction p as [|c p IH]; intros n q Hp Hq; simpl in *.
  - exfalso. apply Hq. by exists q.
  - destruct (Trie.children_ n !! c) as [ch|] eqn:E; simpl in *; [|done].
    destruct q as [|d q]; simpl.
    + f_equal. f_equal.
      rewrite (trie_HasChildren_true n c ch) by done.
      apply (trie_HasChildren_true _ c (Trie.assign ch p new)). simpl.
      apply lookup_insert_eq.
    + destruct (decide (d = c)) as [->|Hne].
      * rewrite lookup_insert_eq, E. simpl. apply (IH ch); [done|].
        intros [r ->]. apply Hq. by exists r.
      * by rewrite lookup_insert_ne.
Qed.

(** Every node but the root, and but the one [cur] points to, has children
    or the end mark. *)
Definition trie_live root (cur : Trie.Ptr) : Prop :=
  forall p a b, p <> [] -> p <> cur ->
    trie_shape root p = Some (a, b) -> a || b = true.

Lemma trie_live_shape root root' cur cur' :
  trie_live root cur ->
  (forall p, p <> [] -> p <> cur' ->
     trie_shape root' p = None \/
     (exists a b, trie_shape root' p = Some (a, b) /\ a || b = true) \/
     (p <> cur /\ trie_shape root' p = trie_shape root p)) ->
  trie_live root' cur'.
Proof.
  intros Hlive Hshape p a b Hp Hcur Hs.
  destruct (Hshape p Hp Hcur) as [E|[(a' & b' & E & Hab)|[Hne E]]].
  - congruence.
  - congruence.
  - rewrite E in Hs. by apply (Hlive p).
Qed.

Lemma trie_shape_app n m p r :
  Trie.deref n p = Some m -> trie_shape n (p ++ r) = trie_shape m r.
Proof. intros Hp. unfold trie_shape. by rewrite trie_deref_app, Hp. Qed.

Lemma trie_shape_assign_below n m new p r :
  Trie.deref n p = Some m ->
  trie_shape (Trie.assign n p new) (p ++ r) = trie_shape new r.
Proof. intros Hp. unfold trie_shape. by rewrite (trie_deref_assign n m). Qed.

Lemma trie_Insert_loop_live key : forall root cur n root' cur',
  trie_live root cur -> Trie.deref root cur = Some n ->
  Trie.Insert_loop key root cur = Some (root', cur') ->
  trie_live root' cur'.
Proof.
  induction key as [|it key IH]; intros root cur n root' cur' Hlive Hcur Hloop;
    simpl in Hloop.
  - by injection Hloop as <- <-.
  - rewrite Hcur in Hloop. simpl in Hloop. unfold Trie.GetChildNode in Hloop.
    destruct (Trie.children_ n !! it) as [ch|] eqn:E.
    + apply (IH root (cur ++ [it]) ch root' cur'); [| |done].
      * intros p a b Hp _ Hs. destruct (decide (p = cur)) as [->|Hne];
          [|by apply (Hlive p)].
        unfold trie_shape in Hs. rewrite Hcur in Hs. injection Hs as <- <-.
        rewrite (trie_HasChildren_true n it ch) by done. apply orb_true_r.
      * by rewrite (trie_deref_snoc root n).
    + set (n1 := Trie.InsertChildNode n it (Trie.TrieNode_new it)) in *.
      assert (Hn1 : n1 = Trie.mkNode (Trie.key_char_ n) (Trie.is_end_ n)
                          (Trie.value_ n)
                          (<[it := Trie.TrieNode_new it]> (Trie.children_ n))).
      { unfold n1, Trie.InsertChildNode, Trie.HasChild. simpl.
        rewrite bool_decide_eq_true_2 by done.
        rewrite bool_decide_eq_false_2; [done|]. rewrite E. by intros [? ?]. }
      set (root1 := Trie.assign root cur n1) in *.
      assert (Hcur1 : Trie.deref root1 cur = Some n1)
        by (by apply (trie_deref_assign_eq root n)).
      rewrite Hcur1 in Hloop. simpl in Hloop.
      assert (Hch : Trie.children_ n1 !! it = Some (Trie.TrieNode_new it))
        by (rewrite Hn1; simpl; apply lookup_insert_eq).
      rewrite Hch in Hloop. simpl in Hloop.
      apply (IH root1 (cur ++ [it]) (Trie.TrieNode_new it) root' cur');
        [|by rewrite (trie_deref_snoc root1 n1)|done].
      apply (trie_live_shape root root1 cur); [done|].
      intros p Hp Hne. destruct (decide (cur `prefix_of` p)) as [[r ->]|Hpre].
      * unfold root1. rewrite (trie_shape_assign_below root n) by done.
        destruct r as [|d r].
        { right. left. unfold trie_shape. simpl. eexists _, _.
          split; [done|]. rewrite (trie_HasChildren_true n1 it _ Hch).
          apply orb_true_r. }
        destruct (decide (d = it)) as [->|Hd].
        -- left. unfold trie_shape. simpl. rewrite Hch. simpl.
           destruct r as [|e r]; [done|]. simpl. by rewrite lookup_empty.
        -- right. right. split.
           { intros Heq. apply (f_equal length) in Heq.
             rewrite length_app in Heq. simpl in Heq. lia. }
           rewrite (trie_shape_app root n) by done.
           unfold trie_shape. simpl. rewrite Hn1. simpl.
           by rewrite lookup_insert_ne.
      * right. right. split.
        { intros ->. by apply Hpre. }
        by apply (trie_shape_assign_other root n).
Qed.

Lemma trie_Insert_live (t t' : Trie.Trie Val) key value (res : bool) :
  trie_live (Trie.root_ t) [] -> Trie.Insert t key value = Some (t', res) ->
  trie_live (Trie.root_ t') [].
Proof.
  intros Hlive. unfold Trie.Insert. case_bool_decide.
  { intros E. by injection E as <- _. }
  destruct (Trie.Insert_loop _ _ _) as [[root cur]|] eqn:Hloop; simpl; [|done].
  pose proof (trie_Insert_loop_live _ (Trie.root_ t) [] (Trie.root_ t) _ _
                Hlive eq_refl Hloop) as Hlive1.
  destruct (Trie.deref root cur) as [n|] eqn:Hn; simpl; [|done].
  unfold Trie.IsEndNode.
  destruct (Trie.is_end_ n) eqn:He; intros E; injection E as <- _; simpl.
  - intros p a b Hp _ Hs. destruct (decide (p = cur)) as [->|Hne];
      [|by apply (Hlive1 p)].
    unfold trie_shape in Hs. rewrite Hn in Hs. injection Hs as <- <-.
    by rewrite He.
  - apply (trie_live_shape root _ cur); [done|].
    intros p Hp _. destruct (decide (cur `prefix_of` p)) as [[r ->]|Hpre].
    + rewrite (trie_shape_assign_below root n) by done.
      destruct r as [|d r].
      * right. left. unfold trie_shape. simpl. by eexists _, _.
      * right. right. split.
        { intros Heq. apply (f_equal length) in Heq.
          rewrite length_app in Heq. simpl in Heq. lia. }
        rewrite (trie_shape_app root n) by done. done.
    + right. right. split.
      { intros ->. by apply Hpre. }
      by apply (trie_shape_assign_other root n).
Qed.

Lemma trie_Remove_prune_live key : forall k root n root',
  (k <= length key)%nat -> trie_wf root ->
  trie_live root (take k key) ->
  Trie.deref root (take k key) = Some n ->
  Trie.Remove_prune k root (take k key) (trie_stack [] key) = Some root' ->
  trie_live root' [].
Proof.
  induction k as [|j IH]; intros root n root' Hk Hwf Hlive Hn Hprune;
    simpl in Hprune.
  - by injection Hprune as <-.
  - rewrite Hn in Hprune. simpl in Hprune.
    destruct (Trie.IsEndNode n || Trie.HasChildren n) eqn:Hstop.
    { injection Hprune as <-. intros p a b Hp _ Hs.
      destruct (decide (p = take (S j) key)) as [->|Hne];
        [|by apply (Hlive p)].
      unfold trie_shape in Hs. rewrite Hn in Hs. by injection Hs as <- <-. }
    apply orb_false_iff in Hstop as [He Hch]. unfold Trie.IsEndNode in He.
    rewrite trie_stack_lookup in Hprune by lia. simpl in Hprune.
    destruct (lookup_lt_is_Some_2 key j) as [c Hc]; [lia|].
    assert (Htake : take (S j) key = take j key ++ [c])
      by (by apply take_S_r).
    rewrite Htake in Hn, Hlive.
    destruct (trie_deref_prefix root (take j key) [c]) as [pn Hpn];
      [by eexists|].
    rewrite Hpn in Hprune. simpl in Hprune.
    assert (Hkc : Trie.GetKeyChar n = c)
      by (by apply (trie_wf_deref_snoc root (take j key))).
    rewrite Hkc in Hprune.
    assert (Hchild : Trie.children_ pn !! c = Some n)
      by (by rewrite <- (trie_deref_snoc root pn (take j key))).
    set (pn' := Trie.RemoveChildNode pn c) in *.
    assert (Hwfpn : trie_wf pn) by (by apply (trie_wf_deref root (take j key))).
    apply (IH (Trie.assign root (take j key) pn') pn' root'); [lia| | | |done].
    + apply (trie_wf_assign root (take j key) pn); [done|done| |done].
      constructor; simpl; intros d ch Hd;
        apply lookup_delete_Some in Hd as [_ Hd];
        by apply (trie_wf_child pn d).
    + apply (trie_live_shape root _ (take j key ++ [c])); [done|].
      intros p Hp Hne.
      destruct (decide (take j key `prefix_of` p)) as [[r ->]|Hpre].
      * rewrite (trie_shape_assign_below root pn) by done.
        destruct r as [|d r]; [by rewrite app_nil_r in Hne|].
        destruct (decide (d = c)) as [->|Hd].
        -- left. unfold trie_shape. simpl. by rewrite lookup_delete_eq.
        -- right. right. split.
           { intros Heq. apply app_inv_head in Heq. congruence. }
           rewrite (trie_shape_app root pn) by done.
           unfold trie_shape. simpl. by rewrite lookup_delete_ne.
      * right. right. split.
        { intros ->. apply Hpre. by exists [c]. }
        by apply (trie_shape_assign_other root pn).
    + by apply (trie_deref_assign_eq root pn).
Qed.

Lemma trie_Remove_live (t t' : Trie.Trie Val) key (res : bool) :
  trie_wf (Trie.root_ t) -> trie_live (Trie.root_ t) [] ->
  Trie.Remove t key = Some (t', res) ->
  trie_live (Trie.root_ t') [].
Proof.
  intros Hwf Hlive. unfold Trie.Remove. case_bool_decide.
  { intros E. by injection E as <- _. }
  set (k := String.list_ascii_of_string key).
  rewrite (trie_Remove_find _ _ [] [] (Trie.root_ t)) by done.
  simpl.
  destruct (Trie.deref (Trie.root_ t) k) as [n|] eqn:Hn; simpl.
  2: { intros E. by injection E as <- _. }
  rewrite Hn. simpl. unfold Trie.IsEndNode.
  destruct (Trie.is_end_ n) eqn:He; simpl.
  2: { intros E. by injection E as <- _. }
  assert (Hshape : forall new,
            Trie.children_ new = Trie.children_ n ->
            forall p, p <> k ->
              trie_shape (Trie.assign (Trie.root_ t) k new) p
              = trie_shape (Trie.root_ t) p).
  { intros new Hch p Hne.
    destruct (decide (k `prefix_of` p)) as [[r ->]|Hpre].
    - rewrite (trie_shape_assign_below (Trie.root_ t) n),
        (trie_shape_app (Trie.root_ t) n) by done.
      destruct r as [|d r]; [by rewrite app_nil_r in Hne|].
      unfold trie_shape. simpl. by rewrite Hch.
    - by apply (trie_shape_assign_other (Trie.root_ t) n). }
  destruct (Trie.HasChildren n) eqn:Hch.
  - intros E. injection E as <- _. simpl.
    intros p a b Hp _ Hs. destruct (decide (p = k)) as [->|Hne].
    + unfold trie_shape in Hs.
      rewrite (trie_deref_assign_eq (Trie.root_ t) n) in Hs by done.
      simpl in Hs. injection Hs as <- <-. by rewrite He.
    + rewrite Hshape in Hs by done. by apply (Hlive p).
  - assert (Hlen : length (trie_stack [] k) = length k).
    { unfold trie_stack. by rewrite length_fmap, length_seq. }
    rewrite Hlen.
    destruct (Trie.Remove_prune _ _ _ _) as [root'|] eqn:Hprune; simpl; [|done].
    intros E. injection E as <- _. simpl.
    apply (trie_Remove_prune_live k (length k)
             (Trie.assign (Trie.root_ t) k (Trie.SetEndNode n false))
             (Trie.SetEndNode n false) root');
      rewrite ?firstn_all; [done| | | |done].
    + apply (trie_wf_assign (Trie.root_ t) k n); [done|done| |done].
      apply (trie_wf_fields n); [|done].
      by apply (trie_wf_deref (Trie.root_ t) k).
    + intros p a b Hp Hne Hs.
      rewrite Hshape in Hs by done. by apply (Hlive p).
    + by apply (trie_deref_assign_eq (Trie.root_ t) n).
Qed.

Lemma trie_live_create : trie_live (Trie.root_ (@Trie.create Val)) [].
Proof.
  intros p a b Hp _ Hs. destruct p as [|c p]; [done|].
  unfold trie_shape in Hs. simpl in Hs. by rewrite lookup_empty in Hs.
Qed.

Lemma trie_run_live ops : forall (t t' : Trie.Trie Val),
  trie_wf (Trie.root_ t) -> trie_live (Trie.root_ t) [] ->
  trie_run ops t = Some t' -> trie_live (Trie.root_ t') [].
Proof.
  induction ops as [|op ops IH]; intros t t' Hwf Hlive Hrun; simpl in Hrun.
  - by injection Hrun as <-.
  - destruct (trie_step_wf t op Hwf) as (t1 & Hstep & Hwf1).
    rewrite Hstep in Hrun. simpl in Hrun.
    apply (IH t1 t'); [done| |done].
    destruct op as [key value|key]; simpl in Hstep.
    + destruct (Trie.Insert t key value) as [[t2 res]|] eqn:E; [|done].
      injection Hstep as ->. by apply (trie_Insert_live t t1 key value res).
    + destruct (Trie.Remove t key) as [[t2 res]|] eqn:E; [|done].
      injection Hstep as ->. by apply (trie_Remove_live t t1 key res).
Qed.

End TrieProofs.

Arguments trie_op : clear implicits.

(** X23.  [Insert] of a non-empty key returns false exactly when the node
    of the key carries the end mark, and then leaves the trie as it is (the
    stored value is not replaced).  Otherwise it returns true, the key
    carries the end mark, and [GetValue<T>] of the key succeeds exactly for
    the type of the value and returns it.  In both cases [GetValue] of
    every other key returns what it returned before. *)
Theorem trie_insert_get {TypeId Val : Type} `{EqDecision TypeId}
    (type_of : Val -> TypeId) (t : Trie.Trie Val) (key : string) (value : Val) :
  key <> String.EmptyString ->
  exists t',
    Trie.Insert t key value = Some (t', negb (trie_is_end t key)) /\
    (trie_is_end t key = true -> t' = t) /\
    (trie_is_end t key = false ->
     trie_is_end t' key = true /\
     forall T, Trie.GetValue type_of T t' key
               = Some (if bool_decide (type_of value = T) then Some value
                       else None)) /\
    (forall T key', key' <> key ->
       Trie.GetValue type_of T t' key' = Trie.GetValue type_of T t key').
Proof.
  intros Hkey. rewrite trie_is_end_view.
  destruct (trie_Insert_spec t key value Hkey)
    as [(v & Hv & E)|(t' & Hv & E & Hk & Hother)]; rewrite Hv.
  - exists t. rewrite bool_decide_eq_true_2 by (by eexists).
    split; [done|]. split; [done|]. split; [done|]. done.
  - exists t'. rewrite bool_decide_eq_false_2 by (by intros [? ?]).
    split; [done|]. split; [done|]. split.
    + intros _. split.
      * rewrite trie_is_end_view, Hk. apply bool_decide_eq_true_2. by eexists.
      * intros T. rewrite trie_GetValue_view, Hk.
        by rewrite bool_decide_eq_false_2.
    + intros T key' Hne. rewrite !trie_GetValue_view.
      case_bool_decide; [done|]. rewrite Hother; [done|].
      intros Heq. by apply Hne, trie_key_inj.
Qed.

(** X24.  In a trie reached from the empty one by [Insert] and [Remove]
    calls, [Remove] of a non-empty key returns true exactly when the node of
    the key carries the end mark, and otherwise leaves the trie as it is.
    Afterwards [GetValue] of the key fails, and [GetValue] of every other
    key returns what it returned before: the nodes that [Remove] unlinks
    are on the path of no other key. *)
Theorem trie_remove_get {TypeId Val : Type} `{EqDecision TypeId}
    (type_of : Val -> TypeId) (ops : list (trie_op Val)) (t : Trie.Trie Val)
    (key : string) :
  trie_run ops Trie.create = Some t ->
  key <> String.EmptyString ->
  exists t',
    Trie.Remove t key = Some (t', trie_is_end t key) /\
    (trie_is_end t key = false -> t' = t) /\
    (forall T, Trie.GetValue type_of T t' key = Some None) /\
    (forall T key', key' <> key ->
       Trie.GetValue type_of T t' key' = Trie.GetValue type_of T t key').
Proof.
  intros Hrun Hkey.
  assert (Hwf : trie_wf (Trie.root_ t)).
  { destruct (trie_run_wf ops Trie.create trie_wf_create) as (t0 & E & Hwf).
    congruence. }
  rewrite trie_is_end_view.
  destruct (trie_Remove_spec t key Hkey Hwf)
    as [(Hv & E)|(t' & n & Hn & He & E & _ & Hk & Hother)].
  - exists t. rewrite Hv, bool_decide_eq_false_2 by (by intros [? ?]).
    split; [done|]. split; [done|]. split; [|done].
    intros T. rewrite trie_GetValue_view, Hv.
    by rewrite bool_decide_eq_false_2.
  - exists t'.
    assert (Hv : trie_view (Trie.root_ t) (String.list_ascii_of_string key)
                 = Some (Trie.value_ n))
      by (unfold trie_view; by rewrite Hn, He).
    rewrite Hv, bool_decide_eq_true_2 by (by eexists).
    split; [done|]. split; [done|]. split.
    + intros T. rewrite trie_GetValue_view, Hk.
      rewrite bool_decide_eq_false_2 by done. by destruct (Trie.HasChildren n).
    + intros T key' Hne. rewrite !trie_GetValue_view.
      case_bool_decide; [done|]. rewrite Hother; [done|].
      intros Heq. by apply Hne, trie_key_inj.
Qed.

(** X25.  A key removed while a longer key that starts with it is stored
    keeps its end mark: [Remove] returns true and [GetValue] of the key
    fails afterwards, but [Insert] of the key then returns false and stores
    nothing, and [Remove] of the key returns true again without changing
    the trie. *)
Theorem trie_removed_prefix_stays_marked {TypeId Val : Type}
    `{EqDecision TypeId} (type_of : Val -> TypeId) (t : Trie.Trie Val)
    (key rest : string) (T1 T2 : TypeId) (v w : Val) :
  rest <> String.EmptyString ->
  Trie.GetValue type_of T1 t key = Some (Some v) ->
  Trie.GetValue type_of T2 t (key +:+ rest) = Some (Some w) ->
  exists t',
    Trie.Remove t key = Some (t', true) /\
    (forall T, Trie.GetValue type_of T t' key = Some None) /\
    (forall value, Trie.Insert t' key value = Some (t', false)) /\
    Trie.Remove t' key = Some (t', true).
Proof.
  intros Hrest H1 H2. rewrite trie_GetValue_view in H1, H2.
  assert (Hkey : key <> String.EmptyString).
  { intros ->. by rewrite bool_decide_eq_true_2 in H1. }
  rewrite bool_decide_eq_false_2 in H1 by done.
  rewrite bool_decide_eq_false_2 in H2 by (by destruct key).
  set (k := String.list_ascii_of_string key) in *.
  rewrite trie_key_app in H2. fold k in H2.
  destruct (Trie.deref (Trie.root_ t) k) as [n|] eqn:Hn.
  2: { unfold trie_view in H1. by rewrite Hn in H1. }
  assert (He : Trie.is_end_ n = true).
  { unfold trie_view in H1. rewrite Hn in H1. by destruct (Trie.is_end_ n). }
  assert (Hch : Trie.HasChildren n = true).
  { rewrite (trie_view_app _ n) in H2 by done. unfold trie_view in H2.
    destruct (String.list_ascii_of_string rest) as [|c r] eqn:Er.
    { exfalso. by apply (trie_key_nonempty rest). }
    simpl in H2.
    match type of H2 with context [?x ≫= _] =>
      destruct x as [ch|] eqn:Ec; [|simpl in H2; done] end.
    by apply (trie_HasChildren_true n c ch). }
  set (root' := Trie.assign (Trie.root_ t) k (Trie.TrieNode_move n)).
  assert (Hn' : Trie.deref root' k = Some (Trie.TrieNode_move n))
    by (by apply (trie_deref_assign_eq (Trie.root_ t) n)).
  assert (Hrem : forall (t0 : Trie.Trie Val) n0,
            Trie.deref (Trie.root_ t0) k = Some n0 ->
            Trie.is_end_ n0 = true -> Trie.HasChildren n0 = true ->
            Trie.Remove t0 key
            = Some (Trie.mkTrie (Trie.assign (Trie.root_ t0) k
                                   (Trie.TrieNode_move n0)), true)).
  { intros t0 n0 Hn0 He0 Hch0. unfold Trie.Remove.
    rewrite bool_decide_eq_false_2 by done.
    rewrite (trie_Remove_find _ _ [] [] (Trie.root_ t0)) by done. fold k.
    simpl. rewrite Hn0. simpl. rewrite Hn0. simpl.
    unfold Trie.IsEndNode. by rewrite He0, Hch0. }
  exists (Trie.mkTrie root'). split; [by apply Hrem|]. split; [|split].
  - intros T. rewrite trie_GetValue_view. simpl.
    rewrite bool_decide_eq_false_2 by done. fold k.
    unfold trie_view. rewrite Hn'. simpl. by rewrite He.
  - intros value.
    destruct (trie_Insert_spec (Trie.mkTrie root') key value Hkey)
      as [(v0 & _ & E)|(t' & Hv & _)]; [done|].
    simpl in Hv. fold k in Hv. unfold trie_view in Hv.
    rewrite Hn' in Hv. simpl in Hv. by rewrite He in Hv.
  - rewrite (Hrem (Trie.mkTrie root') (Trie.TrieNode_move n)); try done.
    simpl. f_equal. f_equal. f_equal.
    by apply trie_assign_same.
Qed.


(** Values of two types, integers and strings. *)
Definition trie_sample_type (v : Z + string) : bool :=
  match v with inl _ => true | inr _ => false end.

Definition trie_sample_ops : list (trie_op (Z + string)) :=
  [TInsert "ab" (inl 1); TInsert "abc" (inr "x"); TInsert "b" (inl 2)].

Definition trie_sample : Trie.Trie (Z + string) :=
  default Trie.create (trie_run trie_sample_ops Trie.create).

Lemma trie_insert_get_witness :
  exists t',
    Trie.Insert trie_sample "a" (inl 7) = Some (t', true) /\
    Trie.GetValue trie_sample_type true t' "a" = Some (Some (inl 7)) /\
    Trie.GetValue trie_sample_type false t' "abc" = Some (Some (inr "x")).
Proof.
  destruct (trie_insert_get trie_sample_type trie_sample "a" (inl 7))
    as (t' & HI & _ & Hnew & Hother); [done|].
  exists t'. split; [exact HI|]. split.
  - destruct Hnew as [_ Hget]; [vm_compute; reflexivity|]. exact (Hget true).
  - rewrite Hother by done. vm_compute. reflexivity.
Defined.

Lemma trie_remove_get_witness :
  exists t',
    Trie.Remove trie_sample "abc" = Some (t', true) /\
    Trie.GetValue trie_sample_type false t' "abc" = Some None /\
    Trie.GetValue trie_sample_type true t' "ab" = Some (Some (inl 1)).
Proof.
  destruct (trie_remove_get trie_sample_type trie_sample_ops trie_sample "abc")
    as (t' & HR & _ & Hgone & Hother); [vm_compute; reflexivity|done|].
  exists t'. split; [exact HR|]. split; [exact (Hgone false)|].
  rewrite Hother by done. vm_compute. reflexivity.
Defined.

Lemma trie_removed_prefix_stays_marked_witness :
  exists t',
    Trie.Remove trie_sample "ab" = Some (t', true) /\
    (forall T, Trie.GetValue trie_sample_type T t' "ab" = Some None) /\
    (forall value, Trie.Insert t' "ab" value = Some (t', false)) /\
    Trie.Remove t' "ab" = Some (t', true).
Proof.
  apply (trie_removed_prefix_stays_marked trie_sample_type trie_sample
           "ab" "c" true false (inl 1) (inr "x")).
  - done.
  - vm_compute. reflexivity.
  - vm_compute. reflexivity.
Defined.

(** X26.  No dead branches: in a trie reached from the empty one by [Insert]
    and [Remove] calls, every node other than the root is stored under its
    own character and has children or carries the end mark. *)
Theorem trie_no_dead_branch {Val : Type} (ops : list (trie_op Val))
    (t : Trie.Trie Val) (p : Trie.Ptr) (n : Trie.TrieNode Val) :
  trie_run ops Trie.create = Some t ->
  p <> [] -> Trie.deref (Trie.root_ t) p = Some n ->
  last p = Some (Trie.key_char_ n) /\
  (Trie.HasChildren n = true \/ Trie.is_end_ n = true).
Proof.
  intros Hrun Hp Hn.
  destruct (trie_run_wf ops Trie.create trie_wf_create) as (t0 & E & Hwf).
  rewrite Hrun in E. injection E as <-.
  pose proof (trie_run_live ops Trie.create t trie_wf_create trie_live_create
                Hrun) as Hlive.
  split.
  - destruct p as [|c p _] using rev_ind; [done|].
    rewrite last_snoc. f_equal. symmetry.
    by apply (trie_wf_deref_snoc (Trie.root_ t) p).
  - assert (Hs : Trie.is_end_ n || Trie.HasChildren n = true).
    { apply (Hlive p); [done|done|]. unfold trie_shape. by rewrite Hn. }
    apply orb_true_iff in Hs. tauto.
Qed.

Lemma trie_no_dead_branch_witness :
  exists n,
    Trie.deref (Trie.root_ trie_sample) (String.list_ascii_of_string "ab")
    = Some n /\
    last (String.list_ascii_of_string "ab") = Some (Trie.key_char_ n) /\
    (Trie.HasChildren n = true \/ Trie.is_end_ n = true).
Proof.
  exists (default (Trie.TrieNode_new Ascii.zero)
            (Trie.deref (Trie.root_ trie_sample)
               (String.list_ascii_of_string "ab"))).
  split; [vm_compute; reflexivity|].
  apply (trie_no_dead_branch trie_sample_ops trie_sample
           (String.list_ascii_of_string "ab")).
  - vm_compute. reflexivity.
  - done.
  - vm_compute. reflexivity.
Defined.

(** ** Deadlock detection: what [HasCycle] finds *)

(** [t1] waits for [t2] in the graph. *)
Definition lm_edge (g : list (Z * list Z)) (t1 t2 : Z) : Prop :=
  exists s, LM.map_find t1 g = Some s /\ t2 ∈ s.

(** A transaction that waits, through a chain of edges, for itself. *)
Definition lm_cycle (g : list (Z * list Z)) (t : Z) : Prop :=
  tc (lm_edge g) t t.

(** A transaction with two edges whose chains meet again. *)
Definition lm_diamond (g : list (Z * list Z)) (t : Z) : Prop :=
  exists a b v, a <> b /\ lm_edge g t a /\ lm_edge g t b /\
    rtc (lm_edge g) a v /\ rtc (lm_edge g) b v.

(** The transactions of the graph. *)
Definition lm_nodes (g : list (Z * list Z)) : list Z :=
  g ≫= fun kv => kv.1 :: kv.2.

(** The keys of the [std::map] are in ascending order. *)
Definition lm_keys_asc (g : list (Z * list Z)) : Prop :=
  StronglySorted Z.lt (fst <$> g).

Lemma lm_set_count x s : LM.set_count x s = true <-> x ∈ s.
Proof.
  unfold LM.set_count. rewrite existsb_exists. split.
  - intros (y & Hy & E). apply Z.eqb_eq in E. subst. by apply list_elem_of_In.
  - intros Hx. exists x. split; [by apply list_elem_of_In|apply Z.eqb_refl].
Qed.

Lemma lm_set_emplace y x s : y ∈ LM.set_emplace x s <-> y = x \/ y ∈ s.
Proof.
  induction s as [|z s IH]; simpl.
  - rewrite list_elem_of_singleton. split; [by left|]. intros [?|H]; [done|].
    by apply elem_of_nil in H.
  - destruct (x <? z); [by rewrite elem_of_cons|].
    destruct (x =? z) eqn:E.
    + apply Z.eqb_eq in E. subst. rewrite elem_of_cons. tauto.
    + rewrite !elem_of_cons, IH. tauto.
Qed.

Lemma lm_map_find_lt k g :
  Forall (Z.lt k) (fst <$> g) -> LM.map_find k g = None.
Proof.
  induction g as [|[k0 v] g IH]; intros Hall; simpl; [done|].
  apply Forall_cons in Hall as [Hk Hall]. simpl in Hk.
  destruct (k =? k0) eqn:E; [apply Z.eqb_eq in E; lia|]. by apply IH.
Qed.

Lemma lm_map_at_keys k f g x :
  x ∈ (fst <$> LM.map_at k f g) <-> x = k \/ x ∈ (fst <$> g).
Proof.
  induction g as [|[k0 v] g IH]; simpl.
  - rewrite list_elem_of_singleton. split; [by left|]. intros [?|H]; [done|].
    by apply elem_of_nil in H.
  - destruct (k <? k0); [simpl; by rewrite !elem_of_cons|].
    destruct (k =? k0) eqn:E; simpl.
    + apply Z.eqb_eq in E. subst. rewrite elem_of_cons. tauto.
    + rewrite !elem_of_cons, IH. tauto.
Qed.

Lemma lm_keys_asc_map_at k f g :
  lm_keys_asc g -> lm_keys_asc (LM.map_at k f g).
Proof.
  unfold lm_keys_asc. induction g as [|[k0 v] g IH]; intros Hs; simpl.
  - repeat constructor.
  - apply StronglySorted_inv in Hs as [Hs Hall]. simpl in *.
    destruct (k <? k0) eqn:E1.
    + apply Z.ltb_lt in E1. simpl. constructor.
      * by constructor.
      * constructor; [done|]. eapply Forall_impl; [exact Hall|].
        simpl. intros; lia.
    + destruct (k =? k0) eqn:E2; simpl; [by constructor|].
      apply Z.ltb_ge in E1. apply Z.eqb_neq in E2.
      constructor; [by apply IH|].
      apply Forall_forall. intros x Hx. apply lm_map_at_keys in Hx as [->|Hx].
      * lia.
      * by apply (proj1 (Forall_forall _ _) Hall).
Qed.

(** [waits_for_[k]] makes an empty set where there is none and changes
    nothing else. *)
Lemma lm_map_find_map_at k k' g :
  lm_keys_asc g ->
  LM.map_find k' (LM.map_at k (fun s => s) g)
  = if bool_decide (k' = k) then Some (default [] (LM.map_find k g))
    else LM.map_find k' g.
Proof.
  unfold lm_keys_asc. induction g as [|[k0 v] g IH]; intros Hs; simpl.
  - case_bool_decide as Hk.
    + subst. by rewrite Z.eqb_refl.
    + by rewrite (proj2 (Z.eqb_neq _ _) Hk).
  - apply StronglySorted_inv in Hs as [Hs Hall]. simpl in *.
    destruct (k <? k0) eqn:E1.
    + apply Z.ltb_lt in E1. simpl.
      assert (E0 : (k =? k0) = false) by (apply Z.eqb_neq; lia).
      rewrite E0.
      rewrite (lm_map_find_lt k g)
        by (eapply Forall_impl; [exact Hall|simpl; intros; lia]).
      case_bool_decide as Hk.
      * subst. by rewrite Z.eqb_refl.
      * by rewrite (proj2 (Z.eqb_neq _ _) Hk).
    + destruct (k =? k0) eqn:E2; simpl.
      * apply Z.eqb_eq in E2. subst k0.
        case_bool_decide as Hk; [subst; by rewrite Z.eqb_refl|done].
      * apply Z.eqb_neq in E2. rewrite IH by done.
        destruct (k' =? k0) eqn:E3; [|done].
        apply Z.eqb_eq in E3. subst k0.
        by rewrite bool_decide_eq_false_2 by congruence.
Qed.

Lemma lm_edge_map_at k g u v :
  lm_keys_asc g ->
  lm_edge (LM.map_at k (fun s => s) g) u v <-> lm_edge g u v.
Proof.
  intros Hs. unfold lm_edge. rewrite lm_map_find_map_at by done.
  case_bool_decide as Hk; [|done]. subst. split.
  - intros (s & E & Hv). injection E as <-.
    destruct (LM.map_find k g) as [s|]; [by exists s|].
    by apply elem_of_nil in Hv.
  - intros (s & E & Hv). rewrite E. by exists s.
Qed.

Lemma lm_map_find_key k g :
  is_Some (LM.map_find k g) <-> k ∈ (fst <$> g).
Proof.
  induction g as [|[k0 v] g IH]; simpl.
  - split; [by intros [? ?]|by intros ?%elem_of_nil].
  - rewrite elem_of_cons. destruct (k =? k0) eqn:E.
    + apply Z.eqb_eq in E. split; [by left|by eexists].
    + apply Z.eqb_neq in E. rewrite IH. simpl. tauto.
Qed.

Lemma lm_edge_nodes g u v : lm_edge g u v -> u ∈ lm_nodes g /\ v ∈ lm_nodes g.
Proof.
  unfold lm_edge, lm_nodes. intros (s & E & Hv).
  induction g as [|[k0 w] g IH]; simpl in *; [done|].
  rewrite !elem_of_cons, !elem_of_app.
  destruct (u =? k0) eqn:E0.
  - apply Z.eqb_eq in E0. injection E as ->. tauto.
  - destruct (IH E). tauto.
Qed.

Lemma lm_key_nodes g k : k ∈ (fst <$> g) -> k ∈ lm_nodes g.
Proof.
  unfold lm_nodes. induction g as [|[k0 w] g IH]; simpl; [done|].
  rewrite !elem_of_cons, elem_of_app. intros [->|H]; [by left|].
  right. right. by apply IH.
Qed.

(** The transactions not yet in [txn_set]. *)
Definition lm_unvisited (U : list Z) (s : list Z) : nat :=
  length (filter (fun x => x ∉ s) U).

Lemma lm_unvisited_mono U s s' :
  (forall x, x ∈ s -> x ∈ s') -> (lm_unvisited U s' <= lm_unvisited U s)%nat.
Proof.
  intros Hsub. unfold lm_unvisited. induction U as [|x U IH]; [done|].
  destruct (decide (x ∈ s')) as [Hx'|Hx'].
  - rewrite (filter_cons_False _ x U) by tauto.
    destruct (decide (x ∈ s)).
    + by rewrite filter_cons_False by tauto.
    + rewrite filter_cons_True by done. simpl. lia.
  - rewrite (filter_cons_True _ x U) by done.
    rewrite filter_cons_True by (intros ?; by apply Hx', Hsub). simpl. lia.
Qed.

Lemma lm_unvisited_lt U s s' y :
  (forall x, x ∈ s -> x ∈ s') -> y ∈ U -> y ∉ s -> y ∈ s' ->
  (lm_unvisited U s' < lm_unvisited U s)%nat.
Proof.
  intros Hsub Hy Hn Hy'. unfold lm_unvisited.
  induction U as [|x U IH]; [by apply elem_of_nil in Hy|].
  apply elem_of_cons in Hy as [<-|Hy].
  - rewrite (filter_cons_False _ y U) by tauto.
    rewrite filter_cons_True by done. simpl.
    pose proof (lm_unvisited_mono U s s' Hsub). unfold lm_unvisited in *. lia.
  - specialize (IH Hy). destruct (decide (x ∈ s')) as [Hx'|Hx'].
    + rewrite (filter_cons_False _ x U) by tauto.
      destruct (decide (x ∈ s)).
      * by rewrite filter_cons_False by tauto.
      * rewrite filter_cons_True by done. simpl. lia.
    + rewrite (filter_cons_True _ x U) by done.
      rewrite filter_cons_True by (intros ?; by apply Hx', Hsub). simpl. lia.
Qed.

(** The [std::any_of] of the [dfs] lambda over the set [waits_for_[now]],
    with [fuel] left for the calls of [dfs]. *)
Definition lm_any_of (fuel : nat)
  : list Z -> LM.DfsState -> option (bool * LM.DfsState) :=
  fix any_of (it : list Z) (st : LM.DfsState) :=
    match it with
    | [] => Some (false, st)
    | n :: r =>
        if LM.set_count n (LM.txn_set st) then Some (true, st)
        else
          '(found, st') ← LM.dfs fuel st n;
          if (found : bool) then Some (true, st') else any_of r st'
    end.

Lemma lm_dfs_unfold fuel st now :
  LM.dfs (S fuel) st now
  = let st0 := LM.mkDfs (LM.map_at now (fun s => s) (LM.graph st))
                 (LM.set_emplace now (LM.txn_set st))
                 (LM.set_emplace now (LM.tmp st)) in
    lm_any_of fuel (default [] (LM.map_find now (LM.graph st0))) st0.
Proof. reflexivity. Qed.

(** A transaction put into [txn_set] between two states. *)
Definition lm_fresh (st st' : LM.DfsState) (x : Z) : Prop :=
  x ∈ LM.txn_set st' /\ x ∉ LM.txn_set st.

(** What a search keeps and adds, whatever it returns. *)
Record lm_dfs_post (g0 : list (Z * list Z)) (U : list Z)
    (st st' : LM.DfsState) : Prop := mk_lm_dfs_post {
  post_asc : lm_keys_asc (LM.graph st');
  post_edge : forall u v, lm_edge (LM.graph st') u v <-> lm_edge g0 u v;
  post_mono : forall x, x ∈ LM.txn_set st -> x ∈ LM.txn_set st';
  post_univ : forall x, lm_fresh st st' x -> x ∈ U;
  post_tmp : forall x, x ∈ LM.tmp st' <-> x ∈ LM.tmp st \/ lm_fresh st st' x;
  post_keys : forall k, is_Some (LM.map_find k (LM.graph st')) ->
    is_Some (LM.map_find k (LM.graph st)) \/ lm_fresh st st' k
}.

(** What a search that returns false has seen: the transactions it put
    into [txn_set] wait only for each other, none of them waits for itself
    and none has two edges whose chains meet. *)
Record lm_dfs_safe (g0 : list (Z * list Z)) (st st' : LM.DfsState) : Prop :=
  mk_lm_dfs_safe {
  safe_closed : forall u v, lm_fresh st st' u -> lm_edge g0 u v ->
    lm_fresh st st' v;
  safe_cycle : forall u, lm_fresh st st' u -> ~ lm_cycle g0 u;
  safe_diamond : forall u, lm_fresh st st' u -> ~ lm_diamond g0 u
}.

Lemma lm_post_refl g0 U st :
  lm_keys_asc (LM.graph st) ->
  (forall u v, lm_edge (LM.graph st) u v <-> lm_edge g0 u v) ->
  lm_dfs_post g0 U st st.
Proof.
  intros Hs He. split; try done.
  - by intros x [? ?].
  - intros x. split; [by left|]. by intros [?|[? ?]].
  - intros k ?. by left.
Qed.

Lemma lm_safe_refl g0 st : lm_dfs_safe g0 st st.
Proof. split; by intros ? [? ?] || by intros ? ? [? ?]. Qed.

Lemma lm_fresh_trans st st1 st' :
  (forall y, y ∈ LM.txn_set st -> y ∈ LM.txn_set st1) ->
  (forall y, y ∈ LM.txn_set st1 -> y ∈ LM.txn_set st') ->
  forall x, lm_fresh st st' x <-> lm_fresh st st1 x \/ lm_fresh st1 st' x.
Proof.
  intros H1 H2 x. unfold lm_fresh. split.
  - intros [Hx Hn]. destruct (decide (x ∈ LM.txn_set st1)); [by left|by right].
  - intros [[Hx Hn]|[Hx Hn]]; split; auto.
Qed.

Lemma lm_post_trans g0 U st st1 st' :
  lm_dfs_post g0 U st st1 -> lm_dfs_post g0 U st1 st' ->
  lm_dfs_post g0 U st st'.
Proof.
  intros [A1 E1 M1 U1 T1 K1] [A2 E2 M2 U2 T2 K2].
  pose proof (lm_fresh_trans st st1 st' M1 M2) as Hf.
  split; try done.
  - auto.
  - intros x Hx. apply Hf in Hx as [?|?]; auto.
  - intros x. rewrite T2, T1, Hf. tauto.
  - intros k Hk. rewrite Hf.
    destruct (K2 k Hk) as [Hk1|?]; [|tauto].
    destruct (K1 k Hk1); tauto.
Qed.

Lemma lm_safe_trans g0 U st st1 st' :
  lm_dfs_post g0 U st st1 -> lm_dfs_post g0 U st1 st' ->
  lm_dfs_safe g0 st st1 -> lm_dfs_safe g0 st1 st' ->
  lm_dfs_safe g0 st st'.
Proof.
  intros [A1 E1 M1 U1 T1 K1] [A2 E2 M2 U2 T2 K2] [C1 Y1 D1] [C2 Y2 D2].
  pose proof (lm_fresh_trans st st1 st' M1 M2) as Hf.
  split.
  - intros u v Hu He. apply Hf. apply Hf in Hu as [Hu|Hu].
    + left. by apply (C1 u).
    + right. by apply (C2 u).
  - intros u Hu. apply Hf in Hu as [Hu|Hu]; auto.
  - intros u Hu. apply Hf in Hu as [Hu|Hu]; auto.
Qed.

Lemma lm_closed_rtc g0 st st' u v :
  lm_dfs_safe g0 st st' -> lm_fresh st st' u -> rtc (lm_edge g0) u v ->
  lm_fresh st st' v.
Proof.
  intros Hsafe Hu Hr. induction Hr as [|x y z Hxy _ IH]; [done|].
  apply IH. by apply (safe_closed _ _ _ Hsafe x).
Qed.

Section Search.
Variable g0 : list (Z * list Z).
Variable U : list Z.
Hypothesis HU : forall u v, lm_edge g0 u v -> v ∈ U.

(** The searches whose fuel covers the transactions not yet seen. *)
Definition lm_dfs_ok (fuel : nat) : Prop :=
  forall st now,
    lm_keys_asc (LM.graph st) ->
    (forall u v, lm_edge (LM.graph st) u v <-> lm_edge g0 u v) ->
    now ∈ U -> now ∉ LM.txn_set st ->
    (lm_unvisited U (LM.txn_set st) <= fuel)%nat ->
    exists b st',
      LM.dfs fuel st now = Some (b, st') /\
      lm_dfs_post g0 U st st' /\ now ∈ LM.txn_set st' /\
      (b = false -> lm_dfs_safe g0 st st').

Lemma lm_any_of_spec fuel :
  lm_dfs_ok fuel ->
  forall it st,
    lm_keys_asc (LM.graph st) ->
    (forall u v, lm_edge (LM.graph st) u v <-> lm_edge g0 u v) ->
    (forall n, n ∈ it -> n ∈ U) ->
    (lm_unvisited U (LM.txn_set st) <= fuel)%nat ->
    exists b st',
      lm_any_of fuel it st = Some (b, st') /\
      lm_dfs_post g0 U st st' /\
      (b = false ->
       lm_dfs_safe g0 st st' /\
       (forall n, n ∈ it -> lm_fresh st st' n) /\
       (forall a b v, a ∈ it -> b ∈ it -> a <> b ->
          rtc (lm_edge g0) a v -> rtc (lm_edge g0) b v -> False)).
Proof.
  intros Hdfs. induction it as [|n r IH]; intros st Hs He Hit Hfuel; simpl.
  - exists false, st. split; [done|]. split; [by apply lm_post_refl|].
    intros _. split; [apply lm_safe_refl|].
    split; [by intros ? ?%elem_of_nil|]. by intros ? ? ? ?%elem_of_nil.
  - destruct (LM.set_count n (LM.txn_set st)) eqn:Hcnt.
    { exists true, st. split; [done|]. split; [by apply lm_post_refl|done]. }
    assert (Hn : n ∉ LM.txn_set st).
    { intros Hin. apply lm_set_count in Hin. congruence. }
    destruct (Hdfs st n Hs He) as (b1 & st1 & -> & Hpost1 & Hn1 & Hsafe1);
      [apply Hit; by left|done|done|].
    simpl. destruct b1.
    { exists true, st1. done. }
    specialize (Hsafe1 eq_refl).
    destruct (IH st1) as (b & st' & -> & Hpost2 & Hsafe2).
    + apply (post_asc _ _ _ _ Hpost1).
    + apply (post_edge _ _ _ _ Hpost1).
    + intros m Hm. apply Hit. by right.
    + pose proof (lm_unvisited_mono U _ _ (post_mono _ _ _ _ Hpost1)). lia.
    + exists b, st'. split; [done|].
      split; [by apply (lm_post_trans _ _ _ st1)|].
      intros ->. destruct (Hsafe2 eq_refl) as (Hsafe2' & Hr & Hpair).
      pose proof (lm_fresh_trans st st1 st' (post_mono _ _ _ _ Hpost1)
                    (post_mono _ _ _ _ Hpost2)) as Hf.
      assert (Hn_fresh : lm_fresh st st1 n) by done.
      split; [by apply (lm_safe_trans _ U _ st1)|]. split.
      * intros m Hm. apply Hf. apply elem_of_cons in Hm as [->|Hm];
          [by left|right; by apply Hr].
      * assert (Hcross : forall m v, m ∈ r ->
                  rtc (lm_edge g0) n v -> rtc (lm_edge g0) m v -> False).
        { intros m v Hm Hnv Hmv.
          pose proof (lm_closed_rtc _ _ _ _ _ Hsafe1 Hn_fresh Hnv) as [Hv1 _].
          pose proof (lm_closed_rtc _ _ _ _ _ Hsafe2' (Hr m Hm) Hmv) as [_ Hv2].
          done. }
        intros a c v Ha Hc Hne Hav Hcv.
        apply elem_of_cons in Ha as [->|Ha];
          apply elem_of_cons in Hc as [->|Hc].
        -- done.
        -- by apply (Hcross c v).
        -- by apply (Hcross a v).
        -- by apply (Hpair a c v).
Qed.

Lemma lm_dfs_spec fuel : lm_dfs_ok fuel.
Proof.
  induction fuel as [|fuel IH]; intros st now Hs He Hnow Hnew Hfuel.
  { exfalso.
    assert (Hlt : (lm_unvisited U (now :: LM.txn_set st)
                   < lm_unvisited U (LM.txn_set st))%nat).
    { apply (lm_unvisited_lt _ _ _ now); [by right|done|done|by left]. }
    lia. }
  rewrite lm_dfs_unfold. cbv zeta.
  set (st0 := LM.mkDfs _ _ _).
  assert (Hs0 : lm_keys_asc (LM.graph st0)) by (by apply lm_keys_asc_map_at).
  assert (He0 : forall u v, lm_edge (LM.graph st0) u v <-> lm_edge g0 u v).
  { intros u v. unfold st0. simpl. by rewrite lm_edge_map_at. }
  assert (Hmono0 : forall x, x ∈ LM.txn_set st -> x ∈ LM.txn_set st0).
  { intros x Hx. apply lm_set_emplace. by right. }
  assert (Hnow0 : now ∈ LM.txn_set st0) by (apply lm_set_emplace; by left).
  assert (Hit : forall n, n ∈ default [] (LM.map_find now (LM.graph st0))
                          <-> lm_edge g0 now n).
  { intros n. rewrite <- He0. unfold lm_edge.
    destruct (LM.map_find now (LM.graph st0)) as [s|]; simpl.
    - split; [by exists s|]. by intros (s' & [= <-] & ?).
    - split; [by intros ?%elem_of_nil|]. by intros (s' & ? & ?). }
  destruct (lm_any_of_spec fuel IH
              (default [] (LM.map_find now (LM.graph st0))) st0)
    as (b & st' & -> & Hpost & Hsafe); [done|done| | |].
  { intros n Hn. apply Hit in Hn. by apply (HU now). }
  { pose proof (lm_unvisited_lt U (LM.txn_set st) (LM.txn_set st0) now
                  Hmono0 Hnow Hnew Hnow0). lia. }
  assert (Hf : forall x, lm_fresh st st' x <-> x = now \/ lm_fresh st0 st' x).
  { intros x. unfold lm_fresh. unfold st0 at 1. simpl.
    rewrite lm_set_emplace. split.
    - intros [Hx Hn]. destruct (decide (x = now)); [by left|]. right.
      split; [done|]. tauto.
    - intros [->|[Hx Hn]].
      + split; [|done]. by apply (post_mono _ _ _ _ Hpost).
      + split; [done|]. tauto. }
  exists b, st'. split; [done|].
  destruct Hpost as [A E M Uc T K].
  split; [|split; [by apply M|]].
  - split; try done.
    + auto.
    + intros x Hx. apply Hf in Hx as [->|Hx]; auto.
    + intros x. rewrite T, Hf. unfold st0 at 1. simpl.
      rewrite lm_set_emplace. tauto.
    + intros k Hk. rewrite Hf. destruct (K k Hk) as [Hk0|?]; [|tauto].
      unfold st0 in Hk0. simpl in Hk0.
      rewrite lm_map_find_map_at in Hk0 by done.
      case_bool_decide; [subst; tauto|by left].
  - intros ->. destruct (Hsafe eq_refl) as ([C Y D] & Hr & Hpair).
    assert (Hsafe0 : lm_dfs_safe g0 st0 st') by done.
    assert (Hnot : ~ lm_fresh st0 st' now) by (by intros [_ ?]).
    split.
    + intros u v Hu Huv. apply Hf. right.
      apply Hf in Hu as [->|Hu]; [apply Hr; by apply Hit|by apply (C u)].
    + intros u Hu. apply Hf in Hu as [->|Hu]; [|by apply Y].
      intros Hcyc. apply Hnot. unfold lm_cycle in Hcyc.
      inversion Hcyc as [? ? Hnv|? v ? Hnv Hvn]; subst.
      * apply Hr. by apply Hit.
      * apply (lm_closed_rtc g0 st0 st' v now Hsafe0);
          [apply Hr; by apply Hit|by apply tc_rtc].
    + intros u Hu. apply Hf in Hu as [->|Hu]; [|by apply D].
      intros (a & c & v & Hne & Ha & Hc & Hav & Hcv).
      apply (Hpair a c v); try done; by apply Hit.
Qed.

End Search.

(** The keys the loop of [HasCycle] has still to pass. *)
Definition lm_above (cursor : option Z) (x : Z) : bool :=
  match cursor with Some c => c <? x | None => true end.

Definition lm_ahead (U : list Z) (cursor : option Z) : nat :=
  length (filter (fun x => lm_above cursor x = true) U).

Lemma lm_ahead_le U cursor : (lm_ahead U cursor <= length U)%nat.
Proof. apply length_filter. Qed.

Lemma lm_ahead_lt U cursor k :
  k ∈ U -> lm_above cursor k = true ->
  (lm_ahead U (Some k) < lm_ahead U cursor)%nat.
Proof.
  intros Hk Hab. unfold lm_ahead.
  assert (Himp : forall x, lm_above (Some k) x = true -> lm_above cursor x = true).
  { intros x Hx. simpl in Hx. apply Z.ltb_lt in Hx.
    destruct cursor as [c|]; [|done]. simpl in *.
    apply Z.ltb_lt in Hab. apply Z.ltb_lt. lia. }
  assert (Hle : forall V : list Z,
            (length (filter (fun x => lm_above (Some k) x = true) V)
             <= length (filter (fun x => lm_above cursor x = true) V))%nat).
  { induction V as [|x V IH]; [done|].
    destruct (decide (lm_above (Some k) x = true)) as [Hx|Hx].
    - rewrite !filter_cons_True by auto. cbn [length]. lia.
    - rewrite (filter_cons_False _ x V) by done.
      destruct (decide (lm_above cursor x = true)).
      + rewrite filter_cons_True by done. cbn [length]. lia.
      + by rewrite filter_cons_False by done. }
  induction U as [|x U IH]; [by apply elem_of_nil in Hk|].
  apply elem_of_cons in Hk as [<-|Hk].
  - rewrite (filter_cons_False _ k U)
      by (simpl; rewrite Z.ltb_irrefl; done).
    rewrite filter_cons_True by done. cbn [length]. specialize (Hle U). lia.
  - specialize (IH Hk).
    destruct (decide (lm_above (Some k) x = true)) as [Hx|Hx].
    + rewrite !filter_cons_True by auto. cbn [length]. lia.
    + rewrite (filter_cons_False _ x U) by done.
      destruct (decide (lm_above cursor x = true)).
      * rewrite filter_cons_True by done. cbn [length]. lia.
      * by rewrite filter_cons_False by done.
Qed.

(** [next_key] gives the first key after the cursor. *)
Lemma lm_next_key cursor g :
  lm_keys_asc g ->
  match LM.next_key cursor g with
  | Some k =>
      k ∈ (fst <$> g) /\ lm_above cursor k = true /\
      forall k', k' ∈ (fst <$> g) -> lm_above cursor k' = true -> k <= k'
  | None => forall k', k' ∈ (fst <$> g) -> lm_above cursor k' = false
  end.
Proof.
  unfold lm_keys_asc. induction g as [|[k0 v] g IH]; intros Hs; simpl.
  - by intros k' ?%elem_of_nil.
  - apply StronglySorted_inv in Hs as [Hs Hall]. simpl in *.
    assert (Hmin : forall k', k' ∈ k0 :: (fst <$> g) -> k0 <= k').
    { intros k' Hk'. apply elem_of_cons in Hk' as [->|Hk']; [lia|].
      pose proof (proj1 (Forall_forall _ _) Hall k' Hk'). simpl in *. lia. }
    destruct cursor as [c|]; simpl.
    + destruct (c <? k0) eqn:E.
      * split; [by left|]. split; [done|]. intros k' Hk' _. by apply Hmin.
      * specialize (IH Hs). simpl in IH.
        destruct (LM.next_key (Some c) g) as [k|].
        -- destruct IH as (Hk & Hab & Hfirst). split; [by right|].
           split; [done|]. intros k' Hk' Hab'.
           apply elem_of_cons in Hk' as [->|Hk']; [congruence|].
           by apply Hfirst.
        -- intros k' Hk'. apply elem_of_cons in Hk' as [->|Hk']; [done|].
           by apply IH.
    + split; [by left|]. split; [done|]. intros k' Hk' _. by apply Hmin.
Qed.

Section Loop.
Variable g0 : list (Z * list Z).
Variable U : list Z.
Hypothesis HU : forall u v, lm_edge g0 u v -> v ∈ U.

Lemma lm_HasCycle_loop_spec : forall fuel st cursor,
  lm_keys_asc (LM.graph st) ->
  (forall u v, lm_edge (LM.graph st) u v <-> lm_edge g0 u v) ->
  LM.txn_set st = [] ->
  (forall k, k ∈ (fst <$> LM.graph st) -> k ∈ U) ->
  (forall x, x ∈ LM.tmp st -> ~ lm_cycle g0 x /\ ~ lm_diamond g0 x) ->
  (forall k, k ∈ (fst <$> LM.graph st) -> lm_above cursor k = false ->
     k ∈ LM.tmp st) ->
  (lm_ahead U cursor + length U + 1 <= fuel)%nat ->
  exists b st',
    LM.HasCycle_loop fuel st cursor = Some (b, st') /\
    (forall u v, lm_edge (LM.graph st') u v <-> lm_edge g0 u v) /\
    (forall x, x ∈ LM.txn_set st' -> x ∈ U) /\
    (b = true -> LM.txn_set st' <> []) /\
    (b = false -> forall u, ~ lm_cycle g0 u /\ ~ lm_diamond g0 u).
Proof.
  induction fuel as [|fuel IH];
    intros st cursor Hs He Hempty Hkeys Htmp Hdone Hfuel; [lia|].
  simpl. pose proof (lm_next_key cursor (LM.graph st) Hs) as Hnext.
  destruct (LM.next_key cursor (LM.graph st)) as [k|].
  2: { exists false, st. split; [done|]. split; [done|].
       split; [rewrite Hempty; by intros ? ?%elem_of_nil|]. split; [done|].
       intros _.
       assert (Hsrc : forall u v, lm_edge g0 u v ->
                 ~ lm_cycle g0 u /\ ~ lm_diamond g0 u).
       { intros u v Huv.
         assert (Hkey : u ∈ (fst <$> LM.graph st)).
         { apply He in Huv as (s & E & _). apply lm_map_find_key. by eexists. }
         apply Htmp, Hdone; [done|by apply Hnext]. }
       intros u. split.
       - intros Hc. assert (exists v, lm_edge g0 u v) as [v Huv].
         { inversion Hc; subst; by eexists. }
         destruct (Hsrc u v Huv) as [Hn _]. by apply Hn.
       - intros Hd. pose proof Hd as (a & _ & _ & _ & Hua & _).
         destruct (Hsrc u a Hua) as [_ Hn]. by apply Hn. }
  destruct Hnext as (Hk & Hab & Hfirst).
  assert (HkU : k ∈ U) by (by apply Hkeys).
  pose proof (lm_ahead_lt U cursor k HkU Hab) as Hlt.
  pose proof (lm_ahead_le U (Some k)) as Hle.
  assert (Hdone_k : forall (tmp' : list Z) k',
            (forall x, x ∈ LM.tmp st -> x ∈ tmp') -> k ∈ tmp' ->
            k' ∈ (fst <$> LM.graph st) -> lm_above (Some k) k' = false ->
            k' ∈ tmp').
  { intros tmp' k' Hsub Hin Hk' Hab'. simpl in Hab'. apply Z.ltb_ge in Hab'.
    destruct (lm_above cursor k') eqn:E.
    - assert (k' = k) as -> by (specialize (Hfirst k' Hk' E); lia). done.
    - by apply Hsub, Hdone. }
  destruct (LM.set_count k (LM.tmp st)) eqn:Hcnt.
  - apply lm_set_count in Hcnt.
    apply (IH st (Some k)); try done; [|lia].
    intros k' Hk' Hab'. by apply (Hdone_k (LM.tmp st)).
  - assert (Hnew : k ∉ LM.txn_set st)
      by (rewrite Hempty; by intros ?%elem_of_nil).
    destruct (lm_dfs_spec g0 U HU fuel st k Hs He HkU Hnew)
      as (b1 & st1 & -> & Hpost & Hk1 & Hsafe).
    { pose proof (lm_unvisited_mono U [] (LM.txn_set st)).
      unfold lm_unvisited at 1. rewrite Hempty.
      pose proof (length_filter (fun x => x ∉ ([] : list Z)) U). lia. }
    simpl.
    assert (Hfresh : forall x, x ∈ LM.txn_set st1 -> lm_fresh st st1 x).
    { intros x Hx. split; [done|]. rewrite Hempty. by intros ?%elem_of_nil. }
    destruct b1.
    + exists true, st1. split; [done|].
      split; [apply (post_edge _ _ _ _ Hpost)|].
      split; [intros x Hx; by apply (post_univ _ _ _ _ Hpost), Hfresh|].
      split; [|done]. intros _ E. rewrite E in Hk1. by apply elem_of_nil in Hk1.
    + specialize (Hsafe eq_refl).
      apply (IH (LM.mkDfs (LM.graph st1) [] (LM.tmp st1)) (Some k)); simpl.
      * apply (post_asc _ _ _ _ Hpost).
      * apply (post_edge _ _ _ _ Hpost).
      * done.
      * intros k' Hk'. apply lm_map_find_key in Hk'.
        destruct (post_keys _ _ _ _ Hpost k' Hk') as [Hold|Hf].
        -- by apply Hkeys, lm_map_find_key.
        -- by apply (post_univ _ _ _ _ Hpost).
      * intros x Hx. apply (post_tmp _ _ _ _ Hpost) in Hx as [Hx|Hx].
        -- by apply Htmp.
        -- split; [by apply (safe_cycle _ _ _ Hsafe)
                  |by apply (safe_diamond _ _ _ Hsafe)].
      * intros k' Hk' Hab'. apply lm_map_find_key in Hk'.
        destruct (post_keys _ _ _ _ Hpost k' Hk') as [Hold|Hf].
        -- apply (Hdone_k (LM.tmp st1)); try done.
           ++ intros x Hx. apply (post_tmp _ _ _ _ Hpost). by left.
           ++ apply (post_tmp _ _ _ _ Hpost). right. by apply Hfresh.
           ++ by apply lm_map_find_key.
        -- apply (post_tmp _ _ _ _ Hpost). by right.
      * lia.
Qed.

End Loop.

(** [id = id > i ? id : i] over [txn_set]. *)
Lemma lm_victim_max l : forall id,
  let r := foldl (fun id i => if id >? i then id else i) id l in
  id <= r /\ (forall x, x ∈ l -> x <= r) /\ (r = id \/ r ∈ l).
Proof.
  induction l as [|y l IH]; intros id; simpl.
  - split; [lia|]. split; [by intros ? ?%elem_of_nil|by left].
  - destruct (IH (if id >? y then id else y)) as (H1 & H2 & H3).
    assert (Hm : id <= (if id >? y then id else y)
                 /\ y <= (if id >? y then id else y)).
    { destruct (id >? y) eqn:E; lia. }
    split; [lia|]. split.
    + intros x Hx. apply elem_of_cons in Hx as [->|Hx]; [lia|by apply H2].
    + destruct H3 as [H3|H3]; [|right; by right].
      rewrite H3. destruct (id >? y); [by left|right; by left].
Qed.

Lemma lm_HasCycle_spec g fuel :
  lm_keys_asc g -> (2 * length (lm_nodes g) + 1 <= fuel)%nat ->
  exists g' r,
    LM.HasCycle fuel g = Some (g', r) /\
    (forall u v, lm_edge g' u v <-> lm_edge g u v) /\
    (r = None -> forall u, ~ lm_cycle g u /\ ~ lm_diamond g u) /\
    (forall tid, r = Some tid ->
       (forall x, x ∈ lm_nodes g -> 0 <= x) -> tid ∈ lm_nodes g).
Proof.
  intros Hs Hfuel. unfold LM.HasCycle.
  destruct (lm_HasCycle_loop_spec g (lm_nodes g)
              (fun u v H => proj2 (lm_edge_nodes g u v H))
              fuel (LM.mkDfs g [] []) None)
    as (b & st' & -> & He & Huniv & Htrue & Hfalse); simpl; try done.
  - intros k. apply lm_key_nodes.
  - by intros x ?%elem_of_nil.
  - pose proof (lm_ahead_le (lm_nodes g) None). lia.
  - destruct b.
    + eexists _, _. split; [done|]. split; [done|]. split; [done|].
      intros tid [= <-] Hpos.
      destruct (lm_victim_max (LM.txn_set st') (-1)) as (H1 & H2 & [H3|H3]);
        [|by apply Huniv].
      exfalso. destruct (LM.txn_set st') as [|x l] eqn:E; [by apply Htrue|].
      assert (Hx : x ∈ x :: l) by (by left).
      pose proof (H2 x Hx). pose proof (Hpos x (Huniv x Hx)). lia.
    + eexists _, _. split; [done|]. split; [done|]. split; [|done].
      intros _. by apply Hfalse.
Qed.

Lemma lm_keys_asc_AddEdge g t1 t2 :
  lm_keys_asc g -> lm_keys_asc (LM.AddEdge g t1 t2).
Proof. apply lm_keys_asc_map_at. Qed.

Lemma lm_keys_asc_edges (edges : list (Z * Z)) :
  lm_keys_asc (foldl (fun g e => LM.AddEdge g e.1 e.2) [] edges).
Proof.
  assert (H : forall g, lm_keys_asc g ->
            lm_keys_asc (foldl (fun g e => LM.AddEdge g e.1 e.2) g edges)).
  { induction edges as [|e edges IH]; intros g Hg; simpl; [done|].
    by apply IH, lm_keys_asc_AddEdge. }
  apply H. constructor.
Qed.

(** X27.  [HasCycle] finds every deadlock: on a waits-for graph (a
    [std::map], keys ascending) the call returns, with fuel for twice the
    transactions of the graph, and it returns true whenever a transaction
    waits through a chain of edges for itself.  The edges are as before
    (the search only makes empty sets for transactions that wait for
    nobody), and with ids >= 0 the id it stores is a transaction of the
    graph. *)
Theorem lm_has_cycle_complete (g : list (Z * list Z)) (fuel : nat) :
  lm_keys_asc g -> (2 * length (lm_nodes g) + 1 <= fuel)%nat ->
  exists g' r,
    LM.HasCycle fuel g = Some (g', r) /\
    (forall u v, lm_edge g' u v <-> lm_edge g u v) /\
    ((exists t, lm_cycle g t) -> is_Some r) /\
    (forall tid, r = Some tid ->
       (forall x, x ∈ lm_nodes g -> 0 <= x) -> tid ∈ lm_nodes g).
Proof.
  intros Hs Hfuel.
  destruct (lm_HasCycle_spec g fuel Hs Hfuel) as (g' & r & E & He & Hnone & Hv).
  exists g', r. split; [done|]. split; [done|]. split; [|done].
  intros [t Ht]. destruct r as [tid|]; [by eexists|].
  exfalso. destruct (Hnone eq_refl t) as [Hn _]. by apply Hn.
Qed.

(** Two transactions that wait for each other. *)
Definition lm_sample_deadlock : list (Z * list Z) :=
  foldl (fun g e => LM.AddEdge g e.1 e.2) [] [(1, 2); (2, 1)].

Lemma lm_has_cycle_complete_witness :
  exists g' r,
    LM.HasCycle 9 lm_sample_deadlock = Some (g', r) /\
    (forall u v, lm_edge g' u v <-> lm_edge lm_sample_deadlock u v) /\
    ((exists t, lm_cycle lm_sample_deadlock t) -> is_Some r) /\
    (forall tid, r = Some tid ->
       (forall x, x ∈ lm_nodes lm_sample_deadlock -> 0 <= x) ->
       tid ∈ lm_nodes lm_sample_deadlock).
Proof.
  apply (lm_has_cycle_complete lm_sample_deadlock 9).
  - apply lm_keys_asc_edges.
  - vm_compute. lia.
Defined.

(** X28.  [HasCycle] also returns true where nothing waits for itself: it is
    enough that a transaction has two edges whose chains lead to the same
    transaction (two transactions waiting for one holder of a lock, and a
    third waiting for both). *)
Theorem lm_has_cycle_false_alarm (g : list (Z * list Z)) (fuel : nat) :
  lm_keys_asc g -> (2 * length (lm_nodes g) + 1 <= fuel)%nat ->
  (exists t, lm_diamond g t) ->
  exists g' tid, LM.HasCycle fuel g = Some (g', Some tid).
Proof.
  intros Hs Hfuel [t Ht].
  destruct (lm_HasCycle_spec g fuel Hs Hfuel) as (g' & r & E & _ & Hnone & _).
  destruct r as [tid|]; [by exists g', tid|].
  exfalso. destruct (Hnone eq_refl t) as [_ Hn]. by apply Hn.
Qed.

(** Transaction 1 waits for 2 and 3, which both wait for 4. *)
Definition lm_sample_diamond : list (Z * list Z) :=
  foldl (fun g e => LM.AddEdge g e.1 e.2) [] [(1, 2); (1, 3); (2, 4); (3, 4)].

Lemma lm_sample_diamond_edge u v :
  lm_edge lm_sample_diamond u v <->
  (u, v) ∈ [(1, 2); (1, 3); (2, 4); (3, 4)].
Proof.
  unfold lm_edge.
  change lm_sample_diamond with [(1, [2; 3]); (2, [4]); (3, [4])].
  simpl. rewrite !elem_of_cons, elem_of_nil. split.
  - intros (s & E & Hv).
    destruct (u =? 1) eqn:E1; [apply Z.eqb_eq in E1; injection E as <-|].
    { rewrite !elem_of_cons, elem_of_nil in Hv.
      destruct Hv as [->|[->|[]]]; subst; tauto. }
    destruct (u =? 2) eqn:E2; [apply Z.eqb_eq in E2; injection E as <-|].
    { rewrite !elem_of_cons, elem_of_nil in Hv.
      destruct Hv as [->|[]]; subst; tauto. }
    destruct (u =? 3) eqn:E3; [apply Z.eqb_eq in E3; injection E as <-|done].
    rewrite !elem_of_cons, elem_of_nil in Hv.
    destruct Hv as [->|[]]; subst; tauto.
  - intros [[= -> ->]|[[= -> ->]|[[= -> ->]|[[= -> ->]|[]]]]]; simpl;
      eexists; (split; [reflexivity|]);
      rewrite ?elem_of_cons; tauto.
Qed.

Lemma lm_sample_diamond_acyclic t : ~ lm_cycle lm_sample_diamond t.
Proof.
  assert (Hlt : forall u v, tc (lm_edge lm_sample_diamond) u v -> u < v).
  { assert (Hedge : forall u v, lm_edge lm_sample_diamond u v -> u < v).
    { intros u v Huv. apply lm_sample_diamond_edge in Huv.
      rewrite !elem_of_cons, elem_of_nil in Huv.
      destruct Huv as [[= -> ->]|[[= -> ->]|[[= -> ->]|[[= -> ->]|[]]]]]; lia. }
    intros u v Huv. induction Huv as [u v Huv|u w v Huw _ IH].
    - by apply Hedge.
    - apply Hedge in Huw. lia. }
  intros Hc. apply Hlt in Hc. lia.
Qed.

Lemma lm_has_cycle_false_alarm_witness :
  (forall t, ~ lm_cycle lm_sample_diamond t) /\
  exists g' tid, LM.HasCycle 15 lm_sample_diamond = Some (g', Some tid).
Proof.
  split; [apply lm_sample_diamond_acyclic|].
  apply (lm_has_cycle_false_alarm lm_sample_diamond 15).
  - apply lm_keys_asc_edges.
  - vm_compute. lia.
  - exists 1, 2, 3, 4. split; [done|].
    split; [apply lm_sample_diamond_edge; rewrite !elem_of_cons; tauto|].
    split; [apply lm_sample_diamond_edge; rewrite !elem_of_cons; tauto|].
    split; apply rtc_once, lm_sample_diamond_edge; rewrite !elem_of_cons; tauto.
Defined.
(** ** The waits-for graph: [AddEdge], [RemoveEdge], [CreateGraph] *)

(** [waits_for_[k]] with [f] applied to the set. *)
Lemma lm_map_find_map_at_fun k k' f g :
  lm_keys_asc g ->
  LM.map_find k' (LM.map_at k f g)
  = if bool_decide (k' = k) then Some (f (default [] (LM.map_find k g)))
    else LM.map_find k' g.
Proof.
  unfold lm_keys_asc. induction g as [|[k0 v] g IH]; intros Hs; simpl.
  - case_bool_decide as Hk.
    + subst. by rewrite Z.eqb_refl.
    + by rewrite (proj2 (Z.eqb_neq _ _) Hk).
  - apply StronglySorted_inv in Hs as [Hs Hall]. simpl in *.
    destruct (k <? k0) eqn:E1.
    + apply Z.ltb_lt in E1. simpl.
      assert (E0 : (k =? k0) = false) by (apply Z.eqb_neq; lia).
      rewrite E0.
      rewrite (lm_map_find_lt k g)
        by (eapply Forall_impl; [exact Hall|simpl; intros; lia]).
      case_bool_decide as Hk.
      * subst. by rewrite Z.eqb_refl.
      * by rewrite (proj2 (Z.eqb_neq _ _) Hk).
    + destruct (k =? k0) eqn:E2; simpl.
      * apply Z.eqb_eq in E2. subst k0.
        case_bool_decide as Hk; [subst; by rewrite Z.eqb_refl|].
        by rewrite (proj2 (Z.eqb_neq _ _) Hk).
      * apply Z.eqb_neq in E2. rewrite IH by done.
        destruct (k' =? k0) eqn:E3; [|done].
        apply Z.eqb_eq in E3. subst k0.
        by rewrite bool_decide_eq_false_2 by congruence.
Qed.

Lemma lm_map_find_erase k k' g :
  LM.map_find k' (LM.map_erase k g)
  = if bool_decide (k' = k) then None else LM.map_find k' g.
Proof.
  unfold LM.map_erase. induction g as [|[k0 v] g IH].
  - by case_bool_decide.
  - destruct (decide (k0 = k)) as [->|Hk0].
    + rewrite filter_cons_False by (simpl; tauto). rewrite IH. simpl.
      case_bool_decide as Hk; [done|].
      by rewrite (proj2 (Z.eqb_neq _ _) Hk).
    + rewrite filter_cons_True by done. simpl. rewrite IH.
      destruct (k' =? k0) eqn:E; [|done].
      apply Z.eqb_eq in E. subst k0. by rewrite bool_decide_eq_false_2.
Qed.

Lemma lm_keys_asc_erase k g : lm_keys_asc g -> lm_keys_asc (LM.map_erase k g).
Proof.
  unfold lm_keys_asc, LM.map_erase. induction g as [|[k0 v] g IH]; intros Hs.
  - done.
  - apply StronglySorted_inv in Hs as [Hs Hall].
    destruct (decide (k0 = k)) as [->|Hk0].
    + rewrite filter_cons_False by (simpl; tauto). by apply IH.
    + rewrite filter_cons_True by done. simpl. constructor; [by apply IH|].
      apply Forall_forall. intros x Hx.
      apply (proj1 (Forall_forall _ _) Hall).
      apply list_elem_of_fmap in Hx as ([k1 w] & -> & Hin).
      apply list_elem_of_filter in Hin as [_ Hin].
      apply list_elem_of_fmap. by exists (k1, w).
Qed.

(** [AddEdge] adds the one edge. *)
Lemma lm_edge_AddEdge g t1 t2 u v :
  lm_keys_asc g ->
  lm_edge (LM.AddEdge g t1 t2) u v <-> (u = t1 /\ v = t2) \/ lm_edge g u v.
Proof.
  intros Hs. unfold lm_edge, LM.AddEdge.
  rewrite lm_map_find_map_at_fun by done.
  case_bool_decide as Hk.
  - subst u. split.
    + intros (s & [= <-] & Hv). apply lm_set_emplace in Hv as [->|Hv]; [by left|].
      right. destruct (LM.map_find t1 g) as [s|]; [by exists s|].
      by apply elem_of_nil in Hv.
    + intros H. eexists. split; [done|]. apply lm_set_emplace.
      destruct H as [[_ ->]|(s & E & Hv)]; [by left|]. right. by rewrite E.
  - split; [by right|]. by intros [[? _]|H].
Qed.

Lemma lm_edge_AddEdge_fold (edges : list (Z * Z)) g u v :
  lm_keys_asc g ->
  lm_keys_asc (foldl (fun g e => LM.AddEdge g e.1 e.2) g edges) /\
  (lm_edge (foldl (fun g e => LM.AddEdge g e.1 e.2) g edges) u v
   <-> lm_edge g u v \/ (u, v) ∈ edges).
Proof.
  revert g. induction edges as [|[a b] edges IH]; intros g Hs; simpl.
  - split; [done|]. rewrite elem_of_nil. tauto.
  - destruct (IH (LM.AddEdge g a b) (lm_keys_asc_AddEdge g a b Hs)) as [Hs' IH'].
    split; [done|]. rewrite IH', elem_of_cons, lm_edge_AddEdge by done.
    split.
    + intros [[[-> ->]|H]|H]; tauto.
    + intros [H|[[= -> ->]|H]]; tauto.
Qed.

(** The pairs [CreateGraph] takes from one queue. *)
Lemma lm_queue_edges q u v :
  (u, v) ∈ LM.queue_edges q <->
  exists i j, i ∈ LM.request_queue_ q /\ j ∈ LM.request_queue_ q /\
    LM.granted_ i = false /\ LM.granted_ j = true /\
    LM.txn_id_ i = u /\ LM.txn_id_ j = v.
Proof.
  unfold LM.queue_edges. rewrite list_elem_of_bind. split.
  - intros (i & Hin & Hi). apply list_elem_of_bind in Hin as (j & Hin & Hj).
    destruct (LM.granted_ i) eqn:Ei, (LM.granted_ j) eqn:Ej; simpl in Hin;
      try by apply elem_of_nil in Hin.
    apply list_elem_of_singleton in Hin as [= -> ->]. by exists i, j.
  - intros (i & j & Hi & Hj & Ei & Ej & <- & <-). exists i. split; [|done].
    apply list_elem_of_bind. exists j. split; [|done].
    rewrite Ei, Ej. simpl. by apply list_elem_of_singleton.
Qed.

Lemma lm_all_queues lm q :
  q ∈ LM.all_queues lm <->
  (exists rid, LM.row_lock_map_ lm !! rid = Some q) \/
  (exists oid, LM.table_lock_map_ lm !! oid = Some q).
Proof.
  unfold LM.all_queues. rewrite elem_of_app, !list_elem_of_fmap. split.
  - intros [([k q'] & -> & H)|([k q'] & -> & H)];
      apply elem_of_map_to_list in H; [left|right]; by exists k.
  - intros [[k H]|[k H]]; [left|right]; exists (k, q);
      (split; [done|by apply elem_of_map_to_list]).
Qed.
Lemma lm_RemoveEdge_spec g t1 t2 s :
  lm_keys_asc g -> LM.map_find t1 g = Some s ->
  exists g',
    LM.RemoveEdge g t1 t2 = Some g' /\
    lm_keys_asc g' /\
    (forall u v, lm_edge g' u v <-> lm_edge g u v /\ ~ (u = t1 /\ v = t2)) /\
    (forall k, k ∈ (fst <$> g') <->
       k ∈ (fst <$> g) /\ (k = t1 -> exists v, v <> t2 /\ lm_edge g t1 v)).
Proof.
  intros Hs E. unfold LM.RemoveEdge. rewrite E. simpl.
  assert (Hf : forall v, v ∈ filter (fun x => x ≠ t2) s <-> v ∈ s /\ v <> t2).
  { intros v. rewrite list_elem_of_filter. tauto. }
  assert (Hk1 : t1 ∈ (fst <$> g)) by (apply lm_map_find_key; by eexists).
  destruct (filter (fun x => x ≠ t2) s) as [|x r] eqn:Es.
  - exists (LM.map_erase t1 g). split; [done|].
    split; [by apply lm_keys_asc_erase|].
    assert (Hno : forall v, lm_edge g t1 v -> v = t2).
    { intros v (s0 & E0 & Hv). rewrite E in E0. injection E0 as <-.
      destruct (decide (v = t2)) as [|Hne]; [done|].
      exfalso. eapply elem_of_nil. apply Hf. by split. }
    split.
    + intros u v. unfold lm_edge at 1. rewrite lm_map_find_erase.
      case_bool_decide as Hu.
      * subst u. split; [by intros (? & ? & _)|].
        intros [He Hn]. exfalso. apply Hn. split; [done|]. by apply Hno.
      * split; [|by intros [? _]]. intros He. split; [done|]. by intros [? _].
    + intros k. rewrite <- !lm_map_find_key, lm_map_find_erase.
      case_bool_decide as Hk.
      * subst k. split; [by intros [? ?]|].
        intros [_ H]. destruct (H eq_refl) as (v & Hne & He).
        by apply Hno in He.
      * split; [|by intros [? _]]. intros H. split; [done|]. by intros ->.
  - exists (LM.map_at t1 (fun _ => x :: r) g). split; [done|].
    split; [by apply lm_keys_asc_map_at|]. split.
    + intros u v. unfold lm_edge at 1.
      rewrite lm_map_find_map_at_fun by done.
      case_bool_decide as Hu.
      * subst u. split.
        -- intros (s0 & [= <-] & Hv). apply Hf in Hv as [Hv Hne].
           split; [by exists s|]. by intros [_ ?].
        -- intros [(s0 & E0 & Hv) Hn]. rewrite E in E0. injection E0 as <-.
           eexists. split; [done|]. apply Hf. split; [done|].
           intros ->. by apply Hn.
      * split; [|by intros [? _]]. intros He. split; [done|]. by intros [? _].
    + intros k. rewrite lm_map_at_keys. split.
      * intros Hk. split; [by destruct Hk as [->|]|].
        intros _. exists x.
        assert (Hx : x ∈ s /\ x <> t2) by (apply Hf; by left).
        destruct Hx. split; [done|]. by exists s.
      * intros [Hk _]. by right.
Qed.

(** X29.  [CreateGraph] adds to the waits-for graph (a [std::map], keys
    ascending) exactly the edges from a request that is not granted to a
    granted request of the same queue, over the queues of all rows and
    tables; the edges that were there stay, and the lock tables are not
    changed. *)
Theorem lm_create_graph_edges (lm : LM.LockManager) :
  lm_keys_asc (LM.waits_for_ lm) ->
  LM.table_lock_map_ (LM.CreateGraph lm) = LM.table_lock_map_ lm /\
  LM.row_lock_map_ (LM.CreateGraph lm) = LM.row_lock_map_ lm /\
  lm_keys_asc (LM.waits_for_ (LM.CreateGraph lm)) /\
  forall u v,
    lm_edge (LM.waits_for_ (LM.CreateGraph lm)) u v <->
    lm_edge (LM.waits_for_ lm) u v \/
    exists q i j,
      ((exists rid, LM.row_lock_map_ lm !! rid = Some q) \/
       (exists oid, LM.table_lock_map_ lm !! oid = Some q)) /\
      i ∈ LM.request_queue_ q /\ j ∈ LM.request_queue_ q /\
      LM.granted_ i = false /\ LM.granted_ j = true /\
      LM.txn_id_ i = u /\ LM.txn_id_ j = v.
Proof.
  intros Hs. split; [done|]. split; [done|].
  unfold LM.CreateGraph, LM.set_waits_for. cbn [LM.waits_for_].
  split; [by apply (lm_edge_AddEdge_fold _ _ 0 0)|].
  intros u v.
  rewrite (proj2 (lm_edge_AddEdge_fold _ _ u v Hs)), list_elem_of_bind.
  split; (intros [H|H]; [by left|right]).
  - destruct H as (q & Hin & Hq). apply lm_queue_edges in Hin.
    apply lm_all_queues in Hq. destruct Hin as (i & j & Hin).
    by exists q, i, j.
  - destruct H as (q & i & j & Hq & Hin). exists q.
    split; [apply lm_queue_edges; by exists i, j|by apply lm_all_queues].
Qed.

(** Table 10 is held by transaction 4 while 2 and 3 wait for it; table 20 is
    held by 2 and 3 while 1 waits for it. *)
Definition lm_sample_locks : LM.LockManager :=
  LM.mkLM
    {[ 10 := LM.mkQueue
               [LM.mkRequest 4 LM.SHARED 10 None true;
                LM.mkRequest 2 LM.EXCLUSIVE 10 None false;
                LM.mkRequest 3 LM.EXCLUSIVE 10 None false] LM.INVALID_TXN_ID;
       20 := LM.mkQueue
               [LM.mkRequest 2 LM.SHARED 20 None true;
                LM.mkRequest 3 LM.SHARED 20 None true;
                LM.mkRequest 1 LM.EXCLUSIVE 20 None false] LM.INVALID_TXN_ID ]}
    ∅ [].

Lemma lm_create_graph_edges_witness :
  LM.table_lock_map_ (LM.CreateGraph lm_sample_locks)
    = LM.table_lock_map_ lm_sample_locks /\
  LM.row_lock_map_ (LM.CreateGraph lm_sample_locks)
    = LM.row_lock_map_ lm_sample_locks /\
  lm_keys_asc (LM.waits_for_ (LM.CreateGraph lm_sample_locks)) /\
  forall u v,
    lm_edge (LM.waits_for_ (LM.CreateGraph lm_sample_locks)) u v <->
    lm_edge (LM.waits_for_ lm_sample_locks) u v \/
    exists q i j,
      ((exists rid, LM.row_lock_map_ lm_sample_locks !! rid = Some q) \/
       (exists oid, LM.table_lock_map_ lm_sample_locks !! oid = Some q)) /\
      i ∈ LM.request_queue_ q /\ j ∈ LM.request_queue_ q /\
      LM.granted_ i = false /\ LM.granted_ j = true /\
      LM.txn_id_ i = u /\ LM.txn_id_ j = v.
Proof.
  apply (lm_create_graph_edges lm_sample_locks). constructor.
Defined.

(** X30.  [RemoveEdge(t1, t2)] on a waits-for graph (a [std::map], keys
    ascending): where [t1] has no entry the call dereferences [end()] and
    gives no result; where it has one, exactly the edge from [t1] to [t2]
    goes, and the entry of [t1] goes with it when no other edge of [t1] is
    left.  After [AddEdge(t1, t2)] the call always has its entry. *)
Theorem lm_remove_edge (g : list (Z * list Z)) (t1 t2 : Z) :
  lm_keys_asc g ->
  (t1 ∉ (fst <$> g) -> LM.RemoveEdge g t1 t2 = None) /\
  (t1 ∈ (fst <$> g) ->
   exists g',
     LM.RemoveEdge g t1 t2 = Some g' /\
     lm_keys_asc g' /\
     (forall u v, lm_edge g' u v <-> lm_edge g u v /\ ~ (u = t1 /\ v = t2)) /\
     (forall k, k ∈ (fst <$> g') <->
        k ∈ (fst <$> g) /\ (k = t1 -> exists v, v <> t2 /\ lm_edge g t1 v))) /\
  (exists g',
     LM.RemoveEdge (LM.AddEdge g t1 t2) t1 t2 = Some g' /\
     forall u v, lm_edge g' u v <-> lm_edge g u v /\ ~ (u = t1 /\ v = t2)).
Proof.
  intros Hs. split; [|split].
  - intros Hk. unfold LM.RemoveEdge.
    destruct (LM.map_find t1 g) as [s|] eqn:E; [|done].
    exfalso. apply Hk, lm_map_find_key. by eexists.
  - intros Hk. apply lm_map_find_key in Hk as [s E].
    by apply (lm_RemoveEdge_spec g t1 t2 s).
  - assert (Hs' := lm_keys_asc_AddEdge g t1 t2 Hs).
    assert (Hk : is_Some (LM.map_find t1 (LM.AddEdge g t1 t2))).
    { apply lm_map_find_key. unfold LM.AddEdge. apply lm_map_at_keys. by left. }
    destruct Hk as [s E].
    destruct (lm_RemoveEdge_spec _ t1 t2 s Hs' E) as (g' & Eg & _ & He & _).
    exists g'. split; [done|]. intros u v. rewrite He, lm_edge_AddEdge by done.
    tauto.
Qed.

(** Transaction 1 waits for 2 and 3. *)
Definition lm_sample_waits : list (Z * list Z) :=
  foldl (fun g e => LM.AddEdge g e.1 e.2) [] [(1, 2); (1, 3)].

Lemma lm_remove_edge_witness :
  (1 ∉ (fst <$> lm_sample_waits) -> LM.RemoveEdge lm_sample_waits 1 2 = None) /\
  (1 ∈ (fst <$> lm_sample_waits) ->
   exists g',
     LM.RemoveEdge lm_sample_waits 1 2 = Some g' /\
     lm_keys_asc g' /\
     (forall u v, lm_edge g' u v <->
        lm_edge lm_sample_waits u v /\ ~ (u = 1 /\ v = 2)) /\
     (forall k, k ∈ (fst <$> g') <->
        k ∈ (fst <$> lm_sample_waits) /\
        (k = 1 -> exists v, v <> 2 /\ lm_edge lm_sample_waits 1 v))) /\
  (exists g',
     LM.RemoveEdge (LM.AddEdge lm_sample_waits 1 2) 1 2 = Some g' /\
     forall u v, lm_edge g' u v <->
       lm_edge lm_sample_waits u v /\ ~ (u = 1 /\ v = 2)).
Proof.
  apply (lm_remove_edge lm_sample_waits 1 2). apply lm_keys_asc_edges.
Defined.
